(** * search-api: the cache store, the retry executor and the category
      aggregators of the search aggregation service, embedded from the
      service's main module.

    Conventions of the embedding.
    - JavaScript numbers are modelled by exact numbers: millisecond clock
      readings, sizes and counters by [Z], scores and weights by [Q].
      [NaN] and the infinities are outside the model.
    - [x || y] on numbers is [Z_or] / [Q_or]: the left operand when it is
      not zero, the right one otherwise; on optional fields an absent field
      also selects the right operand.
    - A JavaScript [Map] is an insertion-ordered association list with
      unique keys ([JsMap]); [Array.prototype.sort] is the stable sort
      ([stable_sort]); [Array.prototype.slice] is [js_slice].
    - [Date.now()] and [Math.random()] are inputs: each call site of
      [Date.now()] has its own reading, and [Math.random()] is an oracle
      indexed by the number of draws made so far.
    - Provider adapters and [fetch] are the environment: their outcomes are
      inputs of the functions that call them. *)

From Stdlib Require Import List ZArith QArith Bool String Ascii Lia Permutation.
From Stdlib Require Import Decimal DecimalNat DecimalString Qminmax.
From Stdlib Require Import Sorting.Sorted.
From Stdlib Require Import Qround Lqa.
Import ListNotations.
Open Scope string_scope.
Open Scope list_scope.
Open Scope Z_scope.

(* ================================================================== *)
(** ** JavaScript helpers *)

(** [x || y] on integers. *)
Definition Z_or (x y : Z) : Z := if x =? 0 then y else x.

(** [x || y] on rationals; zero is the only falsy number of the model. *)
Definition Q_falsy (x : Q) : bool := Qeq_bool x 0.
Definition Q_or (x y : Q) : Q := if Q_falsy x then y else x.

(** [x || y] where [x] is a numeric field that may be absent. *)
Definition optQ_or (x : option Q) (y : Q) : Q :=
  match x with
  | Some q => Q_or q y
  | None => y
  end.

(** Truthiness of an optional string field: [undefined] and the empty
    string are falsy. *)
Definition str_truthy (x : option string) : bool :=
  match x with
  | Some s => negb (String.eqb s EmptyString)
  | None => false
  end.

(** [Array.prototype.slice(start, end)] with its treatment of negative
    indices (counted from the end) and of out-of-range indices (clamped). *)
Definition rel_index (len i : Z) : Z :=
  if i <? 0 then Z.max (len + i) 0 else Z.min i len.

Definition js_slice {A : Type} (start stop : Z) (l : list A) : list A :=
  let len := Z.of_nat (List.length l) in
  let k := rel_index len start in
  let final := rel_index len stop in
  firstn (Z.to_nat (Z.max (final - k) 0)) (skipn (Z.to_nat k) l).

(** [Array.prototype.sort(cmp)]: a stable sort.  [le a b] stands for
    [cmp(a, b) <= 0]: [a] may stay in front of [b]. *)
Section StableSort.
Context {A : Type} (le : A -> A -> bool).

Fixpoint insert_sorted (x : A) (l : list A) : list A :=
  match l with
  | [] => [x]
  | y :: l' => if le x y then x :: l else y :: insert_sorted x l'
  end.

Fixpoint stable_sort (l : list A) : list A :=
  match l with
  | [] => []
  | x :: l' => insert_sorted x (stable_sort l')
  end.

End StableSort.

(** A [Map] with string keys: entries in insertion order, keys unique.
    [set] on a present key replaces the value in place, on a new key appends;
    [delete] removes the entry. *)
Module JsMap.
Section Ops.
Context {V : Type}.

Definition t := list (string * V).

Fixpoint get (k : string) (m : t) : option V :=
  match m with
  | [] => None
  | (k', v) :: m' => if String.eqb k k' then Some v else get k m'
  end.

Fixpoint set (k : string) (v : V) (m : t) : t :=
  match m with
  | [] => [(k, v)]
  | (k', v') :: m' =>
      if String.eqb k k' then (k', v) :: m' else (k', v') :: set k v m'
  end.

Definition delete (k : string) (m : t) : t :=
  filter (fun kv => negb (String.eqb k (fst kv))) m.

Definition size (m : t) : Z := Z.of_nat (List.length m).

Definition keys (m : t) : list string := map fst m.

Definition values (m : t) : list V := map snd m.

(** The keys of a [Map] are unique. *)
Definition wf (m : t) : Prop := NoDup (keys m).

End Ops.
Arguments t : clear implicits.
End JsMap.

(* ================================================================== *)
(** ** Configuration constants *)

Definition RESULTS_PER_PAGE : Z := 100.
Definition TTL_short : Z := 2 * 60 * 1000.
Definition TTL_medium : Z := 10 * 60 * 1000.
Definition TTL_long : Z := 60 * 60 * 1000.
Definition MAX_RETRIES : nat := 5.
Definition MAX_CACHE_SIZE : Z := 10000.

(* ================================================================== *)
(** ** Cache management: [CACHE], [cacheHits], [cacheMisses] *)

Module Cache.
Section Store.
(** The cached payloads (the [d] field) are opaque to the cache. *)
Context {D : Type}.

(** A cache entry [{ d, t, ttl }]. *)
Record Entry := mkEntry { d : D; t : Z; ttl : Z }.

(** The three module-level variables. *)
Record Store := mkStore {
  CACHE : JsMap.t Entry;
  cacheHits : Z;
  cacheMisses : Z
}.

Definition empty : Store := mkStore [] 0 0.

(** [age > (entry.ttl || TTL.medium)] *)
Definition expired (now : Z) (e : Entry) : bool :=
  now - t e >? Z_or (ttl e) TTL_medium.

(** [cacheGet(key)].  [now] is the reading of [Date.now()] that computes
    the age, [now'] the later reading stored into [entry.t].  The result is
    [None] for [null]. *)
Definition cacheGet (now now' : Z) (key : string) (st : Store)
  : option D * Store :=
  match JsMap.get key (CACHE st) with
  | None => (None, mkStore (CACHE st) (cacheHits st) (cacheMisses st + 1))
  | Some entry =>
      if expired now entry then
        (None,
         mkStore (JsMap.delete key (CACHE st)) (cacheHits st) (cacheMisses st + 1))
      else
        (Some (d entry),
         mkStore (JsMap.set key (mkEntry (d entry) now' (ttl entry)) (CACHE st))
           (cacheHits st + 1) (cacheMisses st))
  end.

(** [entries.sort((a, b) => a[1].t - b[1].t)] *)
Definition older (a b : string * Entry) : bool := t (snd a) - t (snd b) <=? 0.

(** [for (i < toRemove) CACHE.delete(entries[i][0])] *)
Definition delete_keys (ks : list string) (m : JsMap.t Entry) : JsMap.t Entry :=
  fold_left (fun acc k => JsMap.delete k acc) ks m.

(** The first loop of the cleanup.  [Math.floor(entries.length * 0.1)] is
    the integer quotient by 10 for every length a [Map] can have. *)
Definition evict_oldest (m : JsMap.t Entry) : JsMap.t Entry :=
  let entries := stable_sort older m in
  let toRemove := Z.to_nat (JsMap.size entries / 10) in
  delete_keys (map fst (firstn toRemove entries)) m.

(** The keys that the first loop deletes. *)
Definition evicted_keys (m : JsMap.t Entry) : list string :=
  map fst (firstn (Z.to_nat (JsMap.size (stable_sort older m) / 10))
             (stable_sort older m)).

(** The second loop: delete every entry that is expired at [now]. *)
Definition sweep (now : Z) (m : JsMap.t Entry) : JsMap.t Entry :=
  filter (fun kv => negb (expired now (snd kv))) m.

(** [cacheSet(key, data, ttl = TTL.medium)].  [now] is the reading used by
    the sweep, [now'] the one stored in the new entry; [ttl0 = None] is the
    omitted argument. *)
Definition cacheSet (now now' : Z) (key : string) (data : D)
    (ttl0 : option Z) (st : Store) : Store :=
  let ttl1 := match ttl0 with Some x => x | None => TTL_medium end in
  let m := if JsMap.size (CACHE st) >=? MAX_CACHE_SIZE
           then sweep now (evict_oldest (CACHE st))
           else CACHE st in
  mkStore (JsMap.set key (mkEntry data now' ttl1) m)
    (cacheHits st) (cacheMisses st).

(** [cacheClear()] *)
Definition cacheClear (st : Store) : Store := empty.

(** The [size] field of [getCacheStats()]. *)
Definition stats_size (st : Store) : Z := JsMap.size (CACHE st).

(** The stores that the cache functions produce, starting from the empty
    store of the module's start. *)
Inductive reachable : Store -> Prop :=
| reach_empty : reachable empty
| reach_get now now' key st :
    reachable st -> reachable (snd (cacheGet now now' key st))
| reach_set now now' key data ttl0 st :
    reachable st -> reachable (cacheSet now now' key data ttl0 st)
| reach_clear st : reachable st -> reachable (cacheClear st).

(** A run of reads of one key: each read is a pair of clock readings (age
    and refresh); the results are listed in order. *)
Fixpoint read_all (reads : list (Z * Z)) (key : string) (st : Store)
  : list (option D) * Store :=
  match reads with
  | [] => ([], st)
  | (now, now') :: reads' =>
      let (r, st1) := cacheGet now now' key st in
      let (rs, st2) := read_all reads' key st1 in
      (r :: rs, st2)
  end.

(** The timestamp left by the last read of a run, [stamp] when there is
    no read. *)
Definition last_stamp (stamp : Z) (reads : list (Z * Z)) : Z :=
  fold_left (fun _ r => snd r) reads stamp.

(** Each read comes no later than [limit] after the refresh of the read
    before it, the first one no later than [limit] after [stamp]. *)
Fixpoint paced (limit stamp : Z) (reads : list (Z * Z)) : Prop :=
  match reads with
  | [] => True
  | (now, now') :: reads' => now - stamp <= limit /\ paced limit now' reads'
  end.

(** A run of insertions, each with its two clock readings, its key, its
    payload and its [ttl] argument. *)
Definition put_all (puts : list (Z * Z * string * D * option Z)) (st : Store)
  : Store :=
  fold_left (fun acc p =>
               match p with
               | (now, now', key, data, ttl0) => cacheSet now now' key data ttl0 acc
               end) puts st.

End Store.
Arguments Entry : clear implicits.
Arguments Store : clear implicits.
End Cache.

(* ================================================================== *)
(** ** Thrown values and template literals *)

(** An [Error] object: its [name] and its [message]. *)
Record JsError := mkError { err_name : string; err_message : string }.

(** What a [throw] or a rejected promise carries: an [Error], or
    [undefined] (reading [.message] of the latter raises a [TypeError]). *)
Inductive Thrown :=
| ThrowUndefined
| ThrowError (e : JsError).

(** Numbers inside template literals. *)
Definition show_Z (z : Z) : string := NilZero.string_of_int (Z.to_int z).
Definition show_nat (n : nat) : string := NilZero.string_of_uint (Nat.to_uint n).

(* ================================================================== *)
(** ** [fetchWithRetry] *)

Module Http.

(** A response as [fetchWithRetry] reads it: the status line, the
    [retry-after] header (the value [parseInt] gives for a present,
    non-empty header) and what reading the body ([response.json()] or
    [response.text()], chosen by the content type) produces. *)
Record Response := mkResponse {
  status : Z;
  statusText : string;
  retryAfter : option Z;
  body : JsError + string
}.

(** [response.ok] *)
Definition ok (r : Response) : bool := (200 <=? status r) && (status r <? 300).

(** One call of [fetch(url, finalOptions)]: it throws (transport error,
    abort by the overall timer) or resolves to a response. *)
Inductive FetchOutcome :=
| FetchThrows (e : JsError)
| FetchResolves (r : Response).

(** The observable steps of one run. *)
Inductive Event :=
| EvFetch (attempt : nat)
| EvDelay (ms : Z).

Inductive Outcome :=
| Returned (v : string)
| Threw (x : Thrown).

Definition http_error (r : Response) : JsError :=
  mkError "Error" ("HTTP " ++ show_Z (status r) ++ ": " ++ statusText r).

Definition failed_after (maxRetries : nat) (e : JsError) : JsError :=
  mkError "Error"
    ("Failed after " ++ show_nat maxRetries ++ " attempts: " ++ err_message e).

(** What the body of the [try] block does with the outcome of [fetch]:
    return, [continue] after a delay, or throw into the [catch] block. *)
Inductive TryResult :=
| TryReturn (v : string)
| TryContinue (waitTime : Z)
| TryThrow (e : JsError).

Definition try_block (attempt : nat) (o : FetchOutcome) : TryResult :=
  match o with
  | FetchThrows e => TryThrow e
  | FetchResolves r =>
      if ok r then
        match body r with
        | inr v => TryReturn v
        | inl e => TryThrow e
        end
      else if (status r =? 429) || (status r >=? 500) then
        TryContinue (match retryAfter r with
                     | Some n => n * 1000
                     | None => 1000 * (Z.of_nat attempt + 1)
                     end)
      else TryThrow (http_error r)
  end.

(** The [for] loop, from iteration [attempt] with [remaining] iterations
    left ([remaining = maxRetries - attempt]); [lastError] is the variable
    of that name.  [fetch attempt] is the outcome of the call made in
    iteration [attempt]. *)
Fixpoint retry_loop (fetch : nat -> FetchOutcome) (maxRetries : nat)
    (remaining attempt : nat) (lastError : Thrown) : list Event * Outcome :=
  match remaining with
  | O => ([], Threw lastError)
  | S remaining' =>
      match try_block attempt (fetch attempt) with
      | TryReturn v => ([EvFetch attempt], Returned v)
      | TryContinue waitTime =>
          let (log, res) :=
            retry_loop fetch maxRetries remaining' (S attempt) lastError in
          (EvFetch attempt :: EvDelay waitTime :: log, res)
      | TryThrow e =>
          if Nat.eqb attempt (maxRetries - 1) then
            ([EvFetch attempt], Threw (ThrowError (failed_after maxRetries e)))
          else
            let (log, res) :=
              retry_loop fetch maxRetries remaining' (S attempt) (ThrowError e) in
            (EvFetch attempt :: EvDelay (1000 * 2 ^ Z.of_nat attempt) :: log, res)
      end
  end.

Definition fetchWithRetry (fetch : nat -> FetchOutcome) (maxRetries : nat)
  : list Event * Outcome :=
  retry_loop fetch maxRetries maxRetries 0 ThrowUndefined.

(** The conditions of the retry policy, read off a [fetch] outcome: a
    response with status 429 or 5xx is retryable; a response with another
    status outside 2xx, and a 2xx response whose body cannot be read
    (malformed response, parse failure), are not. *)
Definition retryable_status (o : FetchOutcome) : bool :=
  match o with
  | FetchResolves r => negb (ok r) && ((status r =? 429) || (status r >=? 500))
  | FetchThrows _ => false
  end.

Definition non_retryable (o : FetchOutcome) : bool :=
  match o with
  | FetchResolves r =>
      if ok r then match body r with inl _ => true | inr _ => false end
      else negb ((status r =? 429) || (status r >=? 500))
  | FetchThrows _ => false
  end.

(** The error a non-retryable outcome raises inside the [try] block. *)
Definition error_of (o : FetchOutcome) : JsError :=
  match o with
  | FetchResolves r =>
      if ok r then match body r with inl e => e | inr _ => http_error r end
      else http_error r
  | FetchThrows e => e
  end.

(** The delay after a retryable response in iteration [attempt]. *)
Definition wait_of (attempt : nat) (o : FetchOutcome) : Z :=
  match o with
  | FetchResolves r =>
      match retryAfter r with
      | Some n => n * 1000
      | None => 1000 * (Z.of_nat attempt + 1)
      end
  | FetchThrows _ => 0
  end.

(** Number of calls of [fetch] and the delays of a run. *)
Definition fetch_count (log : list Event) : nat :=
  List.length (filter (fun ev => match ev with EvFetch _ => true | _ => false end) log).

Definition delays (log : list Event) : list Z :=
  flat_map (fun ev => match ev with EvDelay ms => [ms] | _ => [] end) log.

End Http.

(* ================================================================== *)
(** ** Provider calls *)

(** What the promise of a provider call settles to: fulfilled with a list
    of items ([None] for a falsy value, which [x || []] replaces by the empty
    list), or rejected. *)
Inductive Settled (A : Type) :=
| Fulfilled (v : option (list A))
| Rejected (x : Thrown).
Arguments Fulfilled {A} v.
Arguments Rejected {A} x.

(** [results || []] *)
Definition or_empty {A : Type} (v : option (list A)) : list A :=
  match v with
  | Some l => l
  | None => []
  end.

(** The [TypeError] of reading [error.message] when [error] is [undefined]. *)
Definition message_of_undefined : JsError :=
  mkError "TypeError" "Cannot read properties of undefined (reading 'message')".

(** A provider function that awaits [fetchHTML(url)] (or [fetchJSON(url)])
    outside any [try] block, as [searchViaStartpage],
    [searchPixabayImagesHTML], [searchBingImages], [searchYouTubeVideos] and
    [searchBingNews] do: [fetchWithRetry] runs with the default number of
    attempts, what it throws is what the promise of the provider rejects
    with, and [extract] is the rest of the function on the page it returns. *)
Definition await_fetchHTML {A : Type} (extract : string -> Settled A)
    (fetch : nat -> Http.FetchOutcome) : Settled A :=
  match snd (Http.fetchWithRetry fetch MAX_RETRIES) with
  | Http.Returned html => extract html
  | Http.Threw x => Rejected x
  end.

(** [Promise.all]: the list of values, or a rejection when a promise of the
    list rejects. *)
Fixpoint promise_all {A : Type} (l : list (Thrown + A)) : Thrown + list A :=
  match l with
  | [] => inr []
  | inl x :: _ => inl x
  | inr a :: l' =>
      match promise_all l' with
      | inl x => inl x
      | inr vs => inr (a :: vs)
      end
  end.

(** [x > y] on numbers. *)
Definition Qgtb (x y : Q) : bool := negb (Qle_bool x y).

(** Lower-casing of the ASCII letters, enough for [getSafeSearchParam]:
    no other character lower-cases to a letter of the words it looks for. *)
Definition lower_ascii (c : ascii) : ascii :=
  let n := nat_of_ascii c in
  if (65 <=? n)%nat && (n <=? 90)%nat then ascii_of_nat (n + 32) else c.

Fixpoint toLowerCase (s : string) : string :=
  match s with
  | EmptyString => EmptyString
  | String c s' => String (lower_ascii c) (toLowerCase s')
  end.

Definition str_in (s : string) (l : list string) : bool :=
  existsb (String.eqb s) l.

(** [getSafeSearchParam(safeSearch)]; [None] is [undefined] or [null],
    [Some s] a value whose [toString()] is [s]. *)
Definition getSafeSearchParam (safeSearch : option string) : string :=
  match safeSearch with
  | None => "moderate"
  | Some s =>
      let normalized := toLowerCase s in
      if str_in normalized ["off"; "false"; "0"; "no"; "disable"; "disabled"]
      then "off"
      else if str_in normalized ["strict"; "high"; "max"; "2"; "strong"]
      then "strict"
      else "moderate"
  end%string.

(* ================================================================== *)
(** ** Web search: the aggregation of [webSearch] *)

Module Web.

(** A web result: the fields the providers fill in and the ones the
    aggregation adds.  Absent fields are [None]. *)
Record Result := mkResult {
  title : string;
  url : option string;
  snippet : string;
  displayUrl : string;
  score : option Q;
  source : option string;
  safeSearch : option string;
  weightScore : option Q
}.

(** An entry of [searchMethods]; its [func] is the environment. *)
Record Method := mkMethod { name : string; weight : Q }.

Definition searchMethods : list Method :=
  [ mkMethod "DuckDuckGo" 3; mkMethod "Brave" 3; mkMethod "Startpage" 2;
    mkMethod "Qwant" 2; mkMethod "SearXNG" 2; mkMethod "Mojeek" 1;
    mkMethod "GoogleFallback" 3 ].

(** The provider calls of one run: [primary n] is what [method.func()]
    settles to for the method named [n], [additional n p] what the
    supplementary call for [n] and [additionalPage = p] settles to. *)
Record Env := mkEnv {
  primary : string -> Settled Result;
  additional : string -> Z -> Settled Result
}.

(** The object a provider promise resolves to after [.then]/[.catch]. *)
Record ProviderResult := mkProviderResult {
  p_name : string;
  p_results : list Result;
  p_error : option string;
  p_weight : Q
}.

(** [method.func().then(...).catch(...)] *)
Definition settle_primary (m : Method) (o : Settled Result)
  : Thrown + ProviderResult :=
  match o with
  | Fulfilled v => inr (mkProviderResult (name m) (or_empty v) None (weight m))
  | Rejected (ThrowError e) =>
      inr (mkProviderResult (name m) [] (Some (err_message e)) (weight m))
  | Rejected ThrowUndefined => inl (ThrowError message_of_undefined)
  end.

(** [await Promise.all(providerPromises)] *)
Definition providerResults (env : Env) : Thrown + list ProviderResult :=
  promise_all (map (fun m => settle_primary m (primary env (name m))) searchMethods).

(** An entry of [errors]. *)
Record ErrorEntry := mkErrorEntry { provider : string; error : string }.

(** The object built for each result of a provider that succeeded. *)
Definition enrich (safeSearchLevel : string) (p : ProviderResult) (r : Result)
  : Result :=
  mkResult (title r) (url r) (snippet r) (displayUrl r) (score r)
    (Some (p_name p)) (Some safeSearchLevel)
    (Some (Q_or (p_weight p) 1 * optQ_or (score r) 1)%Q).

(** The loop over [providerResults], from the current [allResults] and
    [errors]. *)
Fixpoint gather (safeSearchLevel : string) (ps : list ProviderResult)
    (allResults : list Result) (errors : list ErrorEntry)
  : list Result * list ErrorEntry :=
  match ps with
  | [] => (allResults, errors)
  | p :: ps' =>
      if str_truthy (p_error p) then
        gather safeSearchLevel ps' allResults
          (errors ++ [mkErrorEntry (p_name p) (match p_error p with
                                               | Some e => e
                                               | None => ""
                                               end)])
      else if (0 <? Z.of_nat (List.length (p_results p))) then
        gather safeSearchLevel ps'
          (allResults ++ map (enrich safeSearchLevel p) (p_results p)) errors
      else gather safeSearchLevel ps' allResults errors
  end.

(** What one provider adds to [allResults] and to [errors] in that loop. *)
Definition contribution (safeSearchLevel : string) (p : ProviderResult)
  : list Result :=
  if str_truthy (p_error p) then []
  else map (enrich safeSearchLevel p) (p_results p).

Definition failure (p : ProviderResult) : list ErrorEntry :=
  if str_truthy (p_error p)
  then [mkErrorEntry (p_name p) (match p_error p with
                                 | Some e => e
                                 | None => ""
                                 end)]
  else [].

Definition bestProviders : list string := ["DuckDuckGo"; "Brave"; "GoogleFallback"].

(** The supplementary calls pushed on [additionalPromises]: the outer loop
    stops when [allResults] already has twice the page size, the inner one
    asks for the pages 2 and 3 of a provider found in [searchMethods]. *)
Fixpoint additional_calls (names : list string) (len : Z) : list (string * Z) :=
  match names with
  | [] => []
  | providerName :: names' =>
      if len >=? RESULTS_PER_PAGE * 2 then []
      else
        match find (fun m => String.eqb (name m) providerName) searchMethods with
        | Some _ => [(providerName, 2); (providerName, 3)]
        | None => []
        end ++ additional_calls names' len
  end.

(** [provider.func(...).then(...).catch(...)] of a supplementary call. *)
Definition settle_additional (o : Settled Result) : list Result :=
  match o with
  | Fulfilled v => or_empty v
  | Rejected _ => []
  end.

(** The object built for each supplementary result. *)
Definition tag_additional (safeSearchLevel providerName : string) (pg : Z)
    (r : Result) : Result :=
  mkResult (title r) (url r) (snippet r) (displayUrl r) (score r)
    (Some (providerName ++ " (page " ++ show_Z pg ++ ")")%string)
    (Some safeSearchLevel) (weightScore r).

(** The loop over [additionalResults]. *)
Fixpoint append_additional (env : Env) (safeSearchLevel : string)
    (calls : list (string * Z)) (allResults : list Result) : list Result :=
  match calls with
  | [] => allResults
  | (providerName, pg) :: calls' =>
      let results := settle_additional (additional env providerName pg) in
      append_additional env safeSearchLevel calls'
        (if 0 <? Z.of_nat (List.length results)
         then allResults ++ map (tag_additional safeSearchLevel providerName pg) results
         else allResults)
  end.

(** The block run when fewer than [RESULTS_PER_PAGE] results were gathered. *)
Definition backfill (env : Env) (safeSearchLevel : string)
    (allResults : list Result) : list Result :=
  if Z.of_nat (List.length allResults) <? RESULTS_PER_PAGE then
    append_additional env safeSearchLevel
      (additional_calls bestProviders (Z.of_nat (List.length allResults)))
      allResults
  else allResults.

(** [result.weightScore || 0] *)
Definition ws (r : Result) : Q := optQ_or (weightScore r) 0.

(** One iteration of the deduplication loop on [seenUrls]. *)
Definition dedup_step (seenUrls : JsMap.t Result) (result : Result)
  : JsMap.t Result :=
  match url result with
  | Some u =>
      if String.eqb u "" then seenUrls
      else
        match JsMap.get u seenUrls with
        | None => JsMap.set u result seenUrls
        | Some existing =>
            if Qgtb (ws result) (ws existing)
            then JsMap.set u result seenUrls
            else seenUrls
        end
  | None => seenUrls
  end.

Definition dedup (allResults : list Result) : JsMap.t Result :=
  fold_left dedup_step allResults [].

(** [(a, b) => (b.weightScore || 0) - (a.weightScore || 0)] is at most 0. *)
Definition by_weightScore (a b : Result) : bool := Qle_bool (ws b - ws a) 0.

(** [uniqueResults] after the sort. *)
Definition uniqueResults (allResults : list Result) : list Result :=
  stable_sort by_weightScore (JsMap.values (dedup allResults)).

(** [uniqueResults.slice(start, end)] *)
Definition paginate (pg : Z) (l : list Result) : list Result :=
  let start := (pg - 1) * RESULTS_PER_PAGE in
  let stop := start + RESULTS_PER_PAGE in
  js_slice start stop l.

(** [allResults] when the deduplication starts. *)
Definition allResults (env : Env) (safeSearchLevel : string)
    (ps : list ProviderResult) : list Result :=
  backfill env safeSearchLevel (fst (gather safeSearchLevel ps [] [])).

(** The [errors] array after the loop over the providers. *)
Definition errors (safeSearchLevel : string) (ps : list ProviderResult)
  : list ErrorEntry :=
  snd (gather safeSearchLevel ps [] []).

(** The part of [webSearch] between the cache miss and [cacheSet]: the
    value of [pagedResults], or what the function throws. *)
Definition aggregate (env : Env) (pg : Z) (safeSearchLevel : string)
  : Thrown + list Result :=
  match providerResults env with
  | inl x => inl x
  | inr ps => inr (paginate pg (uniqueResults (allResults env safeSearchLevel ps)))
  end.

End Web.

(* ================================================================== *)
(** ** Image, video and news search: the aggregations of [imageSearch],
       [videoSearch] and [newsSearch] *)

(** A registered provider of these three searches; its [func] is the
    environment. *)
Record Provider := mkProvider { pname : string; pweight : Q }.

(** The object a provider promise resolves to after [.then]/[.catch];
    [found] is the [images], [videos] or [articles] field. *)
Record Settlement (A : Type) := mkSettlement {
  s_name : string;
  found : list A;
  s_error : option string;
  s_weight : Q
}.
Arguments mkSettlement {A}.
Arguments s_name {A}.
Arguments found {A}.
Arguments s_error {A}.
Arguments s_weight {A}.

(** [provider.func().then(...).catch(...)] *)
Definition settle {A : Type} (p : Provider) (o : Settled A)
  : Thrown + Settlement A :=
  match o with
  | Fulfilled v => inr (mkSettlement (pname p) (or_empty v) None (pweight p))
  | Rejected (ThrowError e) =>
      inr (mkSettlement (pname p) [] (Some (err_message e)) (pweight p))
  | Rejected ThrowUndefined => inl (ThrowError message_of_undefined)
  end.

Definition settle_all {A : Type} (providers : list Provider)
    (primary : string -> Settled A) : Thrown + list (Settlement A) :=
  promise_all (map (fun p => settle p (primary (pname p))) providers).

(** [provider.weight * (Math.random() * 0.5 + 0.5)], with the value drawn. *)
Definition jitter (w r : Q) : Q := (w * (r * (1 # 2) + (1 # 2)))%Q.

(** [list.map(x => ({...x, provider, weight, score}))]: one draw of
    [Math.random()] per item, in order; [random n] is the value of draw
    number [n] of the run. *)
Fixpoint weigh {A : Type} (stamp : string -> Q -> Q -> A -> A)
    (random : nat -> Q) (draws : nat) (nm : string) (w : Q) (l : list A)
  : list A :=
  match l with
  | [] => []
  | x :: l' =>
      stamp nm w (jitter w (random draws)) x
      :: weigh stamp random (S draws) nm w l'
  end.

(** The loop over [providerResults]: failed providers and empty ones are
    skipped, the items of the others are weighted and appended.  [draws]
    counts the calls of [Math.random()] made so far. *)
Fixpoint gather_weighted {A : Type} (stamp : string -> Q -> Q -> A -> A)
    (random : nat -> Q) (ps : list (Settlement A)) (all : list A) (draws : nat)
  : list A :=
  match ps with
  | [] => all
  | p :: ps' =>
      if str_truthy (s_error p) then gather_weighted stamp random ps' all draws
      else if 0 <? Z.of_nat (List.length (found p)) then
        gather_weighted stamp random ps'
          (all ++ weigh stamp random draws (s_name p) (s_weight p) (found p))
          (draws + List.length (found p))
      else gather_weighted stamp random ps' all draws
  end.

(** The sequential loop over [additionalSearches]: it stops at 150 items;
    a call that throws is logged with [error.message] and skipped. *)
Fixpoint gather_additional {A : Type} (tag : string -> A -> A)
    (additional : string -> Settled A) (searches : list string) (all : list A)
  : Thrown + list A :=
  match searches with
  | [] => inr all
  | nm :: searches' =>
      if Z.of_nat (List.length all) >=? 150 then inr all
      else
        match additional nm with
        | Fulfilled v =>
            gather_additional tag additional searches'
              (if 0 <? Z.of_nat (List.length (or_empty v))
               then all ++ map (tag nm) (or_empty v)
               else all)
        | Rejected (ThrowError _) =>
            gather_additional tag additional searches' all
        | Rejected ThrowUndefined => inl (ThrowError message_of_undefined)
        end
  end.

(** The block run when fewer than 100 items were gathered. *)
Definition fetch_more {A : Type} (tag : string -> A -> A)
    (additional : string -> Settled A) (searches : list string) (all : list A)
  : Thrown + list A :=
  if Z.of_nat (List.length all) <? 100
  then gather_additional tag additional searches all
  else inr all.

(** The deduplication loop of [imageSearch] and [newsSearch], on the field
    [key] ([image], [url]): an item whose key is falsy or already in the set
    [seenUrls] is skipped, any other is kept and its key added to the set. *)
Fixpoint dedup_first {A : Type} (key : A -> option string)
    (seenUrls : list string) (all : list A) : list A :=
  match all with
  | [] => []
  | x :: rest =>
      match key x with
      | Some u =>
          if String.eqb u "" || str_in u seenUrls
          then dedup_first key seenUrls rest
          else x :: dedup_first key (u :: seenUrls) rest
      | None => dedup_first key seenUrls rest
      end
  end.

(** [(a.weight || 1) * (a.score || 1)] *)
Definition rank_of (w sc : option Q) : Q := (optQ_or w 1 * optQ_or sc 1)%Q.

Module Images.

Record Image := mkImage {
  title : string;
  image : option string;
  thumbnail : option string;
  source : option string;
  provider : option string;
  weight : option Q;
  score : option Q
}.

Definition imageProviders : list Provider :=
  [ mkProvider "Unsplash" 3; mkProvider "Pexels" 3; mkProvider "Pixabay" 2;
    mkProvider "Wikimedia" 2; mkProvider "Flickr" 2; mkProvider "Openverse" 1;
    mkProvider "Bing" 3; mkProvider "GoogleImages" 3 ].

Definition additionalSearches : list string :=
  ["Unsplash"; "Pexels"; "Bing"; "GoogleImages"].

Record Env := mkEnv {
  primary : string -> Settled Image;
  additional : string -> Settled Image
}.

(** [{...img, provider: provider.name, weight: provider.weight, score}] *)
Definition stamp (nm : string) (w sc : Q) (img : Image) : Image :=
  mkImage (title img) (image img) (thumbnail img) (source img)
    (Some nm) (Some w) (Some sc).

(** [{...img, provider: `${search.name} (additional)`}] *)
Definition tag (nm : string) (img : Image) : Image :=
  mkImage (title img) (image img) (thumbnail img) (source img)
    (Some (nm ++ " (additional)")%string) (weight img) (score img).

(** [if (!image.image || seenUrls.has(image.image)) continue; ...] *)
Definition dedup (seenUrls : list string) (allImages : list Image) : list Image :=
  dedup_first image seenUrls allImages.

Definition by_rank (a b : Image) : bool :=
  Qle_bool (rank_of (weight b) (score b) - rank_of (weight a) (score a)) 0.

(** From [allImages] to [results]. *)
Definition merge (allImages : list Image) : list Image :=
  js_slice 0 150 (stable_sort by_rank (dedup [] allImages)).

(** The part of [imageSearch] between the cache miss and [cacheSet]. *)
Definition aggregate (env : Env) (random : nat -> Q) : Thrown + list Image :=
  match settle_all imageProviders (primary env) with
  | inl x => inl x
  | inr ps =>
      match fetch_more tag (additional env) additionalSearches
              (gather_weighted stamp random ps [] 0) with
      | inl x => inl x
      | inr allImages => inr (merge allImages)
      end
  end.

End Images.

Module Videos.

Record Video := mkVideo {
  title : string;
  url : option string;
  thumbnail : option string;
  videoId : option string;
  provider : option string;
  weight : option Q;
  score : option Q
}.

Definition videoProviders : list Provider :=
  [ mkProvider "YouTube" 3; mkProvider "YouTubeMusic" 2; mkProvider "Vimeo" 2;
    mkProvider "PeerTube" 1; mkProvider "Dailymotion" 2; mkProvider "Bilibili" 1;
    mkProvider "Internet Archive" 1 ].

Definition additionalSearches : list string :=
  ["YouTubeRelated"; "YouTubeTrending"; "VimeoStaffPicks"].

Record Env := mkEnv {
  primary : string -> Settled Video;
  additional : string -> Settled Video
}.

Definition stamp (nm : string) (w sc : Q) (v : Video) : Video :=
  mkVideo (title v) (url v) (thumbnail v) (videoId v) (Some nm) (Some w) (Some sc).

(** [{...video, provider: search.name}] *)
Definition tag (nm : string) (v : Video) : Video :=
  mkVideo (title v) (url v) (thumbnail v) (videoId v) (Some nm) (weight v) (score v).

(** Membership in a [Set] that may hold [undefined]. *)
Definition has (x : option string) (seen : list (option string)) : bool :=
  existsb (fun y => match x, y with
                    | Some a, Some b => String.eqb a b
                    | None, None => true
                    | _, _ => false
                    end) seen.

(** [video.videoId || video.url] *)
Definition id_of (v : Video) : option string :=
  if str_truthy (videoId v) then videoId v else url v.

(** The deduplication loop on [seenIds] and [seenUrls]. *)
Fixpoint dedup (seenIds seenUrls : list (option string)) (allVideos : list Video)
  : list Video :=
  match allVideos with
  | [] => []
  | v :: rest =>
      let id := id_of v in
      if negb (str_truthy id) then dedup seenIds seenUrls rest
      else if has id seenIds || has (url v) seenUrls then dedup seenIds seenUrls rest
      else v :: dedup (id :: seenIds) (url v :: seenUrls) rest
  end.

Definition by_rank (a b : Video) : bool :=
  Qle_bool (rank_of (weight b) (score b) - rank_of (weight a) (score a)) 0.

Definition merge (allVideos : list Video) : list Video :=
  js_slice 0 150 (stable_sort by_rank (dedup [] [] allVideos)).

(** The part of [videoSearch] between the cache miss and [cacheSet]. *)
Definition aggregate (env : Env) (random : nat -> Q) : Thrown + list Video :=
  match settle_all videoProviders (primary env) with
  | inl x => inl x
  | inr ps =>
      match fetch_more tag (additional env) additionalSearches
              (gather_weighted stamp random ps [] 0) with
      | inl x => inl x
      | inr allVideos => inr (merge allVideos)
      end
  end.

End Videos.

(** [s.includes(sub)] *)
Fixpoint includes (s sub : string) : bool :=
  prefix sub s ||
  match s with
  | EmptyString => false
  | String _ s' => includes s' sub
  end.

Module News.

Record Article := mkArticle {
  title : string;
  url : option string;
  source : option string;
  provider : option string;
  weight : option Q;
  score : option Q
}.

Definition newsProviders : list Provider :=
  [ mkProvider "NewsAPI" 3; mkProvider "Bing News" 2;
    mkProvider "Google News RSS" 2; mkProvider "Reddit News" 1 ].

Definition stamp (nm : string) (w sc : Q) (a : Article) : Article :=
  mkArticle (title a) (url a) (source a) (Some nm) (Some w) (Some sc).

Definition blockedDomains : list string :=
  [ "4chan.org"; "8kun.top"; "bitchute.com"; "gab.com"; "parler.com";
    "truthsocial.com"; "rumble.com"; "breitbart.com"; "infowars.com" ].

(** The callback of [allArticles.filter] under strict safe search.
    [extractDomain] is the helper of that name on strings; on an absent
    [url] it returns [undefined], and [domain.includes] then raises a
    [TypeError]. *)
Definition allowed (extractDomain : string -> string) (a : Article)
  : Thrown + bool :=
  match url a with
  | Some u =>
      let domain := extractDomain u in
      inr (negb (existsb (fun blocked => includes domain blocked) blockedDomains))
  | None =>
      inl (ThrowError
             (mkError "TypeError"
                "Cannot read properties of undefined (reading 'includes')"))
  end.

Fixpoint filter_allowed (extractDomain : string -> string) (l : list Article)
  : Thrown + list Article :=
  match l with
  | [] => inr []
  | a :: l' =>
      match allowed extractDomain a with
      | inl x => inl x
      | inr keep =>
          match filter_allowed extractDomain l' with
          | inl x => inl x
          | inr kept => inr (if keep then a :: kept else kept)
          end
      end
  end.

(** [if (!article.url || seenUrls.has(article.url)) continue; ...] *)
Definition dedup (seenUrls : list string) (allArticles : list Article)
  : list Article :=
  dedup_first url seenUrls allArticles.

Definition by_rank (a b : Article) : bool :=
  Qle_bool (rank_of (weight b) (score b) - rank_of (weight a) (score a)) 0.

Definition merge (allArticles : list Article) : list Article :=
  js_slice 0 50 (stable_sort by_rank (dedup [] allArticles)).

(** The part of [newsSearch] between the cache miss and [cacheSet]. *)
Definition aggregate (extractDomain : string -> string)
    (primary : string -> Settled Article) (random : nat -> Q)
    (safeSearchLevel : string) : Thrown + list Article :=
  match settle_all newsProviders primary with
  | inl x => inl x
  | inr ps =>
      let allArticles := gather_weighted stamp random ps [] 0 in
      match (if String.eqb safeSearchLevel "strict"
             then filter_allowed extractDomain allArticles
             else inr allArticles) with
      | inl x => inl x
      | inr allArticles' => inr (merge allArticles')
      end
  end.

End News.

(* ================================================================== *)
(** ** The category searches with the cache in front *)

(** What the cache holds: the result list of a category search, or the
    object of another cached function ([weatherSearch], [githubSearch]). *)
Inductive Payload :=
| WebResults (l : list Web.Result)
| ImageResults (l : list Images.Image)
| VideoResults (l : list Videos.Video)
| NewsResults (l : list News.Article)
| OtherData (v : string).

(** The readings of [Date.now()] made by one search: two in [cacheGet]
    (age and refresh), two in [cacheSet] (sweep and new entry). *)
Record Clock := mkClock {
  at_get : Z;
  at_refresh : Z;
  at_sweep : Z;
  at_put : Z
}.

(** The common frame of the four searches: return the cached value when
    [cacheGet] gives one, otherwise compute, store and return.  The run is
    taken on its own: no other request touches the cache between its
    [cacheGet] and its [cacheSet]. *)
Definition cached_or (clk : Clock) (cacheKey : string)
    (compute : Thrown + Payload) (st : Cache.Store Payload)
  : (Thrown + Payload) * Cache.Store Payload :=
  match Cache.cacheGet (at_get clk) (at_refresh clk) cacheKey st with
  | (Some cached, st1) => (inr cached, st1)
  | (None, st1) =>
      match compute with
      | inl x => (inl x, st1)
      | inr results =>
          (inr results,
           Cache.cacheSet (at_sweep clk) (at_put clk) cacheKey results None st1)
      end
  end.

Definition lift {A : Type} (wrap : list A -> Payload) (r : Thrown + list A)
  : Thrown + Payload :=
  match r with
  | inl x => inl x
  | inr l => inr (wrap l)
  end.

(** The cache keys of the four searches. *)
Definition web_key (query : string) (pg : Z) (safeSearchLevel : string) : string :=
  ("web:" ++ query ++ ":" ++ show_Z pg ++ ":" ++ safeSearchLevel)%string.

Definition img_key (query safeSearchLevel : string) : string :=
  ("img:" ++ query ++ ":" ++ safeSearchLevel)%string.

Definition vid_key (query safeSearchLevel : string) : string :=
  ("vid:" ++ query ++ ":" ++ safeSearchLevel)%string.

Definition news_key (query safeSearchLevel : string) : string :=
  ("news:" ++ query ++ ":" ++ safeSearchLevel)%string.

(** [webSearch(query, page = 1, safeSearch = 'moderate')] *)
Definition webSearch (env : Web.Env) (clk : Clock) (query : string) (pg : Z)
    (safeSearch : option string) (st : Cache.Store Payload)
  : (Thrown + Payload) * Cache.Store Payload :=
  let safeSearchLevel := getSafeSearchParam safeSearch in
  let cacheKey := web_key query pg safeSearchLevel in
  cached_or clk cacheKey
    (lift WebResults (Web.aggregate env pg safeSearchLevel)) st.

(** [imageSearch(query, safeSearch = 'moderate')] *)
Definition imageSearch (env : Images.Env) (random : nat -> Q) (clk : Clock)
    (query : string) (safeSearch : option string) (st : Cache.Store Payload)
  : (Thrown + Payload) * Cache.Store Payload :=
  let safeSearchLevel := getSafeSearchParam safeSearch in
  let cacheKey := img_key query safeSearchLevel in
  cached_or clk cacheKey (lift ImageResults (Images.aggregate env random)) st.

(** [videoSearch(query, safeSearch = 'moderate')] *)
Definition videoSearch (env : Videos.Env) (random : nat -> Q) (clk : Clock)
    (query : string) (safeSearch : option string) (st : Cache.Store Payload)
  : (Thrown + Payload) * Cache.Store Payload :=
  let safeSearchLevel := getSafeSearchParam safeSearch in
  let cacheKey := vid_key query safeSearchLevel in
  cached_or clk cacheKey (lift VideoResults (Videos.aggregate env random)) st.

(** [newsSearch(query, safeSearch = 'moderate')] *)
Definition newsSearch (extractDomain : string -> string)
    (primary : string -> Settled News.Article) (random : nat -> Q)
    (clk : Clock) (query : string) (safeSearch : option string)
    (st : Cache.Store Payload)
  : (Thrown + Payload) * Cache.Store Payload :=
  let safeSearchLevel := getSafeSearchParam safeSearch in
  let cacheKey := news_key query safeSearchLevel in
  cached_or clk cacheKey
    (lift NewsResults
       (News.aggregate extractDomain primary random safeSearchLevel)) st.

(** What [seenUrls] holds once the results [seen] have gone through the
    loop: unique keys, each mapped to a processed result of that [url], and
    for every processed result with a [url] an entry that scores no less. *)
Record dedup_inv (seenUrls : JsMap.t Web.Result) (seen : list Web.Result)
  : Prop := mk_dedup_inv {
  inv_wf : JsMap.wf seenUrls;
  inv_sound : forall u r, In (u, r) seenUrls ->
                Web.url r = Some u /\ u <> "" /\ In r seen;
  inv_best : forall r u, In r seen -> Web.url r = Some u -> u <> "" ->
               exists r', JsMap.get u seenUrls = Some r'
                          /\ (Web.ws r <= Web.ws r')%Q
}.

(** Which of the processed results with one [url] the loop holds: the
    entry under [u] is the first of the results [seen] with that [url] to
    reach its [weightScore]; the ones before it score strictly less, the
    ones after it no more. *)
Definition first_best (seenUrls : JsMap.t Web.Result) (seen : list Web.Result)
  : Prop :=
  forall u r, JsMap.get u seenUrls = Some r ->
    exists l1 l2, seen = l1 ++ r :: l2
      /\ (forall r', In r' l1 -> Web.url r' = Some u -> (Web.ws r' < Web.ws r)%Q)
      /\ (forall r', In r' l2 -> Web.url r' = Some u -> (Web.ws r' <= Web.ws r)%Q).

(** The payloads that the four searches leave in the cache: under a key of
    a search, the result list of that search, within its cap.  Keys of the
    other cached functions ([weather:], [github:]) are not constrained. *)
Definition payload_ok (key : string) (p : Payload) : Prop :=
  (prefix "web:" key = true ->
     exists l, p = WebResults l /\ Z.of_nat (List.length l) <= RESULTS_PER_PAGE)
  /\ (prefix "img:" key = true ->
     exists l, p = ImageResults l /\ Z.of_nat (List.length l) <= 150)
  /\ (prefix "vid:" key = true ->
     exists l, p = VideoResults l /\ Z.of_nat (List.length l) <= 150)
  /\ (prefix "news:" key = true ->
     exists l, p = NewsResults l /\ Z.of_nat (List.length l) <= 50).

Definition cache_ok (st : Cache.Store Payload) : Prop :=
  forall k e, In (k, e) (Cache.CACHE st) -> payload_ok k (Cache.d e).

(* ================================================================== *)
(** ** Cache statistics and runs of cache operations *)

(** The numeric fields of [getCacheStats()]; [hitRate] is the percentage
    before [toFixed(2)] formats it, [None] standing for the literal '0%' of
    a cache that has served no read. *)
Record CacheStats := mkCacheStats {
  size : Z;
  hits : Z;
  misses : Z;
  hitRate : option Q;
  maxSize : Z;
  expiredEntries : Z
}.

(** [getCacheStats()]; [now] is its reading of [Date.now()]. *)
Definition getCacheStats {D : Type} (now : Z) (st : Cache.Store D) : CacheStats :=
  mkCacheStats
    (JsMap.size (Cache.CACHE st))
    (Cache.cacheHits st)
    (Cache.cacheMisses st)
    (if Cache.cacheHits st + Cache.cacheMisses st >? 0
     then Some ((inject_Z (Cache.cacheHits st)
                 / inject_Z (Cache.cacheHits st + Cache.cacheMisses st)) * 100)%Q
     else None)
    MAX_CACHE_SIZE
    (Z.of_nat
       (List.length
          (filter (fun e => Cache.expired now e) (JsMap.values (Cache.CACHE st))))).

(** One call of a cache function, with its clock readings. *)
Inductive CacheOp (D : Type) :=
| OpGet (now now' : Z) (key : string)
| OpSet (now now' : Z) (key : string) (data : D) (ttl0 : option Z)
| OpClear.
Arguments OpGet {D} now now' key.
Arguments OpSet {D} now now' key data ttl0.
Arguments OpClear {D}.

Definition run_op {D : Type} (st : Cache.Store D) (op : CacheOp D) : Cache.Store D :=
  match op with
  | OpGet now now' key => snd (Cache.cacheGet now now' key st)
  | OpSet now now' key data ttl0 => Cache.cacheSet now now' key data ttl0 st
  | OpClear => Cache.cacheClear st
  end.

Definition run_ops {D : Type} (ops : list (CacheOp D)) (st : Cache.Store D)
  : Cache.Store D :=
  fold_left run_op ops st.

(** The number of reads since the last [cacheClear()] of a run that starts
    with [count] of them. *)
Definition reads_since_clear {D : Type} (ops : list (CacheOp D)) (count : Z) : Z :=
  fold_left (fun c op => match op with
                         | OpGet _ _ _ => c + 1
                         | OpSet _ _ _ _ _ => c
                         | OpClear => 0
                         end) ops count.

(** The entries older than [e]. *)
Definition strictly_older {D : Type} (e : Cache.Entry D)
    (m : JsMap.t (Cache.Entry D)) : list (string * Cache.Entry D) :=
  filter (fun kv => Cache.t (snd kv) <? Cache.t e) m.

(* ================================================================== *)
(** ** More on [fetchWithRetry] *)

(** The value a [fetch] outcome makes [fetchWithRetry] return: the body of
    a 2xx response that can be read. *)
Definition success (o : Http.FetchOutcome) : option string :=
  match o with
  | Http.FetchResolves r =>
      if Http.ok r then
        match Http.body r with
        | inr v => Some v
        | inl _ => None
        end
      else None
  | Http.FetchThrows _ => None
  end.

(** The attempt numbers of the calls of [fetch] in a log. *)
Definition fetches (log : list Http.Event) : list nat :=
  flat_map (fun ev => match ev with Http.EvFetch a => [a] | _ => [] end) log.

(** The time a run spends waiting. *)
Definition total_wait (log : list Http.Event) : Z :=
  fold_right Z.add 0 (Http.delays log).

(** No response carries a [retry-after] header. *)
Definition no_retry_after (fetch : nat -> Http.FetchOutcome) : Prop :=
  forall a r, fetch a = Http.FetchResolves r -> Http.retryAfter r = None.

(* ================================================================== *)
(** ** Utility functions *)

(** [getSafeSearchCode(safeSearchLevel)] *)
Definition getSafeSearchCode (safeSearchLevel : string) : string :=
  if String.eqb safeSearchLevel "off" then "-2"
  else if String.eqb safeSearchLevel "strict" then "1"
  else "-1".

(** The double quote character. *)
Definition dquote : ascii := ascii_of_nat 34.

(** A comparator [(a, b) => rank(b) - rank(a)]: it is at most 0 when [a]
    ranks at least as high as [b]. *)
Definition descending {A : Type} (rank : A -> Q) (a b : A) : bool :=
  Qle_bool (rank b - rank a) 0.

(** [s.replace(/c/g, rep)] for a pattern that is the single character [c]. *)
Fixpoint replace_char (c : ascii) (rep : string) (s : string) : string :=
  match s with
  | EmptyString => EmptyString
  | String a s' =>
      if Ascii.eqb a c then (rep ++ replace_char c rep s')%string
      else String a (replace_char c rep s')
  end.

(** [sanitizeHTML(html)]; [None] is a falsy argument other than the empty
    string, which the first line treats like it. *)
Definition sanitizeHTML (html : option string) : string :=
  match html with
  | None => ""
  | Some s =>
      if String.eqb s "" then ""
      else
        replace_char "/" "&#x2F;"
          (replace_char "'" "&#x27;"
             (replace_char dquote "&quot;"
                (replace_char ">" "&gt;"
                   (replace_char "<" "&lt;" s))))
  end.

(** The characters that [sanitizeHTML] replaces. *)
Definition html_special (a : ascii) : bool :=
  Ascii.eqb a "<" || Ascii.eqb a ">" || Ascii.eqb a dquote || Ascii.eqb a "'"
  || Ascii.eqb a "/".

Fixpoint string_forall (p : ascii -> bool) (s : string) : bool :=
  match s with
  | EmptyString => true
  | String a s' => p a && string_forall p s'
  end.

(** No character of [s] is one of [cs]. *)
Definition avoids (cs : list ascii) (s : string) : bool :=
  string_forall (fun a => negb (existsb (Ascii.eqb a) cs)) s.

(** The entity that stands for one character in the output of
    [sanitizeHTML], were the five replacements made in a single pass. *)
Definition escape_char (a : ascii) : string :=
  if Ascii.eqb a "<" then "&lt;"
  else if Ascii.eqb a ">" then "&gt;"
  else if Ascii.eqb a dquote then "&quot;"
  else if Ascii.eqb a "'" then "&#x27;"
  else if Ascii.eqb a "/" then "&#x2F;"
  else String a EmptyString.

Fixpoint escape_all (s : string) : string :=
  match s with
  | EmptyString => EmptyString
  | String a s' => (escape_char a ++ escape_all s')%string
  end.

(** [l[n] = v] for an index inside the array. *)
Fixpoint list_set {A : Type} (n : nat) (v : A) (l : list A) : list A :=
  match l, n with
  | [], _ => []
  | _ :: l', O => v :: l'
  | x :: l', S n' => x :: list_set n' v l'
  end.

(** [[l[i], l[j]] = [l[j], l[i]]] for two indices inside the array (the
    only ones the loop of [shuffleArray] produces). *)
Definition swap {A : Type} (i j : nat) (l : list A) : list A :=
  match nth_error l i, nth_error l j with
  | Some x, Some y => list_set j x (list_set i y l)
  | _, _ => l
  end.

(** [Math.floor(Math.random() * (i + 1))] for the draw [r]. *)
Definition random_index (r : Q) (i : nat) : nat :=
  Z.to_nat (Qfloor (r * inject_Z (Z.of_nat i + 1))).

(** The loop of [shuffleArray], at index [i], after [draws] draws. *)
Fixpoint shuffle_loop {A : Type} (random : nat -> Q) (draws i : nat) (l : list A)
  : list A :=
  match i with
  | O => l
  | S i' =>
      shuffle_loop random (S draws) i' (swap i (random_index (random draws) i) l)
  end.

(** [shuffleArray(array)] *)
Definition shuffleArray {A : Type} (random : nat -> Q) (array : list A) : list A :=
  shuffle_loop random 0 (List.length array - 1) array.

(* ================================================================== *)
(** ** Rate limiting: [rateLimiter] and [requestCounts] *)

Module RateLimit.

Definition windowMs : Z := 15 * 60 * 1000.
Definition max : Z := 100.

(** What the middleware does with a request: pass it on (with the three
    [X-RateLimit-*] headers, or none in development), or answer 429 with
    [retry_after]. *)
Inductive Verdict :=
| Passed (headers : option (Z * Z * Z))
| Limited (resetTime : Z).

(** [while (requests.length > 0 && requests[0] < now - windowMs)
    requests.shift()] *)
Fixpoint prune (now : Z) (requests : list Z) : list Z :=
  match requests with
  | [] => []
  | t0 :: rest => if t0 <? now - windowMs then prune now rest else requests
  end.

(** [Math.ceil(x / 1000)] for an integer [x]. *)
Definition ceil_seconds (x : Z) : Z := - ((- x) / 1000).

(** [requests[0]] of a non-empty array. *)
Definition first_request (requests : list Z) : Z := hd 0 requests.

(** [rateLimiter(req, res, next)].  [development] is the test on
    [NODE_ENV], [ip] the key [req.ip || req.connection.remoteAddress],
    [now] the reading of [Date.now()].  The array of an address is pruned
    in place, so the pruning stays also when the request is refused. *)
Definition rateLimiter (development : bool) (ip : string) (now : Z)
    (requestCounts : JsMap.t (list Z)) : Verdict * JsMap.t (list Z) :=
  if development then (Passed None, requestCounts)
  else
    let counts := match JsMap.get ip requestCounts with
                  | Some _ => requestCounts
                  | None => JsMap.set ip [] requestCounts
                  end in
    let requests := prune now (match JsMap.get ip counts with
                               | Some l => l
                               | None => []
                               end) in
    if Z.of_nat (List.length requests) >=? max then
      (Limited (ceil_seconds (first_request requests + windowMs - now)),
       JsMap.set ip requests counts)
    else
      let requests' := requests ++ [now] in
      (Passed (Some (max, max - Z.of_nat (List.length requests'),
                     first_request requests' + windowMs)),
       JsMap.set ip requests' counts).

(** The array that [requestCounts] holds for an address, empty when it
    holds none. *)
Definition record (ip : string) (requestCounts : JsMap.t (list Z)) : list Z :=
  match JsMap.get ip requestCounts with
  | Some requests => requests
  | None => []
  end.

(** [t] is no older than the window that ends at [now]. *)
Definition in_window (now t : Z) : bool := now - windowMs <=? t.

(** A run of requests outside development, each with its address and its
    time; the verdicts are listed in order. *)
Fixpoint serve (reqs : list (string * Z)) (requestCounts : JsMap.t (list Z))
  : list Verdict * JsMap.t (list Z) :=
  match reqs with
  | [] => ([], requestCounts)
  | (ip, now) :: reqs' =>
      let (v, counts1) := rateLimiter false ip now requestCounts in
      let (vs, counts2) := serve reqs' counts1 in
      (v :: vs, counts2)
  end.

(** The times of the requests of [ip] that a run lets through. *)
Fixpoint admitted (ip : string) (reqs : list (string * Z))
    (requestCounts : JsMap.t (list Z)) : list Z :=
  match reqs with
  | [] => []
  | (ip', now) :: reqs' =>
      let (v, counts1) := rateLimiter false ip' now requestCounts in
      match v with
      | Passed _ => if String.eqb ip' ip then [now] else []
      | Limited _ => []
      end ++ admitted ip reqs' counts1
  end.

(** The times of a run never go back. *)
Fixpoint ascending (from : Z) (reqs : list (string * Z)) : Prop :=
  match reqs with
  | [] => True
  | (_, now) :: reqs' => from <= now /\ ascending now reqs'
  end.

End RateLimit.

(* ================================================================== *)
(** ** [weatherSearch] *)

Module Weather.

(** What a weather provider returns.  [error] is the field of that name
    (the two adapters never set it), [provider] the field that
    [weatherSearch] writes. *)
Record Report := mkReport {
  city : string;
  condition : string;
  error : option string;
  provider : option string
}.

(** One call of [provider.func()]: it returns a value ([None] for a falsy
    one) or throws. *)
Inductive Attempt :=
| Gives (weatherData : option Report)
| Fails (x : Thrown).

Definition weatherProviders : list string := ["OpenWeatherMap"; "Weather.gov"].

(** What [weatherSearch] returns and caches: the data of a provider, or the
    object [errorData] with its [providers_tried]. *)
Inductive Value :=
| Data (weatherData : Report)
| ErrorData (providers_tried : list string).

(** [weatherData.provider = provider.name] *)
Definition stamp (nm : string) (r : Report) : Report :=
  mkReport (city r) (condition r) (error r) (Some nm).

(** [weatherData && !weatherData.error] *)
Definition usable (a : Attempt) : option Report :=
  match a with
  | Gives (Some r) => if str_truthy (error r) then None else Some r
  | _ => None
  end.

(** The loop goes on to the next provider: the call returned something
    unusable, or threw an [Error], which the [catch] block logs. *)
Definition passed_over (a : Attempt) : bool :=
  match a with
  | Gives (Some r) => str_truthy (error r)
  | Gives None => true
  | Fails (ThrowError _) => true
  | Fails ThrowUndefined => false
  end.

(** The loop over the providers: the names of the providers called, and
    the stamped data of the first usable answer ([None] when the loop runs
    out) or what the loop throws: reading [error.message] in the [catch]
    block raises when [error] is [undefined]. *)
Fixpoint try_providers (env : string -> Attempt) (providers : list string)
  : list string * (Thrown + option Report) :=
  match providers with
  | [] => ([], inr None)
  | nm :: rest =>
      match env nm with
      | Fails ThrowUndefined => ([nm], inl (ThrowError message_of_undefined))
      | a =>
          match usable a with
          | Some r => ([nm], inr (Some (stamp nm r)))
          | None =>
              let (called, res) := try_providers env rest in
              (nm :: called, res)
          end
      end
  end.

End Weather.

Definition weather_key (query : string) : string := ("weather:" ++ query)%string.

(** [weatherSearch(query)] over a cache whose payloads are of type [D];
    [inj] turns the values that [weatherSearch] builds into payloads.  The
    result lists the providers called. *)
Definition weatherSearch {D : Type} (inj : Weather.Value -> D)
    (env : string -> Weather.Attempt) (clk : Clock) (query : string)
    (st : Cache.Store D) : (list string * (Thrown + D)) * Cache.Store D :=
  let cacheKey := weather_key query in
  match Cache.cacheGet (at_get clk) (at_refresh clk) cacheKey st with
  | (Some cached, st1) => (([], inr cached), st1)
  | (None, st1) =>
      match Weather.try_providers env Weather.weatherProviders with
      | (called, inl x) => ((called, inl x), st1)
      | (called, inr (Some weatherData)) =>
          ((called, inr (inj (Weather.Data weatherData))),
           Cache.cacheSet (at_sweep clk) (at_put clk) cacheKey
             (inj (Weather.Data weatherData)) (Some TTL_short) st1)
      | (called, inr None) =>
          let errorData := Weather.ErrorData Weather.weatherProviders in
          ((called, inr (inj errorData)),
           Cache.cacheSet (at_sweep clk) (at_put clk) cacheKey (inj errorData)
             (Some TTL_short) st1)
      end
  end.

(* ================================================================== *)
(** ** [githubSearch] *)

Module Github.

(** A repository of the result list (some of its fields). *)
Record Repo := mkRepo {
  name : string;
  url : string;
  stars : Z
}.

(** What [githubSearch] returns: the result list, or one of the two error
    objects. *)
Inductive Value :=
| Repos (results : list Repo)
| RateLimited
| Failed (details : string).

(** The [catch] block. *)
Definition on_error (x : Thrown) : Thrown + Value :=
  match x with
  | ThrowUndefined => inl (ThrowError message_of_undefined)
  | ThrowError e =>
      if includes (err_message e) "rate limit" || includes (err_message e) "403"
      then inr RateLimited
      else inr (Failed (err_message e))
  end.

(** The [try] block up to [results]: [fetchJSON] is [fetchWithRetry] with
    the default budget; [decode] is [(data.items || []).map(...)] on the
    value it resolves to, which raises when [data] is [null]. *)
Definition fetch_results (decode : string -> JsError + list Repo)
    (fetch : nat -> Http.FetchOutcome) : list Http.Event * (Thrown + list Repo) :=
  match Http.fetchWithRetry fetch MAX_RETRIES with
  | (log, Http.Returned data) =>
      (log, match decode data with
            | inl e => inl (ThrowError e)
            | inr results => inr results
            end)
  | (log, Http.Threw x) => (log, inl x)
  end.

End Github.

Definition github_key (query : string) : string := ("github:" ++ query)%string.

(** [githubSearch(query)] over a cache whose payloads are of type [D]. *)
Definition githubSearch {D : Type} (inj : Github.Value -> D)
    (decode : string -> JsError + list Github.Repo)
    (fetch : nat -> Http.FetchOutcome) (clk : Clock) (query : string)
    (st : Cache.Store D) : (list Http.Event * (Thrown + D)) * Cache.Store D :=
  let cacheKey := github_key query in
  match Cache.cacheGet (at_get clk) (at_refresh clk) cacheKey st with
  | (Some cached, st1) => (([], inr cached), st1)
  | (None, st1) =>
      match Github.fetch_results decode fetch with
      | (log, inr results) =>
          ((log, inr (inj (Github.Repos results))),
           Cache.cacheSet (at_sweep clk) (at_put clk) cacheKey
             (inj (Github.Repos results)) None st1)
      | (log, inl x) =>
          ((log, match Github.on_error x with
                 | inl thrown => inl thrown
                 | inr v => inr (inj v)
                 end),
           st1)
      end
  end.

(* ================================================================== *)
(** ** [searchViaSearXNG] *)

Module SearXNG.

Definition instances : list string :=
  [ "https://searx.be"; "https://search.disroot.org";
    "https://searx.nixnet.services"; "https://searx.tiekoetter.com";
    "https://search.privacytools.io"; "https://searx.laquadrature.net";
    "https://searx.info" ].

(** An element of [data.results] (the fields that are read; the
    alternatives of [title] and of the snippet are taken as resolved). *)
Record Raw := mkRaw {
  url : option string;
  title : option string;
  content : option string;
  pretty_url : option string;
  score : option Q
}.

(** One [fetchJSON] call: it resolves to [data] ([None] when [data] is
    falsy or has no [results] array) or throws. *)
Inductive Outcome :=
| Fetched (results : option (list Raw))
| Failed (x : Thrown).

(** [x || ''] on an optional string. *)
Definition or_blank (x : option string) : string :=
  match x with
  | Some s => s
  | None => ""
  end.

(** [r.url && r.url.startsWith('http')] *)
Definition usable (r : Raw) : bool :=
  match url r with
  | Some u => negb (String.eqb u "") && prefix "http" u
  | None => false
  end.

(** The object built for each result; the [engine] field has no
    counterpart in [Web.Result] and is not read again. *)
Definition convert (extractDomain : string -> string) (r : Raw) : Web.Result :=
  Web.mkResult (or_blank (title r)) (Some (or_blank (url r)))
    (or_blank (content r))
    (if str_truthy (pretty_url r) then or_blank (pretty_url r)
     else extractDomain (or_blank (url r)))
    (Some (optQ_or (score r) 0)) None None None.

(** [data.results.filter(...).map(...).slice(0, 50)] *)
Definition results_of (extractDomain : string -> string) (raw : list Raw)
  : list Web.Result :=
  js_slice 0 50 (map (convert extractDomain) (filter usable raw)).

(** [error.message || 'Unknown error'] *)
Definition message_or_unknown (e : JsError) : string :=
  if String.eqb (err_message e) "" then "Unknown error" else err_message e.

(** The [Error] thrown when the loop runs out. *)
Definition all_failed (errors : list (string * string)) : JsError :=
  mkError "Error"
    ("All SearXNG instances failed: "
     ++ String.concat ", " (map fst (js_slice 0 3 errors))).

(** The loop over the shuffled instances, from the current [errors]: the
    instances called, the number of one-second delays, and the results
    returned or the value thrown. *)
Fixpoint try_instances (extractDomain : string -> string)
    (env : string -> Outcome) (shuffled : list string)
    (errors : list (string * string))
  : list string * nat * (Thrown + list Web.Result) :=
  match shuffled with
  | [] => ([], O, inl (ThrowError (all_failed errors)))
  | instance :: rest =>
      match env instance with
      | Fetched (Some raw) =>
          let results := results_of extractDomain raw in
          if 0 <? Z.of_nat (List.length results)
          then ([instance], O, inr results)
          else
            match try_instances extractDomain env rest errors with
            | (called, delays, res) => (instance :: called, delays, res)
            end
      | Fetched None =>
          match try_instances extractDomain env rest errors with
          | (called, delays, res) => (instance :: called, delays, res)
          end
      | Failed (ThrowError e) =>
          match try_instances extractDomain env rest
                  (errors ++ [(instance, message_or_unknown e)]) with
          | (called, delays, res) => (instance :: called, S delays, res)
          end
      | Failed ThrowUndefined =>
          ([instance], O, inl (ThrowError message_of_undefined))
      end
  end.

(** [searchViaSearXNG(query, page, safeSearch)]; the request parameters
    are part of the environment. *)
Definition searchViaSearXNG (extractDomain : string -> string)
    (random : nat -> Q) (env : string -> Outcome)
  : list string * nat * (Thrown + list Web.Result) :=
  try_instances extractDomain env (shuffleArray random instances) [].

End SearXNG.

(* ================================================================== *)
(** ** The route [/admin/cache] *)

Inductive AdminResponse :=
| Unauthorized
| Cleared
| Stats (cache_stats : CacheStats)
| InvalidAction.

(** [apiKey !== process.env.ADMIN_API_KEY] on values that are strings or
    [undefined]. *)
Definition differs (x y : option string) : bool :=
  match x, y with
  | Some a, Some b => negb (String.eqb a b)
  | None, None => false
  | _, _ => true
  end.

(** The handler of [/admin/cache]: [ADMIN_API_KEY] is the environment
    variable, [key] and [action] the query parameters, [now] the reading of
    [Date.now()] in [getCacheStats]. *)
Definition admin_cache {D : Type} (ADMIN_API_KEY key action : option string)
    (now : Z) (st : Cache.Store D) : AdminResponse * Cache.Store D :=
  if negb (str_truthy key) || differs key ADMIN_API_KEY then (Unauthorized, st)
  else
    match action with
    | Some a =>
        if String.eqb a "clear" then (Cleared, Cache.cacheClear st)
        else if String.eqb a "stats" then (Stats (getCacheStats now st), st)
        else (InvalidAction, st)
    | None => (InvalidAction, st)
    end.

(* ================================================================== *)
(** ** [Promise.all] and the order in which the promises settle *)

(** [Promise.all(promises)] when the promises settle in the order
    [schedule] (positions in the array [promises], the earliest first): a
    fulfilment stores its value at the position of its promise, whenever it
    comes, and the first rejection to come rejects the whole.  [values] is
    the array of the values stored so far. *)
Fixpoint promise_all_run {A : Type} (promises : list (Thrown + A))
    (schedule : list nat) (values : list (option A))
  : Thrown + list (option A) :=
  match schedule with
  | [] => inr values
  | i :: schedule' =>
      match nth_error promises i with
      | Some (inl x) => inl x
      | Some (inr a) =>
          promise_all_run promises schedule' (list_set i (Some a) values)
      | None => promise_all_run promises schedule' values
      end
  end.

(** The array of values once every position is filled. *)
Fixpoint filled {A : Type} (values : list (option A)) : option (list A) :=
  match values with
  | [] => Some []
  | Some a :: values' =>
      match filled values' with
      | Some l => Some (a :: l)
      | None => None
      end
  | None :: _ => None
  end.

(** What [await Promise.all(promises)] gives under that order: a rejection,
    the array of all the values, or nothing ([None]) as long as a promise
    has not settled. *)
Definition promise_all_at {A : Type} (promises : list (Thrown + A))
    (schedule : list nat) : option (Thrown + list A) :=
  match promise_all_run promises schedule
          (repeat None (List.length promises)) with
  | inl x => Some (inl x)
  | inr values =>
      match filled values with
      | Some l => Some (inr l)
      | None => None
      end
  end.

(** Every promise of the array settles at some point of [schedule]. *)
Definition settles {A : Type} (promises : list A) (schedule : list nat) : Prop :=
  forall i, (i < List.length promises)%nat -> In i schedule.

(** The four aggregations with the completion orders of their
    [Promise.all] calls explicit. *)
Module Timing.

(** [providerPromises] of [webSearch]. *)
Definition providerPromises (env : Web.Env) : list (Thrown + Web.ProviderResult) :=
  map (fun m => Web.settle_primary m (Web.primary env (Web.name m)))
    Web.searchMethods.

(** [additionalPromises] of [webSearch]: each resolves to an object
    [{name, page, results}], also when the call fails. *)
Definition additionalPromises (env : Web.Env) (allResults : list Web.Result)
  : list (Thrown + (string * Z * list Web.Result)) :=
  map (fun c => inr (fst c, snd c,
                     Web.settle_additional (Web.additional env (fst c) (snd c))))
    (Web.additional_calls Web.bestProviders (Z.of_nat (List.length allResults))).

(** The loop over [additionalResults]. *)
Fixpoint append_results (safeSearchLevel : string)
    (additionalResults : list (string * Z * list Web.Result))
    (allResults : list Web.Result) : list Web.Result :=
  match additionalResults with
  | [] => allResults
  | (providerName, pg, results) :: rest =>
      append_results safeSearchLevel rest
        (if 0 <? Z.of_nat (List.length results)
         then allResults
              ++ map (Web.tag_additional safeSearchLevel providerName pg) results
         else allResults)
  end.

(** [webSearch] between the cache miss and [cacheSet]; [schedule] is the
    completion order of the providers, [schedule'] that of the
    supplementary calls. *)
Definition webSearch (env : Web.Env) (schedule schedule' : list nat) (pg : Z)
    (safeSearchLevel : string) : option (Thrown + list Web.Result) :=
  match promise_all_at (providerPromises env) schedule with
  | None => None
  | Some (inl x) => Some (inl x)
  | Some (inr ps) =>
      let gathered := fst (Web.gather safeSearchLevel ps [] []) in
      if Z.of_nat (List.length gathered) <? RESULTS_PER_PAGE then
        match promise_all_at (additionalPromises env gathered) schedule' with
        | None => None
        | Some (inl x) => Some (inl x)
        | Some (inr additionalResults) =>
            Some (inr (Web.paginate pg
                         (Web.uniqueResults
                            (append_results safeSearchLevel additionalResults
                               gathered))))
        end
      else Some (inr (Web.paginate pg (Web.uniqueResults gathered)))
  end.

(** [providerPromises] of the three other searches. *)
Definition settlements {A : Type} (providers : list Provider)
    (primary : string -> Settled A) : list (Thrown + Settlement A) :=
  map (fun p => settle p (primary (pname p))) providers.

Definition imageSearch (env : Images.Env) (schedule : list nat)
    (random : nat -> Q) : option (Thrown + list Images.Image) :=
  match promise_all_at (settlements Images.imageProviders (Images.primary env))
          schedule with
  | None => None
  | Some (inl x) => Some (inl x)
  | Some (inr ps) =>
      Some match fetch_more Images.tag (Images.additional env)
                   Images.additionalSearches
                   (gather_weighted Images.stamp random ps [] 0) with
           | inl x => inl x
           | inr allImages => inr (Images.merge allImages)
           end
  end.

Definition videoSearch (env : Videos.Env) (schedule : list nat)
    (random : nat -> Q) : option (Thrown + list Videos.Video) :=
  match promise_all_at (settlements Videos.videoProviders (Videos.primary env))
          schedule with
  | None => None
  | Some (inl x) => Some (inl x)
  | Some (inr ps) =>
      Some match fetch_more Videos.tag (Videos.additional env)
                   Videos.additionalSearches
                   (gather_weighted Videos.stamp random ps [] 0) with
           | inl x => inl x
           | inr allVideos => inr (Videos.merge allVideos)
           end
  end.

Definition newsSearch (extractDomain : string -> string)
    (primary : string -> Settled News.Article) (schedule : list nat)
    (random : nat -> Q) (safeSearchLevel : string)
  : option (Thrown + list News.Article) :=
  match promise_all_at (settlements News.newsProviders primary) schedule with
  | None => None
  | Some (inl x) => Some (inl x)
  | Some (inr ps) =>
      let allArticles := gather_weighted News.stamp random ps [] 0 in
      Some match (if String.eqb safeSearchLevel "strict"
                  then News.filter_allowed extractDomain allArticles
                  else inr allArticles) with
           | inl x => inl x
           | inr allArticles' => inr (News.merge allArticles')
           end
  end.

End Timing.

(* ================================================================== *)
(** ** Scenarios used by the examples below *)

(** A video that two hosts list under one address. *)
Definition clip : Videos.Video :=
  Videos.mkVideo "clip" (Some "https://videos.example/w/1") None (Some "1")
    None None None.

(** PeerTube (weight 1) and Dailymotion (weight 2) both return [clip]; the
    other providers and the supplementary searches return nothing. *)
Definition two_hosts : Videos.Env :=
  Videos.mkEnv
    (fun nm => if String.eqb nm "PeerTube" || String.eqb nm "Dailymotion"
               then Fulfilled (Some [clip]) else Fulfilled (Some []))
    (fun _ => Fulfilled (Some [])).

(** A result that SearXNG (weight 2) reports with a score of one half. *)
Definition half_scored : Web.Result :=
  Web.mkResult "page" (Some "https://a.example/") "" "a.example"
    (Some (1 # 2)) None None None.

Definition searx : Web.ProviderResult :=
  Web.mkProviderResult "SearXNG" [half_scored] None 2.

(** Only SearXNG returns something: [half_scored]. *)
Definition searx_only : Web.Env :=
  Web.mkEnv
    (fun nm => if String.eqb nm "SearXNG"
               then Fulfilled (Some [half_scored]) else Fulfilled (Some []))
    (fun _ _ => Fulfilled (Some [])).

Definition searx_only_settled : list Web.ProviderResult :=
  map (fun m => Web.mkProviderResult (Web.name m)
                  (if String.eqb (Web.name m) "SearXNG" then [half_scored] else [])
                  None (Web.weight m))
    Web.searchMethods.

(** Every call of every web provider fails, and every call returns an empty
    list. *)
Definition refused : Thrown := ThrowError (mkError "Error" "connect ECONNREFUSED").

Definition all_down : Web.Env :=
  Web.mkEnv (fun _ => Rejected refused) (fun _ _ => Rejected refused).

Definition all_empty : Web.Env :=
  Web.mkEnv (fun _ => Fulfilled (Some [])) (fun _ _ => Fulfilled (Some [])).

(** DuckDuckGo and Startpage return one page each, Brave fails, the other
    providers and the supplementary calls return nothing. *)
Definition page_a : Web.Result :=
  Web.mkResult "A" (Some "https://a.example/") "" "a.example" None None None None.

Definition page_c : Web.Result :=
  Web.mkResult "C" (Some "https://c.example/") "" "c.example" None None None None.

Definition brave_down : Web.Env :=
  Web.mkEnv
    (fun nm => if String.eqb nm "DuckDuckGo" then Fulfilled (Some [page_a])
               else if String.eqb nm "Brave" then Rejected refused
               else if String.eqb nm "Startpage" then Fulfilled (Some [page_c])
               else Fulfilled (Some []))
    (fun _ _ => Fulfilled (Some [])).

Definition noon : Clock := mkClock 0 0 0 0.

(** Startpage rejects with [undefined], which is what [fetchWithRetry]
    throws after a run of 5xx responses; the other providers return
    nothing. *)
Definition startpage_undefined : Web.Env :=
  Web.mkEnv
    (fun nm => if String.eqb nm "Startpage" then Rejected ThrowUndefined
               else Fulfilled (Some []))
    (fun _ _ => Fulfilled (Some [])).

(** The server of Startpage answers every request with a 500; the other
    providers return nothing. *)
Definition always_500 : nat -> Http.FetchOutcome :=
  fun _ => Http.FetchResolves
             (Http.mkResponse 500 "Internal Server Error" None (inr "")).

Definition startpage_500 : Web.Env :=
  Web.mkEnv
    (fun nm => if String.eqb nm "Startpage"
               then await_fetchHTML (fun _ => Fulfilled (Some [])) always_500
               else Fulfilled (Some []))
    (fun _ _ => Fulfilled (Some [])).

(** Unsplash returns two photos; nothing else does. *)
Definition photo_a : Images.Image :=
  Images.mkImage "a" (Some "https://img.example/a.jpg") None None None None None.

Definition photo_b : Images.Image :=
  Images.mkImage "b" (Some "https://img.example/b.jpg") None None None None None.

Definition two_photos : Images.Env :=
  Images.mkEnv
    (fun nm => if String.eqb nm "Unsplash"
               then Fulfilled (Some [photo_a; photo_b]) else Fulfilled (Some []))
    (fun _ => Fulfilled (Some [])).

(** Unsplash (weight 3) and Pixabay (weight 2) return one photo each. *)
Definition two_sources : Images.Env :=
  Images.mkEnv
    (fun nm => if String.eqb nm "Unsplash" then Fulfilled (Some [photo_b])
               else if String.eqb nm "Pixabay" then Fulfilled (Some [photo_a])
               else Fulfilled (Some []))
    (fun _ => Fulfilled (Some [])).

(** Two runs of [Math.random()]: always 0, and 0 followed by 0.9. *)
Definition draws_flat : nat -> Q := fun _ => 0%Q.

Definition draws_rising : nat -> Q :=
  fun n => match n with O => 0%Q | S _ => (9 # 10)%Q end.

(** Insertions under the keys "0", "1", ..., all at time 0 with the default
    [ttl], and the store they fill up to its capacity. *)
Definition numbered_puts (n : nat) : list (Z * Z * string * string * option Z) :=
  map (fun i => (0, 0, show_nat i, "v", None)) (seq 0 n).

Definition full_store : Cache.Store string :=
  Cache.put_all (numbered_puts (Z.to_nat MAX_CACHE_SIZE)) Cache.empty.

(** DuckDuckGo answers every call, first or supplementary, with the same
    page; the other providers return nothing. *)
Definition same_again : Web.Env :=
  Web.mkEnv
    (fun nm => if String.eqb nm "DuckDuckGo" then Fulfilled (Some [page_a])
               else Fulfilled (Some []))
    (fun nm _ => if String.eqb nm "DuckDuckGo" then Fulfilled (Some [page_a])
                 else Fulfilled (Some [])).

(** NewsAPI returns a story hosted on a blocked domain and one that is not;
    the other news providers return nothing. *)
Definition blocked_story : News.Article :=
  News.mkArticle "one" (Some "https://rumble.com/v1") None None None None.

Definition plain_story : News.Article :=
  News.mkArticle "two" (Some "https://news.example/2") None None None None.

Definition two_stories : string -> Settled News.Article :=
  fun nm => if String.eqb nm "NewsAPI"
            then Fulfilled (Some [blocked_story; plain_story])
            else Fulfilled (Some []).

(** One address uses up its quota in a burst of 100 requests. *)
Definition burst : list (string * Z) := repeat ("a", 0) 100.

(** OpenWeatherMap has no key configured; Weather.gov answers. *)
Definition sunny : Weather.Report := Weather.mkReport "Paris" "Sunny" None None.

Definition owm_down : string -> Weather.Attempt :=
  fun nm => if String.eqb nm "OpenWeatherMap"
            then Weather.Fails
                   (ThrowError (mkError "Error" "WEATHER_API_KEY not configured"))
            else Weather.Gives (Some sunny).

(** GitHub answers every request with 403. *)
Definition forbidden : nat -> Http.FetchOutcome :=
  fun _ => Http.FetchResolves (Http.mkResponse 403 "Forbidden" None (inr "")).

(** Every SearXNG instance returns one result with an http address and one
    without. *)
Definition searx_hit : SearXNG.Raw :=
  SearXNG.mkRaw (Some "https://a.example/") (Some "A") None None (Some 1%Q).

Definition searx_miss : SearXNG.Raw :=
  SearXNG.mkRaw (Some "ftp://b.example/") (Some "B") None None None.

Definition searx_up : string -> SearXNG.Outcome :=
  fun _ => SearXNG.Fetched (Some [searx_miss; searx_hit]).

(** A store one entry short of its capacity, every entry stamped 0, and
    the full store it becomes when a last entry is written at time 5. *)
Definition nearly_full : Cache.Store string :=
  Cache.put_all (numbered_puts (Z.to_nat (MAX_CACHE_SIZE - 1))) Cache.empty.

Definition full_with_fresh : Cache.Store string :=
  Cache.cacheSet 0 5 "fresh" "v" None nearly_full.

(** Two completion orders of the seven providers of [webSearch]: in
    registration order, and the reverse. *)
Definition in_order : list nat := seq 0 7.
Definition last_first : list nat := List.rev (seq 0 7).

(* ================================================================== *)
(** * Properties *)

(** ** Lists, slices and the stable sort *)

Lemma NoDup_map_firstn {A B : Type} (f : A -> B) (n : nat) (l : list A) :
  NoDup (map f l) -> NoDup (map f (firstn n l)).
Proof.
  intros H. rewrite <- (firstn_skipn n l), map_app in H.
  now apply NoDup_app_remove_r in H.
Qed.

Lemma NoDup_map_skipn {A B : Type} (f : A -> B) (n : nat) (l : list A) :
  NoDup (map f l) -> NoDup (map f (skipn n l)).
Proof.
  intros H. rewrite <- (firstn_skipn n l), map_app in H.
  now apply NoDup_app_remove_l in H.
Qed.

Lemma In_firstn {A : Type} (n : nat) (l : list A) (x : A) :
  In x (firstn n l) -> In x l.
Proof.
  intros H. rewrite <- (firstn_skipn n l). apply in_or_app. now left.
Qed.

Lemma In_skipn {A : Type} (n : nat) (l : list A) (x : A) :
  In x (skipn n l) -> In x l.
Proof.
  intros H. rewrite <- (firstn_skipn n l). apply in_or_app. now right.
Qed.

Lemma js_slice_In {A : Type} (start stop : Z) (l : list A) (x : A) :
  In x (js_slice start stop l) -> In x l.
Proof.
  unfold js_slice. intros H. apply In_firstn in H. now apply In_skipn in H.
Qed.

Lemma js_slice_NoDup_map {A B : Type} (f : A -> B) (start stop : Z) (l : list A) :
  NoDup (map f l) -> NoDup (map f (js_slice start stop l)).
Proof.
  intros H. unfold js_slice. now apply NoDup_map_firstn, NoDup_map_skipn.
Qed.

(** A slice never has more items than the distance between its bounds. *)
Lemma js_slice_length {A : Type} (start stop : Z) (l : list A) :
  start <= stop ->
  Z.of_nat (List.length (js_slice start stop l)) <= stop - start.
Proof.
  intros Hle. unfold js_slice.
  pose proof (firstn_le_length
    (Z.to_nat (Z.max (rel_index (Z.of_nat (List.length l)) stop
                      - rel_index (Z.of_nat (List.length l)) start) 0))
    (skipn (Z.to_nat (rel_index (Z.of_nat (List.length l)) start)) l)) as Hf.
  unfold rel_index in *.
  destruct (start <? 0) eqn:Hs; destruct (stop <? 0) eqn:Hp;
    rewrite ?Z.ltb_lt, ?Z.ltb_ge in Hs, Hp; lia.
Qed.

Section SortFacts.
Context {A : Type} (le : A -> A -> bool).

Lemma insert_sorted_perm (x : A) (l : list A) :
  Permutation (insert_sorted le x l) (x :: l).
Proof.
  induction l as [|y l IH]; simpl.
  - apply Permutation_refl.
  - destruct (le x y).
    + apply Permutation_refl.
    + eapply perm_trans; [apply perm_skip, IH | apply perm_swap].
Qed.

Lemma stable_sort_perm (l : list A) : Permutation (stable_sort le l) l.
Proof.
  induction l as [|x l IH]; simpl.
  - constructor.
  - eapply perm_trans; [apply insert_sorted_perm | now apply perm_skip].
Qed.

Lemma stable_sort_length (l : list A) :
  List.length (stable_sort le l) = List.length l.
Proof. apply Permutation_length, stable_sort_perm. Qed.

Lemma stable_sort_In (l : list A) (x : A) : In x (stable_sort le l) <-> In x l.
Proof.
  split; apply Permutation_in;
    [apply stable_sort_perm | apply Permutation_sym, stable_sort_perm].
Qed.

Hypothesis le_total : forall a b, le a b = true \/ le b a = true.
Hypothesis le_trans : forall a b c, le a b = true -> le b c = true -> le a c = true.

Lemma insert_sorted_sorted (x : A) (l : list A) :
  StronglySorted (fun a b => le a b = true) l ->
  StronglySorted (fun a b => le a b = true) (insert_sorted le x l).
Proof.
  induction 1 as [|y l Hs IH Hall]; simpl.
  - constructor; constructor.
  - destruct (le x y) eqn:Hxy.
    + constructor.
      * now constructor.
      * constructor; [assumption|].
        eapply Forall_impl; [|exact Hall]. intros z Hz. now apply le_trans with y.
    + constructor; [exact IH|].
      assert (Hyx : le y x = true) by (destruct (le_total x y); congruence).
      rewrite Forall_forall in *. intros z Hz.
      apply (Permutation_in _ (insert_sorted_perm x l)) in Hz.
      destruct Hz as [<-|Hz]; auto.
Qed.

Lemma stable_sort_sorted (l : list A) :
  StronglySorted (fun a b => le a b = true) (stable_sort le l).
Proof.
  induction l as [|x l IH]; simpl.
  - constructor.
  - now apply insert_sorted_sorted.
Qed.
End SortFacts.

(** In a sorted list every item of a prefix is in front of every item of
    the rest. *)
Lemma sorted_firstn_skipn {A : Type} (R : A -> A -> Prop) (n : nat) (l : list A) :
  StronglySorted R l ->
  forall x y, In x (firstn n l) -> In y (skipn n l) -> R x y.
Proof.
  intros Hs. revert n. induction Hs as [|a l Hs IH Hall]; intros n x y Hx Hy.
  - destruct n; contradiction.
  - destruct n as [|n]; simpl in *; [contradiction|].
    destruct Hx as [<-|Hx].
    + rewrite Forall_forall in Hall. apply Hall. eapply In_skipn; eauto.
    + eapply IH; eauto.
Qed.

(** ** The insertion-ordered map *)

Section JsMapFacts.
Context {V : Type}.
Implicit Types (m : JsMap.t V) (k : string) (v : V).

Lemma get_set_same k v m : JsMap.get k (JsMap.set k v m) = Some v.
Proof.
  induction m as [|[k' v'] m IH]; simpl.
  - now rewrite String.eqb_refl.
  - destruct (String.eqb k k') eqn:E; simpl; rewrite E; auto.
Qed.

Lemma get_set_other k k' v m :
  k <> k' -> JsMap.get k (JsMap.set k' v m) = JsMap.get k m.
Proof.
  intros Hne. induction m as [|[k2 v2] m IH]; simpl.
  - apply String.eqb_neq in Hne. now rewrite Hne.
  - destruct (String.eqb_spec k' k2) as [->|Hne2]; simpl.
    + apply String.eqb_neq in Hne. now rewrite Hne.
    + now rewrite IH.
Qed.

Lemma get_None_iff k m : JsMap.get k m = None <-> ~ In k (JsMap.keys m).
Proof.
  induction m as [|[k' v'] m IH]; simpl.
  - tauto.
  - destruct (String.eqb_spec k k') as [->|Hne].
    + split; [discriminate | intros H; exfalso; apply H; now left].
    + rewrite IH. split; [intros H [Heq|Hin]; congruence | tauto].
Qed.

Lemma get_Some_In k v m : JsMap.get k m = Some v -> In (k, v) m.
Proof.
  induction m as [|[k' v'] m IH]; simpl; [discriminate|].
  destruct (String.eqb_spec k k') as [->|Hne].
  - intros [= ->]. now left.
  - intros H. right. auto.
Qed.

Lemma In_get k v m : JsMap.wf m -> In (k, v) m -> JsMap.get k m = Some v.
Proof.
  unfold JsMap.wf, JsMap.keys.
  induction m as [|[k' v'] m IH]; simpl; [contradiction|].
  intros Hnd [Heq|Hin].
  - injection Heq as -> ->. now rewrite String.eqb_refl.
  - inversion_clear Hnd as [|? ? Hnotin Hnd'].
    destruct (String.eqb_spec k k') as [->|Hne].
    + exfalso. apply Hnotin. change k' with (fst (k', v)). now apply in_map.
    + auto.
Qed.

Lemma keys_set k v m :
  JsMap.keys (JsMap.set k v m) =
  match JsMap.get k m with
  | Some _ => JsMap.keys m
  | None => JsMap.keys m ++ [k]
  end.
Proof.
  induction m as [|[k' v'] m IH]; simpl; [reflexivity|].
  destruct (String.eqb k k') eqn:E; simpl; [reflexivity|].
  rewrite IH. now destruct (JsMap.get k m).
Qed.

Lemma wf_set k v m : JsMap.wf m -> JsMap.wf (JsMap.set k v m).
Proof.
  unfold JsMap.wf. intros Hnd. rewrite keys_set.
  destruct (JsMap.get k m) eqn:E; [assumption|].
  apply get_None_iff in E.
  apply (Permutation_NoDup (l := k :: JsMap.keys m)).
  - apply Permutation_cons_append.
  - now constructor.
Qed.

Lemma size_set_le k v m : JsMap.size (JsMap.set k v m) <= JsMap.size m + 1.
Proof.
  unfold JsMap.size.
  assert (H : List.length (JsMap.keys (JsMap.set k v m))
              = List.length (JsMap.set k v m)) by apply length_map.
  rewrite <- H, keys_set.
  destruct (JsMap.get k m); unfold JsMap.keys;
    rewrite ?length_app, length_map; simpl; lia.
Qed.

Lemma size_set_present k v v0 m :
  JsMap.get k m = Some v0 -> JsMap.size (JsMap.set k v m) = JsMap.size m.
Proof.
  intros Hget. unfold JsMap.size.
  assert (H : List.length (JsMap.keys (JsMap.set k v m))
              = List.length (JsMap.set k v m)) by apply length_map.
  rewrite <- H, keys_set, Hget. unfold JsMap.keys. now rewrite length_map.
Qed.

Lemma In_set k v k' v' m :
  In (k, v) (JsMap.set k' v' m) -> (k, v) = (k', v') \/ In (k, v) m.
Proof.
  induction m as [|[k2 v2] m IH]; simpl.
  - intros [H|[]]. left. now symmetry.
  - destruct (String.eqb_spec k' k2) as [->|Hne]; simpl.
    + intros [H|H]; [left; now symmetry | right; now right].
    + intros [H|H]; [right; now left|]. destruct (IH H); auto.
Qed.

Lemma wf_filter (f : string * V -> bool) m : JsMap.wf m -> JsMap.wf (filter f m).
Proof.
  unfold JsMap.wf, JsMap.keys.
  induction m as [|[k v] m IH]; simpl; [auto|].
  intros Hnd. inversion_clear Hnd as [|? ? Hnotin Hnd'].
  destruct (f (k, v)); simpl; auto.
  constructor; auto.
  intros Hin. apply Hnotin. apply in_map_iff in Hin as [[k2 v2] [Hk Hin]].
  apply filter_In in Hin as [Hin _]. simpl in Hk. subst k2.
  change k with (fst (k, v2)). now apply in_map.
Qed.

Lemma wf_delete k m : JsMap.wf m -> JsMap.wf (JsMap.delete k m).
Proof. apply wf_filter. Qed.

Lemma In_delete k k' v m : In (k, v) (JsMap.delete k' m) <-> In (k, v) m /\ k <> k'.
Proof.
  unfold JsMap.delete. rewrite filter_In. simpl.
  destruct (String.eqb_spec k' k) as [->|Hne]; simpl; intuition congruence.
Qed.

Lemma get_delete_same k m : JsMap.get k (JsMap.delete k m) = None.
Proof.
  apply get_None_iff. intros Hin.
  apply in_map_iff in Hin as [[k2 v2] [Hk Hin]]. simpl in Hk. subst k2.
  apply In_delete in Hin. tauto.
Qed.

Lemma get_delete_other k k' m :
  k <> k' -> JsMap.get k (JsMap.delete k' m) = JsMap.get k m.
Proof.
  intros Hne. induction m as [|[k2 v2] m IH]; simpl; [reflexivity|].
  destruct (String.eqb_spec k' k2) as [->|Hne2]; simpl.
  - apply String.eqb_neq in Hne. now rewrite Hne.
  - now rewrite IH.
Qed.

Lemma size_delete_le k m : JsMap.size (JsMap.delete k m) <= JsMap.size m.
Proof.
  unfold JsMap.size, JsMap.delete.
  pose proof (filter_length_le (fun kv => negb (String.eqb k (fst kv))) m). lia.
Qed.

(** Deleting a present key of a well-formed map removes exactly one entry. *)
Lemma size_delete_present k m :
  JsMap.wf m -> In k (JsMap.keys m) ->
  JsMap.size (JsMap.delete k m) = JsMap.size m - 1.
Proof.
  unfold JsMap.wf, JsMap.keys, JsMap.size, JsMap.delete.
  intros Hnd Hin.
  enough (H : S (List.length (filter (fun kv => negb (String.eqb k (fst kv))) m))
              = List.length m) by lia.
  induction m as [|[k' v'] m IH]; simpl in *; [contradiction|].
  inversion_clear Hnd as [|? ? Hnotin Hnd'].
  destruct (String.eqb_spec k k') as [->|Hne]; simpl.
  - f_equal. f_equal. clear IH Hnd' Hin.
    induction m as [|[k2 v2] m IHm]; simpl in *; [reflexivity|].
    destruct (String.eqb_spec k' k2) as [->|Hne]; simpl.
    + exfalso. apply Hnotin. now left.
    + f_equal. apply IHm. tauto.
  - destruct Hin as [Heq|Hin]; [congruence|].
    f_equal. now apply IH.
Qed.
End JsMapFacts.

(** ** The cache store *)

Section CacheFacts.
Context {D : Type}.
Implicit Types (m : JsMap.t (Cache.Entry D)) (st : Cache.Store D).
Implicit Types (e : Cache.Entry D).

Lemma wf_delete_keys ks m : JsMap.wf m -> JsMap.wf (Cache.delete_keys ks m).
Proof.
  revert m. induction ks as [|k ks IH]; simpl; intros m Hwf; [assumption|].
  apply IH. now apply wf_delete.
Qed.

Lemma In_delete_keys ks m k e :
  In (k, e) (Cache.delete_keys ks m) <-> In (k, e) m /\ ~ In k ks.
Proof.
  revert m. induction ks as [|k0 ks IH]; simpl; intros m.
  - tauto.
  - rewrite IH, In_delete. intuition congruence.
Qed.

Lemma size_delete_keys ks m :
  JsMap.wf m -> NoDup ks -> incl ks (JsMap.keys m) ->
  JsMap.size (Cache.delete_keys ks m) = JsMap.size m - Z.of_nat (List.length ks).
Proof.
  revert m. induction ks as [|k ks IH]; intros m Hwf Hnd Hincl.
  - simpl. lia.
  - inversion_clear Hnd as [|? ? Hnotin Hnd'].
    cbn [Cache.delete_keys fold_left List.length].
    change (fold_left (fun acc k0 => JsMap.delete k0 acc) ks (JsMap.delete k m))
      with (Cache.delete_keys ks (JsMap.delete k m)).
    rewrite IH.
    + rewrite size_delete_present; [lia | assumption | apply Hincl; now left].
    + now apply wf_delete.
    + assumption.
    + intros k' Hk'.
      assert (Hin : In k' (JsMap.keys m)) by (apply Hincl; now right).
      apply in_map_iff in Hin as [[k2 e2] [Hk2 Hin]]. simpl in Hk2. subst k2.
      change k' with (fst (k', e2)). apply in_map. apply In_delete.
      split; [assumption | intros ->; contradiction].
Qed.

Lemma older_total (a b : string * Cache.Entry D) :
  Cache.older a b = true \/ Cache.older b a = true.
Proof. unfold Cache.older. rewrite !Z.leb_le. lia. Qed.

Lemma older_trans (a b c : string * Cache.Entry D) :
  Cache.older a b = true -> Cache.older b c = true -> Cache.older a c = true.
Proof. unfold Cache.older. rewrite !Z.leb_le. lia. Qed.

Lemma evicted_keys_NoDup m : JsMap.wf m -> NoDup (Cache.evicted_keys m).
Proof.
  intros Hwf. unfold Cache.evicted_keys. apply NoDup_map_firstn.
  eapply Permutation_NoDup; [|exact Hwf].
  apply Permutation_sym, Permutation_map, stable_sort_perm.
Qed.

Lemma evicted_keys_incl m : incl (Cache.evicted_keys m) (JsMap.keys m).
Proof.
  intros k Hk. unfold Cache.evicted_keys in Hk.
  apply in_map_iff in Hk as [[k2 e2] [Hk2 Hin]]. simpl in Hk2. subst k2.
  apply In_firstn, stable_sort_In in Hin.
  change k with (fst (k, e2)). now apply in_map.
Qed.

Lemma evicted_keys_length m :
  Z.of_nat (List.length (Cache.evicted_keys m)) = JsMap.size m / 10.
Proof.
  unfold Cache.evicted_keys, JsMap.size.
  rewrite length_map, length_firstn, stable_sort_length.
  assert (H : 0 <= Z.of_nat (List.length m) / 10 <= Z.of_nat (List.length m)).
  { split; [apply Z.div_pos; lia|].
    apply Z.div_le_upper_bound; lia. }
  lia.
Qed.

Lemma size_evict_oldest m :
  JsMap.wf m ->
  JsMap.size (Cache.evict_oldest m) = JsMap.size m - JsMap.size m / 10.
Proof.
  intros Hwf. unfold Cache.evict_oldest. fold (Cache.evicted_keys m).
  rewrite size_delete_keys, evicted_keys_length;
    auto using evicted_keys_NoDup, evicted_keys_incl.
Qed.

(** The entries removed by the first cleanup loop are the oldest ones. *)
Lemma evict_oldest_oldest m k e k2 e2 :
  JsMap.wf m ->
  In (k, e) m -> ~ In (k, e) (Cache.evict_oldest m) ->
  In (k2, e2) (Cache.evict_oldest m) ->
  Cache.t e <= Cache.t e2.
Proof.
  intros Hwf Hin Hgone Hkept.
  unfold Cache.evict_oldest in *. fold (Cache.evicted_keys m) in *.
  rewrite In_delete_keys in Hgone, Hkept.
  destruct Hkept as [Hin2 Hk2].
  set (s := stable_sort Cache.older m) in *.
  set (n := Z.to_nat (JsMap.size s / 10)) in *.
  assert (Hfirst : In (k, e) (firstn n s)).
  { destruct (in_dec string_dec k (Cache.evicted_keys m)) as [Hk|Hk]; [|tauto].
    unfold Cache.evicted_keys in Hk. fold s n in Hk.
    apply in_map_iff in Hk as [[k' e'] [Hk' Hin']]. simpl in Hk'. subst k'.
    assert (Hm : In (k, e') m) by (eapply stable_sort_In, In_firstn, Hin').
    apply (In_get _ _ _ Hwf) in Hm. apply (In_get _ _ _ Hwf) in Hin.
    congruence. }
  assert (Hrest : In (k2, e2) (skipn n s)).
  { assert (Hs : In (k2, e2) s) by (now apply stable_sort_In).
    rewrite <- (firstn_skipn n s) in Hs. apply in_app_or in Hs as [Hs|Hs]; auto.
    exfalso. apply Hk2. unfold Cache.evicted_keys. fold s n.
    change k2 with (fst (k2, e2)). now apply in_map. }
  pose proof (sorted_firstn_skipn _ n s
                (stable_sort_sorted Cache.older older_total older_trans m)
                _ _ Hfirst Hrest) as Hle.
  unfold Cache.older in Hle. simpl in Hle. apply Z.leb_le in Hle. lia.
Qed.

Lemma wf_cleanup now m :
  JsMap.wf m -> JsMap.wf (Cache.sweep now (Cache.evict_oldest m)).
Proof. intros Hwf. apply wf_filter, wf_delete_keys, Hwf. Qed.

Lemma size_sweep_le now m : JsMap.size (Cache.sweep now m) <= JsMap.size m.
Proof.
  unfold JsMap.size, Cache.sweep.
  pose proof (filter_length_le (fun kv => negb (Cache.expired now (snd kv))) m). lia.
Qed.

Lemma wf_cacheSet now now' key data ttl0 st :
  JsMap.wf (Cache.CACHE st) ->
  JsMap.wf (Cache.CACHE (Cache.cacheSet now now' key data ttl0 st)).
Proof.
  intros Hwf. unfold Cache.cacheSet. simpl. apply wf_set.
  destruct (JsMap.size (Cache.CACHE st) >=? MAX_CACHE_SIZE); auto using wf_cleanup.
Qed.

Lemma wf_cacheGet now now' key st :
  JsMap.wf (Cache.CACHE st) ->
  JsMap.wf (Cache.CACHE (snd (Cache.cacheGet now now' key st))).
Proof.
  intros Hwf. unfold Cache.cacheGet.
  destruct (JsMap.get key (Cache.CACHE st)) as [e|]; simpl; [|assumption].
  destruct (Cache.expired now e); simpl; auto using wf_delete, wf_set.
Qed.

Lemma size_cacheGet_le now now' key st :
  Cache.stats_size (snd (Cache.cacheGet now now' key st)) <= Cache.stats_size st.
Proof.
  unfold Cache.cacheGet, Cache.stats_size.
  destruct (JsMap.get key (Cache.CACHE st)) as [e|] eqn:Hget; simpl; [|lia].
  destruct (Cache.expired now e); simpl.
  - apply size_delete_le.
  - rewrite (size_set_present _ _ _ _ Hget). lia.
Qed.

Lemma size_cacheSet now now' key data ttl0 st :
  JsMap.wf (Cache.CACHE st) ->
  Cache.stats_size st <= MAX_CACHE_SIZE ->
  Cache.stats_size (Cache.cacheSet now now' key data ttl0 st) <= MAX_CACHE_SIZE.
Proof.
  intros Hwf Hsize. unfold Cache.cacheSet, Cache.stats_size in *. simpl.
  etransitivity; [apply size_set_le|].
  destruct (JsMap.size (Cache.CACHE st) >=? MAX_CACHE_SIZE) eqn:Hfull.
  - pose proof (size_sweep_le now (Cache.evict_oldest (Cache.CACHE st))) as Hsw.
    rewrite (size_evict_oldest _ Hwf) in Hsw.
    apply Z.geb_le in Hfull. unfold MAX_CACHE_SIZE in *.
    assert (Heq : JsMap.size (Cache.CACHE st) = 10000) by lia.
    rewrite Heq in Hsw. change (10000 / 10) with 1000 in Hsw. lia.
  - rewrite Z.geb_leb in Hfull. apply Z.leb_gt in Hfull. lia.
Qed.

Lemma reachable_inv st :
  Cache.reachable st ->
  JsMap.wf (Cache.CACHE st) /\ Cache.stats_size st <= MAX_CACHE_SIZE.
Proof.
  induction 1 as [|now now' key st Hr [Hwf Hsz]
                  |now now' key data ttl0 st Hr [Hwf Hsz]|st Hr _].
  - split; [apply NoDup_nil|].
    unfold Cache.stats_size, MAX_CACHE_SIZE, JsMap.size. simpl. lia.
  - split; [now apply wf_cacheGet|].
    pose proof (size_cacheGet_le now now' key st). lia.
  - split; [now apply wf_cacheSet | now apply size_cacheSet].
  - split; [apply NoDup_nil|].
    unfold Cache.stats_size, MAX_CACHE_SIZE, JsMap.size. simpl. lia.
Qed.
End CacheFacts.

Lemma put_all_reachable {D : Type}
    (puts : list (Z * Z * string * D * option Z)) :
  forall st, Cache.reachable st -> Cache.reachable (Cache.put_all puts st).
Proof.
  unfold Cache.put_all.
  induction puts as [|[[[[now now'] key] data] ttl0] puts IH]; intros st Hr; simpl.
  - assumption.
  - apply IH. now apply Cache.reach_set.
Qed.

(** C7.  The size of the cache never exceeds [MAX_CACHE_SIZE]: from a store
    the cache functions can produce, [cacheSet] and any run of insertions
    leave at most [MAX_CACHE_SIZE] entries, and the new entry is always
    admitted; at capacity the first loop removes a tenth of the entries
    (rounded down), none of them younger than an entry it keeps, and the
    second loop leaves no other entry that is expired at the time of the
    sweep. *)
Theorem cacheSet_within_capacity {D : Type} (st : Cache.Store D)
    (now now' : Z) (key : string) (data : D) (ttl0 : option Z) :
  Cache.reachable st ->
  let st' := Cache.cacheSet now now' key data ttl0 st in
  Cache.stats_size st <= MAX_CACHE_SIZE
  /\ Cache.stats_size st' <= MAX_CACHE_SIZE
  /\ (forall puts, Cache.stats_size (Cache.put_all puts st) <= MAX_CACHE_SIZE)
  /\ JsMap.get key (Cache.CACHE st')
     = Some (Cache.mkEntry data now'
               (match ttl0 with Some x => x | None => TTL_medium end))
  /\ (MAX_CACHE_SIZE <= Cache.stats_size st ->
      JsMap.size (Cache.evict_oldest (Cache.CACHE st))
      = Cache.stats_size st - Cache.stats_size st / 10
      /\ (forall k e k2 e2,
             In (k, e) (Cache.CACHE st) ->
             ~ In (k, e) (Cache.evict_oldest (Cache.CACHE st)) ->
             In (k2, e2) (Cache.evict_oldest (Cache.CACHE st)) ->
             Cache.t e <= Cache.t e2)
      /\ (forall k e,
             In (k, e) (Cache.CACHE st') -> k <> key ->
             In (k, e) (Cache.evict_oldest (Cache.CACHE st))
             /\ Cache.expired now e = false)).
Proof.
  intros Hr st'. destruct (reachable_inv st Hr) as [Hwf Hsz].
  split; [exact Hsz|]. split; [now apply size_cacheSet|].
  split; [intros puts; now apply reachable_inv, put_all_reachable|].
  split; [apply get_set_same|].
  intros Hfull. split; [now apply size_evict_oldest|].
  split.
  - intros k e k2 e2. now apply evict_oldest_oldest.
  - intros k e Hin Hne. subst st'. unfold Cache.cacheSet in Hin. simpl in Hin.
    unfold Cache.stats_size in Hfull.
    apply Z.geb_le in Hfull. rewrite Hfull in Hin.
    apply In_set in Hin as [Heq|Hin]; [congruence|].
    unfold Cache.sweep in Hin. apply filter_In in Hin as [Hin Hexp].
    simpl in Hexp. split; [assumption|]. now apply negb_true_iff in Hexp.
Qed.

Lemma to_uint_not_Nil (n : nat) : Nat.to_uint n <> Nil.
Proof.
  rewrite <- (Unsigned.of_to n) at 1. rewrite Unsigned.to_of.
  unfold unorm. destruct (nzhead (Nat.to_uint n)); discriminate.
Qed.

Lemma show_nat_inj (n m : nat) : show_nat n = show_nat m -> n = m.
Proof.
  unfold show_nat. intros H.
  apply (f_equal NilZero.uint_of_string) in H.
  rewrite !NilZero.usu in H by apply to_uint_not_Nil.
  injection H as H. now apply Unsigned.to_uint_inj.
Qed.

Lemma put_all_app {D : Type} (l1 l2 : list (Z * Z * string * D * option Z))
    (st : Cache.Store D) :
  Cache.put_all (l1 ++ l2) st = Cache.put_all l2 (Cache.put_all l1 st).
Proof. unfold Cache.put_all. apply fold_left_app. Qed.

(** Below the capacity, [n] insertions under the keys "0", ..., "n-1" leave
    exactly these [n] keys. *)
Lemma numbered_puts_keys (n : nat) :
  Z.of_nat n <= MAX_CACHE_SIZE ->
  JsMap.keys (Cache.CACHE (Cache.put_all (numbered_puts n) Cache.empty))
  = map show_nat (seq 0 n).
Proof.
  induction n as [|n IH]; intros Hn; [reflexivity|].
  unfold numbered_puts in *. rewrite seq_S, map_app, put_all_app. simpl.
  set (st := Cache.put_all _ Cache.empty) in *.
  specialize (IH ltac:(lia)).
  assert (Hsize : JsMap.size (Cache.CACHE st) = Z.of_nat n).
  { unfold JsMap.size. rewrite <- (length_map fst). fold (JsMap.keys (Cache.CACHE st)).
    now rewrite IH, length_map, length_seq. }
  unfold Cache.cacheSet. cbn [Cache.CACHE]. rewrite Hsize.
  replace (Z.of_nat n >=? MAX_CACHE_SIZE) with false
    by (symmetry; rewrite Z.geb_leb; apply Z.leb_gt; lia).
  rewrite keys_set.
  assert (Hnew : JsMap.get (show_nat n) (Cache.CACHE st) = None).
  { apply get_None_iff. rewrite IH. intros Hin.
    apply in_map_iff in Hin as (i & Hi & Hin).
    apply show_nat_inj in Hi. subst i. apply in_seq in Hin. lia. }
  rewrite Hnew, IH. now rewrite map_app.
Qed.

Lemma numbered_puts_size (n : nat) :
  Z.of_nat n <= MAX_CACHE_SIZE ->
  Cache.stats_size (Cache.put_all (numbered_puts n) Cache.empty) = Z.of_nat n.
Proof.
  intros Hn. unfold Cache.stats_size, JsMap.size.
  rewrite <- (length_map fst).
  fold (JsMap.keys (Cache.CACHE (Cache.put_all (numbered_puts n) Cache.empty))).
  now rewrite numbered_puts_keys, length_map, length_seq.
Qed.

(** The capacity test of the specification: [MAX_CACHE_SIZE] distinct keys
    fill the store; one more insertion evicts the 1000 oldest entries and
    leaves the store within its capacity. *)
Lemma cacheSet_within_capacity_witness :
  Cache.reachable full_store
  /\ Cache.stats_size full_store = MAX_CACHE_SIZE
  /\ Cache.stats_size (Cache.cacheSet 1 1 "one more" "v" None full_store)
     <= MAX_CACHE_SIZE
  /\ JsMap.get "one more"
       (Cache.CACHE (Cache.cacheSet 1 1 "one more" "v" None full_store))
     = Some (Cache.mkEntry "v" 1 TTL_medium)
  /\ JsMap.size (Cache.evict_oldest (Cache.CACHE full_store)) = 9000.
Proof.
  assert (Hr : Cache.reachable full_store)
    by (apply put_all_reachable, Cache.reach_empty).
  assert (Hpos : 0 <= MAX_CACHE_SIZE) by discriminate.
  assert (Hfull : Cache.stats_size full_store = MAX_CACHE_SIZE).
  { unfold full_store. rewrite numbered_puts_size.
    - now apply Z2Nat.id.
    - rewrite Z2Nat.id by assumption. apply Z.le_refl. }
  destruct (cacheSet_within_capacity full_store 1 1 "one more" "v" None Hr)
    as (_ & Hsize & _ & Hget & Hcap).
  destruct Hcap as (Hevict & _); [rewrite Hfull; apply Z.le_refl|].
  split; [exact Hr|]. split; [exact Hfull|]. split; [exact Hsize|].
  split; [exact Hget|]. rewrite Hevict, Hfull. reflexivity.
Defined.

(** C6, as amended.  An entry is expired when its age exceeds its [ttl],
    where a stored [ttl] of 0 stands for [TTL.medium].  A read of an expired
    entry returns [null], adds one to the miss counter, leaves the hit counter
    alone and deletes the entry without touching another key; any other read
    of a present entry returns the payload, adds one to the hit counter and
    leaves the miss counter alone. *)
Theorem cacheGet_expiry {D : Type} (st : Cache.Store D) (now now' : Z)
    (key : string) (e : Cache.Entry D) :
  JsMap.get key (Cache.CACHE st) = Some e ->
  let r := fst (Cache.cacheGet now now' key st) in
  let st' := snd (Cache.cacheGet now now' key st) in
  (now - Cache.t e > Z_or (Cache.ttl e) TTL_medium ->
     r = None
     /\ Cache.cacheMisses st' = Cache.cacheMisses st + 1
     /\ Cache.cacheHits st' = Cache.cacheHits st
     /\ JsMap.get key (Cache.CACHE st') = None
     /\ forall k, k <> key ->
          JsMap.get k (Cache.CACHE st') = JsMap.get k (Cache.CACHE st))
  /\ (now - Cache.t e <= Z_or (Cache.ttl e) TTL_medium ->
     r = Some (Cache.d e)
     /\ Cache.cacheHits st' = Cache.cacheHits st + 1
     /\ Cache.cacheMisses st' = Cache.cacheMisses st).
Proof.
  intros Hget r st'. subst r st'. unfold Cache.cacheGet. rewrite Hget.
  unfold Cache.expired.
  destruct (now - Cache.t e >? Z_or (Cache.ttl e) TTL_medium) eqn:Hexp.
  - apply Z.gtb_lt in Hexp. split; [|lia]. intros _. simpl.
    repeat split; auto using get_delete_same.
    intros k Hne. now apply get_delete_other.
  - rewrite Z.gtb_ltb in Hexp. apply Z.ltb_ge in Hexp.
    split; [lia|]. intros _. simpl. auto.
Qed.

(** The expiry test of the specification: stored with a [ttl] of 100 ms and
    read 150 ms later, the entry is absent. *)
Lemma cacheGet_expiry_witness :
  JsMap.get "k" (Cache.CACHE (Cache.cacheSet 0 0 "k" "v" (Some 100) Cache.empty))
  = Some (Cache.mkEntry "v" 0 100)
  /\ 150 - 0 > Z_or 100 TTL_medium
  /\ fst (Cache.cacheGet 150 150 "k"
            (Cache.cacheSet 0 0 "k" "v" (Some 100) Cache.empty)) = None.
Proof.
  split; [reflexivity|]. split; [reflexivity|].
  apply (cacheGet_expiry (Cache.cacheSet 0 0 "k" "v" (Some 100) Cache.empty)
           150 150 "k" (Cache.mkEntry "v" 0 100) eq_refl).
  reflexivity.
Defined.

(** C6 as stated fails when the stored [ttl] is 0: one millisecond later
    the age (1) exceeds the [ttl] (0), and the payload is still returned. *)
Lemma cacheGet_zero_ttl_served :
  JsMap.get "k" (Cache.CACHE (Cache.cacheSet 0 0 "k" "v" (Some 0) Cache.empty))
  = Some (Cache.mkEntry "v" 0 0)
  /\ 1 - Cache.t (Cache.mkEntry "v" 0 0) > Cache.ttl (Cache.mkEntry "v" 0 0)
  /\ fst (Cache.cacheGet 1 1 "k"
            (Cache.cacheSet 0 0 "k" "v" (Some 0) Cache.empty)) = Some "v".
Proof. repeat split. Qed.

Lemma read_all_refreshes {D : Type} (reads : list (Z * Z)) :
  forall (st : Cache.Store D) (key : string) (e : Cache.Entry D),
  JsMap.get key (Cache.CACHE st) = Some e ->
  Cache.paced (Z_or (Cache.ttl e) TTL_medium) (Cache.t e) reads ->
  fst (Cache.read_all reads key st) = map (fun _ => Some (Cache.d e)) reads
  /\ JsMap.get key (Cache.CACHE (snd (Cache.read_all reads key st)))
     = Some (Cache.mkEntry (Cache.d e)
               (Cache.last_stamp (Cache.t e) reads) (Cache.ttl e)).
Proof.
  induction reads as [|[now now'] reads IH]; intros st key e Hget Hp.
  - simpl. split; [reflexivity|]. now destruct e.
  - destruct Hp as [Hfresh Hp]. cbn [Cache.read_all].
    unfold Cache.cacheGet at 1. unfold Cache.cacheGet at 1. rewrite Hget.
    unfold Cache.expired.
    replace (now - Cache.t e >? Z_or (Cache.ttl e) TTL_medium) with false
      by (symmetry; rewrite Z.gtb_ltb; apply Z.ltb_ge; lia).
    set (st1 := Cache.mkStore _ _ _).
    specialize (IH st1 key (Cache.mkEntry (Cache.d e) now' (Cache.ttl e))
                  (get_set_same _ _ _) Hp).
    destruct (Cache.read_all reads key st1) as [rs st2]. simpl in *.
    destruct IH as [IH1 IH2]. split; [now f_equal | exact IH2].
Qed.

Lemma paced_weaken (limit limit' : Z) (Hle : limit <= limit')
    (reads : list (Z * Z)) :
  forall stamp, Cache.paced limit stamp reads -> Cache.paced limit' stamp reads.
Proof.
  induction reads as [|[now now'] reads IH]; intros stamp; simpl.
  - trivial.
  - intros [H1 H2]. split; [lia | now apply IH].
Qed.

(** C9.  A read of an unexpired entry stores the time of the read in the
    entry, so expiry counts from the last hit: in a run of reads of one key
    where each read comes within the [ttl] (the stored one, or the effective
    one, [TTL.medium] for a stored 0) of the one before (the first within
    that of the stored time), every read returns the payload, whatever the
    time elapsed since the entry was stored, and the entry ends with the
    timestamp of the last read, payload and [ttl] unchanged. *)
Theorem cacheGet_refreshes_timestamp {D : Type} (st : Cache.Store D)
    (key : string) (e : Cache.Entry D) (limit : Z) (reads : list (Z * Z)) :
  JsMap.get key (Cache.CACHE st) = Some e ->
  limit = Cache.ttl e \/ limit = Z_or (Cache.ttl e) TTL_medium ->
  Cache.paced limit (Cache.t e) reads ->
  Forall (fun r => r = Some (Cache.d e)) (fst (Cache.read_all reads key st))
  /\ List.length (fst (Cache.read_all reads key st)) = List.length reads
  /\ JsMap.get key (Cache.CACHE (snd (Cache.read_all reads key st)))
     = Some (Cache.mkEntry (Cache.d e)
               (Cache.last_stamp (Cache.t e) reads) (Cache.ttl e)).
Proof.
  intros Hget Hlimit Hp.
  assert (Hle : limit <= Z_or (Cache.ttl e) TTL_medium).
  { destruct Hlimit as [->| ->]; [|lia].
    unfold Z_or, TTL_medium. destruct (Cache.ttl e =? 0) eqn:E; [|lia].
    apply Z.eqb_eq in E. lia. }
  destruct (read_all_refreshes reads st key e Hget
              (paced_weaken _ _ Hle reads _ Hp)) as [Hres Hfinal].
  rewrite Hres. repeat split.
  - apply Forall_forall. intros r Hr. apply in_map_iff in Hr as [_ [<- _]].
    reflexivity.
  - apply length_map.
  - exact Hfinal.
Qed.

(** An entry stored at time 0 with a [ttl] of 100 ms and read every 90 ms
    is still served at time 270, and carries the stamp of that read. *)
Lemma cacheGet_refreshes_timestamp_witness :
  Cache.paced 100 0 [(90, 91); (180, 181); (270, 271)]
  /\ fst (Cache.read_all [(90, 91); (180, 181); (270, 271)] "k"
            (Cache.cacheSet 0 0 "k" "v" (Some 100) Cache.empty))
     = [Some "v"; Some "v"; Some "v"]
  /\ JsMap.get "k"
       (Cache.CACHE
          (snd (Cache.read_all [(90, 91); (180, 181); (270, 271)] "k"
                  (Cache.cacheSet 0 0 "k" "v" (Some 100) Cache.empty))))
     = Some (Cache.mkEntry "v" 271 100).
Proof.
  assert (Hp : Cache.paced 100 0 [(90, 91); (180, 181); (270, 271)])
    by (cbn; repeat split; discriminate).
  pose proof (cacheGet_refreshes_timestamp
                (Cache.cacheSet 0 0 "k" "v" (Some 100) Cache.empty) "k"
                (Cache.mkEntry "v" 0 100) 100 [(90, 91); (180, 181); (270, 271)]
                eq_refl (or_introl eq_refl) Hp) as [_ [_ Hlast]].
  split; [exact Hp|]. split; [reflexivity | exact Hlast].
Defined.

(** ** The retry executor *)

Lemma try_block_non_retryable (attempt : nat) (o : Http.FetchOutcome) :
  Http.non_retryable o = true ->
  Http.try_block attempt o = Http.TryThrow (Http.error_of o).
Proof.
  destruct o as [e|r]; simpl; [discriminate|].
  destruct (Http.ok r).
  - destruct (Http.body r); [reflexivity | discriminate].
  - destruct ((Http.status r =? 429) || (Http.status r >=? 500));
      [discriminate | reflexivity].
Qed.

Lemma try_block_retryable (attempt : nat) (o : Http.FetchOutcome) :
  Http.retryable_status o = true ->
  Http.try_block attempt o = Http.TryContinue (Http.wait_of attempt o).
Proof.
  destruct o as [e|r]; simpl; [discriminate|].
  destruct (Http.ok r); simpl; [discriminate|].
  now intros ->.
Qed.

(** The loop when every remaining attempt meets a non-retryable condition:
    each attempt but the last is followed by the exponential delay and
    another attempt. *)
Lemma retry_loop_non_retryable (fetch : nat -> Http.FetchOutcome)
    (maxRetries : nat) :
  forall (remaining attempt : nat) (lastError : Thrown),
  (attempt + S remaining = maxRetries)%nat ->
  (forall a, (attempt <= a < maxRetries)%nat -> Http.non_retryable (fetch a) = true) ->
  Http.retry_loop fetch maxRetries (S remaining) attempt lastError
  = (flat_map (fun a => [Http.EvFetch a; Http.EvDelay (1000 * 2 ^ Z.of_nat a)])
       (seq attempt remaining)
     ++ [Http.EvFetch (maxRetries - 1)],
     Http.Threw (ThrowError
       (Http.failed_after maxRetries (Http.error_of (fetch (maxRetries - 1)%nat))))).
Proof.
  induction remaining as [|remaining IH]; intros attempt lastError Hsum Hall.
  - cbn [Http.retry_loop].
    rewrite try_block_non_retryable by (apply Hall; lia).
    replace (maxRetries - 1)%nat with attempt by lia.
    now rewrite Nat.eqb_refl.
  - cbn [Http.retry_loop].
    rewrite try_block_non_retryable by (apply Hall; lia).
    replace (Nat.eqb attempt (maxRetries - 1)) with false
      by (symmetry; apply Nat.eqb_neq; lia).
    change (match Http.try_block (S attempt) (fetch (S attempt)) with
            | Http.TryReturn v => ([Http.EvFetch (S attempt)], Http.Returned v)
            | Http.TryContinue waitTime => _
            | Http.TryThrow e => _
            end)
      with (Http.retry_loop fetch maxRetries (S remaining) (S attempt)
              (ThrowError (Http.error_of (fetch attempt)))).
    rewrite IH by (try lia; intros a Ha; apply Hall; lia).
    reflexivity.
Qed.

(** The loop when every remaining attempt gets a 429 or 5xx response:
    [lastError] is never assigned and comes out as it went in. *)
Lemma retry_loop_retryable (fetch : nat -> Http.FetchOutcome) (maxRetries : nat) :
  forall (remaining attempt : nat) (lastError : Thrown),
  (forall a, (attempt <= a < attempt + remaining)%nat ->
             Http.retryable_status (fetch a) = true) ->
  Http.retry_loop fetch maxRetries remaining attempt lastError
  = (flat_map (fun a => [Http.EvFetch a; Http.EvDelay (Http.wait_of a (fetch a))])
       (seq attempt remaining),
     Http.Threw lastError).
Proof.
  induction remaining as [|remaining IH]; intros attempt lastError Hall.
  - reflexivity.
  - cbn [Http.retry_loop].
    rewrite try_block_retryable by (apply Hall; lia).
    rewrite IH by (intros a Ha; apply Hall; lia).
    reflexivity.
Qed.

Lemma fetch_count_pairs (f : nat -> Z) (l : list nat) (tl : list Http.Event) :
  Http.fetch_count
    (flat_map (fun a => [Http.EvFetch a; Http.EvDelay (f a)]) l ++ tl)
  = (List.length l + Http.fetch_count tl)%nat.
Proof.
  unfold Http.fetch_count. induction l as [|a l IH]; simpl; [reflexivity|].
  now rewrite IH.
Qed.

Lemma delays_pairs (f : nat -> Z) (l : list nat) (tl : list Http.Event) :
  Http.delays (flat_map (fun a => [Http.EvFetch a; Http.EvDelay (f a)]) l ++ tl)
  = map f l ++ Http.delays tl.
Proof.
  unfold Http.delays. induction l as [|a l IH]; simpl; [reflexivity|].
  now rewrite IH.
Qed.

(** One iteration that meets a non-retryable condition: the last one
    surfaces the failure, any other one waits and goes on. *)
Lemma retry_loop_step_non_retryable (fetch : nat -> Http.FetchOutcome)
    (maxRetries remaining attempt : nat) (lastError : Thrown) :
  Http.non_retryable (fetch attempt) = true ->
  Http.retry_loop fetch maxRetries (S remaining) attempt lastError
  = if Nat.eqb attempt (maxRetries - 1) then
      ([Http.EvFetch attempt],
       Http.Threw (ThrowError
         (Http.failed_after maxRetries (Http.error_of (fetch attempt)))))
    else
      (Http.EvFetch attempt :: Http.EvDelay (1000 * 2 ^ Z.of_nat attempt)
       :: fst (Http.retry_loop fetch maxRetries remaining (S attempt)
                 (ThrowError (Http.error_of (fetch attempt)))),
       snd (Http.retry_loop fetch maxRetries remaining (S attempt)
              (ThrowError (Http.error_of (fetch attempt))))).
Proof.
  intros Hnr. cbn [Http.retry_loop]. rewrite try_block_non_retryable by assumption.
  destruct (Nat.eqb attempt (maxRetries - 1)); [reflexivity|].
  now destruct (Http.retry_loop fetch maxRetries remaining (S attempt) _).
Qed.

(** C3, as amended.  A non-retryable condition (a status outside 2xx other
    than 429 and 5xx, or a 2xx response whose body cannot be read) is thrown
    into the [catch] block that also handles transport errors: in any
    iteration but the last it is followed by a delay of [1000 * 2^attempt] ms
    and the next attempt; only in the last iteration
    ([attempt = maxRetries - 1]) does it surface at once, with no delay, as
    "Failed after [maxRetries] attempts: " followed by the message of the
    error.  When every attempt meets such a condition, [fetch] is called
    [maxRetries] times. *)
Theorem fetchWithRetry_non_retryable (fetch : nat -> Http.FetchOutcome)
    (maxRetries : nat) :
  (forall remaining attempt lastError,
     Http.non_retryable (fetch attempt) = true ->
     (attempt <> maxRetries - 1)%nat ->
     exists log res,
       Http.retry_loop fetch maxRetries remaining (S attempt)
         (ThrowError (Http.error_of (fetch attempt))) = (log, res)
       /\ Http.retry_loop fetch maxRetries (S remaining) attempt lastError
          = (Http.EvFetch attempt :: Http.EvDelay (1000 * 2 ^ Z.of_nat attempt)
             :: log, res))
  /\ (forall remaining attempt lastError,
       Http.non_retryable (fetch attempt) = true ->
       attempt = (maxRetries - 1)%nat ->
       Http.retry_loop fetch maxRetries (S remaining) attempt lastError
       = ([Http.EvFetch attempt],
          Http.Threw (ThrowError
            (Http.failed_after maxRetries (Http.error_of (fetch attempt))))))
  /\ ((0 < maxRetries)%nat ->
      (forall a, (a < maxRetries)%nat -> Http.non_retryable (fetch a) = true) ->
      Http.fetch_count (fst (Http.fetchWithRetry fetch maxRetries)) = maxRetries
      /\ Http.delays (fst (Http.fetchWithRetry fetch maxRetries))
         = map (fun a => 1000 * 2 ^ Z.of_nat a) (seq 0 (maxRetries - 1))
      /\ snd (Http.fetchWithRetry fetch maxRetries)
         = Http.Threw (ThrowError
             (Http.failed_after maxRetries
                (Http.error_of (fetch (maxRetries - 1)%nat))))).
Proof.
  split; [|split].
  - intros remaining attempt lastError Hnr Hne.
    rewrite retry_loop_step_non_retryable by assumption.
    apply Nat.eqb_neq in Hne. rewrite Hne.
    destruct (Http.retry_loop fetch maxRetries remaining (S attempt) _)
      as [log res].
    exists log, res. split; reflexivity.
  - intros remaining attempt lastError Hnr ->.
    rewrite retry_loop_step_non_retryable by assumption.
    now rewrite Nat.eqb_refl.
  - intros Hpos Hall. unfold Http.fetchWithRetry.
    destruct maxRetries as [|n]; [lia|].
    rewrite (retry_loop_non_retryable fetch (S n) n 0 ThrowUndefined)
      by (try lia; intros a Ha; apply Hall; lia).
    cbn [fst snd]. rewrite fetch_count_pairs, delays_pairs, length_seq.
    replace (S n - 1)%nat with n by lia.
    repeat split.
    + unfold Http.fetch_count. simpl. lia.
    + unfold Http.delays. simpl. now rewrite app_nil_r.
Qed.

(** A provider that answers 404 to each of three attempts: three calls of
    [fetch], delays of 1 s and 2 s, then the terminal failure. *)
Lemma fetchWithRetry_non_retryable_witness :
  Http.fetchWithRetry
    (fun _ => Http.FetchResolves (Http.mkResponse 404 "Not Found" None (inr ""))) 3
  = ([Http.EvFetch 0; Http.EvDelay 1000; Http.EvFetch 1; Http.EvDelay 2000;
      Http.EvFetch 2],
     Http.Threw (ThrowError
       (mkError "Error" "Failed after 3 attempts: HTTP 404: Not Found")))
  /\ Http.fetch_count
       (fst (Http.fetchWithRetry
          (fun _ => Http.FetchResolves (Http.mkResponse 404 "Not Found" None (inr "")))
          3)) = 3%nat.
Proof.
  split; [reflexivity|].
  apply (proj2 (proj2 (fetchWithRetry_non_retryable
           (fun _ => Http.FetchResolves (Http.mkResponse 404 "Not Found" None (inr "")))
           3))).
  - repeat constructor.
  - intros a _. reflexivity.
Defined.

(** C3 as stated fails: a 404 on the first attempt is not terminal; the
    executor waits one second, calls [fetch] again and returns the body of
    the second response. *)
Lemma fetchWithRetry_retries_404 :
  Http.non_retryable
    (Http.FetchResolves (Http.mkResponse 404 "Not Found" None (inr ""))) = true
  /\ Http.fetchWithRetry
       (fun attempt =>
          match attempt with
          | O => Http.FetchResolves (Http.mkResponse 404 "Not Found" None (inr ""))
          | S _ => Http.FetchResolves (Http.mkResponse 200 "OK" None (inr "<html>"))
          end) 5
     = ([Http.EvFetch 0; Http.EvDelay 1000; Http.EvFetch 1],
        Http.Returned "<html>").
Proof. split; reflexivity. Qed.

(** C4, on the code.  An iteration that gets a 429 or 5xx response waits
    and goes on without assigning [lastError].  So when every attempt gets
    such a response, [fetch] is called exactly [maxRetries] times, each call
    followed by its delay, and the function then throws the value of
    [lastError] as it was at the start: [undefined], not an error that
    carries the last failure. *)
Theorem fetchWithRetry_all_retryable (fetch : nat -> Http.FetchOutcome)
    (maxRetries : nat) :
  (forall remaining attempt lastError,
     Http.retryable_status (fetch attempt) = true ->
     exists log res,
       Http.retry_loop fetch maxRetries remaining (S attempt) lastError
       = (log, res)
       /\ Http.retry_loop fetch maxRetries (S remaining) attempt lastError
          = (Http.EvFetch attempt
             :: Http.EvDelay (Http.wait_of attempt (fetch attempt)) :: log, res))
  /\ ((forall a, (a < maxRetries)%nat -> Http.retryable_status (fetch a) = true) ->
      Http.fetch_count (fst (Http.fetchWithRetry fetch maxRetries)) = maxRetries
      /\ Http.delays (fst (Http.fetchWithRetry fetch maxRetries))
         = map (fun a => Http.wait_of a (fetch a)) (seq 0 maxRetries)
      /\ snd (Http.fetchWithRetry fetch maxRetries) = Http.Threw ThrowUndefined).
Proof.
  split.
  - intros remaining attempt lastError Hre. cbn [Http.retry_loop].
    rewrite try_block_retryable by assumption.
    destruct (Http.retry_loop fetch maxRetries remaining (S attempt) lastError)
      as [log res].
    exists log, res. split; reflexivity.
  - intros Hall. unfold Http.fetchWithRetry.
    rewrite (retry_loop_retryable fetch maxRetries maxRetries 0 ThrowUndefined)
      by (intros a Ha; apply Hall; lia).
    cbn [fst snd].
    rewrite <- (app_nil_r (flat_map _ _)).
    rewrite fetch_count_pairs, delays_pairs, length_seq.
    repeat split.
    + unfold Http.fetch_count. simpl. lia.
    + unfold Http.delays. simpl. now rewrite app_nil_r.
Qed.

(** A server that answers 500 to each of the five default attempts. *)
Lemma fetchWithRetry_all_retryable_witness :
  Http.fetchWithRetry
    (fun _ => Http.FetchResolves
                (Http.mkResponse 500 "Internal Server Error" None (inr "")))
    MAX_RETRIES
  = ([Http.EvFetch 0; Http.EvDelay 1000; Http.EvFetch 1; Http.EvDelay 2000;
      Http.EvFetch 2; Http.EvDelay 3000; Http.EvFetch 3; Http.EvDelay 4000;
      Http.EvFetch 4; Http.EvDelay 5000],
     Http.Threw ThrowUndefined)
  /\ snd (Http.fetchWithRetry
            (fun _ => Http.FetchResolves
                        (Http.mkResponse 500 "Internal Server Error" None (inr "")))
            MAX_RETRIES) = Http.Threw ThrowUndefined.
Proof.
  split; [reflexivity|].
  apply (proj2 (fetchWithRetry_all_retryable
           (fun _ => Http.FetchResolves
                       (Http.mkResponse 500 "Internal Server Error" None (inr "")))
           MAX_RETRIES)).
  intros a _. reflexivity.
Defined.

(** ** Deduplication in [webSearch] *)

Lemma Qgtb_true (x y : Q) : Qgtb x y = true -> (y < x)%Q.
Proof.
  unfold Qgtb. intros H. apply negb_true_iff in H.
  apply Qnot_le_lt. intros Hle. apply Qle_bool_iff in Hle. congruence.
Qed.

Lemma Qgtb_false (x y : Q) : Qgtb x y = false -> (x <= y)%Q.
Proof.
  unfold Qgtb. intros H. apply negb_false_iff in H. now apply Qle_bool_iff.
Qed.

Lemma dedup_step_inv (seenUrls : JsMap.t Web.Result) (seen : list Web.Result)
    (result : Web.Result) :
  dedup_inv seenUrls seen ->
  dedup_inv (Web.dedup_step seenUrls result) (seen ++ [result]).
Proof.
  intros [Hwf Hsound Hbest].
  assert (Hkeep : dedup_inv seenUrls seen ->
                  (forall u, Web.url result = Some u -> u <> "" ->
                     exists r', JsMap.get u seenUrls = Some r'
                                /\ (Web.ws result <= Web.ws r')%Q) ->
                  dedup_inv seenUrls (seen ++ [result])).
  { intros _ Hres. constructor; [assumption| |].
    - intros u r Hin. destruct (Hsound u r Hin) as (H1 & H2 & H3).
      repeat split; auto. apply in_or_app. now left.
    - intros r u Hin Hu Hne. apply in_app_or in Hin as [Hin|[<-|[]]]; eauto. }
  unfold Web.dedup_step.
  destruct (Web.url result) as [u|] eqn:Hurl.
  2:{ apply Hkeep; [now constructor|]. intros u Hu. discriminate. }
  destruct (String.eqb_spec u "") as [->|Hne].
  { apply Hkeep; [now constructor|]. intros u Hu Hne. congruence. }
  assert (Hset : forall existing_le : (forall r, In r seen -> Web.url r = Some u ->
                                          (Web.ws r <= Web.ws result)%Q),
             dedup_inv (JsMap.set u result seenUrls) (seen ++ [result])).
  { intros Hle. constructor.
    - now apply wf_set.
    - intros u' r Hin. apply In_set in Hin as [Heq|Hin].
      + injection Heq as -> ->. repeat split; auto.
        apply in_or_app. right. now left.
      + destruct (Hsound u' r Hin) as (H1 & H2 & H3).
        repeat split; auto. apply in_or_app. now left.
    - intros r u' Hin Hu' Hne'.
      destruct (String.eqb_spec u' u) as [->|Hdiff].
      + exists result. rewrite get_set_same. split; [reflexivity|].
        apply in_app_or in Hin as [Hin|[<-|[]]]; [now apply Hle | apply Qle_refl].
      + rewrite get_set_other by assumption.
        apply in_app_or in Hin as [Hin|[<-|[]]]; [eauto | congruence]. }
  destruct (JsMap.get u seenUrls) as [existing|] eqn:Hget.
  - destruct (Qgtb (Web.ws result) (Web.ws existing)) eqn:Hgt.
    + apply Hset. intros r Hin Hu.
      destruct (Hbest r u Hin Hu Hne) as (r' & Hr' & Hle).
      rewrite Hget in Hr'. injection Hr' as <-.
      apply Qgtb_true in Hgt. eapply Qle_trans; [exact Hle | now apply Qlt_le_weak].
    + apply Hkeep; [now constructor|]. intros u' Hu' _.
      injection Hu' as <-. exists existing. split; [assumption|].
      now apply Qgtb_false.
  - apply Hset. intros r Hin Hu.
    destruct (Hbest r u Hin Hu Hne) as (r' & Hr' & _). congruence.
Qed.

Lemma dedup_fold_inv (l : list Web.Result) :
  forall seenUrls seen,
  dedup_inv seenUrls seen ->
  dedup_inv (fold_left Web.dedup_step l seenUrls) (seen ++ l).
Proof.
  induction l as [|r l IH]; intros seenUrls seen Hinv; simpl.
  - now rewrite app_nil_r.
  - replace (seen ++ r :: l) with ((seen ++ [r]) ++ l)
      by (now rewrite <- app_assoc).
    apply IH. now apply dedup_step_inv.
Qed.

Lemma dedup_inv_all (allResults : list Web.Result) :
  dedup_inv (Web.dedup allResults) allResults.
Proof.
  apply (dedup_fold_inv allResults [] []).
  constructor; [apply NoDup_nil| |]; simpl; intros; contradiction.
Qed.

(** A result with another [url], or none, appended to the processed ones
    leaves every entry where it stands. *)
Lemma first_best_snoc_other (seenUrls : JsMap.t Web.Result)
    (seen : list Web.Result) (result : Web.Result) (u : string) (r : Web.Result) :
  first_best seenUrls seen ->
  JsMap.get u seenUrls = Some r ->
  (Web.url result = Some u -> (Web.ws result <= Web.ws r)%Q) ->
  exists l1 l2, seen ++ [result] = l1 ++ r :: l2
    /\ (forall r', In r' l1 -> Web.url r' = Some u -> (Web.ws r' < Web.ws r)%Q)
    /\ (forall r', In r' l2 -> Web.url r' = Some u -> (Web.ws r' <= Web.ws r)%Q).
Proof.
  intros Hfirst Hget Hres.
  destruct (Hfirst u r Hget) as (l1 & l2 & -> & Hbefore & Hafter).
  exists l1, (l2 ++ [result]). split; [now rewrite <- app_assoc|].
  split; [assumption|].
  intros r' Hin Hu. apply in_app_or in Hin as [Hin|[<-|[]]]; auto.
Qed.

(** The loop replaces an entry only by a result that scores strictly more
    (the test [>] of the source), so the entry stays the earliest of the
    best results of its [url]. *)
Lemma dedup_step_first_best (seenUrls : JsMap.t Web.Result)
    (seen : list Web.Result) (result : Web.Result) :
  dedup_inv seenUrls seen ->
  first_best seenUrls seen ->
  first_best (Web.dedup_step seenUrls result) (seen ++ [result]).
Proof.
  intros [Hwf Hsound Hbest] Hfirst.
  assert (Hkeys : forall u r, JsMap.get u seenUrls = Some r -> u <> "").
  { intros u r Hget. apply get_Some_In in Hget. now apply Hsound in Hget. }
  assert (Hset : forall u,
             Web.url result = Some u ->
             (forall r', In r' seen -> Web.url r' = Some u ->
                         (Web.ws r' < Web.ws result)%Q) ->
             first_best (JsMap.set u result seenUrls) (seen ++ [result])).
  { intros u Hu Hless u' r Hget.
    destruct (String.eqb_spec u' u) as [->|Hdiff].
    - rewrite get_set_same in Hget. injection Hget as <-.
      exists seen, []. split; [reflexivity|]. split; [assumption|].
      intros r' [].
    - rewrite get_set_other in Hget by assumption.
      apply (first_best_snoc_other seenUrls); auto. intros Hu'. congruence. }
  unfold Web.dedup_step.
  destruct (Web.url result) as [u|] eqn:Hurl.
  2:{ intros u r Hget. apply (first_best_snoc_other seenUrls); auto.
      intros Hu. congruence. }
  destruct (String.eqb_spec u "") as [->|Hne].
  { intros u r Hget. apply (first_best_snoc_other seenUrls); auto.
    intros Hu. rewrite Hurl in Hu. injection Hu as <-. now apply Hkeys in Hget. }
  destruct (JsMap.get u seenUrls) as [existing|] eqn:Hget.
  - destruct (Qgtb (Web.ws result) (Web.ws existing)) eqn:Hgt.
    + apply Hset; [reflexivity|]. intros r' Hin Hu.
      destruct (Hbest r' u Hin Hu Hne) as (r2 & Hr2 & Hle).
      rewrite Hget in Hr2. injection Hr2 as <-.
      apply Qgtb_true in Hgt. eapply Qle_lt_trans; eassumption.
    + intros u' r Hget'. apply (first_best_snoc_other seenUrls); auto.
      intros Hu. rewrite Hurl in Hu. injection Hu as <-.
      rewrite Hget in Hget'. injection Hget' as <-.
      now apply Qgtb_false.
  - apply Hset; [reflexivity|]. intros r' Hin Hu.
    destruct (Hbest r' u Hin Hu Hne) as (r2 & Hr2 & _). congruence.
Qed.

Lemma dedup_fold_first_best (l : list Web.Result) :
  forall seenUrls seen,
  dedup_inv seenUrls seen -> first_best seenUrls seen ->
  first_best (fold_left Web.dedup_step l seenUrls) (seen ++ l).
Proof.
  induction l as [|r l IH]; intros seenUrls seen Hinv Hfirst; simpl.
  - now rewrite app_nil_r.
  - replace (seen ++ r :: l) with ((seen ++ [r]) ++ l)
      by (now rewrite <- app_assoc).
    apply IH; [now apply dedup_step_inv | now apply dedup_step_first_best].
Qed.

Lemma dedup_first_best (allResults : list Web.Result) :
  first_best (Web.dedup allResults) allResults.
Proof.
  apply (dedup_fold_first_best allResults [] []).
  - constructor; [apply NoDup_nil| |]; simpl; intros; contradiction.
  - intros u r Hget. discriminate.
Qed.

Lemma dedup_urls_NoDup (allResults : list Web.Result) :
  NoDup (map Web.url (JsMap.values (Web.dedup allResults))).
Proof.
  destruct (dedup_inv_all allResults) as [Hwf Hsound _].
  assert (Heq : map Web.url (JsMap.values (Web.dedup allResults))
                = map Some (JsMap.keys (Web.dedup allResults))).
  { unfold JsMap.values, JsMap.keys. rewrite !map_map.
    apply map_ext_in. intros [u r] Hin. simpl. now apply Hsound. }
  rewrite Heq. apply Finite.Injective_map_NoDup; [|exact Hwf].
  intros x y Hxy. congruence.
Qed.

Lemma uniqueResults_In (allResults : list Web.Result) (r : Web.Result) :
  In r (Web.uniqueResults allResults)
  <-> exists u, In (u, r) (Web.dedup allResults).
Proof.
  unfold Web.uniqueResults. rewrite stable_sort_In.
  unfold JsMap.values. rewrite in_map_iff. split.
  - intros [[u r'] [Heq Hin]]. simpl in Heq. subst r'. eauto.
  - intros [u Hin]. exists (u, r). auto.
Qed.

Lemma uniqueResults_NoDup (allResults : list Web.Result) :
  NoDup (map Web.url (Web.uniqueResults allResults)).
Proof.
  eapply Permutation_NoDup; [|apply dedup_urls_NoDup].
  apply Permutation_map, Permutation_sym, stable_sort_perm.
Qed.

(** ** Deduplication in [imageSearch], [newsSearch] and [videoSearch] *)

Lemma str_in_iff (s : string) (l : list string) : str_in s l = true <-> In s l.
Proof.
  unfold str_in. rewrite existsb_exists. split.
  - intros [x [Hin Heq]]. apply String.eqb_eq in Heq. now subst.
  - intros Hin. exists s. split; [assumption | apply String.eqb_refl].
Qed.

Section DedupFirst.
Context {A : Type} (key : A -> option string).

(** A kept item has a truthy key that the set did not hold, and is the
    first item of the list with that key. *)
Lemma dedup_first_kept (all : list A) :
  forall seenUrls x,
  In x (dedup_first key seenUrls all) ->
  exists u, key x = Some u /\ u <> "" /\ ~ In u seenUrls
            /\ exists l1 l2, all = l1 ++ x :: l2
                             /\ forall y, In y l1 -> key y <> Some u.
Proof.
  induction all as [|a rest IH]; intros seenUrls x Hin; simpl in Hin.
  - contradiction.
  - assert (Hskip : In x (dedup_first key seenUrls rest) ->
                    (forall u, key a = Some u -> u = "" \/ In u seenUrls) ->
                    exists u, key x = Some u /\ u <> "" /\ ~ In u seenUrls
                      /\ exists l1 l2, a :: rest = l1 ++ x :: l2
                           /\ forall y, In y l1 -> key y <> Some u).
    { intros Hx Ha. destruct (IH _ _ Hx) as (u & Hu & Hne & Hnew & l1 & l2 & Hl & Hl1).
      exists u. repeat split; auto. exists (a :: l1), l2. split.
      - simpl. now f_equal.
      - intros y [<-|Hy]; [|now apply Hl1].
        intros Hk. destruct (Ha u Hk) as [->|Hseen]; [congruence | contradiction]. }
    destruct (key a) as [ua|] eqn:Hka.
    2:{ apply Hskip; [assumption|]. intros u Hu. discriminate. }
    destruct (String.eqb_spec ua "") as [->|Hne]; simpl in Hin.
    { apply Hskip; [assumption|]. intros u [= <-]. now left. }
    destruct (str_in ua seenUrls) eqn:Hseen.
    { apply Hskip; [assumption|]. intros u [= <-]. right. now apply str_in_iff. }
    destruct Hin as [<-|Hin].
    + exists ua. repeat split; auto.
      * intros H. apply str_in_iff in H. congruence.
      * exists [], rest. split; [reflexivity | intros y []].
    + destruct (IH _ _ Hin) as (u & Hu & Hune & Hnew & l1 & l2 & Hl & Hl1).
      exists u. repeat split; auto.
      * intros H. apply Hnew. now right.
      * exists (a :: l1), l2. split; [simpl; now f_equal|].
        intros y [<-|Hy]; [|now apply Hl1].
        rewrite Hka. intros [= ->]. apply Hnew. now left.
Qed.

Lemma dedup_first_In (seenUrls : list string) (all : list A) (x : A) :
  In x (dedup_first key seenUrls all) -> In x all.
Proof.
  intros Hin. destruct (dedup_first_kept _ _ _ Hin) as (_ & _ & _ & _ & l1 & l2 & -> & _).
  apply in_or_app. right. now left.
Qed.

Lemma dedup_first_NoDup (all : list A) :
  forall seenUrls, NoDup (map key (dedup_first key seenUrls all)).
Proof.
  induction all as [|a rest IH]; intros seenUrls; simpl.
  - constructor.
  - destruct (key a) as [ua|] eqn:Hka; [|apply IH].
    destruct (String.eqb ua "" || str_in ua seenUrls); [apply IH|].
    simpl. constructor; [|apply IH].
    rewrite Hka. intros Hin. apply in_map_iff in Hin as [x [Hx Hin]].
    destruct (dedup_first_kept _ _ _ Hin) as (u & Hu & _ & Hnew & _).
    apply Hnew. left. congruence.
Qed.
End DedupFirst.

Section DedupFirstAll.
Context {A : Type} (key : A -> option string).

(** Every item with a truthy key is represented: its key is in the set, or
    an item with that key is kept. *)
Lemma dedup_first_complete (all : list A) :
  forall seenUrls a u,
  In a all -> key a = Some u -> u <> "" ->
  In u seenUrls
  \/ exists a', In a' (dedup_first key seenUrls all) /\ key a' = Some u.
Proof.
  induction all as [|x rest IH]; intros seenUrls a u Hin Hu Hne;
    [contradiction|].
  simpl. destruct Hin as [->|Hin].
  - rewrite Hu. destruct (String.eqb_spec u "") as [->|_]; [congruence|].
    simpl. destruct (str_in u seenUrls) eqn:Hseen.
    + left. now apply str_in_iff.
    + right. exists a. split; [now left | assumption].
  - destruct (key x) as [ux|] eqn:Hx; [|now apply IH with (a := a)].
    destruct (String.eqb ux "" || str_in ux seenUrls);
      [now apply IH with (a := a)|].
    destruct (IH (ux :: seenUrls) a u Hin Hu Hne) as [[->|Hseen]|(a' & Ha' & Hk)].
    + right. exists x. split; [now left | assumption].
    + now left.
    + right. exists a'. split; [now right | assumption].
Qed.
End DedupFirstAll.

Lemma has_iff (x : option string) (l : list (option string)) :
  Videos.has x l = true <-> In x l.
Proof.
  unfold Videos.has. rewrite existsb_exists. split.
  - intros [y [Hin Heq]]. destruct x as [a|], y as [b|]; try discriminate.
    + apply String.eqb_eq in Heq. now subst.
    + assumption.
  - intros Hin. exists x. split; [assumption|].
    destruct x; [apply String.eqb_refl | reflexivity].
Qed.

Lemma videos_dedup_kept (allVideos : list Videos.Video) :
  forall seenIds seenUrls v,
  In v (Videos.dedup seenIds seenUrls allVideos) ->
  In v allVideos /\ ~ In (Videos.url v) seenUrls
  /\ ~ In (Videos.id_of v) seenIds /\ str_truthy (Videos.id_of v) = true.
Proof.
  induction allVideos as [|a rest IH]; intros seenIds seenUrls v Hin;
    simpl in Hin; [contradiction|].
  destruct (str_truthy (Videos.id_of a)) eqn:Hid; simpl in Hin.
  2:{ destruct (IH _ _ _ Hin) as (H1 & H2 & H3 & H4). repeat split; auto. now right. }
  destruct (Videos.has (Videos.id_of a) seenIds) eqn:Hids; simpl in Hin.
  { destruct (IH _ _ _ Hin) as (H1 & H2 & H3 & H4). repeat split; auto. now right. }
  destruct (Videos.has (Videos.url a) seenUrls) eqn:Hurls; simpl in Hin.
  { destruct (IH _ _ _ Hin) as (H1 & H2 & H3 & H4). repeat split; auto. now right. }
  destruct Hin as [<-|Hin].
  - repeat split; auto.
    + now left.
    + intros H. apply has_iff in H. congruence.
    + intros H. apply has_iff in H. congruence.
  - destruct (IH _ _ _ Hin) as (H1 & H2 & H3 & H4). repeat split; auto.
    + now right.
    + intros H. apply H2. now right.
    + intros H. apply H3. now right.
Qed.

Lemma videos_dedup_NoDup (allVideos : list Videos.Video) :
  forall seenIds seenUrls,
  NoDup (map Videos.url (Videos.dedup seenIds seenUrls allVideos))
  /\ NoDup (map Videos.id_of (Videos.dedup seenIds seenUrls allVideos)).
Proof.
  induction allVideos as [|a rest IH]; intros seenIds seenUrls; simpl.
  - split; constructor.
  - destruct (str_truthy (Videos.id_of a)); simpl; [|apply IH].
    destruct (Videos.has (Videos.id_of a) seenIds
              || Videos.has (Videos.url a) seenUrls); [apply IH|].
    simpl. destruct (IH (Videos.id_of a :: seenIds) (Videos.url a :: seenUrls))
      as [Hu Hi].
    split; constructor; auto; intros Hin;
      apply in_map_iff in Hin as [v [Hv Hin]];
      destruct (videos_dedup_kept _ _ _ _ Hin) as (_ & H2 & H3 & _).
    + apply H2. left. congruence.
    + apply H3. left. congruence.
Qed.

(** What [videoSearch] keeps of a list does not depend on what follows it:
    a later video never displaces a kept one. *)
Lemma videos_dedup_prefix (l1 l2 : list Videos.Video) :
  forall seenIds seenUrls,
  exists rest,
    Videos.dedup seenIds seenUrls (l1 ++ l2)
    = Videos.dedup seenIds seenUrls l1 ++ rest.
Proof.
  induction l1 as [|v l1 IH]; intros seenIds seenUrls; simpl.
  - eauto.
  - destruct (negb (str_truthy (Videos.id_of v))); [apply IH|].
    destruct (Videos.has (Videos.id_of v) seenIds
              || Videos.has (Videos.url v) seenUrls); [apply IH|].
    destruct (IH (Videos.id_of v :: seenIds) (Videos.url v :: seenUrls))
      as [rest ->].
    exists rest. reflexivity.
Qed.

(** A kept video splits the list: what was kept before it does not depend
    on what follows. *)
Lemma videos_dedup_split (allVideos : list Videos.Video) :
  forall seenIds seenUrls v,
  In v (Videos.dedup seenIds seenUrls allVideos) ->
  exists l1 l2 rest,
    allVideos = l1 ++ v :: l2
    /\ Videos.dedup seenIds seenUrls allVideos
       = Videos.dedup seenIds seenUrls l1 ++ v :: rest.
Proof.
  induction allVideos as [|a rest0 IH]; intros seenIds seenUrls v Hin;
    simpl in Hin; [contradiction|].
  assert (Hskip : forall skipped : (negb (str_truthy (Videos.id_of a))
                                   || (Videos.has (Videos.id_of a) seenIds
                                       || Videos.has (Videos.url a) seenUrls)) = true,
             In v (Videos.dedup seenIds seenUrls rest0) ->
             exists l1 l2 rest,
               a :: rest0 = l1 ++ v :: l2
               /\ Videos.dedup seenIds seenUrls (a :: rest0)
                  = Videos.dedup seenIds seenUrls l1 ++ v :: rest).
  { intros Hs Hv. destruct (IH _ _ _ Hv) as (l1 & l2 & rest & Hl & Hd).
    exists (a :: l1), l2, rest. split; [simpl; now f_equal|].
    simpl. destruct (negb (str_truthy (Videos.id_of a))); [assumption|].
    simpl in Hs. now rewrite Hs. }
  destruct (negb (str_truthy (Videos.id_of a))) eqn:Hid; [now apply Hskip|].
  destruct (Videos.has (Videos.id_of a) seenIds
            || Videos.has (Videos.url a) seenUrls) eqn:Hhas; [now apply Hskip|].
  destruct Hin as [<-|Hin].
  - exists [], rest0, (Videos.dedup (Videos.id_of a :: seenIds)
                         (Videos.url a :: seenUrls) rest0).
    split; [reflexivity|]. simpl. now rewrite Hid, Hhas.
  - destruct (IH _ _ _ Hin) as (l1 & l2 & rest & Hl & Hd).
    exists (a :: l1), l2, rest. split; [simpl; now f_equal|].
    simpl. rewrite Hid, Hhas. simpl. now f_equal.
Qed.

(** Every video with an id is represented: its id or its [url] is in the
    sets, or a video with that id or that [url] is kept. *)
Lemma videos_dedup_complete (allVideos : list Videos.Video) :
  forall seenIds seenUrls v,
  In v allVideos -> str_truthy (Videos.id_of v) = true ->
  In (Videos.id_of v) seenIds \/ In (Videos.url v) seenUrls
  \/ exists v', In v' (Videos.dedup seenIds seenUrls allVideos)
                /\ (Videos.id_of v' = Videos.id_of v
                    \/ Videos.url v' = Videos.url v).
Proof.
  induction allVideos as [|a rest IH]; intros seenIds seenUrls v Hin Hid;
    [contradiction|].
  simpl. destruct Hin as [->|Hin].
  - rewrite Hid. simpl.
    destruct (Videos.has (Videos.id_of v) seenIds) eqn:Hids; simpl.
    { left. now apply has_iff. }
    destruct (Videos.has (Videos.url v) seenUrls) eqn:Hurls.
    { right. left. now apply has_iff. }
    right. right. exists v. split; [now left | now left].
  - destruct (negb (str_truthy (Videos.id_of a))); [now apply IH|].
    destruct (Videos.has (Videos.id_of a) seenIds
              || Videos.has (Videos.url a) seenUrls); [now apply IH|].
    destruct (IH (Videos.id_of a :: seenIds) (Videos.url a :: seenUrls) v Hin Hid)
      as [[Heq|Hseen]|[[Heq|Hseen]|(v' & Hv' & Hsame)]].
    + right. right. exists a. split; [now left | now left].
    + now left.
    + right. right. exists a. split; [now left | now right].
    + right. now left.
    + right. right. exists v'. split; [now right | assumption].
Qed.

Lemma js_slice_from_0 {A : Type} (n : Z) (l : list A) :
  0 <= n -> js_slice 0 n l = firstn (Z.to_nat n) l.
Proof.
  intros Hn. unfold js_slice, rel_index.
  replace (0 <? 0) with false by reflexivity.
  replace (n <? 0) with false by (symmetry; apply Z.ltb_ge; lia).
  replace (Z.to_nat (Z.min 0 (Z.of_nat (List.length l)))) with 0%nat by lia.
  rewrite skipn_O.
  replace (Z.to_nat (Z.max (Z.min n (Z.of_nat (List.length l))
                            - Z.min 0 (Z.of_nat (List.length l))) 0))
    with (Nat.min (Z.to_nat n) (List.length l)) by lia.
  destruct (Nat.le_ge_cases (Z.to_nat n) (List.length l)) as [H|H].
  - now rewrite Nat.min_l.
  - rewrite Nat.min_r by assumption. now rewrite !firstn_all2 by lia.
Qed.

(** The first [n] items of a rearrangement of [l]: [n] of them when [l] has
    that many, all of [l] rearranged otherwise. *)
Lemma top_of_sorted {A : Type} (le : A -> A -> bool) (n : Z) (l : list A) :
  0 <= n ->
  Z.of_nat (List.length (js_slice 0 n (stable_sort le l)))
  = Z.min n (Z.of_nat (List.length l))
  /\ (Z.of_nat (List.length l) <= n ->
      Permutation (js_slice 0 n (stable_sort le l)) l).
Proof.
  intros Hn. rewrite js_slice_from_0 by assumption. split.
  - rewrite length_firstn, stable_sort_length. lia.
  - intros Hle. rewrite firstn_all2 by (rewrite stable_sort_length; lia).
    apply stable_sort_perm.
Qed.

Lemma promise_all_inr {A : Type} (l : list (Thrown + A)) (vs : list A) :
  promise_all l = inr vs -> l = map inr vs.
Proof.
  revert vs. induction l as [|[x|a] l IH]; intros vs; simpl.
  - now intros [= <-].
  - discriminate.
  - destruct (promise_all l) as [x|vs']; [discriminate|].
    intros [= <-]. simpl. f_equal. now apply IH.
Qed.

Lemma promise_all_all_inr {A : Type} (l : list (Thrown + A)) :
  (forall x, In x l -> exists a, x = inr a) -> exists vs, promise_all l = inr vs.
Proof.
  induction l as [|[x|a] l IH]; intros Hall; simpl.
  - eauto.
  - destruct (Hall (inl x)) as [a Ha]; [now left | discriminate].
  - destruct IH as [vs Hvs]; [intros x Hx; apply Hall; now right|].
    rewrite Hvs. eauto.
Qed.

(** The records of a primary round follow the registered providers, one
    each. *)
Lemma settle_all_providers {A : Type} (providers : list Provider)
    (primary : string -> Settled A) (ps : list (Settlement A)) :
  settle_all providers primary = inr ps ->
  Forall2 (fun p s => settle p (primary (pname p)) = inr s) providers ps.
Proof.
  unfold settle_all. intros H. apply promise_all_inr in H.
  revert ps H. induction providers as [|p providers IH]; intros ps H;
    destruct ps as [|s ps]; simpl in H; try discriminate.
  - constructor.
  - injection H as Hs Hrest. constructor; [assumption | now apply IH].
Qed.

Lemma weigh_order {A : Type} (stamp : string -> Q -> Q -> A -> A)
    (random : nat -> Q) (s : Settlement A) (l : list A) :
  forall draws,
  Forall2 (fun x sa => exists sc,
             x = stamp (s_name (fst sa)) (s_weight (fst sa)) sc (snd sa))
    (weigh stamp random draws (s_name s) (s_weight s) l) (map (pair s) l).
Proof.
  induction l as [|a l IH]; intros draws; simpl; constructor; simpl; eauto.
Qed.

(** What the loop gathers: provider by provider in the order of the
    records, item by item, each item stamped with the name and the weight
    of its provider. *)
Lemma gather_weighted_order {A : Type} (stamp : string -> Q -> Q -> A -> A)
    (random : nat -> Q) (ps : list (Settlement A)) :
  forall all draws,
  exists added,
    gather_weighted stamp random ps all draws = all ++ added
    /\ Forall2 (fun x sa => exists sc,
                  x = stamp (s_name (fst sa)) (s_weight (fst sa)) sc (snd sa))
         added
         (flat_map (fun s => if str_truthy (s_error s) then []
                             else map (pair s) (found s)) ps).
Proof.
  induction ps as [|p ps IH]; intros all draws; simpl.
  - exists []. split; [now rewrite app_nil_r | constructor].
  - destruct (str_truthy (s_error p)); [apply IH|].
    destruct (0 <? Z.of_nat (List.length (found p))) eqn:Hlen.
    + destruct (IH (all ++ weigh stamp random draws (s_name p) (s_weight p) (found p))
                  (draws + List.length (found p))%nat) as (added & -> & Hadded).
      exists (weigh stamp random draws (s_name p) (s_weight p) (found p) ++ added).
      split; [now rewrite app_assoc|].
      apply Forall2_app; [apply weigh_order | assumption].
    + apply Z.ltb_ge in Hlen.
      destruct (found p) as [|a l]; [|cbn [List.length] in Hlen; lia].
      simpl. apply IH.
Qed.

(** ** Uniqueness of addresses in the merged result sets *)

(** C1, as amended.  In the result set of [webSearch] no two items share a
    [url]; every kept item comes from the gathered results, has a [url], and
    no gathered result with the same [url] has a higher [weightScore] (an
    absent one counting as 0); every gathered result with a [url] is
    represented before pagination; and the kept item is the earliest of the
    best occurrences of its [url]: the occurrences gathered before it score
    strictly less, the ones gathered after it no more.  In the result sets
    of [newsSearch] and [videoSearch] no two items share a [url], and in
    that of [imageSearch] no two share an [image] address, but there the
    score plays no part: in [newsSearch] and [imageSearch] the item kept is
    the first occurrence, and in [videoSearch] a kept video is never
    displaced by a later one.  In these three searches every gathered item
    with an address (a video: with an id) is represented among the kept
    ones, and the result holds all the kept items when they are within the
    cap, the cap's number of them otherwise.  The list they deduplicate
    holds the items provider by provider in registration order, each
    provider's items in the order it returned them. *)
Theorem merged_addresses_unique :
  (forall (allResults : list Web.Result) (pg : Z),
     NoDup (map Web.url (Web.paginate pg (Web.uniqueResults allResults)))
     /\ (forall r, In r (Web.paginate pg (Web.uniqueResults allResults)) ->
                   In r (Web.uniqueResults allResults))
     /\ (forall r, In r (Web.uniqueResults allResults) ->
           In r allResults /\ str_truthy (Web.url r) = true
           /\ forall r', In r' allResults -> Web.url r' = Web.url r ->
                         (Web.ws r' <= Web.ws r)%Q)
     /\ (forall r', In r' allResults -> str_truthy (Web.url r') = true ->
           exists r, In r (Web.uniqueResults allResults)
                     /\ Web.url r = Web.url r')
     /\ (forall r, In r (Web.uniqueResults allResults) ->
           exists l1 l2, allResults = l1 ++ r :: l2
             /\ (forall r', In r' l1 -> Web.url r' = Web.url r ->
                            (Web.ws r' < Web.ws r)%Q)
             /\ (forall r', In r' l2 -> Web.url r' = Web.url r ->
                            (Web.ws r' <= Web.ws r)%Q)))
  /\ (forall env pg safeSearchLevel out,
        Web.aggregate env pg safeSearchLevel = inr out ->
        exists ps, Web.providerResults env = inr ps
          /\ out = Web.paginate pg
                     (Web.uniqueResults (Web.allResults env safeSearchLevel ps)))
  /\ (forall allArticles,
        NoDup (map News.url (News.merge allArticles))
        /\ (forall a, In a (News.merge allArticles) ->
             exists l1 l2, allArticles = l1 ++ a :: l2
               /\ forall b, In b l1 -> News.url b <> News.url a)
        /\ (forall a, In a (News.merge allArticles) ->
                      In a (News.dedup [] allArticles))
        /\ (forall a, In a allArticles -> str_truthy (News.url a) = true ->
              exists a', In a' (News.dedup [] allArticles)
                         /\ News.url a' = News.url a)
        /\ Z.of_nat (List.length (News.merge allArticles))
           = Z.min 50 (Z.of_nat (List.length (News.dedup [] allArticles)))
        /\ (Z.of_nat (List.length (News.dedup [] allArticles)) <= 50 ->
            Permutation (News.merge allArticles) (News.dedup [] allArticles)))
  /\ (forall allImages,
        NoDup (map Images.image (Images.merge allImages))
        /\ (forall a, In a (Images.merge allImages) ->
             exists l1 l2, allImages = l1 ++ a :: l2
               /\ forall b, In b l1 -> Images.image b <> Images.image a)
        /\ (forall a, In a (Images.merge allImages) ->
                      In a (Images.dedup [] allImages))
        /\ (forall a, In a allImages -> str_truthy (Images.image a) = true ->
              exists a', In a' (Images.dedup [] allImages)
                         /\ Images.image a' = Images.image a)
        /\ Z.of_nat (List.length (Images.merge allImages))
           = Z.min 150 (Z.of_nat (List.length (Images.dedup [] allImages)))
        /\ (Z.of_nat (List.length (Images.dedup [] allImages)) <= 150 ->
            Permutation (Images.merge allImages) (Images.dedup [] allImages)))
  /\ (forall allVideos,
        NoDup (map Videos.url (Videos.merge allVideos))
        /\ (forall v, In v (Videos.merge allVideos) -> In v allVideos)
        /\ (forall later, exists rest,
             Videos.dedup [] [] (allVideos ++ later)
             = Videos.dedup [] [] allVideos ++ rest)
        /\ (forall v, In v (Videos.merge allVideos) ->
              exists l1 l2 rest,
                allVideos = l1 ++ v :: l2
                /\ Videos.dedup [] [] allVideos
                   = Videos.dedup [] [] l1 ++ v :: rest
                /\ forall b, In b (Videos.dedup [] [] l1) ->
                     Videos.url b <> Videos.url v
                     /\ Videos.id_of b <> Videos.id_of v)
        /\ (forall v, In v allVideos -> str_truthy (Videos.id_of v) = true ->
              exists v', In v' (Videos.dedup [] [] allVideos)
                         /\ (Videos.id_of v' = Videos.id_of v
                             \/ Videos.url v' = Videos.url v))
        /\ Z.of_nat (List.length (Videos.merge allVideos))
           = Z.min 150 (Z.of_nat (List.length (Videos.dedup [] [] allVideos)))
        /\ (Z.of_nat (List.length (Videos.dedup [] [] allVideos)) <= 150 ->
            Permutation (Videos.merge allVideos) (Videos.dedup [] [] allVideos)))
  /\ (forall env random out,
        Images.aggregate env random = inr out ->
        exists ps allImages,
          settle_all Images.imageProviders (Images.primary env) = inr ps
          /\ fetch_more Images.tag (Images.additional env)
               Images.additionalSearches
               (gather_weighted Images.stamp random ps [] 0) = inr allImages
          /\ out = Images.merge allImages)
  /\ (forall env random out,
        Videos.aggregate env random = inr out ->
        exists ps allVideos,
          settle_all Videos.videoProviders (Videos.primary env) = inr ps
          /\ fetch_more Videos.tag (Videos.additional env)
               Videos.additionalSearches
               (gather_weighted Videos.stamp random ps [] 0) = inr allVideos
          /\ out = Videos.merge allVideos)
  /\ (forall extractDomain primary random safeSearchLevel out,
        News.aggregate extractDomain primary random safeSearchLevel = inr out ->
        exists ps allArticles,
          settle_all News.newsProviders primary = inr ps
          /\ (if String.eqb safeSearchLevel "strict"
              then News.filter_allowed extractDomain
                     (gather_weighted News.stamp random ps [] 0)
              else inr (gather_weighted News.stamp random ps [] 0))
             = inr allArticles
          /\ out = News.merge allArticles)
  /\ (forall (A : Type) (stamp : string -> Q -> Q -> A -> A) random
        providers primary ps,
        settle_all providers primary = inr ps ->
        Forall2 (fun p s => settle p (primary (pname p)) = inr s) providers ps
        /\ Forall2 (fun x sa => exists sc,
                      x = stamp (s_name (fst sa)) (s_weight (fst sa)) sc (snd sa))
             (gather_weighted stamp random ps [] 0)
             (flat_map (fun s => if str_truthy (s_error s) then []
                                 else map (pair s) (found s)) ps)).
Proof.
  split; [|split; [|split; [|split; [|split; [|split; [|split; [|split]]]]]]].
  - intros allResults pg.
    destruct (dedup_inv_all allResults) as [Hwf Hsound Hbest].
    split; [apply js_slice_NoDup_map, uniqueResults_NoDup|].
    split; [intros r; apply js_slice_In|].
    split; [|split].
    + intros r Hr. apply uniqueResults_In in Hr as [u Hin].
      destruct (Hsound u r Hin) as (Hu & Hne & Hall).
      split; [assumption|]. split.
      * rewrite Hu. simpl. apply negb_true_iff. now apply String.eqb_neq.
      * intros r' Hr' Heq. rewrite Hu in Heq.
        destruct (Hbest r' u Hr' Heq Hne) as (r2 & Hget & Hle).
        rewrite (In_get _ _ _ Hwf Hin) in Hget. now injection Hget as <-.
    + intros r' Hr' Htruthy. destruct (Web.url r') as [u|] eqn:Hu; [|discriminate].
      simpl in Htruthy. apply negb_true_iff, String.eqb_neq in Htruthy.
      destruct (Hbest r' u Hr' Hu Htruthy) as (r & Hget & _).
      apply get_Some_In in Hget. exists r. split.
      * apply uniqueResults_In. eauto.
      * now apply Hsound.
    + intros r Hr. apply uniqueResults_In in Hr as [u Hin].
      destruct (Hsound u r Hin) as (Hu & _ & _). rewrite Hu.
      apply (dedup_first_best allResults u r). now apply In_get.
  - intros env pg level out. unfold Web.aggregate.
    destruct (Web.providerResults env) as [x|ps]; [discriminate|].
    intros [= <-]. eauto.
  - intros all. unfold News.merge, News.dedup.
    destruct (top_of_sorted News.by_rank 50 (dedup_first News.url [] all))
      as [Hlen Hperm]; [lia|].
    split; [|split; [|split; [|split; [|split]]]]; try assumption.
    + apply js_slice_NoDup_map.
      eapply Permutation_NoDup; [|apply (dedup_first_NoDup News.url all [])].
      apply Permutation_map, Permutation_sym, stable_sort_perm.
    + intros a Ha. apply js_slice_In, stable_sort_In in Ha.
      destruct (dedup_first_kept _ _ _ _ Ha) as (u & Hu & _ & _ & l1 & l2 & Hl & Hl1).
      exists l1, l2. split; [assumption|]. intros b Hb. rewrite Hu. now apply Hl1.
    + intros a Ha. now apply js_slice_In, stable_sort_In in Ha.
    + intros a Ha Htruthy. destruct (News.url a) as [u|] eqn:Hu; [|discriminate].
      simpl in Htruthy. apply negb_true_iff, String.eqb_neq in Htruthy.
      destruct (dedup_first_complete News.url all [] a u Ha Hu Htruthy)
        as [[]|(a' & Ha' & Hk)]. eauto.
  - intros all. unfold Images.merge, Images.dedup.
    destruct (top_of_sorted Images.by_rank 150 (dedup_first Images.image [] all))
      as [Hlen Hperm]; [lia|].
    split; [|split; [|split; [|split; [|split]]]]; try assumption.
    + apply js_slice_NoDup_map.
      eapply Permutation_NoDup; [|apply (dedup_first_NoDup Images.image all [])].
      apply Permutation_map, Permutation_sym, stable_sort_perm.
    + intros a Ha. apply js_slice_In, stable_sort_In in Ha.
      destruct (dedup_first_kept _ _ _ _ Ha) as (u & Hu & _ & _ & l1 & l2 & Hl & Hl1).
      exists l1, l2. split; [assumption|]. intros b Hb. rewrite Hu. now apply Hl1.
    + intros a Ha. now apply js_slice_In, stable_sort_In in Ha.
    + intros a Ha Htruthy. destruct (Images.image a) as [u|] eqn:Hu; [|discriminate].
      simpl in Htruthy. apply negb_true_iff, String.eqb_neq in Htruthy.
      destruct (dedup_first_complete Images.image all [] a u Ha Hu Htruthy)
        as [[]|(a' & Ha' & Hk)]. eauto.
  - intros all. unfold Videos.merge.
    destruct (top_of_sorted Videos.by_rank 150 (Videos.dedup [] [] all))
      as [Hlen Hperm]; [lia|].
    split; [|split; [|split; [|split; [|split; [|split]]]]]; try assumption.
    + apply js_slice_NoDup_map.
      eapply Permutation_NoDup; [|apply (proj1 (videos_dedup_NoDup all [] []))].
      apply Permutation_map, Permutation_sym, stable_sort_perm.
    + intros v Hv. apply js_slice_In, stable_sort_In in Hv.
      now apply videos_dedup_kept in Hv.
    + intros later. apply videos_dedup_prefix.
    + intros v Hv. apply js_slice_In, stable_sort_In in Hv.
      destruct (videos_dedup_split all [] [] v Hv) as (l1 & l2 & rest & Hl & Hd).
      exists l1, l2, rest. split; [assumption|]. split; [assumption|].
      intros b Hb.
      destruct (videos_dedup_NoDup all [] []) as [Hurls Hids].
      rewrite Hd, map_app in Hurls, Hids. simpl in Hurls, Hids.
      apply NoDup_remove_2 in Hurls, Hids.
      split; intros Heq; [apply Hurls | apply Hids];
        apply in_or_app; left; rewrite <- Heq; now apply in_map.
    + intros v Hv Hid.
      destruct (videos_dedup_complete all [] [] v Hv Hid) as [[]|[[]|Hkept]].
      exact Hkept.
  - intros env random out. unfold Images.aggregate.
    destruct (settle_all _ _) as [x|ps]; [discriminate|].
    destruct (fetch_more _ _ _ _) as [x|all] eqn:Hall; [discriminate|].
    intros [= <-]. exists ps, all. auto.
  - intros env random out. unfold Videos.aggregate.
    destruct (settle_all _ _) as [x|ps]; [discriminate|].
    destruct (fetch_more _ _ _ _) as [x|all] eqn:Hall; [discriminate|].
    intros [= <-]. exists ps, all. auto.
  - intros extractDomain primary random level out. unfold News.aggregate.
    destruct (settle_all _ _) as [x|ps]; [discriminate|].
    destruct (if String.eqb level "strict" then _ else _) as [x|all] eqn:Hall;
      [discriminate|].
    intros [= <-]. exists ps, all. auto.
  - intros A stamp random providers primary ps Hps.
    split; [now apply settle_all_providers|].
    destruct (gather_weighted_order stamp random ps [] 0) as (added & -> & Hadded).
    exact Hadded.
Qed.

(** C1 as stated fails in [videoSearch]: the copy of [clip] gathered from
    PeerTube (weight 1) comes first and is kept; the copy from Dailymotion
    (weight 2), which ranks strictly higher, is discarded. *)
Lemma videoSearch_keeps_lower_ranked_copy :
  (exists ps, settle_all Videos.videoProviders (Videos.primary two_hosts) = inr ps
     /\ gather_weighted Videos.stamp (fun _ => 0%Q) ps [] 0
        = [Videos.stamp "PeerTube" 1 (jitter 1 0) clip;
           Videos.stamp "Dailymotion" 2 (jitter 2 0) clip])
  /\ Videos.aggregate two_hosts (fun _ => 0%Q)
     = inr [Videos.stamp "PeerTube" 1 (jitter 1 0) clip]
  /\ Videos.url (Videos.stamp "PeerTube" 1 (jitter 1 0) clip)
     = Videos.url (Videos.stamp "Dailymotion" 2 (jitter 2 0) clip)
  /\ (rank_of (Some 1%Q) (Some (jitter 1 0))
      < rank_of (Some 2%Q) (Some (jitter 2 0)))%Q.
Proof.
  split; [eexists; split; reflexivity|].
  split; [reflexivity|]. split; reflexivity.
Qed.

(** ** The gathering loop of [webSearch] *)

(** The records of [providerResults] follow [searchMethods], one each. *)
Lemma providerResults_methods (env : Web.Env) (ps : list Web.ProviderResult) :
  Web.providerResults env = inr ps ->
  Forall2 (fun m p => Web.settle_primary m (Web.primary env (Web.name m)) = inr p)
    Web.searchMethods ps.
Proof.
  unfold Web.providerResults. intros H. apply promise_all_inr in H.
  revert ps H. induction Web.searchMethods as [|m ms IH]; intros ps H;
    destruct ps as [|p ps]; simpl in H; try discriminate.
  - constructor.
  - injection H as Hm Hms. constructor; auto.
Qed.

Lemma settle_primary_fields (m : Web.Method) (o : Settled Web.Result)
    (p : Web.ProviderResult) :
  Web.settle_primary m o = inr p ->
  Web.p_name p = Web.name m /\ Web.p_weight p = Web.weight m
  /\ (forall l, o = Fulfilled l ->
        Web.p_error p = None /\ Web.p_results p = or_empty l)
  /\ (forall e, o = Rejected (ThrowError e) ->
        Web.p_error p = Some (err_message e) /\ Web.p_results p = []).
Proof.
  destruct o as [v|[|e]]; simpl; intros [= <-]; simpl;
    repeat split; intros; congruence.
Qed.

Lemma gather_spec (safeSearchLevel : string) (ps : list Web.ProviderResult) :
  forall allResults errors,
  Web.gather safeSearchLevel ps allResults errors
  = (allResults ++ flat_map (Web.contribution safeSearchLevel) ps,
     errors ++ flat_map Web.failure ps).
Proof.
  induction ps as [|p ps IH]; intros allResults errors; simpl.
  - now rewrite !app_nil_r.
  - unfold Web.contribution at 1, Web.failure at 1.
    destruct (str_truthy (Web.p_error p)).
    + rewrite IH. simpl. now rewrite <- app_assoc.
    + destruct (Web.p_results p) as [|r rs]; simpl; rewrite IH; simpl.
      * reflexivity.
      * now rewrite <- app_assoc.
Qed.

Lemma registered_weight_truthy (m : Web.Method) :
  In m Web.searchMethods -> Q_or (Web.weight m) 1 = Web.weight m.
Proof.
  unfold Web.searchMethods. simpl.
  intros H. repeat (destruct H as [<-|H]; [reflexivity|]). contradiction.
Qed.

Lemma Forall2_In_r {A B : Type} (R : A -> B -> Prop) (l : list A) (l' : list B) (b : B) :
  Forall2 R l l' -> In b l' -> exists a, In a l /\ R a b.
Proof.
  induction 1 as [|x y l l' Hxy HF IH]; simpl; [contradiction|].
  intros [<-|Hin].
  - exists x. auto.
  - destruct (IH Hin) as [a [Ha HR]]. exists a. auto.
Qed.

(** C5, as amended.  Every item that the loop over the providers adds to
    [allResults] carries [weightScore = weight * raw], where [weight] is the
    registered weight of its provider and [raw] is the provider's [score]
    read through [score || 1]: 1 when the score is absent or 0, the score
    itself otherwise.  This is [weight * max(score, 1)] when the score is
    absent, 0, or at least 1. *)
Theorem weightScore_of_gathered (env : Web.Env) (safeSearchLevel : string)
    (ps : list Web.ProviderResult) (x : Web.Result) :
  Web.providerResults env = inr ps ->
  In x (fst (Web.gather safeSearchLevel ps [] [])) ->
  exists m r,
    In m Web.searchMethods
    /\ (exists l, Web.primary env (Web.name m) = Fulfilled (Some l) /\ In r l)
    /\ x = Web.mkResult (Web.title r) (Web.url r) (Web.snippet r)
             (Web.displayUrl r) (Web.score r) (Some (Web.name m))
             (Some safeSearchLevel)
             (Some (Web.weight m * optQ_or (Web.score r) 1)%Q)
    /\ (Web.score r = None -> optQ_or (Web.score r) 1 = 1%Q)
    /\ (forall s, Web.score r = Some s -> (s == 0)%Q ->
                  optQ_or (Web.score r) 1 = 1%Q)
    /\ (forall s, Web.score r = Some s -> ~ (s == 0)%Q ->
                  optQ_or (Web.score r) 1 = s)
    /\ (forall s, Web.score r = Some s -> (s == 0)%Q \/ (1 <= s)%Q ->
                  (optQ_or (Web.score r) 1 == Qmax s 1)%Q).
Proof.
  intros Hps Hx. rewrite gather_spec in Hx. simpl in Hx.
  apply in_flat_map in Hx as (p & Hp & Hx).
  destruct (Forall2_In_r _ _ _ _ (providerResults_methods env ps Hps) Hp)
    as (m & Hm & Hsettle).
  destruct (settle_primary_fields _ _ _ Hsettle) as (Hname & Hweight & Hful & Hrej).
  unfold Web.contribution in Hx.
  destruct (str_truthy (Web.p_error p)) eqn:Herr; [contradiction|].
  apply in_map_iff in Hx as (r & <- & Hr).
  exists m, r. split; [assumption|].
  assert (Hzero : forall s, (s == 0)%Q -> Q_or s 1 = 1%Q).
  { intros s Hs. unfold Q_or, Q_falsy. apply Qeq_bool_iff in Hs. now rewrite Hs. }
  assert (Hnz : forall s, ~ (s == 0)%Q -> Q_or s 1 = s).
  { intros s Hs. unfold Q_or, Q_falsy.
    destruct (Qeq_bool s 0) eqn:E; [|reflexivity].
    apply Qeq_bool_iff in E. contradiction. }
  split; [|split; [|split; [|split; [|split]]]].
  - destruct (Web.primary env (Web.name m)) as [[l|]|[|e]] eqn:Hprim.
    + exists l. split; [reflexivity|].
      destruct (Hful _ eq_refl) as [_ Hres]. now rewrite Hres in Hr.
    + destruct (Hful _ eq_refl) as [_ Hres]. rewrite Hres in Hr. contradiction.
    + discriminate.
    + destruct (Hrej _ eq_refl) as [_ Hres]. rewrite Hres in Hr. contradiction.
  - unfold Web.enrich. rewrite Hname, Hweight.
    now rewrite (registered_weight_truthy m Hm).
  - intros ->. reflexivity.
  - intros s -> Hs. simpl. now apply Hzero.
  - intros s -> Hs. simpl. now apply Hnz.
  - intros s -> [Hs|Hs]; simpl.
    + rewrite (Hzero s Hs). rewrite Hs. reflexivity.
    + rewrite Hnz.
      * symmetry. apply Q.max_l. assumption.
      * intros H0. rewrite H0 in Hs.
        apply (Qlt_not_le 0 1); [reflexivity | assumption].
Qed.

Lemma weightScore_of_gathered_witness :
  Web.providerResults searx_only = inr searx_only_settled
  /\ In (Web.enrich "moderate" searx half_scored)
        (fst (Web.gather "moderate" searx_only_settled [] []))
  /\ exists m r,
       In m Web.searchMethods
       /\ Web.enrich "moderate" searx half_scored
          = Web.mkResult (Web.title r) (Web.url r) (Web.snippet r)
              (Web.displayUrl r) (Web.score r) (Some (Web.name m))
              (Some "moderate")
              (Some (Web.weight m * optQ_or (Web.score r) 1)%Q).
Proof.
  assert (Hin : In (Web.enrich "moderate" searx half_scored)
                   (fst (Web.gather "moderate" searx_only_settled [] [])))
    by (left; reflexivity).
  split; [reflexivity|]. split; [exact Hin|].
  destruct (weightScore_of_gathered searx_only "moderate" searx_only_settled
              (Web.enrich "moderate" searx half_scored) eq_refl Hin)
    as (m & r & Hm & _ & Heq & _).
  exists m, r. split; assumption.
Defined.

(** C5 as stated fails for a score between 0 and 1: the item of SearXNG
    (weight 2) with score 1/2 gets [weightScore] 2 * 1/2, which is not
    2 * max(1/2, 1) and lies below the provider's weight. *)
Lemma weightScore_below_provider_weight :
  In (Web.enrich "moderate" searx half_scored)
     (fst (Web.gather "moderate" searx_only_settled [] []))
  /\ Web.weightScore (Web.enrich "moderate" searx half_scored)
     = Some (2 * (1 # 2))%Q
  /\ ~ (2 * (1 # 2) == 2 * Qmax (1 # 2) 1)%Q
  /\ (2 * (1 # 2) < 2)%Q.
Proof.
  split; [left; reflexivity|]. split; [reflexivity|].
  split; [intros H; discriminate H | reflexivity].
Qed.

(** ** Failure isolation in [webSearch] *)

Lemma providerResults_settles (env : Web.Env) :
  (forall m, In m Web.searchMethods ->
             Web.primary env (Web.name m) <> Rejected ThrowUndefined) ->
  exists ps, Web.providerResults env = inr ps.
Proof.
  intros Hok. unfold Web.providerResults. apply promise_all_all_inr.
  intros x Hx. apply in_map_iff in Hx as (m & <- & Hm).
  specialize (Hok m Hm).
  destruct (Web.primary env (Web.name m)) as [v|[|e]]; simpl; eauto.
  congruence.
Qed.

Lemma append_additional_nothing (env : Web.Env) (safeSearchLevel : string)
    (calls : list (string * Z)) (allResults : list Web.Result) :
  (forall nm k, Web.settle_additional (Web.additional env nm k) = []) ->
  Web.append_additional env safeSearchLevel calls allResults = allResults.
Proof.
  intros Hnone. revert allResults.
  induction calls as [|[nm k] calls IH]; intros allResults; simpl.
  - reflexivity.
  - rewrite Hnone. simpl. apply IH.
Qed.

Lemma cached_or_returns (clk : Clock) (cacheKey : string) (results : Payload)
    (st : Cache.Store Payload) :
  exists payload, fst (cached_or clk cacheKey (inr results) st) = inr payload.
Proof.
  unfold cached_or.
  destruct (Cache.cacheGet (at_get clk) (at_refresh clk) cacheKey st)
    as [[cached|] st1]; simpl; eauto.
Qed.

(** C2, as amended.  When every rejection of a provider carries an [Error],
    [webSearch] does not throw.  Each provider's record depends on its own
    outcome only; what the loop gathers is, provider by provider in
    registration order, the enriched results of the providers that did not
    fail, and [errors] holds one entry for each provider that failed with a
    message.  The value returned is the page of results alone: [errors] is
    logged, not returned.  When every provider fails and the supplementary
    calls bring nothing, the page is empty. *)
Theorem webSearch_isolates_failures (env : Web.Env) (clk : Clock)
    (query : string) (pg : Z) (safeSearch : option string)
    (st : Cache.Store Payload) :
  (forall m, In m Web.searchMethods ->
             Web.primary env (Web.name m) <> Rejected ThrowUndefined) ->
  exists ps,
    Web.providerResults env = inr ps
    /\ Forall2 (fun m p =>
                  Web.settle_primary m (Web.primary env (Web.name m)) = inr p)
         Web.searchMethods ps
    /\ fst (Web.gather (getSafeSearchParam safeSearch) ps [] [])
       = flat_map (Web.contribution (getSafeSearchParam safeSearch)) ps
    /\ Web.errors (getSafeSearchParam safeSearch) ps = flat_map Web.failure ps
    /\ Web.aggregate env pg (getSafeSearchParam safeSearch)
       = inr (Web.paginate pg
                (Web.uniqueResults
                   (Web.allResults env (getSafeSearchParam safeSearch) ps)))
    /\ (exists payload,
          fst (webSearch env clk query pg safeSearch st) = inr payload)
    /\ ((forall p, In p ps -> str_truthy (Web.p_error p) = true) ->
        (forall nm k, Web.settle_additional (Web.additional env nm k) = []) ->
        Web.aggregate env pg (getSafeSearchParam safeSearch) = inr []).
Proof.
  intros Hok. destruct (providerResults_settles env Hok) as [ps Hps].
  exists ps. split; [assumption|].
  split; [now apply providerResults_methods|].
  split; [now rewrite gather_spec|].
  split; [unfold Web.errors; now rewrite gather_spec|].
  assert (Hagg : Web.aggregate env pg (getSafeSearchParam safeSearch)
                 = inr (Web.paginate pg
                          (Web.uniqueResults
                             (Web.allResults env (getSafeSearchParam safeSearch) ps))))
    by (unfold Web.aggregate; now rewrite Hps).
  split; [exact Hagg|]. split.
  - unfold webSearch. rewrite Hagg. apply cached_or_returns.
  - intros Hfail Hnone. rewrite Hagg. f_equal.
    unfold Web.allResults. rewrite gather_spec. simpl.
    assert (Hnil : flat_map (Web.contribution (getSafeSearchParam safeSearch)) ps = []).
    { clear Hps Hagg. induction ps as [|p ps IH]; simpl; [reflexivity|].
      unfold Web.contribution at 1. rewrite (Hfail p) by now left.
      apply IH. intros q Hq. apply Hfail. now right. }
    rewrite Hnil. unfold Web.backfill.
    rewrite append_additional_nothing by assumption.
    assert (Hempty : Web.uniqueResults [] = []) by reflexivity.
    destruct (Z.of_nat (List.length ([] : list Web.Result)) <? RESULTS_PER_PAGE);
      rewrite Hempty; unfold Web.paginate, js_slice;
      now rewrite skipn_nil, firstn_nil.
Qed.

(** The condition on the rejections is needed: a provider that rejects
    with [undefined] makes [error.message] raise inside the [.catch]
    handler, and [webSearch] throws that [TypeError]. *)
Lemma webSearch_throws_on_undefined_rejection :
  fst (webSearch startpage_undefined noon "q" 1 None Cache.empty)
  = inl (ThrowError message_of_undefined).
Proof. reflexivity. Qed.

(** Brave fails, DuckDuckGo and Startpage return one page each: both pages
    are in the result. *)
Lemma webSearch_isolates_failures_witness :
  fst (webSearch brave_down noon "q" 1 None Cache.empty)
  = inr (WebResults
           [Web.enrich "moderate"
              (Web.mkProviderResult "DuckDuckGo" [page_a] None 3) page_a;
            Web.enrich "moderate"
              (Web.mkProviderResult "Startpage" [page_c] None 2) page_c])
  /\ exists ps,
       Web.providerResults brave_down = inr ps
       /\ Web.errors "moderate" ps = flat_map Web.failure ps
       /\ flat_map Web.failure ps
          = [Web.mkErrorEntry "Brave" "connect ECONNREFUSED"].
Proof.
  split; [reflexivity|].
  destruct (webSearch_isolates_failures brave_down noon "q" 1 None Cache.empty)
    as (ps & Hps & _ & _ & Herr & _).
  - intros m Hm. unfold brave_down. simpl.
    destruct (String.eqb (Web.name m) "DuckDuckGo"); [discriminate|].
    destruct (String.eqb (Web.name m) "Brave"); [discriminate|].
    destruct (String.eqb (Web.name m) "Startpage"); discriminate.
  - exists ps. split; [assumption|]. split; [assumption|].
    assert (Hval : Web.providerResults brave_down
                   = inr [Web.mkProviderResult "DuckDuckGo" [page_a] None 3;
                          Web.mkProviderResult "Brave" [] (Some "connect ECONNREFUSED") 3;
                          Web.mkProviderResult "Startpage" [page_c] None 2;
                          Web.mkProviderResult "Qwant" [] None 2;
                          Web.mkProviderResult "SearXNG" [] None 2;
                          Web.mkProviderResult "Mojeek" [] None 1;
                          Web.mkProviderResult "GoogleFallback" [] None 3])
      by reflexivity.
    rewrite Hval in Hps. injection Hps as <-. reflexivity.
Defined.

(** C2 as stated fails: what the caller receives does not tell a run in
    which all seven providers failed (seven entries in [errors]) from a run
    in which they all returned an empty list (no entry). *)
Lemma webSearch_returns_no_errors :
  exists ps1 ps2,
    Web.providerResults all_down = inr ps1
    /\ Web.providerResults all_empty = inr ps2
    /\ List.length (Web.errors "moderate" ps1) = 7%nat
    /\ Web.errors "moderate" ps2 = []
    /\ webSearch all_down noon "q" 1 None Cache.empty
       = webSearch all_empty noon "q" 1 None Cache.empty
    /\ fst (webSearch all_down noon "q" 1 None Cache.empty)
       = inr (WebResults []).
Proof. do 2 eexists. repeat split; reflexivity. Qed.

(** ** Equal draws, and runs that miss the cache *)

Lemma weigh_ext {A : Type} (stamp : string -> Q -> Q -> A -> A)
    (r1 r2 : nat -> Q) (nm : string) (w : Q) (l : list A) :
  (forall n, r1 n = r2 n) ->
  forall draws, weigh stamp r1 draws nm w l = weigh stamp r2 draws nm w l.
Proof.
  intros Hext. induction l as [|x l IH]; intros draws; simpl.
  - reflexivity.
  - now rewrite Hext, IH.
Qed.

Lemma gather_weighted_ext {A : Type} (stamp : string -> Q -> Q -> A -> A)
    (r1 r2 : nat -> Q) (ps : list (Settlement A)) :
  (forall n, r1 n = r2 n) ->
  forall all draws,
  gather_weighted stamp r1 ps all draws = gather_weighted stamp r2 ps all draws.
Proof.
  intros Hext. induction ps as [|p ps IH]; intros all draws; simpl.
  - reflexivity.
  - destruct (str_truthy (s_error p)); [apply IH|].
    destruct (0 <? Z.of_nat (List.length (found p))); [|apply IH].
    now rewrite (weigh_ext stamp r1 r2 _ _ _ Hext), IH.
Qed.

Lemma cached_or_miss (clk : Clock) (cacheKey : string)
    (compute : Thrown + Payload) (st : Cache.Store Payload) :
  fst (Cache.cacheGet (at_get clk) (at_refresh clk) cacheKey st) = None ->
  fst (cached_or clk cacheKey compute st) = compute.
Proof.
  unfold cached_or.
  destruct (Cache.cacheGet (at_get clk) (at_refresh clk) cacheKey st)
    as [[cached|] st1]; simpl; [discriminate|].
  intros _. now destruct compute.
Qed.

(** A second run with the same computed value returns that value, from the
    cache or computed again. *)
Lemma cached_or_again (clk clk' : Clock) (cacheKey : string) (results : Payload)
    (st : Cache.Store Payload) :
  fst (Cache.cacheGet (at_get clk) (at_refresh clk) cacheKey st) = None ->
  fst (cached_or clk' cacheKey (inr results)
         (snd (cached_or clk cacheKey (inr results) st))) = inr results.
Proof.
  intros Hmiss. unfold cached_or at 2.
  destruct (Cache.cacheGet (at_get clk) (at_refresh clk) cacheKey st)
    as [[cached|] st1]; simpl in *; [discriminate|].
  unfold cached_or, Cache.cacheGet.
  unfold Cache.cacheSet at 1. cbn [Cache.CACHE].
  rewrite get_set_same. cbn [Cache.d].
  destruct (Cache.expired (at_get clk') _); reflexivity.
Qed.

(** ** The caps of the category searches *)

Section CachePayloads.
Context {D : Type}.

Lemma In_cacheSet (now now' : Z) (key : string) (data : D) (ttl0 : option Z)
    (st : Cache.Store D) (k : string) (e : Cache.Entry D) :
  In (k, e) (Cache.CACHE (Cache.cacheSet now now' key data ttl0 st)) ->
  (k = key /\ Cache.d e = data) \/ In (k, e) (Cache.CACHE st).
Proof.
  unfold Cache.cacheSet. cbn [Cache.CACHE]. intros Hin.
  apply In_set in Hin as [Heq|Hin].
  - left. injection Heq as -> ->. auto.
  - right. destruct (JsMap.size (Cache.CACHE st) >=? MAX_CACHE_SIZE); [|assumption].
    unfold Cache.sweep in Hin. apply filter_In in Hin as [Hin _].
    unfold Cache.evict_oldest in Hin. now apply In_delete_keys in Hin.
Qed.

Lemma In_cacheGet (now now' : Z) (key : string) (st : Cache.Store D)
    (k : string) (e : Cache.Entry D) :
  In (k, e) (Cache.CACHE (snd (Cache.cacheGet now now' key st))) ->
  exists e0, In (k, e0) (Cache.CACHE st) /\ Cache.d e = Cache.d e0.
Proof.
  unfold Cache.cacheGet.
  destruct (JsMap.get key (Cache.CACHE st)) as [entry|] eqn:Hget; simpl.
  - destruct (Cache.expired now entry); simpl; intros Hin.
    + apply In_delete in Hin as [Hin _]. eauto.
    + apply In_set in Hin as [Heq|Hin]; [|eauto].
      injection Heq as -> ->. exists entry. split; [|reflexivity].
      now apply get_Some_In.
  - eauto.
Qed.

Lemma cacheGet_Some (now now' : Z) (key : string) (st : Cache.Store D) (c : D) :
  fst (Cache.cacheGet now now' key st) = Some c ->
  exists e, In (key, e) (Cache.CACHE st) /\ Cache.d e = c.
Proof.
  unfold Cache.cacheGet.
  destruct (JsMap.get key (Cache.CACHE st)) as [entry|] eqn:Hget; simpl;
    [|discriminate].
  destruct (Cache.expired now entry); simpl; [discriminate|].
  intros [= <-]. exists entry. split; [now apply get_Some_In | reflexivity].
Qed.
End CachePayloads.

Lemma cache_ok_cacheGet (now now' : Z) (key : string) (st : Cache.Store Payload) :
  cache_ok st -> cache_ok (snd (Cache.cacheGet now now' key st)).
Proof.
  intros Hok k e Hin. apply In_cacheGet in Hin as (e0 & Hin & ->). eauto.
Qed.

Lemma cache_ok_cacheSet (now now' : Z) (key : string) (data : Payload)
    (ttl0 : option Z) (st : Cache.Store Payload) :
  cache_ok st -> payload_ok key data ->
  cache_ok (Cache.cacheSet now now' key data ttl0 st).
Proof.
  intros Hok Hdata k e Hin. apply In_cacheSet in Hin as [[-> ->]|Hin]; eauto.
Qed.

(** The other cached functions write under the prefixes [weather:] and
    [github:], which the description does not constrain. *)
Lemma cache_ok_other_keys (now now' : Z) (query : string) (data : Payload)
    (ttl0 : option Z) (st : Cache.Store Payload) :
  cache_ok st ->
  cache_ok (Cache.cacheSet now now' ("weather:" ++ query)%string data ttl0 st)
  /\ cache_ok (Cache.cacheSet now now' ("github:" ++ query)%string data ttl0 st).
Proof.
  intros Hok. split; apply cache_ok_cacheSet; auto;
    repeat split; intros Hpre; discriminate Hpre.
Qed.

(** The frame of the searches keeps the cache well-formed, and what it
    returns satisfies whatever the payloads allowed under its key satisfy. *)
Lemma cached_or_ok (clk : Clock) (cacheKey : string) (compute : Thrown + Payload)
    (st : Cache.Store Payload) (P : Payload -> Prop) :
  cache_ok st ->
  (forall p, payload_ok cacheKey p -> P p) ->
  (forall p, compute = inr p -> payload_ok cacheKey p) ->
  cache_ok (snd (cached_or clk cacheKey compute st))
  /\ forall p, fst (cached_or clk cacheKey compute st) = inr p -> P p.
Proof.
  intros Hok HP Hcompute. unfold cached_or.
  pose proof (cache_ok_cacheGet (at_get clk) (at_refresh clk) cacheKey st Hok) as Hok1.
  pose proof (cacheGet_Some (at_get clk) (at_refresh clk) cacheKey st) as Hhit.
  destruct (Cache.cacheGet (at_get clk) (at_refresh clk) cacheKey st)
    as [[cached|] st1]; simpl in *.
  - split; [assumption|]. intros p [= <-].
    destruct (Hhit cached eq_refl) as (e & Hin & <-). apply HP. eauto.
  - destruct compute as [x|results]; simpl.
    + split; [assumption | discriminate].
    + split.
      * apply cache_ok_cacheSet; auto.
      * intros p [= <-]. auto.
Qed.

Lemma settle_all_settles {A : Type} (providers : list Provider)
    (primary : string -> Settled A) :
  (forall p, In p providers -> primary (pname p) <> Rejected ThrowUndefined) ->
  exists ps, settle_all providers primary = inr ps.
Proof.
  intros Hok. unfold settle_all. apply promise_all_all_inr.
  intros x Hx. apply in_map_iff in Hx as (p & <- & Hp).
  specialize (Hok p Hp).
  destruct (primary (pname p)) as [v|[|e]]; simpl; eauto. congruence.
Qed.

Lemma settle_all_found {A : Type} (providers : list Provider)
    (primary : string -> Settled A) (ps : list (Settlement A)) :
  settle_all providers primary = inr ps ->
  forall p a, In p ps -> In a (found p) ->
  exists nm l, primary nm = Fulfilled (Some l) /\ In a l.
Proof.
  unfold settle_all. intros H. apply promise_all_inr in H.
  intros p a Hp Ha.
  assert (Hin : In (inr p : Thrown + Settlement A)
                   (map (fun q => settle q (primary (pname q))) providers)).
  { rewrite H. now apply in_map. }
  apply in_map_iff in Hin as (q & Hq & _).
  destruct (primary (pname q)) as [[l|]|[|e]] eqn:Hprim; simpl in Hq;
    try discriminate; injection Hq as <-; simpl in Ha; try contradiction.
  eauto.
Qed.

Lemma weigh_In {A : Type} (stamp : string -> Q -> Q -> A -> A)
    (random : nat -> Q) (nm : string) (w : Q) (l : list A) :
  forall draws x, In x (weigh stamp random draws nm w l) ->
  exists a sc, In a l /\ x = stamp nm w sc a.
Proof.
  induction l as [|a l IH]; intros draws x; simpl; [contradiction|].
  intros [<-|Hin].
  - eauto.
  - destruct (IH _ _ Hin) as (a' & sc & Ha & ->). eauto.
Qed.

Lemma gather_weighted_In {A : Type} (stamp : string -> Q -> Q -> A -> A)
    (random : nat -> Q) (ps : list (Settlement A)) :
  forall all draws x,
  In x (gather_weighted stamp random ps all draws) ->
  In x all \/ exists p a sc, In p ps /\ In a (found p)
                             /\ x = stamp (s_name p) (s_weight p) sc a.
Proof.
  induction ps as [|p ps IH]; intros all draws x; simpl; [auto|].
  assert (Hnext : forall all' draws',
             In x (gather_weighted stamp random ps all' draws') ->
             (In x all' -> In x all \/ exists a sc, In a (found p)
                             /\ x = stamp (s_name p) (s_weight p) sc a) ->
             In x all \/ exists q a sc, In q (p :: ps) /\ In a (found q)
                             /\ x = stamp (s_name q) (s_weight q) sc a).
  { intros all' draws' Hin Hall'. destruct (IH _ _ _ Hin) as [H|(q & a & sc & Hq & Ha & ->)].
    - destruct (Hall' H) as [H'|(a & sc & Ha & ->)]; [now left|].
      right. exists p, a, sc. split; [now left | auto].
    - right. exists q, a, sc. split; [now right | auto]. }
  destruct (str_truthy (s_error p)); [intros H; eapply Hnext; eauto|].
  destruct (0 <? Z.of_nat (List.length (found p))); [|intros H; eapply Hnext; eauto].
  intros H. eapply Hnext; [exact H|].
  intros Hin. apply in_app_or in Hin as [Hin|Hin]; [now left|].
  right. eapply weigh_In; eauto.
Qed.

Lemma gather_additional_returns {A : Type} (tag : string -> A -> A)
    (additional : string -> Settled A) (searches : list string) :
  (forall nm, additional nm <> Rejected ThrowUndefined) ->
  forall all, exists out, gather_additional tag additional searches all = inr out.
Proof.
  intros Hok. induction searches as [|nm searches IH]; intros all; simpl.
  - eauto.
  - destruct (Z.of_nat (List.length all) >=? 150); [eauto|].
    specialize (Hok nm). destruct (additional nm) as [v|[|e]]; auto. congruence.
Qed.

Lemma filter_allowed_returns (extractDomain : string -> string)
    (l : list News.Article) :
  (forall a, In a l -> News.url a <> None) ->
  exists kept, News.filter_allowed extractDomain l = inr kept.
Proof.
  induction l as [|a l IH]; intros Hurl; simpl.
  - eauto.
  - unfold News.allowed. destruct (News.url a) as [u|] eqn:Hu.
    + destruct IH as [kept Hkept]; [intros b Hb; apply Hurl; now right|].
      rewrite Hkept. eauto.
    + exfalso. apply (Hurl a); [now left | assumption].
Qed.

Lemma filter_allowed_length (extractDomain : string -> string)
    (l kept : list News.Article) :
  News.filter_allowed extractDomain l = inr kept ->
  (List.length kept <= List.length l)%nat.
Proof.
  revert kept. induction l as [|a l IH]; intros kept; simpl.
  - intros [= <-]. simpl. lia.
  - destruct (News.allowed extractDomain a) as [x|keep]; [discriminate|].
    destruct (News.filter_allowed extractDomain l) as [x|kept']; [discriminate|].
    intros [= <-]. specialize (IH kept' eq_refl).
    destruct keep; simpl; lia.
Qed.

Lemma web_key_prefixes (query : string) (pg : Z) (level : string) :
  prefix "web:" (web_key query pg level) = true
  /\ prefix "img:" (web_key query pg level) = false
  /\ prefix "vid:" (web_key query pg level) = false
  /\ prefix "news:" (web_key query pg level) = false.
Proof.
  unfold web_key. repeat split; try reflexivity.
  cbn. now destruct (query ++ _)%string.
Qed.

Lemma img_key_prefixes (query level : string) :
  prefix "web:" (img_key query level) = false
  /\ prefix "img:" (img_key query level) = true
  /\ prefix "vid:" (img_key query level) = false
  /\ prefix "news:" (img_key query level) = false.
Proof.
  unfold img_key. repeat split; try reflexivity.
  cbn. now destruct (query ++ _)%string.
Qed.

Lemma vid_key_prefixes (query level : string) :
  prefix "web:" (vid_key query level) = false
  /\ prefix "img:" (vid_key query level) = false
  /\ prefix "vid:" (vid_key query level) = true
  /\ prefix "news:" (vid_key query level) = false.
Proof.
  unfold vid_key. repeat split; try reflexivity.
  cbn. now destruct (query ++ _)%string.
Qed.

Lemma news_key_prefixes (query level : string) :
  prefix "web:" (news_key query level) = false
  /\ prefix "img:" (news_key query level) = false
  /\ prefix "vid:" (news_key query level) = false
  /\ prefix "news:" (news_key query level) = true.
Proof.
  unfold news_key. repeat split; try reflexivity.
  cbn. now destruct (query ++ _)%string.
Qed.

Lemma paginate_length (pg : Z) (l : list Web.Result) :
  Z.of_nat (List.length (Web.paginate pg l)) <= RESULTS_PER_PAGE.
Proof.
  unfold Web.paginate.
  pose proof (js_slice_length ((pg - 1) * RESULTS_PER_PAGE)
                ((pg - 1) * RESULTS_PER_PAGE + RESULTS_PER_PAGE) l) as H.
  unfold RESULTS_PER_PAGE in *. lia.
Qed.

(** A rejection with [undefined] turns, inside the [.catch] handler, into
    the [TypeError] of [error.message], and [Promise.all] rejects with it:
    no other promise of the list can reject with anything else. *)
Lemma providerResults_rejects (env : Web.Env) (m : Web.Method) :
  In m Web.searchMethods ->
  Web.primary env (Web.name m) = Rejected ThrowUndefined ->
  Web.providerResults env = inl (ThrowError message_of_undefined).
Proof.
  unfold Web.providerResults.
  induction Web.searchMethods as [|m0 ms IH]; intros Hin Hrej; [contradiction|].
  cbn [map promise_all].
  destruct Hin as [->|Hin].
  - rewrite Hrej. reflexivity.
  - destruct (Web.primary env (Web.name m0)) as [v|[|e]]; cbn [Web.settle_primary];
      try reflexivity; now rewrite IH.
Qed.

Lemma settle_all_rejects {A : Type} (providers : list Provider)
    (primary : string -> Settled A) (p : Provider) :
  In p providers ->
  primary (pname p) = Rejected ThrowUndefined ->
  settle_all providers primary = inl (ThrowError message_of_undefined).
Proof.
  unfold settle_all.
  induction providers as [|p0 ps IH]; intros Hin Hrej; [contradiction|].
  cbn [map promise_all].
  destruct Hin as [->|Hin].
  - rewrite Hrej. reflexivity.
  - destruct (primary (pname p0)) as [v|[|e]]; cbn [settle];
      try reflexivity; now rewrite IH.
Qed.

(** C10, on the code.  From a cache that holds, under the keys of the four
    searches, result lists within the caps, every value returned by
    [webSearch] is a list of at most [RESULTS_PER_PAGE] = 100 items, by
    [imageSearch] and [videoSearch] of at most 150 and by [newsSearch] of at
    most 50, whatever the providers answer, and the cache stays as
    described.  But a list is not returned for every combination of
    failures.  Each search returns one when no provider call rejects with
    [undefined] (and, for [newsSearch] under strict safe search, every
    article has a [url]); when the cache has no fresh entry for the request
    and a registered provider rejects with [undefined], the search throws
    the [TypeError] that [error.message] raises in the [.catch] handler, and
    returns nothing.  A provider that awaits [fetchHTML] outside a [try]
    block rejects with [undefined] as soon as the server answers each of the
    [MAX_RETRIES] attempts with a 429 or 5xx status. *)
Theorem category_searches_capped (st : Cache.Store Payload) :
  cache_ok st ->
  (forall env clk query pg safeSearch,
     cache_ok (snd (webSearch env clk query pg safeSearch st))
     /\ (forall p, fst (webSearch env clk query pg safeSearch st) = inr p ->
           exists l, p = WebResults l
                     /\ Z.of_nat (List.length l) <= RESULTS_PER_PAGE)
     /\ ((forall m, In m Web.searchMethods ->
            Web.primary env (Web.name m) <> Rejected ThrowUndefined) ->
         exists p, fst (webSearch env clk query pg safeSearch st) = inr p)
     /\ (forall m, In m Web.searchMethods ->
           Web.primary env (Web.name m) = Rejected ThrowUndefined ->
           fst (Cache.cacheGet (at_get clk) (at_refresh clk)
                  (web_key query pg (getSafeSearchParam safeSearch)) st) = None ->
           fst (webSearch env clk query pg safeSearch st)
           = inl (ThrowError message_of_undefined)))
  /\ (forall env random clk query safeSearch,
     cache_ok (snd (imageSearch env random clk query safeSearch st))
     /\ (forall p, fst (imageSearch env random clk query safeSearch st) = inr p ->
           exists l, p = ImageResults l /\ Z.of_nat (List.length l) <= 150)
     /\ ((forall p, In p Images.imageProviders ->
            Images.primary env (pname p) <> Rejected ThrowUndefined) ->
         (forall nm, Images.additional env nm <> Rejected ThrowUndefined) ->
         exists p, fst (imageSearch env random clk query safeSearch st) = inr p)
     /\ (forall p, In p Images.imageProviders ->
           Images.primary env (pname p) = Rejected ThrowUndefined ->
           fst (Cache.cacheGet (at_get clk) (at_refresh clk)
                  (img_key query (getSafeSearchParam safeSearch)) st) = None ->
           fst (imageSearch env random clk query safeSearch st)
           = inl (ThrowError message_of_undefined)))
  /\ (forall env random clk query safeSearch,
     cache_ok (snd (videoSearch env random clk query safeSearch st))
     /\ (forall p, fst (videoSearch env random clk query safeSearch st) = inr p ->
           exists l, p = VideoResults l /\ Z.of_nat (List.length l) <= 150)
     /\ ((forall p, In p Videos.videoProviders ->
            Videos.primary env (pname p) <> Rejected ThrowUndefined) ->
         (forall nm, Videos.additional env nm <> Rejected ThrowUndefined) ->
         exists p, fst (videoSearch env random clk query safeSearch st) = inr p)
     /\ (forall p, In p Videos.videoProviders ->
           Videos.primary env (pname p) = Rejected ThrowUndefined ->
           fst (Cache.cacheGet (at_get clk) (at_refresh clk)
                  (vid_key query (getSafeSearchParam safeSearch)) st) = None ->
           fst (videoSearch env random clk query safeSearch st)
           = inl (ThrowError message_of_undefined)))
  /\ (forall extractDomain primary random clk query safeSearch,
     cache_ok (snd (newsSearch extractDomain primary random clk query safeSearch st))
     /\ (forall p,
           fst (newsSearch extractDomain primary random clk query safeSearch st)
           = inr p ->
           exists l, p = NewsResults l /\ Z.of_nat (List.length l) <= 50)
     /\ ((forall p, In p News.newsProviders ->
            primary (pname p) <> Rejected ThrowUndefined) ->
         (forall nm l a, primary nm = Fulfilled (Some l) -> In a l ->
            News.url a <> None) ->
         exists p,
           fst (newsSearch extractDomain primary random clk query safeSearch st)
           = inr p)
     /\ (forall p, In p News.newsProviders ->
           primary (pname p) = Rejected ThrowUndefined ->
           fst (Cache.cacheGet (at_get clk) (at_refresh clk)
                  (news_key query (getSafeSearchParam safeSearch)) st) = None ->
           fst (newsSearch extractDomain primary random clk query safeSearch st)
           = inl (ThrowError message_of_undefined)))
  /\ (forall (A : Type) (extract : string -> Settled A)
        (fetch : nat -> Http.FetchOutcome),
        (forall a, (a < MAX_RETRIES)%nat ->
                   Http.retryable_status (fetch a) = true) ->
        await_fetchHTML extract fetch = Rejected ThrowUndefined).
Proof.
  intros Hok. split; [|split; [|split; [|split]]].
  - intros env clk query pg safeSearch. unfold webSearch.
    set (level := getSafeSearchParam safeSearch).
    destruct (web_key_prefixes query pg level) as (Hw & Hi & Hv & Hn).
    destruct (cached_or_ok clk (web_key query pg level)
                (lift WebResults (Web.aggregate env pg level)) st
                (fun p => exists l, p = WebResults l
                            /\ Z.of_nat (List.length l) <= RESULTS_PER_PAGE) Hok)
      as [Hst Hres].
    + intros p Hp. now apply Hp.
    + intros p Hp. unfold Web.aggregate in Hp.
      destruct (Web.providerResults env) as [x|ps]; simpl in Hp; [discriminate|].
      injection Hp as <-.
      repeat split; intros Hpre; try congruence.
      eexists. split; [reflexivity | apply paginate_length].
    + split; [assumption|]. split; [assumption|]. split.
      * intros Hsettle. destruct (providerResults_settles env Hsettle) as [ps Hps].
        unfold Web.aggregate. rewrite Hps. simpl. apply cached_or_returns.
      * intros m Hm Hrej Hmiss. rewrite cached_or_miss by assumption.
        unfold Web.aggregate.
        now rewrite (providerResults_rejects env m Hm Hrej).
  - intros env random clk query safeSearch. unfold imageSearch.
    set (level := getSafeSearchParam safeSearch).
    destruct (img_key_prefixes query level) as (Hw & Hi & Hv & Hn).
    destruct (cached_or_ok clk (img_key query level)
                (lift ImageResults (Images.aggregate env random)) st
                (fun p => exists l, p = ImageResults l
                            /\ Z.of_nat (List.length l) <= 150) Hok)
      as [Hst Hres].
    + intros p Hp. now apply Hp.
    + intros p Hp. unfold Images.aggregate in Hp.
      destruct (settle_all Images.imageProviders (Images.primary env)) as [x|ps];
        simpl in Hp; [discriminate|].
      destruct (fetch_more _ _ _ _) as [x|all]; simpl in Hp; [discriminate|].
      injection Hp as <-.
      repeat split; intros Hpre; try congruence.
      eexists. split; [reflexivity|]. unfold Images.merge.
      pose proof (js_slice_length 0 150
                    (stable_sort Images.by_rank (Images.dedup [] all))). lia.
    + split; [assumption|]. split; [assumption|]. split.
      * intros Hprim Hadd. unfold Images.aggregate.
        destruct (settle_all_settles _ _ Hprim) as [ps ->].
        unfold fetch_more.
        destruct (Z.of_nat (List.length _) <? 100).
        -- destruct (gather_additional_returns Images.tag (Images.additional env)
                       Images.additionalSearches Hadd
                       (gather_weighted Images.stamp random ps [] 0)) as [out ->].
           simpl. apply cached_or_returns.
        -- simpl. apply cached_or_returns.
      * intros p Hp Hrej Hmiss. rewrite cached_or_miss by assumption.
        unfold Images.aggregate.
        now rewrite (settle_all_rejects _ _ p Hp Hrej).
  - intros env random clk query safeSearch. unfold videoSearch.
    set (level := getSafeSearchParam safeSearch).
    destruct (vid_key_prefixes query level) as (Hw & Hi & Hv & Hn).
    destruct (cached_or_ok clk (vid_key query level)
                (lift VideoResults (Videos.aggregate env random)) st
                (fun p => exists l, p = VideoResults l
                            /\ Z.of_nat (List.length l) <= 150) Hok)
      as [Hst Hres].
    + intros p Hp. now apply Hp.
    + intros p Hp. unfold Videos.aggregate in Hp.
      destruct (settle_all Videos.videoProviders (Videos.primary env)) as [x|ps];
        simpl in Hp; [discriminate|].
      destruct (fetch_more _ _ _ _) as [x|all]; simpl in Hp; [discriminate|].
      injection Hp as <-.
      repeat split; intros Hpre; try congruence.
      eexists. split; [reflexivity|]. unfold Videos.merge.
      pose proof (js_slice_length 0 150
                    (stable_sort Videos.by_rank (Videos.dedup [] [] all))). lia.
    + split; [assumption|]. split; [assumption|]. split.
      * intros Hprim Hadd. unfold Videos.aggregate.
        destruct (settle_all_settles _ _ Hprim) as [ps ->].
        unfold fetch_more.
        destruct (Z.of_nat (List.length _) <? 100).
        -- destruct (gather_additional_returns Videos.tag (Videos.additional env)
                       Videos.additionalSearches Hadd
                       (gather_weighted Videos.stamp random ps [] 0)) as [out ->].
           simpl. apply cached_or_returns.
        -- simpl. apply cached_or_returns.
      * intros p Hp Hrej Hmiss. rewrite cached_or_miss by assumption.
        unfold Videos.aggregate.
        now rewrite (settle_all_rejects _ _ p Hp Hrej).
  - intros extractDomain primary random clk query safeSearch. unfold newsSearch.
    set (level := getSafeSearchParam safeSearch).
    destruct (news_key_prefixes query level) as (Hw & Hi & Hv & Hn).
    destruct (cached_or_ok clk (news_key query level)
                (lift NewsResults
                   (News.aggregate extractDomain primary random level)) st
                (fun p => exists l, p = NewsResults l
                            /\ Z.of_nat (List.length l) <= 50) Hok)
      as [Hst Hres].
    + intros p Hp. now apply Hp.
    + intros p Hp. unfold News.aggregate in Hp.
      destruct (settle_all News.newsProviders primary) as [x|ps];
        simpl in Hp; [discriminate|].
      destruct (if String.eqb level "strict" then _ else _) as [x|all];
        simpl in Hp; [discriminate|].
      injection Hp as <-.
      repeat split; intros Hpre; try congruence.
      eexists. split; [reflexivity|]. unfold News.merge.
      pose proof (js_slice_length 0 50
                    (stable_sort News.by_rank (News.dedup [] all))). lia.
    + split; [assumption|]. split; [assumption|]. split.
      * intros Hprim Hurl. unfold News.aggregate.
        destruct (settle_all_settles _ _ Hprim) as [ps Hps]. rewrite Hps.
        destruct (String.eqb level "strict").
        -- destruct (filter_allowed_returns extractDomain
                       (gather_weighted News.stamp random ps [] 0)) as [kept ->].
           { intros a Ha. apply gather_weighted_In in Ha
               as [[]|(p & a0 & sc & Hp & Ha0 & ->)].
             destruct (settle_all_found _ _ _ Hps p a0 Hp Ha0) as (nm & l & Hl & Hin).
             simpl. eauto. }
           simpl. apply cached_or_returns.
        -- simpl. apply cached_or_returns.
      * intros p Hp Hrej Hmiss. rewrite cached_or_miss by assumption.
        unfold News.aggregate.
        now rewrite (settle_all_rejects _ _ p Hp Hrej).
  - intros A extract fetch Hall. unfold await_fetchHTML, Http.fetchWithRetry.
    rewrite retry_loop_retryable by (intros a Ha; apply Hall; lia).
    reflexivity.
Qed.

(** Two runs of [webSearch('q')] on an empty cache.  When Brave fails with
    an error, the pages of DuckDuckGo and Startpage are returned.  When the
    server of Startpage answers the five requests of [fetchWithRetry] with a
    500, [searchViaStartpage] rejects with [undefined] and [webSearch]
    throws a [TypeError]: no list is returned, although every other provider
    answered. *)
Lemma category_searches_capped_witness :
  cache_ok Cache.empty
  /\ fst (webSearch brave_down noon "q" 1 None Cache.empty)
     = inr (WebResults
              [Web.enrich "moderate"
                 (Web.mkProviderResult "DuckDuckGo" [page_a] None 3) page_a;
               Web.enrich "moderate"
                 (Web.mkProviderResult "Startpage" [page_c] None 2) page_c])
  /\ cache_ok (snd (webSearch brave_down noon "q" 1 None Cache.empty))
  /\ Web.primary startpage_500 "Startpage" = Rejected ThrowUndefined
  /\ fst (webSearch startpage_500 noon "q" 1 None Cache.empty)
     = inl (ThrowError message_of_undefined).
Proof.
  assert (Hempty : cache_ok Cache.empty) by (intros k e []).
  pose proof (category_searches_capped Cache.empty Hempty)
    as (Hweb & _ & _ & _ & Hfetch).
  assert (Hrej : Web.primary startpage_500 "Startpage" = Rejected ThrowUndefined).
  { apply (Hfetch Web.Result (fun _ => Fulfilled (Some [])) always_500).
    intros a _. reflexivity. }
  split; [exact Hempty|]. split; [reflexivity|].
  split; [apply (Hweb brave_down noon "q" 1 None)|].
  split; [exact Hrej|].
  destruct (Hweb startpage_500 noon "q" 1 None) as (_ & _ & _ & Hthrows).
  apply (Hthrows (Web.mkMethod "Startpage" 2)).
  - simpl. auto.
  - exact Hrej.
  - reflexivity.
Defined.

(* ================================================================== *)
(** ** The cache: round trips, other keys, counters, statistics *)

Section CacheRuns.
Context {D : Type}.
Implicit Types (m : JsMap.t (Cache.Entry D)) (st : Cache.Store D).
Implicit Types (e : Cache.Entry D).

Lemma get_filter_wf (p : string * Cache.Entry D -> bool) m k e :
  JsMap.wf m -> JsMap.get k (filter p m) = Some e -> JsMap.get k m = Some e.
Proof.
  intros Hwf Hget. apply In_get; [assumption|].
  apply get_Some_In in Hget. apply filter_In in Hget. tauto.
Qed.

Lemma get_delete_keys_wf ks m k e :
  JsMap.wf m -> JsMap.get k (Cache.delete_keys ks m) = Some e ->
  JsMap.get k m = Some e.
Proof.
  intros Hwf Hget. apply In_get; [assumption|].
  apply get_Some_In in Hget. apply In_delete_keys in Hget. tauto.
Qed.

Lemma counters_run_op st (op : CacheOp D) :
  Cache.cacheHits (run_op st op) + Cache.cacheMisses (run_op st op)
  = reads_since_clear [op] (Cache.cacheHits st + Cache.cacheMisses st)
  /\ (0 <= Cache.cacheHits st -> 0 <= Cache.cacheHits (run_op st op))
  /\ (0 <= Cache.cacheMisses st -> 0 <= Cache.cacheMisses (run_op st op)).
Proof.
  destruct op as [now now' key|now now' key data ttl0|]; simpl.
  - unfold Cache.cacheGet. destruct (JsMap.get key (Cache.CACHE st)) as [e|].
    + destruct (Cache.expired now e); simpl; lia.
    + simpl. lia.
  - lia.
  - lia.
Qed.

Lemma reachable_counters st :
  Cache.reachable st -> 0 <= Cache.cacheHits st /\ 0 <= Cache.cacheMisses st.
Proof.
  induction 1 as [|now now' key st Hr IH|now now' key data ttl0 st Hr IH|st Hr IH].
  - simpl. lia.
  - pose proof (counters_run_op st (OpGet now now' key)) as H. simpl in H. lia.
  - simpl. lia.
  - simpl. lia.
Qed.

Lemma run_ops_reachable (ops : list (CacheOp D)) :
  forall st, Cache.reachable st -> Cache.reachable (run_ops ops st).
Proof.
  unfold run_ops. induction ops as [|op ops IH]; intros st Hr; simpl.
  - assumption.
  - apply IH. destruct op; simpl.
    + now apply Cache.reach_get.
    + now apply Cache.reach_set.
    + now apply Cache.reach_clear.
Qed.

(** X1.  What [cacheSet] stores, [cacheGet] gives back: a read of the key
    just written returns the written payload when its age (against the
    stamp the write stored) is at most the effective ttl (the [ttl]
    argument, [TTL.medium] when it is omitted or 0), and [null] otherwise,
    whatever the store held before. *)
Theorem cacheSet_cacheGet_round_trip st (now0 now0' now now' : Z)
    (key : string) (data : D) (ttl0 : option Z) :
  fst (Cache.cacheGet now now' key (Cache.cacheSet now0 now0' key data ttl0 st))
  = if now - now0' >?
       Z_or (match ttl0 with Some x => x | None => TTL_medium end) TTL_medium
    then None else Some data.
Proof.
  unfold Cache.cacheGet, Cache.cacheSet. cbn [Cache.CACHE].
  rewrite get_set_same. unfold Cache.expired. cbn [Cache.t Cache.ttl Cache.d].
  now destruct (_ >? _).
Qed.

(** X2.  [cacheSet] never changes the entry of another key: below capacity
    every other key reads as before, and at capacity another key is either
    evicted or holds the entry it held. *)
Theorem cacheSet_other_keys st (now now' : Z) (key k : string) (data : D)
    (ttl0 : option Z) :
  Cache.reachable st -> k <> key ->
  let st' := Cache.cacheSet now now' key data ttl0 st in
  (Cache.stats_size st < MAX_CACHE_SIZE ->
   JsMap.get k (Cache.CACHE st') = JsMap.get k (Cache.CACHE st))
  /\ (forall e, JsMap.get k (Cache.CACHE st') = Some e ->
                JsMap.get k (Cache.CACHE st) = Some e).
Proof.
  intros Hr Hne st'. subst st'. destruct (reachable_inv st Hr) as [Hwf _].
  unfold Cache.cacheSet, Cache.stats_size. cbn [Cache.CACHE].
  split.
  - intros Hlt. rewrite get_set_other by assumption.
    destruct (_ >=? _) eqn:Hge; [|reflexivity].
    apply Z.geb_le in Hge. lia.
  - intros e. rewrite get_set_other by assumption.
    destruct (_ >=? _); [|trivial].
    intros Hget. unfold Cache.sweep in Hget.
    apply get_filter_wf in Hget.
    + unfold Cache.evict_oldest in Hget. now apply get_delete_keys_wf in Hget.
    + now apply wf_delete_keys.
Qed.


(** X3.  The two counters count the reads: after any run of [cacheGet],
    [cacheSet] and [cacheClear] calls, [cacheHits + cacheMisses] has grown by
    the number of [cacheGet] calls made since the last [cacheClear] (which
    resets both), every read adding one to exactly one of them; [cacheSet]
    touches neither, and neither is ever negative. *)
Theorem counters_count_reads (ops : list (CacheOp D)) :
  forall st,
  Cache.cacheHits (run_ops ops st) + Cache.cacheMisses (run_ops ops st)
  = reads_since_clear ops (Cache.cacheHits st + Cache.cacheMisses st)
  /\ 0 <= Cache.cacheHits (run_ops ops Cache.empty)
  /\ 0 <= Cache.cacheMisses (run_ops ops Cache.empty).
Proof.
  intros st. split.
  - revert st. unfold run_ops, reads_since_clear.
    induction ops as [|op ops IH]; intros st; simpl.
    + reflexivity.
    + rewrite IH. f_equal.
      pose proof (counters_run_op st op) as [H _]. exact H.
  - apply (reachable_counters (run_ops ops Cache.empty)).
    apply run_ops_reachable, Cache.reach_empty.
Qed.

Lemma filter_length_le {A : Type} (p : A -> bool) (l : list A) :
  (List.length (filter p l) <= List.length l)%nat.
Proof.
  induction l as [|x l IH]; simpl; [lia|]. destruct (p x); simpl; lia.
Qed.

Lemma expired_count_misses st (now now' : Z) m :
  (forall kv, In kv m -> JsMap.get (fst kv) (Cache.CACHE st) = Some (snd kv)) ->
  List.length (filter (fun e => Cache.expired now e) (map snd m))
  = List.length
      (filter (fun k => match fst (Cache.cacheGet now now' k st) with
                        | None => true
                        | Some _ => false
                        end)
         (map fst m)).
Proof.
  induction m as [|[k e] m IH]; intros Hall; simpl; [reflexivity|].
  pose proof (Hall (k, e) (or_introl eq_refl)) as Hk. simpl in Hk.
  unfold Cache.cacheGet at 1. rewrite Hk.
  assert (IH' := IH (fun x Hx => Hall x (or_intror Hx))).
  destruct (Cache.expired now e); simpl; now rewrite IH'.
Qed.

(** X4.  The figures of [getCacheStats()] are consistent for every store the
    cache functions produce: [0 <= expiredEntries <= size <= maxSize],
    [hits] and [misses] are not negative, the hit rate, present exactly when
    a read has been counted, lies between 0 and 100, and [expiredEntries]
    counts exactly the stored keys for which a [cacheGet] at the same time
    would return [null]. *)
Theorem getCacheStats_consistent st (now : Z) :
  Cache.reachable st ->
  let s := getCacheStats now st in
  (forall now',
     expiredEntries s
     = Z.of_nat
         (List.length
            (filter (fun k => match fst (Cache.cacheGet now now' k st) with
                              | None => true
                              | Some _ => false
                              end)
               (JsMap.keys (Cache.CACHE st)))))
  /\ 0 <= expiredEntries s /\ expiredEntries s <= size s /\ size s <= maxSize s
  /\ 0 <= hits s /\ 0 <= misses s
  /\ (hitRate s = None <-> hits s + misses s = 0)
  /\ (forall q, hitRate s = Some q -> (0 <= q)%Q /\ (q <= 100)%Q).
Proof.
  intros Hr s. subst s. split.
  { intros now'. destruct (reachable_inv st Hr) as [Hwf _].
    unfold getCacheStats. cbn [expiredEntries]. f_equal.
    unfold JsMap.values, JsMap.keys.
    apply expired_count_misses. intros [k e] Hin. now apply In_get. }
  destruct (reachable_inv st Hr) as [_ Hsz].
  destruct (reachable_counters st Hr) as [Hh Hm].
  unfold getCacheStats. cbn -[Qle Qmult Qdiv].
  split; [lia|]. split.
  { unfold JsMap.size, JsMap.values.
    pose proof (filter_length_le (fun e => Cache.expired now e)
                  (map snd (Cache.CACHE st))) as H.
    rewrite length_map in H. lia. }
  split; [exact Hsz|]. split; [exact Hh|]. split; [exact Hm|].
  destruct (_ >? 0) eqn:Hpos.
  - apply Z.gtb_lt in Hpos. split.
    + split; [discriminate|lia].
    + intros q [= <-].
      set (h := Cache.cacheHits st) in *. set (ms := Cache.cacheMisses st) in *.
      assert (Hd : (0 < inject_Z (h + ms))%Q).
      { change 0%Q with (inject_Z 0). rewrite <- Zlt_Qlt. lia. }
      assert (Hn : (0 <= inject_Z h)%Q).
      { change 0%Q with (inject_Z 0). rewrite <- Zle_Qle. lia. }
      assert (Hle : (inject_Z h <= inject_Z (h + ms))%Q).
      { rewrite <- Zle_Qle. lia. }
      split.
      * apply Qmult_le_0_compat; [|discriminate].
        apply Qle_shift_div_l; [assumption|]. now rewrite Qmult_0_l.
      * assert (H1 : (inject_Z h / inject_Z (h + ms) <= 1)%Q).
        { apply Qle_shift_div_r; [assumption|]. now rewrite Qmult_1_l. }
        setoid_replace (100 : Q) with (1 * 100)%Q by reflexivity.
        apply Qmult_le_compat_r; [assumption|discriminate].
  - rewrite Z.gtb_ltb in Hpos. apply Z.ltb_ge in Hpos. split.
    + split; [lia|reflexivity].
    + discriminate.
Qed.





Lemma strictly_older_NoDup e m : NoDup m -> NoDup (strictly_older e m).
Proof. intros H. unfold strictly_older. now apply NoDup_filter. Qed.

Lemma wf_NoDup_entries m : JsMap.wf m -> NoDup m.
Proof. intros H. apply (NoDup_map_inv fst). exact H. Qed.

Lemma evict_oldest_keeps_recent m k e :
  JsMap.wf m -> In (k, e) m ->
  JsMap.size m / 10 <= Z.of_nat (List.length (strictly_older e m)) ->
  In (k, e) (Cache.evict_oldest m).
Proof.
  intros Hwf Hin Hcount. unfold Cache.evict_oldest.
  apply In_delete_keys. split; [assumption|].
  intros Hk. apply in_map_iff in Hk as [[k1 e1] [Hk1 Hin1]]. simpl in Hk1. subst k1.
  assert (Hm1 : In (k, e1) m).
  { eapply stable_sort_In, In_firstn, Hin1. }
  assert (e1 = e).
  { pose proof (In_get _ _ _ Hwf Hm1) as H1. pose proof (In_get _ _ _ Hwf Hin) as H2.
    congruence. }
  subst e1.
  set (sorted := stable_sort Cache.older m) in *.
  set (n := Z.to_nat (JsMap.size sorted / 10)) in *.
  assert (Hsub : incl ((k, e) :: strictly_older e m) (firstn n sorted)).
  { intros x [<-|Hx]; [assumption|].
    unfold strictly_older in Hx. apply filter_In in Hx as [Hxm Hlt].
    apply Z.ltb_lt in Hlt.
    assert (Hxs : In x sorted) by now apply stable_sort_In.
    rewrite <- (firstn_skipn n sorted) in Hxs. apply in_app_or in Hxs as [|Hsk];
      [assumption|].
    pose proof (sorted_firstn_skipn _ n sorted
                  (stable_sort_sorted Cache.older older_total older_trans m)
                  (k, e) x Hin1 Hsk) as Hle.
    unfold Cache.older in Hle. apply Z.leb_le in Hle. simpl in Hle. lia. }
  assert (Hnd : NoDup ((k, e) :: strictly_older e m)).
  { constructor.
    - unfold strictly_older. rewrite filter_In. simpl. intros [_ H].
      apply Z.ltb_lt in H. lia.
    - apply strictly_older_NoDup, wf_NoDup_entries, Hwf. }
  pose proof (NoDup_incl_length Hnd Hsub) as Hlen.
  rewrite length_firstn in Hlen. simpl in Hlen.
  assert (JsMap.size sorted = JsMap.size m).
  { unfold JsMap.size, sorted. now rewrite stable_sort_length. }
  unfold n in Hlen. rewrite H in Hlen.
  assert (0 <= JsMap.size m / 10).
  { apply Z.div_pos; [unfold JsMap.size|]; lia. }
  lia.
Qed.

(** X5.  Recently used entries survive the cleanup: when [cacheSet] runs at
    capacity, an entry of another key that is not expired at the time of the
    sweep and has at least a tenth of the entries (rounded down) strictly
    older than it is still in the cache afterwards, unchanged. *)
Theorem cacheSet_keeps_recent st (now now' : Z) (key k : string) (data : D)
    (ttl0 : option Z) e :
  Cache.reachable st -> k <> key ->
  JsMap.get k (Cache.CACHE st) = Some e ->
  Cache.expired now e = false ->
  Cache.stats_size st / 10
    <= Z.of_nat (List.length (strictly_older e (Cache.CACHE st))) ->
  JsMap.get k (Cache.CACHE (Cache.cacheSet now now' key data ttl0 st)) = Some e.
Proof.
  intros Hr Hne Hget Hfresh Hcount. destruct (reachable_inv st Hr) as [Hwf _].
  unfold Cache.cacheSet. cbn [Cache.CACHE]. rewrite get_set_other by assumption.
  destruct (_ >=? _); [|assumption].
  apply In_get.
  - unfold Cache.sweep. apply wf_filter. now apply wf_delete_keys.
  - unfold Cache.sweep. apply filter_In. split.
    + apply evict_oldest_keeps_recent; auto using get_Some_In.
    + simpl. now rewrite Hfresh.
Qed.

End CacheRuns.

Lemma cacheSet_other_keys_witness :
  JsMap.get "b"
    (Cache.CACHE (Cache.cacheSet 10 11 "a" 7%nat None
                    (Cache.cacheSet 0 1 "b" 5%nat (Some 50) Cache.empty)))
  = Some (Cache.mkEntry 5%nat 1 50).
Proof.
  refine (eq_trans
    (proj1 (cacheSet_other_keys
              (Cache.cacheSet 0 1 "b" 5%nat (Some 50) Cache.empty)
              10 11 "a" "b" 7%nat None _ _) _) _).
  - apply Cache.reach_set, Cache.reach_empty.
  - discriminate.
  - reflexivity.
  - reflexivity.
Defined.

Lemma getCacheStats_consistent_witness :
  expiredEntries
    (getCacheStats 1000 (Cache.cacheSet 0 1 "b" 5%nat (Some 50) Cache.empty))
  = 1
  /\ expiredEntries
       (getCacheStats 1000 (Cache.cacheSet 0 1 "b" 5%nat (Some 50) Cache.empty))
     <= size (getCacheStats 1000
                (Cache.cacheSet 0 1 "b" 5%nat (Some 50) Cache.empty)).
Proof.
  split; [reflexivity|].
  apply (getCacheStats_consistent
           (Cache.cacheSet 0 1 "b" 5%nat (Some 50) Cache.empty) 1000).
  apply Cache.reach_set, Cache.reach_empty.
Defined.


Lemma set_absent {V : Type} (k : string) (v : V) (m : JsMap.t V) :
  JsMap.get k m = None -> JsMap.set k v m = m ++ [(k, v)].
Proof.
  induction m as [|[k' v'] m IH]; simpl; [reflexivity|].
  destruct (String.eqb k k'); [discriminate|]. intros H. now rewrite IH.
Qed.

Lemma cacheSet_below_capacity {D : Type} (st : Cache.Store D) (now now' : Z)
    (key : string) (data : D) (ttl0 : option Z) :
  Cache.stats_size st < MAX_CACHE_SIZE ->
  Cache.CACHE (Cache.cacheSet now now' key data ttl0 st)
  = JsMap.set key
      (Cache.mkEntry data now'
         (match ttl0 with Some x => x | None => TTL_medium end))
      (Cache.CACHE st).
Proof.
  intros Hlt. unfold Cache.cacheSet, Cache.stats_size in *. cbn [Cache.CACHE].
  replace (JsMap.size (Cache.CACHE st) >=? MAX_CACHE_SIZE) with false
    by (symmetry; rewrite Z.geb_leb; apply Z.leb_gt; lia).
  reflexivity.
Qed.

Lemma get_after_cacheSet {D : Type} (st : Cache.Store D) (now now' : Z)
    (key : string) (data : D) (ttl0 : option Z) :
  JsMap.get key (Cache.CACHE (Cache.cacheSet now now' key data ttl0 st))
  = Some (Cache.mkEntry data now'
            (match ttl0 with Some x => x | None => TTL_medium end)).
Proof. unfold Cache.cacheSet. cbn [Cache.CACHE]. apply get_set_same. Qed.

Lemma stats_size_length {D : Type} (st : Cache.Store D) :
  Cache.stats_size st = Z.of_nat (List.length (Cache.CACHE st)).
Proof. reflexivity. Qed.

Lemma numbered_puts_stamps (n : nat) :
  Z.of_nat n <= MAX_CACHE_SIZE ->
  forall k e,
  In (k, e) (Cache.CACHE (Cache.put_all (numbered_puts n) Cache.empty)) ->
  Cache.t e = 0.
Proof.
  induction n as [|n IH]; intros Hn k e; [intros []|].
  unfold numbered_puts in *. rewrite seq_S, map_app, put_all_app.
  cbn [map Cache.put_all fold_left Nat.add].
  rewrite cacheSet_below_capacity
    by (fold (numbered_puts n); rewrite numbered_puts_size; lia).
  intros Hin. apply In_set in Hin as [[= _ ->]|Hin]; [reflexivity|].
  apply (IH ltac:(lia) k e Hin).
Qed.

Lemma fresh_not_numbered (n : nat) :
  Z.of_nat n <= MAX_CACHE_SIZE ->
  JsMap.get "fresh"
    (Cache.CACHE (Cache.put_all (numbered_puts n) Cache.empty)) = None.
Proof.
  intros Hn. apply get_None_iff. rewrite numbered_puts_keys by assumption.
  intros Hin. apply in_map_iff in Hin as (i & Hi & _).
  unfold show_nat in Hi. apply (f_equal NilZero.uint_of_string) in Hi.
  rewrite NilZero.usu in Hi by apply to_uint_not_Nil. discriminate.
Qed.

Lemma strictly_older_app {D : Type} (e : Cache.Entry D)
    (m1 m2 : JsMap.t (Cache.Entry D)) :
  strictly_older e (m1 ++ m2) = strictly_older e m1 ++ strictly_older e m2.
Proof. apply filter_app. Qed.

Lemma strictly_older_all {D : Type} (e : Cache.Entry D)
    (m : JsMap.t (Cache.Entry D)) :
  (forall k e0, In (k, e0) m -> Cache.t e0 < Cache.t e) ->
  strictly_older e m = m.
Proof.
  intros Hall. apply forallb_filter_id, forallb_forall.
  intros [k e0] Hin. apply Z.ltb_lt, (Hall k e0 Hin).
Qed.

Lemma nearly_full_eq :
  nearly_full
  = Cache.put_all (numbered_puts (Z.to_nat (MAX_CACHE_SIZE - 1))) Cache.empty.
Proof. reflexivity. Qed.

Lemma nearly_full_below :
  Z.of_nat (Z.to_nat (MAX_CACHE_SIZE - 1)) <= MAX_CACHE_SIZE.
Proof. rewrite Z2Nat.id; unfold MAX_CACHE_SIZE; lia. Qed.

Lemma full_with_fresh_entries :
  Cache.CACHE full_with_fresh
  = Cache.CACHE nearly_full ++ [("fresh", Cache.mkEntry "v" 5 TTL_medium)]
  /\ Cache.stats_size nearly_full = MAX_CACHE_SIZE - 1.
Proof.
  assert (Hn : Z.of_nat (Z.to_nat (MAX_CACHE_SIZE - 1)) = MAX_CACHE_SIZE - 1)
    by (apply Z2Nat.id; unfold MAX_CACHE_SIZE; lia).
  assert (Hsize : Cache.stats_size nearly_full = MAX_CACHE_SIZE - 1).
  { unfold nearly_full. rewrite numbered_puts_size; lia. }
  split; [|exact Hsize].
  unfold full_with_fresh. rewrite cacheSet_below_capacity by lia.
  apply set_absent. unfold nearly_full. apply fresh_not_numbered. lia.
Qed.

(** At capacity: the store holds [MAX_CACHE_SIZE] entries, 9999 of them
    stamped 0 and the entry "fresh" stamped 5; the next insertion runs the
    cleanup, which removes 1000 entries, and "fresh" is still there. *)
Lemma cacheSet_keeps_recent_witness :
  Cache.stats_size full_with_fresh = MAX_CACHE_SIZE
  /\ JsMap.get "fresh"
       (Cache.CACHE (Cache.cacheSet 6 6 "one more" "w" None full_with_fresh))
     = Some (Cache.mkEntry "v" 5 TTL_medium).
Proof.
  destruct full_with_fresh_entries as [Hentries Hnear].
  rewrite stats_size_length in Hnear.
  assert (Hfull : Cache.stats_size full_with_fresh = MAX_CACHE_SIZE).
  { rewrite stats_size_length, Hentries, length_app, Nat2Z.inj_add, Hnear.
    reflexivity. }
  split; [exact Hfull|].
  apply (cacheSet_keeps_recent full_with_fresh 6 6 "one more" "fresh" "w" None
           (Cache.mkEntry "v" 5 TTL_medium)).
  - unfold full_with_fresh, nearly_full.
    apply Cache.reach_set, put_all_reachable, Cache.reach_empty.
  - discriminate.
  - unfold full_with_fresh. apply get_after_cacheSet.
  - reflexivity.
  - rewrite Hfull, Hentries, strictly_older_app, length_app, Nat2Z.inj_add.
    rewrite strictly_older_all.
    + rewrite Hnear. vm_compute. discriminate.
    + intros k e Hin. rewrite nearly_full_eq in Hin.
      rewrite (numbered_puts_stamps _ nearly_full_below k e Hin).
      reflexivity.
Defined.

(* ================================================================== *)
(** ** [fetchWithRetry] in any environment *)

Section RetryFacts.
Variable fetch : nat -> Http.FetchOutcome.
Variable maxRetries : nat.

Lemma success_try_block (attempt : nat) (o : Http.FetchOutcome) :
  match success o with
  | Some v => Http.try_block attempt o = Http.TryReturn v
  | None => forall v, Http.try_block attempt o <> Http.TryReturn v
  end.
Proof.
  destruct o as [e|r]; simpl; [discriminate|].
  destruct (Http.ok r).
  - destruct (Http.body r); [discriminate|reflexivity].
  - destruct (_ || _); discriminate.
Qed.

Lemma retry_loop_fetches :
  forall (remaining attempt : nat) (lastError : Thrown),
  let log := fst (Http.retry_loop fetch maxRetries remaining attempt lastError) in
  fetches log = seq attempt (Http.fetch_count log)
  /\ (Http.fetch_count log <= remaining)%nat
  /\ (List.length (Http.delays log) <= Http.fetch_count log)%nat
  /\ (0 < remaining -> 0 < Http.fetch_count log)%nat.
Proof.
  induction remaining as [|remaining IH]; intros attempt lastError;
    cbn [Http.retry_loop].
  - repeat split; simpl; try reflexivity; lia.
  - assert (Hone : forall res : Http.Outcome,
      let log := fst ([Http.EvFetch attempt], res) in
      fetches log = seq attempt (Http.fetch_count log)
      /\ (Http.fetch_count log <= S remaining)%nat
      /\ (List.length (Http.delays log) <= Http.fetch_count log)%nat
      /\ (0 < S remaining -> 0 < Http.fetch_count log)%nat).
    { intros res. unfold Http.fetch_count. simpl.
      repeat split; try reflexivity; lia. }
    assert (Hstep : forall (w : Z) (lastError' : Thrown),
      let log :=
        fst (let (log, res) :=
               Http.retry_loop fetch maxRetries remaining (S attempt) lastError' in
             (Http.EvFetch attempt :: Http.EvDelay w :: log, res)) in
      fetches log = seq attempt (Http.fetch_count log)
      /\ (Http.fetch_count log <= S remaining)%nat
      /\ (List.length (Http.delays log) <= Http.fetch_count log)%nat
      /\ (0 < S remaining -> 0 < Http.fetch_count log)%nat).
    { intros w lastError'. specialize (IH (S attempt) lastError').
      destruct (Http.retry_loop fetch maxRetries remaining (S attempt) lastError')
        as [log res]. cbn [fst] in *.
      destruct IH as (H1 & H2 & H3 & _).
      unfold Http.fetch_count in *. cbn [fetches flat_map app filter Http.delays].
      fold (fetches log). fold (Http.delays log). rewrite H1. simpl.
      repeat split; try reflexivity; lia. }
    destruct (Http.try_block attempt (fetch attempt)) as [v|w|e].
    + apply Hone.
    + apply Hstep.
    + destruct (Nat.eqb attempt (maxRetries - 1)); [apply Hone|apply Hstep].
Qed.

Lemma retry_loop_first_success (v : string) :
  forall (k remaining attempt : nat) (lastError : Thrown),
  (k < remaining)%nat -> (attempt + remaining <= maxRetries)%nat ->
  (forall a, (attempt <= a < attempt + k)%nat -> success (fetch a) = None) ->
  success (fetch (attempt + k)) = Some v ->
  snd (Http.retry_loop fetch maxRetries remaining attempt lastError)
  = Http.Returned v
  /\ fetches (fst (Http.retry_loop fetch maxRetries remaining attempt lastError))
     = seq attempt (S k).
Proof.
  induction k as [|k IH]; intros remaining attempt lastError Hk Hn Hnone Hsome.
  - destruct remaining as [|remaining]; [lia|]. simpl.
    rewrite Nat.add_0_r in Hsome.
    pose proof (success_try_block attempt (fetch attempt)) as Ht.
    rewrite Hsome in Ht. rewrite Ht. split; reflexivity.
  - destruct remaining as [|remaining]; [lia|].
    assert (Hrec : forall lastError',
      snd (Http.retry_loop fetch maxRetries remaining (S attempt) lastError')
      = Http.Returned v
      /\ fetches (fst (Http.retry_loop fetch maxRetries remaining (S attempt)
                         lastError'))
         = seq (S attempt) (S k)).
    { intros lastError'. apply IH; try lia.
      - intros a Ha. apply Hnone. lia.
      - now replace (S attempt + k)%nat with (attempt + S k)%nat by lia. }
    pose proof (success_try_block attempt (fetch attempt)) as Ht.
    rewrite (Hnone attempt) in Ht by lia.
    cbn [Http.retry_loop].
    destruct (Http.try_block attempt (fetch attempt)) as [v0|w|e].
    + now contradiction (Ht v0).
    + specialize (Hrec lastError).
      destruct (Http.retry_loop fetch maxRetries remaining (S attempt) lastError)
        as [log res]. simpl in *. destruct Hrec as [-> ->]. split; reflexivity.
    + replace (Nat.eqb attempt (maxRetries - 1)) with false
        by (symmetry; apply Nat.eqb_neq; lia).
      specialize (Hrec (ThrowError e)).
      destruct (Http.retry_loop fetch maxRetries remaining (S attempt)
                  (ThrowError e)) as [log res].
      simpl in *. destruct Hrec as [-> ->]. split; reflexivity.
Qed.

Lemma retry_loop_no_success :
  forall (remaining attempt : nat) (lastError : Thrown),
  (forall a, (attempt <= a < attempt + remaining)%nat -> success (fetch a) = None) ->
  exists x,
    snd (Http.retry_loop fetch maxRetries remaining attempt lastError)
    = Http.Threw x.
Proof.
  induction remaining as [|remaining IH]; intros attempt lastError Hnone; simpl.
  - now exists lastError.
  - pose proof (success_try_block attempt (fetch attempt)) as Ht.
    rewrite (Hnone attempt) in Ht by lia.
    destruct (Http.try_block attempt (fetch attempt)) as [v0|w|e].
    + now contradiction (Ht v0).
    + destruct (IH (S attempt) lastError) as [x Hx].
      { intros a Ha. apply Hnone. lia. }
      destruct (Http.retry_loop fetch maxRetries remaining (S attempt) lastError)
        as [log res]. simpl in *. now exists x.
    + destruct (Nat.eqb attempt (maxRetries - 1)).
      * simpl. eauto.
      * destruct (IH (S attempt) (ThrowError e)) as [x Hx].
        { intros a Ha. apply Hnone. lia. }
        destruct (Http.retry_loop fetch maxRetries remaining (S attempt)
                    (ThrowError e)) as [log res]. simpl in *. now exists x.
Qed.

Lemma first_success_or_none (n : nat) :
  (forall a, (a < n)%nat -> success (fetch a) = None)
  \/ exists k v, (k < n)%nat /\ success (fetch k) = Some v
                 /\ forall a, (a < k)%nat -> success (fetch a) = None.
Proof.
  induction n as [|n [Hnone|(k & v & Hk & Hv & Hbefore)]].
  - left. intros a Ha. lia.
  - destruct (success (fetch n)) as [v|] eqn:Hn.
    + right. exists n, v. repeat split; auto.
    + left. intros a Ha. destruct (Nat.eq_dec a n) as [->|]; [assumption|].
      apply Hnone. lia.
  - right. exists k, v. repeat split; auto.
Qed.

Lemma succ_le_pow2 (a : nat) : Z.of_nat a + 1 <= 2 ^ Z.of_nat a.
Proof.
  induction a as [|a IH]; [simpl; lia|].
  rewrite Nat2Z.inj_succ, Z.pow_succ_r by lia. lia.
Qed.

Lemma retry_loop_total_wait :
  no_retry_after fetch ->
  forall (remaining attempt : nat) (lastError : Thrown),
  total_wait (fst (Http.retry_loop fetch maxRetries remaining attempt lastError))
  <= 1000 * 2 ^ Z.of_nat attempt * (2 ^ Z.of_nat remaining - 1).
Proof.
  intros Hno.
  assert (Hp : forall a : nat, 0 < 2 ^ Z.of_nat a)
    by (intros a; apply Z.pow_pos_nonneg; lia).
  induction remaining as [|remaining IH]; intros attempt lastError.
  - unfold total_wait. cbn [Http.retry_loop fst Http.delays flat_map fold_right].
    change (Z.of_nat 0) with 0. rewrite Z.pow_0_r. lia.
  - cbn [Http.retry_loop].
    assert (Hstep : forall w log,
      w <= 1000 * 2 ^ Z.of_nat attempt ->
      total_wait log
        <= 1000 * 2 ^ Z.of_nat (S attempt) * (2 ^ Z.of_nat remaining - 1) ->
      total_wait (Http.EvFetch attempt :: Http.EvDelay w :: log)
        <= 1000 * 2 ^ Z.of_nat attempt * (2 ^ Z.of_nat (S remaining) - 1)).
    { intros w log Hw Hlog. unfold total_wait in *.
      change (Http.delays (Http.EvFetch attempt :: Http.EvDelay w :: log))
        with (w :: Http.delays log). cbn [fold_right].
      rewrite Nat2Z.inj_succ, Z.pow_succ_r in Hlog by lia.
      rewrite Nat2Z.inj_succ, Z.pow_succ_r by lia.
      generalize dependent (fold_right Z.add 0 (Http.delays log)).
      generalize dependent (2 ^ Z.of_nat attempt).
      generalize (2 ^ Z.of_nat remaining). intros. nia. }
    assert (Hnonneg :
      0 <= 1000 * 2 ^ Z.of_nat attempt * (2 ^ Z.of_nat (S remaining) - 1)).
    { pose proof (Hp attempt). pose proof (Hp (S remaining)).
      apply Z.mul_nonneg_nonneg; lia. }
    destruct (fetch attempt) as [e|r] eqn:Hf; cbn [Http.try_block].
    + destruct (Nat.eqb attempt (maxRetries - 1)); [exact Hnonneg|].
      specialize (IH (S attempt) (ThrowError e)).
      destruct (Http.retry_loop fetch maxRetries remaining (S attempt)
                  (ThrowError e)) as [log res].
      cbn [fst] in *. apply Hstep; [lia|exact IH].
    + destruct (Http.ok r).
      * destruct (Http.body r) as [e|v]; [|exact Hnonneg].
        destruct (Nat.eqb attempt (maxRetries - 1)); [exact Hnonneg|].
        specialize (IH (S attempt) (ThrowError e)).
        destruct (Http.retry_loop fetch maxRetries remaining (S attempt)
                    (ThrowError e)) as [log res].
        cbn [fst] in *. apply Hstep; [lia|exact IH].
      * destruct (_ || _).
        -- rewrite (Hno attempt r Hf).
           specialize (IH (S attempt) lastError).
           destruct (Http.retry_loop fetch maxRetries remaining (S attempt)
                       lastError) as [log res].
           cbn [fst] in *. apply Hstep; [|exact IH].
           pose proof (succ_le_pow2 attempt). lia.
        -- destruct (Nat.eqb attempt (maxRetries - 1)); [exact Hnonneg|].
           specialize (IH (S attempt) (ThrowError (Http.http_error r))).
           destruct (Http.retry_loop fetch maxRetries remaining (S attempt)
                       (ThrowError (Http.http_error r))) as [log res].
           cbn [fst] in *. apply Hstep; [lia|exact IH].
Qed.

(** X6.  The retry budget holds in every environment: whatever the calls
    of [fetch] do, [fetchWithRetry] calls it at most [maxRetries] times and,
    when [maxRetries] is positive, at least once; the attempts are numbered
    0, 1, 2, ... without a gap; and there is at most one delay per call. *)
Theorem fetchWithRetry_budget :
  let log := fst (Http.fetchWithRetry fetch maxRetries) in
  fetches log = seq 0 (Http.fetch_count log)
  /\ (Http.fetch_count log <= maxRetries)%nat
  /\ (List.length (Http.delays log) <= Http.fetch_count log)%nat
  /\ (maxRetries = 0%nat \/ 0 < Http.fetch_count log)%nat.
Proof.
  intros log. subst log. unfold Http.fetchWithRetry.
  destruct (retry_loop_fetches maxRetries 0 ThrowUndefined) as (H1 & H2 & H3 & H4).
  repeat split; try assumption.
  destruct maxRetries; [now left|right; apply H4; lia].
Qed.

(** X7.  The first success wins: [fetchWithRetry] returns a value exactly
    when some attempt within the budget gets a 2xx response whose body can be
    read; the value is the body of the first such attempt [k], [fetch] is
    called [k + 1] times, and whatever the earlier attempts met (transport
    errors, 4xx, 429, 5xx, unreadable bodies) is forgotten. *)
Theorem fetchWithRetry_first_success (v : string) :
  snd (Http.fetchWithRetry fetch maxRetries) = Http.Returned v
  <-> exists k,
        (k < maxRetries)%nat
        /\ success (fetch k) = Some v
        /\ (forall a, (a < k)%nat -> success (fetch a) = None)
        /\ fetches (fst (Http.fetchWithRetry fetch maxRetries)) = seq 0 (S k).
Proof.
  unfold Http.fetchWithRetry. split.
  - intros Hret.
    destruct (first_success_or_none maxRetries)
      as [Hnone|(k & v' & Hk & Hv & Hbefore)].
    + destruct (retry_loop_no_success maxRetries 0 ThrowUndefined) as [x Hx].
      { intros a Ha. apply Hnone. lia. }
      congruence.
    + destruct (retry_loop_first_success v' k maxRetries 0 ThrowUndefined)
        as [Hr Hf]; try lia; auto.
      { intros a Ha. apply Hbefore. lia. }
      exists k. rewrite Hret in Hr. injection Hr as ->. auto.
  - intros (k & Hk & Hv & Hbefore & _).
    apply (retry_loop_first_success v k maxRetries 0 ThrowUndefined); try lia; auto.
    intros a Ha. apply Hbefore. lia.
Qed.

(** X8.  The waiting time is bounded: when no response carries a
    [retry-after] header, the delays of one [fetchWithRetry] run add up to at
    most [1000 * (2 ^ maxRetries - 1)] ms (31 s for the default budget of 5),
    since attempt [a] is followed by a wait of [1000 * (a + 1)] ms after a
    429/5xx response and of [1000 * 2 ^ a] ms after an error. *)
Theorem fetchWithRetry_total_wait :
  no_retry_after fetch ->
  total_wait (fst (Http.fetchWithRetry fetch maxRetries))
  <= 1000 * (2 ^ Z.of_nat maxRetries - 1).
Proof.
  intros Hno. unfold Http.fetchWithRetry.
  pose proof (retry_loop_total_wait Hno maxRetries 0 ThrowUndefined) as H.
  change (Z.of_nat 0) with 0 in H. rewrite Z.pow_0_r in H. lia.
Qed.

End RetryFacts.

Lemma fetchWithRetry_total_wait_witness :
  total_wait
    (fst (Http.fetchWithRetry
            (fun _ => Http.FetchResolves
                        (Http.mkResponse 500 "Internal Server Error" None (inr "")))
            MAX_RETRIES))
  <= 31000.
Proof.
  apply (fetchWithRetry_total_wait
           (fun _ => Http.FetchResolves
                       (Http.mkResponse 500 "Internal Server Error" None (inr "")))
           MAX_RETRIES).
  intros a r [= <-]. reflexivity.
Defined.

(* ================================================================== *)
(** ** Ranking and pagination *)

Lemma StronglySorted_weaken {A : Type} (R R' : A -> A -> Prop) (l : list A) :
  (forall a b, R a b -> R' a b) -> StronglySorted R l -> StronglySorted R' l.
Proof.
  intros Himp. induction 1 as [|a l Hs IH Hall]; constructor; [assumption|].
  eapply Forall_impl; [|exact Hall]. apply Himp.
Qed.

Lemma StronglySorted_skipn {A : Type} (R : A -> A -> Prop) (n : nat) (l : list A) :
  StronglySorted R l -> StronglySorted R (skipn n l).
Proof.
  revert l. induction n as [|n IH]; intros l Hs; [exact Hs|].
  destruct l as [|x l]; [exact Hs|]. simpl. apply IH.
  now apply StronglySorted_inv in Hs.
Qed.

Lemma StronglySorted_firstn {A : Type} (R : A -> A -> Prop) (n : nat) (l : list A) :
  StronglySorted R l -> StronglySorted R (firstn n l).
Proof.
  revert l. induction n as [|n IH]; intros l Hs; [constructor|].
  destruct l as [|x l]; [constructor|]. simpl.
  apply StronglySorted_inv in Hs as [Hs Hall]. constructor; [now apply IH|].
  apply Forall_forall. intros y Hy. rewrite Forall_forall in Hall.
  apply Hall. eapply In_firstn, Hy.
Qed.

Lemma js_slice_sorted {A : Type} (R : A -> A -> Prop) (start stop : Z)
    (l : list A) :
  StronglySorted R l -> StronglySorted R (js_slice start stop l).
Proof.
  intros Hs. unfold js_slice. now apply StronglySorted_firstn, StronglySorted_skipn.
Qed.

Section Ranking.
Context {A : Type} (rank : A -> Q).

Lemma by_rank_spec (a b : A) :
  descending rank a b = true <-> (rank b <= rank a)%Q.
Proof. unfold descending. rewrite Qle_bool_iff. split; intros H; lra. Qed.

Lemma by_rank_total (a b : A) :
  descending rank a b = true \/ descending rank b a = true.
Proof.
  rewrite !by_rank_spec. destruct (Qlt_le_dec (rank a) (rank b)) as [H|H].
  - right. now apply Qlt_le_weak.
  - now left.
Qed.

Lemma by_rank_trans (a b c : A) :
  descending rank a b = true -> descending rank b c = true ->
  descending rank a c = true.
Proof. rewrite !by_rank_spec. intros H1 H2. lra. Qed.

Lemma sort_by_rank_sorted (l : list A) :
  StronglySorted (fun a b => (rank b <= rank a)%Q) (stable_sort (descending rank) l).
Proof.
  eapply StronglySorted_weaken;
    [|apply (stable_sort_sorted (descending rank) by_rank_total by_rank_trans)].
  intros a b. apply by_rank_spec.
Qed.

Lemma insert_sorted_filter (p : A -> bool) (x : A) (l : list A) :
  (forall y, p x = true -> p y = true -> descending rank x y = true) ->
  filter p (insert_sorted (descending rank) x l)
  = if p x then x :: filter p l else filter p l.
Proof.
  intros Hp. induction l as [|y l IH]; simpl.
  - reflexivity.
  - destruct (descending rank x y) eqn:Hxy; simpl.
    + reflexivity.
    + rewrite IH. destruct (p x) eqn:Hx, (p y) eqn:Hy; try reflexivity.
      specialize (Hp y eq_refl Hy). congruence.
Qed.

Lemma sort_by_rank_ties (q : Q) (l : list A) :
  filter (fun a => Qeq_bool (rank a) q) (stable_sort (descending rank) l)
  = filter (fun a => Qeq_bool (rank a) q) l.
Proof.
  induction l as [|x l IH]; simpl; [reflexivity|].
  rewrite insert_sorted_filter.
  - now rewrite IH.
  - intros y Hx Hy. apply Qeq_bool_iff in Hx, Hy. apply by_rank_spec.
    rewrite Hx, Hy. apply Qle_refl.
Qed.

End Ranking.

Lemma firstn_min_length {A : Type} (n : nat) (l : list A) :
  firstn (Nat.min n (List.length l)) l = firstn n l.
Proof.
  destruct (Nat.le_ge_cases n (List.length l)) as [H|H].
  - now rewrite Nat.min_l.
  - rewrite Nat.min_r by assumption. now rewrite !firstn_all2 by lia.
Qed.

Lemma paginate_chunk (pg : Z) (l : list Web.Result) :
  1 <= pg ->
  Web.paginate pg l
  = firstn 100 (skipn (Z.to_nat (RESULTS_PER_PAGE * (pg - 1))) l).
Proof.
  intros Hpg. unfold Web.paginate, js_slice, rel_index, RESULTS_PER_PAGE.
  set (len := Z.of_nat (List.length l)).
  replace ((pg - 1) * 100 <? 0) with false by (symmetry; apply Z.ltb_ge; lia).
  replace ((pg - 1) * 100 + 100 <? 0) with false by (symmetry; apply Z.ltb_ge; lia).
  destruct (Z.le_gt_cases len ((pg - 1) * 100)) as [Hout|Hin].
  - rewrite !Z.min_r by lia. replace (Z.max (len - len) 0) with 0 by lia. simpl.
    rewrite (skipn_all2 (n := Z.to_nat (100 * (pg - 1)))) by (subst len; lia).
    now rewrite ?firstn_nil.
  - rewrite (Z.min_l ((pg - 1) * 100)) by lia.
    replace (Z.to_nat (100 * (pg - 1))) with (Z.to_nat ((pg - 1) * 100)) by lia.
    rewrite <- (firstn_min_length 100). rewrite length_skipn. f_equal.
    subst len. lia.
Qed.

Lemma firstn_plus {A : Type} (n m : nat) (l : list A) :
  firstn (n + m) l = firstn n l ++ firstn m (skipn n l).
Proof.
  revert l. induction n as [|n IH]; intros l; simpl; [reflexivity|].
  destruct l as [|x l]; simpl.
  - now rewrite firstn_nil.
  - now rewrite IH.
Qed.

Lemma In_skipn_le {A : Type} (n m : nat) (l : list A) (x : A) :
  (n <= m)%nat -> In x (skipn m l) -> In x (skipn n l).
Proof.
  intros Hle Hin. replace m with ((m - n) + n)%nat in Hin by lia.
  rewrite <- skipn_skipn in Hin. eapply In_skipn, Hin.
Qed.

(** X9.  [webSearch] ranks by [weightScore]: the page it computes lists
    its items in non-increasing order of [weightScore || 0], and no item of a
    later page outranks an item of an earlier page of the same merged
    list. *)
Theorem webSearch_page_ranked (allResults : list Web.Result) (pg : Z) :
  StronglySorted (fun a b => (Web.ws b <= Web.ws a)%Q)
    (Web.paginate pg (Web.uniqueResults allResults))
  /\ forall pg' a b,
       1 <= pg -> pg < pg' ->
       In a (Web.paginate pg (Web.uniqueResults allResults)) ->
       In b (Web.paginate pg' (Web.uniqueResults allResults)) ->
       (Web.ws b <= Web.ws a)%Q.
Proof.
  assert (Hs : StronglySorted (fun a b => (Web.ws b <= Web.ws a)%Q)
                 (Web.uniqueResults allResults))
    by apply (sort_by_rank_sorted Web.ws).
  split.
  - unfold Web.paginate. now apply js_slice_sorted.
  - intros pg' a b Hpg Hlt Ha Hb.
    rewrite paginate_chunk in Ha, Hb by lia.
    set (l := Web.uniqueResults allResults) in *.
    set (n := Z.to_nat (RESULTS_PER_PAGE * (pg - 1))) in *.
    apply (sorted_firstn_skipn _ (n + 100) l Hs a b).
    + rewrite firstn_plus. apply in_or_app. now right.
    + apply In_firstn in Hb.
      eapply In_skipn_le; [|exact Hb]. subst n. unfold RESULTS_PER_PAGE. lia.
Qed.

(** X10.  The pages of [webSearch] are consecutive chunks of the merged
    list: the pages 1 to [n] put end to end are its first [100 * n] items, so
    pages neither overlap nor leave a gap, and a page that starts at or past
    the end of the merged list is empty. *)
Theorem paginate_consecutive (l : list Web.Result) (n : nat) :
  List.concat (map (fun i => Web.paginate (Z.of_nat i + 1) l) (seq 0 n))
  = firstn (100 * n) l
  /\ forall pg, 1 <= pg ->
       Z.of_nat (List.length l) <= RESULTS_PER_PAGE * (pg - 1) ->
       Web.paginate pg l = [].
Proof.
  split.
  - induction n as [|n IH]; [reflexivity|].
    rewrite seq_S, map_app, concat_app, IH. cbn [map List.concat Nat.add].
    rewrite app_nil_r, paginate_chunk by lia.
    replace (100 * S n)%nat with (100 * n + 100)%nat by lia.
    rewrite firstn_plus. do 3 f_equal. unfold RESULTS_PER_PAGE. lia.
  - intros pg Hpg Hlen. rewrite paginate_chunk by assumption.
    rewrite skipn_all2 by lia. apply firstn_nil.
Qed.

(* ================================================================== *)
(** ** The order of the [Map] in [webSearch] *)

Lemma dedup_keys_first_seen (all : list Web.Result) :
  forall (m : JsMap.t Web.Result) (seen : list string),
  (forall u, str_in u seen = true <-> In u (JsMap.keys m)) ->
  map Some (JsMap.keys (fold_left Web.dedup_step all m))
  = map Some (JsMap.keys m) ++ map Web.url (dedup_first Web.url seen all).
Proof.
  induction all as [|x all IH]; intros m seen Hseen; simpl.
  - now rewrite app_nil_r.
  - unfold Web.dedup_step at 2. destruct (Web.url x) as [u|] eqn:Hu.
    2:{ now apply IH. }
    destruct (String.eqb u "") eqn:Hempty; simpl.
    { now apply IH. }
    destruct (JsMap.get u m) as [existing|] eqn:Hget.
    + assert (Hin : str_in u seen = true).
      { apply Hseen. destruct (in_dec string_dec u (JsMap.keys m)) as [|Hn];
          [assumption|]. apply get_None_iff in Hn. congruence. }
      rewrite Hin. destruct (Qgtb (Web.ws x) (Web.ws existing)).
      * rewrite (IH _ seen).
        -- now rewrite keys_set, Hget.
        -- intros u'. now rewrite keys_set, Hget.
      * now apply IH.
    + assert (Hout : str_in u seen = false).
      { destruct (str_in u seen) eqn:Hs; [|reflexivity].
        apply Hseen in Hs. apply get_None_iff in Hget. contradiction. }
      rewrite Hout. rewrite (IH _ (u :: seen)).
      * rewrite keys_set, Hget, map_app. simpl. rewrite Hu.
        now rewrite <- app_assoc.
      * intros u'. rewrite keys_set, Hget, in_app_iff. simpl.
        rewrite orb_true_iff, Hseen, String.eqb_eq. intuition.
Qed.

(** X11.  The [Map] of [webSearch] holds the urls in the order of their
    first appearance in [allResults]: its keys are the urls that the
    first-occurrence deduplication of the other searches would keep, in the
    same order; a later copy with a higher [weightScore] takes over the
    place of the entry, it does not move it. *)
Theorem webSearch_map_order (allResults : list Web.Result) :
  map Some (JsMap.keys (Web.dedup allResults))
  = map Web.url (dedup_first Web.url [] allResults).
Proof.
  unfold Web.dedup. rewrite (dedup_keys_first_seen allResults [] []).
  - reflexivity.
  - intros u. simpl. split; [discriminate|tauto].
Qed.

(** X12.  The sort of [webSearch] is stable on ties: the results with one
    and the same [weightScore || 0] come out in the order in which their
    entries stand in the [Map]. *)
Theorem webSearch_ties_keep_map_order (allResults : list Web.Result) (q : Q) :
  filter (fun r => Qeq_bool (Web.ws r) q) (Web.uniqueResults allResults)
  = filter (fun r => Qeq_bool (Web.ws r) q)
      (JsMap.values (Web.dedup allResults)).
Proof. apply (sort_by_rank_ties Web.ws). Qed.

(* ================================================================== *)
(** ** The supplementary calls of [webSearch] *)

Lemma append_additional_spec (env : Web.Env) (safeSearchLevel : string)
    (calls : list (string * Z)) :
  forall allResults,
  Web.append_additional env safeSearchLevel calls allResults
  = allResults
    ++ flat_map (fun c => map (Web.tag_additional safeSearchLevel (fst c) (snd c))
                            (Web.settle_additional
                               (Web.additional env (fst c) (snd c))))
         calls.
Proof.
  induction calls as [|[nm pg] calls IH]; intros allResults; simpl.
  - now rewrite app_nil_r.
  - rewrite IH.
    destruct (Web.settle_additional (Web.additional env nm pg)) as [|r rs]; simpl.
    + reflexivity.
    + now rewrite <- app_assoc.
Qed.

Lemma additional_calls_short (len : Z) :
  (len <? RESULTS_PER_PAGE) = true ->
  Web.additional_calls Web.bestProviders len
  = [("DuckDuckGo", 2); ("DuckDuckGo", 3); ("Brave", 2); ("Brave", 3);
     ("GoogleFallback", 2); ("GoogleFallback", 3)].
Proof.
  intros Hlt. apply Z.ltb_lt in Hlt. unfold RESULTS_PER_PAGE in Hlt.
  unfold Web.additional_calls, Web.bestProviders, RESULTS_PER_PAGE.
  replace (len >=? (100 * 2)) with false
    by (symmetry; rewrite Z.geb_leb; apply Z.leb_gt; lia).
  reflexivity.
Qed.

Lemma backfill_appends (env : Web.Env) (safeSearchLevel : string)
    (allResults : list Web.Result) :
  exists extra,
    Web.backfill env safeSearchLevel allResults = allResults ++ extra
    /\ forall x, In x extra ->
         exists nm pg raw,
           In (nm, pg) [("DuckDuckGo", 2); ("DuckDuckGo", 3); ("Brave", 2);
                        ("Brave", 3); ("GoogleFallback", 2);
                        ("GoogleFallback", 3)]
           /\ In raw (Web.settle_additional (Web.additional env nm pg))
           /\ x = Web.tag_additional safeSearchLevel nm pg raw.
Proof.
  unfold Web.backfill. destruct (_ <? _) eqn:Hlt.
  - rewrite (additional_calls_short _ Hlt), append_additional_spec.
    eexists. split; [reflexivity|].
    intros x Hx. apply in_flat_map in Hx as [[nm pg] [Hc Hx]].
    apply in_map_iff in Hx as [raw [<- Hraw]]. exists nm, pg, raw. auto.
  - exists []. split; [now rewrite app_nil_r|intros x []].
Qed.

(** X13.  The supplementary round of [webSearch]: when fewer than 100
    results were gathered it makes exactly six calls, the pages 2 and 3 of
    DuckDuckGo, Brave and GoogleFallback in that order (the [break] on 200
    gathered results cannot fire there), and none otherwise; what they return
    is appended behind the gathered results, each item tagged with
    '<provider> (page <n>)' and left with the [weightScore] it came with. *)
Theorem backfill_calls (env : Web.Env) (safeSearchLevel : string)
    (allResults : list Web.Result) :
  let calls := [("DuckDuckGo", 2); ("DuckDuckGo", 3); ("Brave", 2); ("Brave", 3);
                ("GoogleFallback", 2); ("GoogleFallback", 3)] in
  Web.backfill env safeSearchLevel allResults
  = (if Z.of_nat (List.length allResults) <? RESULTS_PER_PAGE
     then Web.append_additional env safeSearchLevel calls allResults
     else allResults)
  /\ exists extra,
       Web.backfill env safeSearchLevel allResults = allResults ++ extra
       /\ forall x, In x extra ->
            exists nm pg raw,
              In (nm, pg) calls
              /\ In raw (Web.settle_additional (Web.additional env nm pg))
              /\ x = Web.tag_additional safeSearchLevel nm pg raw
              /\ Web.weightScore x = Web.weightScore raw.
Proof.
  intros calls. split.
  - unfold Web.backfill. destruct (_ <? _) eqn:Hlt; [|reflexivity].
    now rewrite additional_calls_short.
  - destruct (backfill_appends env safeSearchLevel allResults)
      as (extra & Heq & Hextra).
    exists extra. split; [exact Heq|].
    intros x Hx. destruct (Hextra x Hx) as (nm & pg & raw & H1 & H2 & H3).
    exists nm, pg, raw. repeat split; try assumption. now subst x.
Qed.

Lemma Forall2_In_l {A B : Type} (R : A -> B -> Prop) (l : list A) (l' : list B)
    (a : A) :
  Forall2 R l l' -> In a l -> exists b, In b l' /\ R a b.
Proof.
  induction 1 as [|x y l l' Hxy Hall IH]; intros Hin; [contradiction|].
  destruct Hin as [<-|Hin].
  - exists y. split; [now left|assumption].
  - destruct (IH Hin) as [b [Hb HR]]. exists b. split; [now right|assumption].
Qed.

Lemma fold_left_fixed {A B : Type} (f : A -> B -> A) (l : list B) (a : A) :
  (forall x, In x l -> f a x = a) -> fold_left f l a = a.
Proof.
  induction l as [|x l IH]; intros H; simpl; [reflexivity|].
  rewrite (H x) by now left. apply IH. intros y Hy. apply H. now right.
Qed.

Lemma registered_weight_positive (m : Web.Method) :
  In m Web.searchMethods -> (0 < Web.weight m)%Q.
Proof.
  intros Hin. simpl in Hin.
  repeat (destruct Hin as [<-|Hin]; [reflexivity|]). contradiction.
Qed.

Lemma dedup_step_absorbs (m : JsMap.t Web.Result) (seen : list Web.Result)
    (r x : Web.Result) :
  dedup_inv m seen -> In r seen -> Web.url x = Web.url r ->
  (Web.ws x <= Web.ws r)%Q ->
  Web.dedup_step m x = m.
Proof.
  intros Hinv Hr Hurl Hws. unfold Web.dedup_step.
  destruct (Web.url x) as [u|] eqn:Hu; [|reflexivity].
  destruct (String.eqb u "") eqn:Hempty; [reflexivity|].
  apply String.eqb_neq in Hempty.
  destruct (inv_best _ _ Hinv r u Hr (eq_sym Hurl) Hempty) as (r' & -> & Hle).
  replace (Qgtb (Web.ws x) (Web.ws r')) with false; [reflexivity|].
  symmetry. unfold Qgtb. apply negb_false_iff, Qle_bool_iff. lra.
Qed.

(** X14.  The supplementary calls of [webSearch] repeat the first
    request: the provider functions take no arguments, so the page number
    passed to them is lost.  When such a call gets the answer the first call
    got, and the providers' items carry no [weightScore] and no negative
    score, the round changes nothing: every item it appends is a copy of a url
    already gathered with a score at least as high, and the merged list is the
    one the gathered results give alone. *)
Theorem backfill_adds_nothing (env : Web.Env) (safeSearchLevel : string)
    (ps : list Web.ProviderResult) :
  Web.providerResults env = inr ps ->
  (forall nm pg, Web.additional env nm pg = Web.primary env nm) ->
  (forall nm v r, Web.primary env nm = Fulfilled v -> In r (or_empty v) ->
                  Web.weightScore r = None /\ (0 <= optQ_or (Web.score r) 1)%Q) ->
  Web.uniqueResults (Web.allResults env safeSearchLevel ps)
  = Web.uniqueResults (fst (Web.gather safeSearchLevel ps [] [])).
Proof.
  intros Hps Hsame Hraw. unfold Web.uniqueResults, Web.allResults. do 2 f_equal.
  set (gathered := fst (Web.gather safeSearchLevel ps [] [])).
  destruct (backfill_appends env safeSearchLevel gathered)
    as (extra & -> & Hextra).
  unfold Web.dedup. rewrite fold_left_app. apply fold_left_fixed.
  intros x Hx. destruct (Hextra x Hx) as (nm & pg & raw & Hcall & Hin & ->).
  rewrite Hsame in Hin.
  destruct (Web.primary env nm) as [v|thrown] eqn:Hprim; [|contradiction].
  simpl in Hin. destruct (Hraw nm v raw Hprim Hin) as [Hnone Hscore].
  assert (Hm : exists m, In m Web.searchMethods /\ Web.name m = nm).
  { assert (Hnm : nm = "DuckDuckGo" \/ nm = "Brave" \/ nm = "GoogleFallback").
    { simpl in Hcall.
      repeat (destruct Hcall as [Hcall|Hcall];
              [injection Hcall as Hn _; subst nm; tauto|]).
      contradiction. }
    destruct Hnm as [-> | [-> | ->]];
      [exists (Web.mkMethod "DuckDuckGo" 3)|exists (Web.mkMethod "Brave" 3)
      |exists (Web.mkMethod "GoogleFallback" 3)];
      (split; [simpl; tauto|reflexivity]). }
  destruct Hm as (m & Hm & Hname).
  destruct (Forall2_In_l _ _ _ m (providerResults_methods env ps Hps) Hm)
    as (p & Hp & Hsettle).
  rewrite Hname, Hprim in Hsettle. simpl in Hsettle. injection Hsettle as <-.
  apply (dedup_step_absorbs _ gathered
           (Web.enrich safeSearchLevel
              (Web.mkProviderResult (Web.name m) (or_empty v) None (Web.weight m))
              raw)).
  - apply dedup_inv_all.
  - subst gathered. rewrite gather_spec. simpl. apply in_flat_map.
    eexists. split; [exact Hp|]. unfold Web.contribution. simpl.
    now apply in_map.
  - reflexivity.
  - unfold Web.ws. simpl. rewrite Hnone. simpl.
    rewrite (registered_weight_truthy m Hm).
    pose proof (registered_weight_positive m Hm) as Hpos.
    assert (Hprod : (0 <= Web.weight m * optQ_or (Web.score raw) 1)%Q)
      by (apply Qmult_le_0_compat; [now apply Qlt_le_weak|assumption]).
    unfold Q_or. destruct (Q_falsy _); [apply Qle_refl|exact Hprod].
Qed.

Lemma backfill_adds_nothing_witness :
  Web.uniqueResults
    (Web.allResults same_again "moderate"
       (map (fun m => Web.mkProviderResult (Web.name m)
                        (if String.eqb (Web.name m) "DuckDuckGo"
                         then [page_a] else [])
                        None (Web.weight m))
          Web.searchMethods))
  = [Web.enrich "moderate" (Web.mkProviderResult "DuckDuckGo" [page_a] None 3)
       page_a].
Proof.
  rewrite (backfill_adds_nothing same_again "moderate").
  - reflexivity.
  - reflexivity.
  - reflexivity.
  - intros nm v r. simpl. destruct (String.eqb nm "DuckDuckGo").
    + intros [= <-] [<-|[]]. split; [reflexivity|discriminate].
    + intros [= <-] [].
Defined.

(* ================================================================== *)
(** ** Image, video and news search: ranking and filtering *)

(** X15.  The three other category searches rank as well: [imageSearch],
    [videoSearch] and [newsSearch] list the items they computed in
    non-increasing order of [(weight || 1) * (score || 1)]. *)
Theorem category_merges_ranked :
  (forall l, StronglySorted
     (fun a b => (rank_of (Images.weight b) (Images.score b)
                  <= rank_of (Images.weight a) (Images.score a))%Q)
     (Images.merge l))
  /\ (forall l, StronglySorted
        (fun a b => (rank_of (Videos.weight b) (Videos.score b)
                     <= rank_of (Videos.weight a) (Videos.score a))%Q)
        (Videos.merge l))
  /\ (forall l, StronglySorted
        (fun a b => (rank_of (News.weight b) (News.score b)
                     <= rank_of (News.weight a) (News.score a))%Q)
        (News.merge l)).
Proof.
  split; [|split]; intros l.
  - apply js_slice_sorted.
    apply (sort_by_rank_sorted
             (fun a => rank_of (Images.weight a) (Images.score a))).
  - apply js_slice_sorted.
    apply (sort_by_rank_sorted
             (fun a => rank_of (Videos.weight a) (Videos.score a))).
  - apply js_slice_sorted.
    apply (sort_by_rank_sorted
             (fun a => rank_of (News.weight a) (News.score a))).
Qed.

Lemma filter_allowed_In (extractDomain : string -> string) (l : list News.Article) :
  forall kept, News.filter_allowed extractDomain l = inr kept ->
  forall a, In a kept -> News.allowed extractDomain a = inr true.
Proof.
  induction l as [|x l IH]; intros kept Hk a Ha; simpl in Hk.
  - injection Hk as <-. contradiction.
  - destruct (News.allowed extractDomain x) as [thrown|keep] eqn:Hx; [discriminate|].
    destruct (News.filter_allowed extractDomain l) as [thrown|kept'];
      [discriminate|].
    injection Hk as <-. destruct keep.
    + destruct Ha as [<-|Ha]; [assumption|]. now apply (IH kept').
    + now apply (IH kept').
Qed.

(** X16.  Strict safe search blocks the listed domains in [newsSearch]:
    whatever the providers return, no article of the computed list has a
    domain ([extractDomain] of its url) that contains one of the nine blocked
    domains, and every article has a url. *)
Theorem newsSearch_strict_blocks (extractDomain : string -> string)
    (primary : string -> Settled News.Article) (random : nat -> Q)
    (articles : list News.Article) :
  News.aggregate extractDomain primary random "strict" = inr articles ->
  forall a, In a articles ->
  exists u, News.url a = Some u
            /\ forall blocked, In blocked News.blockedDomains ->
                 includes (extractDomain u) blocked = false.
Proof.
  unfold News.aggregate. intros Hagg a Ha.
  destruct (settle_all News.newsProviders primary) as [thrown|ps]; [discriminate|].
  simpl in Hagg.
  destruct (News.filter_allowed extractDomain
              (gather_weighted News.stamp random ps [] 0))
    as [thrown|kept] eqn:Hkept; [discriminate|].
  injection Hagg as <-. unfold News.merge in Ha.
  apply js_slice_In, stable_sort_In, dedup_first_In in Ha.
  pose proof (filter_allowed_In _ _ _ Hkept a Ha) as Hok.
  unfold News.allowed in Hok. destruct (News.url a) as [u|]; [|discriminate].
  exists u. split; [reflexivity|]. intros blocked Hb.
  injection Hok as Hok. apply negb_true_iff in Hok.
  destruct (includes (extractDomain u) blocked) eqn:Hinc; [|reflexivity].
  assert (Hex : existsb (fun b => includes (extractDomain u) b)
                  News.blockedDomains = true)
    by (apply existsb_exists; eauto).
  simpl in Hex, Hok. rewrite Hok in Hex. discriminate.
Qed.

Lemma newsSearch_strict_blocks_witness :
  News.aggregate (fun u => u) two_stories draws_flat "strict"
  = inr [News.stamp "NewsAPI" 3 (jitter 3 0) plain_story]
  /\ exists u, News.url (News.stamp "NewsAPI" 3 (jitter 3 0) plain_story) = Some u
            /\ forall blocked, In blocked News.blockedDomains ->
                 includes u blocked = false.
Proof.
  split; [reflexivity|].
  apply (newsSearch_strict_blocks (fun u => u) two_stories draws_flat
           [News.stamp "NewsAPI" 3 (jitter 3 0) plain_story] eq_refl).
  now left.
Defined.

Lemma Q_or_nonzero (x y : Q) : ~ (x == 0)%Q -> Q_or x y = x.
Proof.
  intros H. unfold Q_or, Q_falsy. destruct (Qeq_bool x 0) eqn:E; [|reflexivity].
  apply Qeq_bool_iff in E. contradiction.
Qed.

Lemma jitter_range (w r : Q) :
  (0 < w)%Q -> (0 <= r)%Q -> (r < 1)%Q ->
  (w * (1 # 2) <= jitter w r)%Q /\ (jitter w r < w)%Q.
Proof.
  intros Hw H0 H1. unfold jitter. split.
  - apply Qmult_le_l; [assumption|]. lra.
  - setoid_replace w with (w * 1)%Q at 2 by ring.
    apply Qmult_lt_l; [assumption|]. lra.
Qed.

Lemma rank_of_jitter (w r : Q) :
  (0 < w)%Q -> (0 <= r)%Q -> (r < 1)%Q ->
  (w * w * (1 # 2) <= rank_of (Some w) (Some (jitter w r)))%Q
  /\ (rank_of (Some w) (Some (jitter w r)) < w * w)%Q.
Proof.
  intros Hw H0 H1. destruct (jitter_range w r Hw H0 H1) as [Hlo Hhi].
  unfold rank_of, optQ_or.
  rewrite (Q_or_nonzero w) by (intros E; rewrite E in Hw; discriminate).
  rewrite (Q_or_nonzero (jitter w r)).
  2:{ intros E. rewrite E in Hlo. assert (w <= 0)%Q by lra. lra. }
  split.
  - rewrite <- Qmult_assoc. apply Qmult_le_l; assumption.
  - apply Qmult_lt_l; assumption.
Qed.

Lemma registered_weights (p : Provider) :
  In p (Images.imageProviders ++ Videos.videoProviders ++ News.newsProviders) ->
  pweight p = 1%Q \/ pweight p = 2%Q \/ pweight p = 3%Q.
Proof.
  intros Hin. simpl in Hin.
  repeat (destruct Hin as [<-|Hin]; [simpl; tauto|]). contradiction.
Qed.

(** Two weight classes never overlap: the rank of an item of weight [w] lies
    in [[w * w / 2, w * w)], and the weights are 1, 2 and 3. *)
Lemma rank_classes (w1 w2 r1 r2 : Q) :
  w1 = 1%Q \/ w1 = 2%Q \/ w1 = 3%Q ->
  w2 = 1%Q \/ w2 = 2%Q \/ w2 = 3%Q ->
  (w1 < w2)%Q ->
  (0 <= r1)%Q -> (r1 < 1)%Q -> (0 <= r2)%Q -> (r2 < 1)%Q ->
  (rank_of (Some w1) (Some (jitter w1 r1))
   < rank_of (Some w2) (Some (jitter w2 r2)))%Q.
Proof.
  intros Hw1 Hw2 Hlt Hr1 Hr1' Hr2 Hr2'.
  assert (H1 : (0 < w1)%Q) by (destruct Hw1 as [-> | [-> | ->]]; reflexivity).
  assert (H2 : (0 < w2)%Q) by (destruct Hw2 as [-> | [-> | ->]]; reflexivity).
  destruct (rank_of_jitter _ r1 H1 Hr1 Hr1') as [_ Hhi].
  destruct (rank_of_jitter _ r2 H2 Hr2 Hr2') as [Hlo _].
  eapply Qlt_le_trans; [exact Hhi|]. eapply Qle_trans; [|exact Hlo].
  destruct Hw1 as [E1 | [E1 | E1]], Hw2 as [E2 | [E2 | E2]]; rewrite E1, E2 in *;
    try discriminate; try (exfalso; revert Hlt; discriminate).
Qed.

Lemma weigh_drawn {A : Type} (stamp : string -> Q -> Q -> A -> A)
    (random : nat -> Q) (nm : string) (w : Q) (l : list A) :
  forall draws x, In x (weigh stamp random draws nm w l) ->
  exists a n, In a l /\ x = stamp nm w (jitter w (random n)) a.
Proof.
  induction l as [|a l IH]; intros draws x; simpl; [contradiction|].
  intros [<-|Hin].
  - eauto.
  - destruct (IH _ _ Hin) as (a' & n & Ha & ->). eauto.
Qed.

(** Every gathered item carries the name and the weight of its provider
    and a score drawn for it. *)
Lemma gather_weighted_drawn {A : Type} (stamp : string -> Q -> Q -> A -> A)
    (random : nat -> Q) (ps : list (Settlement A)) :
  forall all draws x,
  In x (gather_weighted stamp random ps all draws) ->
  In x all
  \/ exists p a n, In p ps /\ In a (found p)
       /\ x = stamp (s_name p) (s_weight p) (jitter (s_weight p) (random n)) a.
Proof.
  induction ps as [|p ps IH]; intros all draws x; simpl; [auto|].
  assert (Hnext : forall all' draws',
             In x (gather_weighted stamp random ps all' draws') ->
             (In x all' -> In x all \/ exists a n, In a (found p)
                /\ x = stamp (s_name p) (s_weight p)
                         (jitter (s_weight p) (random n)) a) ->
             In x all \/ exists q a n, In q (p :: ps) /\ In a (found q)
                /\ x = stamp (s_name q) (s_weight q)
                         (jitter (s_weight q) (random n)) a).
  { intros all' draws' Hin Hall'.
    destruct (IH _ _ _ Hin) as [H|(q & a & n & Hq & Ha & ->)].
    - destruct (Hall' H) as [H'|(a & n & Ha & ->)]; [now left|].
      right. exists p, a, n. split; [now left | auto].
    - right. exists q, a, n. split; [now right | auto]. }
  destruct (str_truthy (s_error p)); [intros H; eapply Hnext; eauto|].
  destruct (0 <? Z.of_nat (List.length (found p))); [|intros H; eapply Hnext; eauto].
  intros H. eapply Hnext; [exact H|].
  intros Hin. apply in_app_or in Hin as [Hin|Hin]; [now left|].
  right. eapply weigh_drawn; eauto.
Qed.

(** A record of the primary round has the name and the weight of a
    registered provider. *)
Lemma settle_all_registered {A : Type} (providers : list Provider)
    (primary : string -> Settled A) (ps : list (Settlement A)) (s : Settlement A) :
  settle_all providers primary = inr ps -> In s ps ->
  exists p, In p providers /\ s_name s = pname p /\ s_weight s = pweight p.
Proof.
  unfold settle_all. intros H Hs. apply promise_all_inr in H.
  assert (Hin : In (inr s : Thrown + Settlement A)
                   (map (fun q => settle q (primary (pname q))) providers)).
  { rewrite H. now apply in_map. }
  apply in_map_iff in Hin as (q & Hq & Hin). exists q. split; [assumption|].
  destruct (primary (pname q)) as [v|[|e]]; simpl in Hq;
    try discriminate; injection Hq as <-; auto.
Qed.

(** The items of the supplementary round are tagged. *)
Lemma gather_additional_In {A : Type} (tag : string -> A -> A)
    (additional : string -> Settled A) (searches : list string) :
  forall all out,
  gather_additional tag additional searches all = inr out ->
  forall x, In x out ->
  In x all \/ exists nm raw, In nm searches /\ x = tag nm raw.
Proof.
  induction searches as [|nm searches IH]; intros all out; simpl.
  - intros [= <-]. auto.
  - destruct (Z.of_nat (List.length all) >=? 150); [intros [= <-]; auto|].
    destruct (additional nm) as [v|[|e]]; [| discriminate |].
    + intros Hout x Hx. destruct (IH _ _ Hout x Hx) as [Hin|(nm' & raw & Hnm & ->)].
      * destruct (0 <? Z.of_nat (List.length (or_empty v))); [|now left].
        apply in_app_or in Hin as [Hin|Hin]; [now left|].
        apply in_map_iff in Hin as (raw & <- & _). right. exists nm, raw. auto.
      * right. exists nm', raw. auto.
    + intros Hout x Hx. destruct (IH _ _ Hout x Hx) as [Hin|(nm' & raw & Hnm & ->)].
      * now left.
      * right. exists nm', raw. auto.
Qed.

Lemma filter_allowed_subset (extractDomain : string -> string)
    (l : list News.Article) :
  forall kept, News.filter_allowed extractDomain l = inr kept ->
  forall a, In a kept -> In a l.
Proof.
  induction l as [|x l IH]; intros kept Hk a Ha; simpl in Hk.
  - injection Hk as <-. contradiction.
  - destruct (News.allowed extractDomain x) as [thrown|keep]; [discriminate|].
    destruct (News.filter_allowed extractDomain l) as [thrown|kept'];
      [discriminate|].
    injection Hk as <-. destruct keep.
    + destruct Ha as [<-|Ha]; [now left | right; now apply (IH kept')].
    + right. now apply (IH kept').
Qed.

Lemma StronglySorted_later {A : Type} (R : A -> A -> Prop) (l1 l2 : list A)
    (b a : A) :
  StronglySorted R (l1 ++ b :: l2) -> In a l2 -> R b a.
Proof.
  induction l1 as [|x l1 IH]; simpl; intros Hs Ha.
  - apply StronglySorted_inv in Hs as [_ Hall].
    rewrite Forall_forall in Hall. now apply Hall.
  - apply StronglySorted_inv in Hs as [Hs _]. now apply IH.
Qed.

Section WeightClasses.
Context {A : Type} (provider : A -> option string) (weight score : A -> option Q).
Context (providers : list Provider).
Hypothesis registered :
  forall p, In p providers -> pweight p = 1%Q \/ pweight p = 2%Q \/ pweight p = 3%Q.

(** In a list ranked by [(weight || 1) * (score || 1)] whose items named
    after a registered provider carry its weight and a jittered score, an
    item of a heavier provider ranks strictly above an item of a lighter
    one, stands before it, and never behind it. *)
Lemma heavier_first (out : list A) (a b : A) (pa pb : Provider) :
  StronglySorted
    (fun x y => (rank_of (weight y) (score y) <= rank_of (weight x) (score x))%Q)
    out ->
  (forall x p, In x out -> In p providers -> provider x = Some (pname p) ->
     exists r, (0 <= r)%Q /\ (r < 1)%Q /\ weight x = Some (pweight p)
               /\ score x = Some (jitter (pweight p) r)) ->
  In a out -> In b out ->
  In pa providers -> In pb providers ->
  provider a = Some (pname pa) -> provider b = Some (pname pb) ->
  (pweight pb < pweight pa)%Q ->
  (rank_of (weight b) (score b) < rank_of (weight a) (score a))%Q
  /\ (exists l1 l2 l3, out = l1 ++ a :: l2 ++ b :: l3)
  /\ (forall l1 l2, out = l1 ++ b :: l2 -> ~ In a l2).
Proof.
  intros Hsorted Hitems Ha Hb Hpa Hpb Hna Hnb Hlt.
  destruct (Hitems a pa Ha Hpa Hna) as (ra & Hra & Hra' & Hwa & Hsa).
  destruct (Hitems b pb Hb Hpb Hnb) as (rb & Hrb & Hrb' & Hwb & Hsb).
  assert (Hrank : (rank_of (weight b) (score b) < rank_of (weight a) (score a))%Q).
  { rewrite Hwa, Hsa, Hwb, Hsb. apply rank_classes; auto. }
  assert (Hnever : forall l1 l2, out = l1 ++ b :: l2 -> ~ In a l2).
  { intros l1 l2 Hout Hin. rewrite Hout in Hsorted.
    pose proof (StronglySorted_later _ _ _ _ _ Hsorted Hin) as Hle.
    simpl in Hle. lra. }
  split; [exact Hrank|]. split; [|exact Hnever].
  apply in_split in Ha as (l1 & l2 & Hout).
  assert (Hb' : In b (l1 ++ a :: l2)) by now rewrite <- Hout.
  apply in_app_or in Hb' as [Hb'|[Heq|Hb']].
  - exfalso. apply in_split in Hb' as (m1 & m2 & ->).
    apply (Hnever m1 (m2 ++ a :: l2)).
    + now rewrite Hout, <- app_assoc.
    + apply in_or_app. right. now left.
  - exfalso. subst b. lra.
  - apply in_split in Hb' as (m1 & m2 & ->). exists l1, m1, m2. exact Hout.
Qed.
End WeightClasses.

Lemma imageProviders_names (p q : Provider) :
  In p Images.imageProviders -> In q Images.imageProviders ->
  pname p = pname q -> pweight p = pweight q.
Proof.
  intros Hp Hq. simpl in Hp, Hq.
  repeat (destruct Hp as [<-|Hp]; [|]);
    try contradiction;
    repeat (destruct Hq as [<-|Hq]; [|]); try contradiction;
    simpl; intros Hn; try reflexivity; discriminate Hn.
Qed.

Lemma videoProviders_names (p q : Provider) :
  In p Videos.videoProviders -> In q Videos.videoProviders ->
  pname p = pname q -> pweight p = pweight q.
Proof.
  intros Hp Hq. simpl in Hp, Hq.
  repeat (destruct Hp as [<-|Hp]; [|]);
    try contradiction;
    repeat (destruct Hq as [<-|Hq]; [|]); try contradiction;
    simpl; intros Hn; try reflexivity; discriminate Hn.
Qed.

Lemma newsProviders_names (p q : Provider) :
  In p News.newsProviders -> In q News.newsProviders ->
  pname p = pname q -> pweight p = pweight q.
Proof.
  intros Hp Hq. simpl in Hp, Hq.
  repeat (destruct Hp as [<-|Hp]; [|]);
    try contradiction;
    repeat (destruct Hq as [<-|Hq]; [|]); try contradiction;
    simpl; intros Hn; try reflexivity; discriminate Hn.
Qed.

(** The tags of the supplementary round are no names of registered
    providers. *)
Lemma image_tags_unregistered (nm : string) (raw : Images.Image) (p : Provider) :
  In nm Images.additionalSearches -> In p Images.imageProviders ->
  Images.provider (Images.tag nm raw) <> Some (pname p).
Proof.
  intros Hnm Hp. simpl in Hnm, Hp.
  repeat (destruct Hnm as [<-|Hnm]; [|]); try contradiction;
    repeat (destruct Hp as [<-|Hp]; [|]); try contradiction;
    discriminate.
Qed.

Lemma video_tags_unregistered (nm : string) (raw : Videos.Video) (p : Provider) :
  In nm Videos.additionalSearches -> In p Videos.videoProviders ->
  Videos.provider (Videos.tag nm raw) <> Some (pname p).
Proof.
  intros Hnm Hp. simpl in Hnm, Hp.
  repeat (destruct Hnm as [<-|Hnm]; [|]); try contradiction;
    repeat (destruct Hp as [<-|Hp]; [|]); try contradiction;
    discriminate.
Qed.

(** What the items named after a registered provider carry, in the three
    searches. *)
Lemma images_registered_items (env : Images.Env) (random : nat -> Q)
    (out : list Images.Image) :
  (forall n, (0 <= random n)%Q /\ (random n < 1)%Q) ->
  Images.aggregate env random = inr out ->
  forall x p, In x out -> In p Images.imageProviders ->
  Images.provider x = Some (pname p) ->
  exists r, (0 <= r)%Q /\ (r < 1)%Q /\ Images.weight x = Some (pweight p)
            /\ Images.score x = Some (jitter (pweight p) r).
Proof.
  intros Hdraws Hagg x p Hx Hp Hname. unfold Images.aggregate in Hagg.
  destruct (settle_all Images.imageProviders (Images.primary env))
    as [thrown|ps] eqn:Hps; [discriminate|].
  destruct (fetch_more _ _ _ _) as [thrown|all] eqn:Hall; [discriminate|].
  injection Hagg as <-. unfold Images.merge, Images.dedup in Hx.
  apply js_slice_In, stable_sort_In, dedup_first_In in Hx.
  assert (Hgathered : In x (gather_weighted Images.stamp random ps [] 0)
                      \/ exists nm raw, In nm Images.additionalSearches
                                        /\ x = Images.tag nm raw).
  { unfold fetch_more in Hall.
    destruct (Z.of_nat (List.length _) <? 100).
    - eapply gather_additional_In; eauto.
    - injection Hall as <-. now left. }
  destruct Hgathered as [Hin|(nm & raw & Hnm & ->)].
  - apply gather_weighted_drawn in Hin as [[]|(s & a & n & Hs & _ & ->)].
    destruct (settle_all_registered _ _ _ s Hps Hs) as (q & Hq & Hsn & Hsw).
    simpl in Hname. injection Hname as Hname. rewrite Hsn in Hname.
    rewrite Hsw, (imageProviders_names q p Hq Hp Hname).
    exists (random n). destruct (Hdraws n). simpl. auto.
  - exfalso. now apply (image_tags_unregistered nm raw p Hnm Hp).
Qed.

Lemma videos_registered_items (env : Videos.Env) (random : nat -> Q)
    (out : list Videos.Video) :
  (forall n, (0 <= random n)%Q /\ (random n < 1)%Q) ->
  Videos.aggregate env random = inr out ->
  forall x p, In x out -> In p Videos.videoProviders ->
  Videos.provider x = Some (pname p) ->
  exists r, (0 <= r)%Q /\ (r < 1)%Q /\ Videos.weight x = Some (pweight p)
            /\ Videos.score x = Some (jitter (pweight p) r).
Proof.
  intros Hdraws Hagg x p Hx Hp Hname. unfold Videos.aggregate in Hagg.
  destruct (settle_all Videos.videoProviders (Videos.primary env))
    as [thrown|ps] eqn:Hps; [discriminate|].
  destruct (fetch_more _ _ _ _) as [thrown|all] eqn:Hall; [discriminate|].
  injection Hagg as <-. unfold Videos.merge in Hx.
  apply js_slice_In, stable_sort_In, videos_dedup_kept in Hx.
  destruct Hx as [Hx _].
  assert (Hgathered : In x (gather_weighted Videos.stamp random ps [] 0)
                      \/ exists nm raw, In nm Videos.additionalSearches
                                        /\ x = Videos.tag nm raw).
  { unfold fetch_more in Hall.
    destruct (Z.of_nat (List.length _) <? 100).
    - eapply gather_additional_In; eauto.
    - injection Hall as <-. now left. }
  destruct Hgathered as [Hin|(nm & raw & Hnm & ->)].
  - apply gather_weighted_drawn in Hin as [[]|(s & a & n & Hs & _ & ->)].
    destruct (settle_all_registered _ _ _ s Hps Hs) as (q & Hq & Hsn & Hsw).
    simpl in Hname. injection Hname as Hname. rewrite Hsn in Hname.
    rewrite Hsw, (videoProviders_names q p Hq Hp Hname).
    exists (random n). destruct (Hdraws n). simpl. auto.
  - exfalso. now apply (video_tags_unregistered nm raw p Hnm Hp).
Qed.

Lemma news_registered_items (extractDomain : string -> string)
    (primary : string -> Settled News.Article) (random : nat -> Q)
    (safeSearchLevel : string) (out : list News.Article) :
  (forall n, (0 <= random n)%Q /\ (random n < 1)%Q) ->
  News.aggregate extractDomain primary random safeSearchLevel = inr out ->
  forall x p, In x out -> In p News.newsProviders ->
  News.provider x = Some (pname p) ->
  exists r, (0 <= r)%Q /\ (r < 1)%Q /\ News.weight x = Some (pweight p)
            /\ News.score x = Some (jitter (pweight p) r).
Proof.
  intros Hdraws Hagg x p Hx Hp Hname. unfold News.aggregate in Hagg.
  destruct (settle_all News.newsProviders primary)
    as [thrown|ps] eqn:Hps; [discriminate|].
  cbv zeta in Hagg.
  destruct (if String.eqb safeSearchLevel "strict" then _ else _)
    as [thrown|all] eqn:Hall; [discriminate|].
  injection Hagg as <-. unfold News.merge, News.dedup in Hx.
  apply js_slice_In, stable_sort_In, dedup_first_In in Hx.
  assert (Hin : In x (gather_weighted News.stamp random ps [] 0)).
  { destruct (String.eqb safeSearchLevel "strict").
    - eapply filter_allowed_subset; eauto.
    - now injection Hall as <-. }
  apply gather_weighted_drawn in Hin as [[]|(s & a & n & Hs & _ & ->)].
  destruct (settle_all_registered _ _ _ s Hps Hs) as (q & Hq & Hsn & Hsw).
  simpl in Hname. injection Hname as Hname. rewrite Hsn in Hname.
  rewrite Hsw, (newsProviders_names q p Hq Hp Hname).
  exists (random n). destruct (Hdraws n). simpl. auto.
Qed.

(** X17.  The random jitter never lifts a provider over one of a higher
    weight.  In the lists computed by [imageSearch], [videoSearch] and
    [newsSearch], whatever [Math.random()] draws in [0, 1): of two items
    gathered in the first round from registered providers of different
    weights, the one of the heavier provider ranks strictly higher, stands
    before the other and nowhere behind it.  The items of the supplementary
    round, which are named after no registered provider and get no weight,
    are not concerned. *)
Theorem jitter_keeps_weight_classes (random : nat -> Q) :
  (forall n, (0 <= random n)%Q /\ (random n < 1)%Q) ->
  (forall env out a b pa pb,
     Images.aggregate env random = inr out ->
     In a out -> In b out ->
     In pa Images.imageProviders -> In pb Images.imageProviders ->
     Images.provider a = Some (pname pa) ->
     Images.provider b = Some (pname pb) ->
     (pweight pb < pweight pa)%Q ->
     (rank_of (Images.weight b) (Images.score b)
      < rank_of (Images.weight a) (Images.score a))%Q
     /\ (exists l1 l2 l3, out = l1 ++ a :: l2 ++ b :: l3)
     /\ (forall l1 l2, out = l1 ++ b :: l2 -> ~ In a l2))
  /\ (forall env out a b pa pb,
     Videos.aggregate env random = inr out ->
     In a out -> In b out ->
     In pa Videos.videoProviders -> In pb Videos.videoProviders ->
     Videos.provider a = Some (pname pa) ->
     Videos.provider b = Some (pname pb) ->
     (pweight pb < pweight pa)%Q ->
     (rank_of (Videos.weight b) (Videos.score b)
      < rank_of (Videos.weight a) (Videos.score a))%Q
     /\ (exists l1 l2 l3, out = l1 ++ a :: l2 ++ b :: l3)
     /\ (forall l1 l2, out = l1 ++ b :: l2 -> ~ In a l2))
  /\ (forall extractDomain primary safeSearchLevel out a b pa pb,
     News.aggregate extractDomain primary random safeSearchLevel = inr out ->
     In a out -> In b out ->
     In pa News.newsProviders -> In pb News.newsProviders ->
     News.provider a = Some (pname pa) ->
     News.provider b = Some (pname pb) ->
     (pweight pb < pweight pa)%Q ->
     (rank_of (News.weight b) (News.score b)
      < rank_of (News.weight a) (News.score a))%Q
     /\ (exists l1 l2 l3, out = l1 ++ a :: l2 ++ b :: l3)
     /\ (forall l1 l2, out = l1 ++ b :: l2 -> ~ In a l2)).
Proof.
  intros Hdraws.
  assert (Hreg : forall l,
             (forall p, In p l -> In p (Images.imageProviders
                                        ++ Videos.videoProviders
                                        ++ News.newsProviders)) ->
             forall p, In p l ->
             pweight p = 1%Q \/ pweight p = 2%Q \/ pweight p = 3%Q).
  { intros l Hl p Hp. apply registered_weights. now apply Hl. }
  split; [|split].
  - intros env out a b pa pb Hagg Ha Hb Hpa Hpb Hna Hnb Hlt.
    apply (heavier_first Images.provider Images.weight Images.score
             Images.imageProviders) with (pa := pa) (pb := pb); auto.
    + apply Hreg. intros p Hp. apply in_or_app. now left.
    + assert (Hout : out = Images.merge
                             match fetch_more Images.tag (Images.additional env)
                                     Images.additionalSearches
                                     (gather_weighted Images.stamp random
                                        match settle_all Images.imageProviders
                                                (Images.primary env) with
                                        | inr ps => ps
                                        | inl _ => []
                                        end [] 0) with
                             | inr all => all
                             | inl _ => []
                             end).
      { unfold Images.aggregate in Hagg.
        destruct (settle_all _ _) as [x|ps]; [discriminate|].
        destruct (fetch_more _ _ _ _) as [x|all]; [discriminate|].
        now injection Hagg as <-. }
      rewrite Hout. apply js_slice_sorted.
      apply (sort_by_rank_sorted
               (fun x => rank_of (Images.weight x) (Images.score x))).
    + intros x p. now apply (images_registered_items env random).
  - intros env out a b pa pb Hagg Ha Hb Hpa Hpb Hna Hnb Hlt.
    apply (heavier_first Videos.provider Videos.weight Videos.score
             Videos.videoProviders) with (pa := pa) (pb := pb); auto.
    + apply Hreg. intros p Hp. apply in_or_app. right. apply in_or_app. now left.
    + assert (Hout : out = Videos.merge
                             match fetch_more Videos.tag (Videos.additional env)
                                     Videos.additionalSearches
                                     (gather_weighted Videos.stamp random
                                        match settle_all Videos.videoProviders
                                                (Videos.primary env) with
                                        | inr ps => ps
                                        | inl _ => []
                                        end [] 0) with
                             | inr all => all
                             | inl _ => []
                             end).
      { unfold Videos.aggregate in Hagg.
        destruct (settle_all _ _) as [x|ps]; [discriminate|].
        destruct (fetch_more _ _ _ _) as [x|all]; [discriminate|].
        now injection Hagg as <-. }
      rewrite Hout. apply js_slice_sorted.
      apply (sort_by_rank_sorted
               (fun x => rank_of (Videos.weight x) (Videos.score x))).
    + intros x p. now apply (videos_registered_items env random).
  - intros extractDomain primary level out a b pa pb Hagg Ha Hb Hpa Hpb Hna Hnb Hlt.
    apply (heavier_first News.provider News.weight News.score
             News.newsProviders) with (pa := pa) (pb := pb); auto.
    + apply Hreg. intros p Hp. apply in_or_app. right. apply in_or_app. now right.
    + assert (Hout : exists all, out = News.merge all).
      { unfold News.aggregate in Hagg.
        destruct (settle_all _ _) as [x|ps]; [discriminate|]. cbv zeta in Hagg.
        destruct (if String.eqb level "strict" then _ else _) as [x|all];
          [discriminate|].
        injection Hagg as <-. eauto. }
      destruct Hout as [all ->]. apply js_slice_sorted.
      apply (sort_by_rank_sorted
               (fun x => rank_of (News.weight x) (News.score x))).
    + intros x p.
      now apply (news_registered_items extractDomain primary random level).
Qed.

(** Unsplash (weight 3) draws the lowest jitter and Pixabay (weight 2)
    nearly the highest: the photo of Unsplash still comes first. *)
Lemma jitter_keeps_weight_classes_witness :
  Images.aggregate two_sources draws_rising
  = inr [Images.stamp "Unsplash" 3 (jitter 3 0) photo_b;
         Images.stamp "Pixabay" 2 (jitter 2 (9 # 10)) photo_a]
  /\ (rank_of (Some 2) (Some (jitter 2 (9 # 10)))
      < rank_of (Some 3) (Some (jitter 3 0)))%Q
  /\ exists l1 l2 l3,
       [Images.stamp "Unsplash" 3 (jitter 3 0) photo_b;
        Images.stamp "Pixabay" 2 (jitter 2 (9 # 10)) photo_a]
       = l1 ++ Images.stamp "Unsplash" 3 (jitter 3 0) photo_b
            :: l2 ++ Images.stamp "Pixabay" 2 (jitter 2 (9 # 10)) photo_a :: l3.
Proof.
  split; [reflexivity|].
  assert (Hdraws : forall n, (0 <= draws_rising n)%Q /\ (draws_rising n < 1)%Q).
  { intros [|n]; split; simpl; try reflexivity; discriminate. }
  destruct (proj1 (jitter_keeps_weight_classes draws_rising Hdraws)
              two_sources
              [Images.stamp "Unsplash" 3 (jitter 3 0) photo_b;
               Images.stamp "Pixabay" 2 (jitter 2 (9 # 10)) photo_a]
              (Images.stamp "Unsplash" 3 (jitter 3 0) photo_b)
              (Images.stamp "Pixabay" 2 (jitter 2 (9 # 10)) photo_a)
              (mkProvider "Unsplash" 3) (mkProvider "Pixabay" 2))
    as (Hrank & Hsplit & _).
  - reflexivity.
  - now left.
  - right. now left.
  - simpl. tauto.
  - simpl. tauto.
  - reflexivity.
  - reflexivity.
  - reflexivity.
  - split; [exact Hrank | exact Hsplit].
Defined.

(* ================================================================== *)
(** ** [sanitizeHTML] *)

Lemma string_app_assoc (s1 s2 s3 : string) :
  ((s1 ++ s2) ++ s3 = s1 ++ (s2 ++ s3))%string.
Proof. induction s1 as [|a s1 IH]; simpl; [reflexivity|]. now rewrite IH. Qed.

Lemma replace_char_app (c : ascii) (rep s1 s2 : string) :
  replace_char c rep (s1 ++ s2)
  = (replace_char c rep s1 ++ replace_char c rep s2)%string.
Proof.
  induction s1 as [|a s1 IH]; simpl; [reflexivity|].
  rewrite IH. destruct (Ascii.eqb a c); [|reflexivity].
  now rewrite string_app_assoc.
Qed.

Lemma string_forall_app (p : ascii -> bool) (s1 s2 : string) :
  string_forall p (s1 ++ s2) = string_forall p s1 && string_forall p s2.
Proof.
  induction s1 as [|a s1 IH]; simpl; [reflexivity|].
  now rewrite IH, andb_assoc.
Qed.

Lemma string_forall_impl (p q : ascii -> bool) (s : string) :
  (forall a, p a = true -> q a = true) ->
  string_forall p s = true -> string_forall q s = true.
Proof.
  intros Hpq. induction s as [|a s IH]; simpl; [trivial|].
  rewrite !andb_true_iff. intros [Ha Hs]. auto.
Qed.

Lemma replace_char_avoids (cs : list ascii) (c : ascii) (rep s : string) :
  avoids cs s = true -> avoids (c :: cs) rep = true ->
  avoids (c :: cs) (replace_char c rep s) = true.
Proof.
  unfold avoids. intros Hs Hrep.
  induction s as [|a s IH]; cbn [replace_char string_forall]; [reflexivity|].
  cbn [string_forall] in Hs. apply andb_true_iff in Hs as [Ha Hs].
  destruct (Ascii.eqb a c) eqn:Hac.
  - rewrite string_forall_app, Hrep. now apply IH.
  - cbn [string_forall existsb]. rewrite Hac. cbn [orb]. rewrite Ha. now apply IH.
Qed.

Lemma replace_char_clean (c : ascii) (rep s : string) :
  avoids [c] s = true -> replace_char c rep s = s.
Proof.
  unfold avoids. induction s as [|a s IH]; simpl; [reflexivity|].
  rewrite orb_false_r. intros H. apply andb_true_iff in H as [Ha Hs].
  apply negb_true_iff in Ha. rewrite Ha. now rewrite IH.
Qed.

Lemma avoids_weaken (cs cs' : list ascii) (s : string) :
  incl cs' cs -> avoids cs s = true -> avoids cs' s = true.
Proof.
  intros Hincl. unfold avoids. apply string_forall_impl. intros a Ha.
  apply negb_true_iff in Ha. apply negb_true_iff.
  destruct (existsb (Ascii.eqb a) cs') eqn:E; [|reflexivity].
  apply existsb_exists in E as [b [Hb Hab]].
  rewrite <- Ha. symmetry. apply existsb_exists. exists b. auto.
Qed.

Lemma sanitizeHTML_avoids (html : option string) :
  avoids ["/"; "'"; dquote; ">"; "<"]%char (sanitizeHTML html) = true.
Proof.
  destruct html as [s|]; [|reflexivity]. unfold sanitizeHTML.
  destruct (String.eqb s ""); [reflexivity|].
  repeat (apply replace_char_avoids; [|reflexivity]).
  unfold avoids. apply (string_forall_impl (fun _ => true)); [reflexivity|].
  clear. induction s as [|a s IH]; simpl; auto.
Qed.

Lemma sanitizeHTML_clean (s : string) :
  avoids ["/"; "'"; dquote; ">"; "<"]%char s = true -> sanitizeHTML (Some s) = s.
Proof.
  intros H. unfold sanitizeHTML. destruct (String.eqb_spec s ""); [now subst|].
  rewrite (replace_char_clean "<") by (eapply avoids_weaken; [|exact H];
    intros a [<-|[]]; simpl; tauto).
  rewrite (replace_char_clean ">") by (eapply avoids_weaken; [|exact H];
    intros a [<-|[]]; simpl; tauto).
  rewrite (replace_char_clean dquote) by (eapply avoids_weaken; [|exact H];
    intros a [<-|[]]; simpl; tauto).
  rewrite (replace_char_clean "'") by (eapply avoids_weaken; [|exact H];
    intros a [<-|[]]; simpl; tauto).
  apply replace_char_clean. eapply avoids_weaken; [|exact H].
  intros a [<-|[]]; simpl; tauto.
Qed.


Lemma five_passes_app (s1 s2 : string) :
  replace_char "/" "&#x2F;"
    (replace_char "'" "&#x27;"
       (replace_char dquote "&quot;"
          (replace_char ">" "&gt;" (replace_char "<" "&lt;" (s1 ++ s2)%string))))
  = (replace_char "/" "&#x2F;"
       (replace_char "'" "&#x27;"
          (replace_char dquote "&quot;"
             (replace_char ">" "&gt;" (replace_char "<" "&lt;" s1))))
     ++ replace_char "/" "&#x2F;"
          (replace_char "'" "&#x27;"
             (replace_char dquote "&quot;"
                (replace_char ">" "&gt;" (replace_char "<" "&lt;" s2)))))%string.
Proof. now rewrite !replace_char_app. Qed.

Lemma five_passes_char (a : ascii) :
  replace_char "/" "&#x2F;"
    (replace_char "'" "&#x27;"
       (replace_char dquote "&quot;"
          (replace_char ">" "&gt;"
             (replace_char "<" "&lt;" (String a EmptyString)))))
  = escape_char a.
Proof.
  unfold escape_char. simpl.
  destruct (Ascii.eqb a "<") eqn:E1; [reflexivity|]. simpl.
  destruct (Ascii.eqb a ">") eqn:E2; [reflexivity|]. simpl.
  destruct (Ascii.eqb a dquote) eqn:E3; [reflexivity|]. simpl.
  destruct (Ascii.eqb a "'") eqn:E4; [reflexivity|]. simpl.
  destruct (Ascii.eqb a "/") eqn:E5; reflexivity.
Qed.

(** X18.  [sanitizeHTML] escapes character by character: the five
    replacement passes do not interfere (no pass rewrites what an earlier one
    produced, the ampersand not being escaped), so the result is the input
    with each character replaced on its own by its entity; the output never
    contains [<], [>], a double quote, a single quote or [/] (a falsy input
    gives the empty string); a string without these characters is returned
    as it is; hence sanitizing twice gives what sanitizing once gives. *)
Theorem sanitizeHTML_escapes (html : option string) :
  (forall s, sanitizeHTML (Some s) = escape_all s)
  /\ string_forall (fun a => negb (html_special a)) (sanitizeHTML html) = true
  /\ (forall s, string_forall (fun a => negb (html_special a)) s = true ->
                sanitizeHTML (Some s) = s)
  /\ sanitizeHTML (Some (sanitizeHTML html)) = sanitizeHTML html.
Proof.
  split.
  { intros t. unfold sanitizeHTML. destruct (String.eqb_spec t ""); [now subst|].
    clear n. induction t as [|a t IH]; [reflexivity|].
    change (String a t) with (String a EmptyString ++ t)%string.
    rewrite five_passes_app, five_passes_char, IH. reflexivity. }
  assert (Heq : forall s,
            string_forall (fun a => negb (html_special a)) s = true
            <-> avoids ["/"; "'"; dquote; ">"; "<"]%char s = true).
  { intros s. unfold avoids.
    split; apply string_forall_impl; intros a; unfold html_special; simpl;
      destruct (Ascii.eqb a "<"), (Ascii.eqb a ">"), (Ascii.eqb a dquote),
        (Ascii.eqb a "'"), (Ascii.eqb a "/"); simpl; auto. }
  split; [apply Heq, sanitizeHTML_avoids|]. split.
  - intros s Hs. now apply sanitizeHTML_clean, Heq.
  - apply sanitizeHTML_clean, sanitizeHTML_avoids.
Qed.

(* ================================================================== *)
(** ** [shuffleArray] *)

Lemma length_list_set {A : Type} (n : nat) (v : A) (l : list A) :
  List.length (list_set n v l) = List.length l.
Proof.
  revert n. induction l as [|x l IH]; intros [|n]; simpl; auto.
Qed.

Lemma nth_error_list_set {A : Type} (n k : nat) (v : A) (l : list A) :
  nth_error (list_set n v l) k
  = if Nat.eqb k n then (if (n <? List.length l)%nat then Some v else None)
    else nth_error l k.
Proof.
  revert n k. induction l as [|x l IH]; intros n k.
  - destruct n, k; simpl; try reflexivity.
    + now destruct (Nat.eqb k n).
  - destruct n as [|n], k as [|k]; simpl; try reflexivity.
    rewrite IH. destruct (Nat.eqb k n); [|reflexivity].
    change (S n <? S (List.length l))%nat with (n <? List.length l)%nat.
    reflexivity.
Qed.

Lemma swap_length {A : Type} (i j : nat) (l : list A) :
  List.length (swap i j l) = List.length l.
Proof.
  unfold swap. destruct (nth_error l i), (nth_error l j); try reflexivity.
  now rewrite !length_list_set.
Qed.

Lemma swap_perm {A : Type} (i j : nat) (l : list A) : Permutation (swap i j l) l.
Proof.
  unfold swap.
  destruct (nth_error l i) as [x|] eqn:Hi; [|reflexivity].
  destruct (nth_error l j) as [y|] eqn:Hj; [|reflexivity].
  assert (Hil : (i < List.length l)%nat) by (apply nth_error_Some; congruence).
  assert (Hjl : (j < List.length l)%nat) by (apply nth_error_Some; congruence).
  symmetry. apply Permutation_nth_error. split.
  - now rewrite !length_list_set.
  - exists (fun n => if Nat.eqb n j then i else if Nat.eqb n i then j else n).
    split.
    + intros a b.
      destruct (Nat.eqb_spec a j), (Nat.eqb_spec a i), (Nat.eqb_spec b j),
        (Nat.eqb_spec b i); intros; subst; congruence.
    + intros n. rewrite !nth_error_list_set, length_list_set.
      apply Nat.ltb_lt in Hil, Hjl. rewrite Hil, Hjl.
      destruct (Nat.eqb_spec n j) as [->|]; [congruence|].
      destruct (Nat.eqb_spec n i) as [->|]; congruence.
Qed.

Lemma shuffle_loop_perm {A : Type} (random : nat -> Q) (i : nat) :
  forall (draws : nat) (l : list A),
  Permutation (shuffle_loop random draws i l) l.
Proof.
  induction i as [|i IH]; intros draws l; simpl; [reflexivity|].
  etransitivity; [apply IH|apply swap_perm].
Qed.

Lemma random_index_range (r : Q) (i : nat) :
  (0 <= r)%Q -> (r < 1)%Q -> (random_index r i <= i)%nat.
Proof.
  intros H0 H1. unfold random_index.
  assert (Hlt : (r * inject_Z (Z.of_nat i + 1) < inject_Z (Z.of_nat i + 1))%Q).
  { setoid_replace (inject_Z (Z.of_nat i + 1))
      with (1 * inject_Z (Z.of_nat i + 1))%Q at 2 by ring.
    apply Qmult_lt_r; [|assumption].
    change 0%Q with (inject_Z 0). rewrite <- Zlt_Qlt. lia. }
  assert (Hfl : Qfloor (r * inject_Z (Z.of_nat i + 1)) < Z.of_nat i + 1).
  { rewrite Zlt_Qlt. eapply Qle_lt_trans; [apply Qfloor_le|exact Hlt]. }
  lia.
Qed.

(** X19.  [shuffleArray] only rearranges: for draws of [Math.random()] in
    [0, 1) every index it computes lies inside the array, and the array it
    returns is a permutation of its argument, of the same length. *)
Theorem shuffleArray_permutes {A : Type} (random : nat -> Q) (array : list A) :
  (forall n, (0 <= random n)%Q /\ (random n < 1)%Q) ->
  Permutation (shuffleArray random array) array
  /\ List.length (shuffleArray random array) = List.length array
  /\ forall n i, (random_index (random n) i <= i)%nat.
Proof.
  intros Hrange.
  assert (Hperm : Permutation (shuffleArray random array) array)
    by apply shuffle_loop_perm.
  split; [exact Hperm|]. split; [now apply Permutation_length|].
  intros n i. destruct (Hrange n). now apply random_index_range.
Qed.

Lemma shuffleArray_permutes_witness :
  shuffleArray draws_rising [1; 2; 3] = [3; 2; 1]
  /\ Permutation (shuffleArray draws_rising [1; 2; 3]) [1; 2; 3].
Proof.
  split; [reflexivity|].
  apply (shuffleArray_permutes draws_rising [1; 2; 3]).
  intros [|n]; simpl; split; (discriminate || reflexivity).
Defined.

(* ================================================================== *)
(** ** [getSafeSearchParam] and [getSafeSearchCode] *)

Lemma lower_ascii_idem (c : ascii) : lower_ascii (lower_ascii c) = lower_ascii c.
Proof.
  destruct c as [[] [] [] [] [] [] [] []]; reflexivity.
Qed.

Lemma toLowerCase_idem (s : string) : toLowerCase (toLowerCase s) = toLowerCase s.
Proof.
  induction s as [|c s IH]; simpl; [reflexivity|].
  now rewrite lower_ascii_idem, IH.
Qed.

(** X20.  [getSafeSearchParam] normalises to one of three levels and is
    idempotent and blind to letter case; [getSafeSearchCode] maps the three
    levels to three different codes, so the code of a normalised level
    determines the level. *)
Theorem safeSearch_levels (safeSearch : option string) :
  let level := getSafeSearchParam safeSearch in
  (level = "off" \/ level = "strict" \/ level = "moderate")
  /\ getSafeSearchParam (Some level) = level
  /\ (forall s, getSafeSearchParam (Some (toLowerCase s))
                = getSafeSearchParam (Some s))
  /\ (level = "off" <-> getSafeSearchCode level = "-2")
  /\ (level = "strict" <-> getSafeSearchCode level = "1")
  /\ (level = "moderate" <-> getSafeSearchCode level = "-1").
Proof.
  intros level.
  assert (Hlevel : level = "off" \/ level = "strict" \/ level = "moderate").
  { subst level. destruct safeSearch as [s|]; [|tauto].
    unfold getSafeSearchParam. destruct (str_in _ _); [tauto|].
    destruct (str_in _ _); tauto. }
  split; [exact Hlevel|]. split.
  { destruct Hlevel as [-> | [-> | ->]]; reflexivity. }
  split.
  { intros s. unfold getSafeSearchParam. now rewrite toLowerCase_idem. }
  destruct Hlevel as [-> | [-> | ->]]; repeat split; intros; try reflexivity;
    discriminate.
Qed.

(* ================================================================== *)
(** ** The rate limiter *)

Lemma prune_length (now : Z) (requests : list Z) :
  (List.length (RateLimit.prune now requests) <= List.length requests)%nat.
Proof.
  induction requests as [|t0 rest IH]; simpl; [lia|].
  destruct (t0 <? now - RateLimit.windowMs); simpl; lia.
Qed.

Lemma prune_head (now : Z) (requests : list Z) :
  match RateLimit.prune now requests with
  | [] => True
  | t0 :: _ => now - RateLimit.windowMs <= t0
  end.
Proof.
  induction requests as [|t0 rest IH]; simpl; [trivial|].
  destruct (t0 <? now - RateLimit.windowMs) eqn:E; [exact IH|].
  now apply Z.ltb_ge in E.
Qed.

Lemma prune_sorted (now : Z) (requests : list Z) :
  StronglySorted Z.le requests ->
  RateLimit.prune now requests = filter (RateLimit.in_window now) requests.
Proof.
  unfold RateLimit.in_window.
  induction 1 as [|t0 rest Hs IH Hall]; simpl; [reflexivity|].
  rewrite Z.ltb_antisym. destruct (now - RateLimit.windowMs <=? t0) eqn:E; simpl.
  - f_equal. symmetry. apply forallb_filter_id. apply forallb_forall.
    intros t Ht. rewrite Forall_forall in Hall. specialize (Hall t Ht).
    apply Z.leb_le in E. apply Z.leb_le. lia.
  - exact IH.
Qed.

Lemma rateLimiter_step (ip : string) (now : Z) (requestCounts : JsMap.t (list Z)) :
  let requests := RateLimit.prune now (RateLimit.record ip requestCounts) in
  let out := RateLimit.rateLimiter false ip now requestCounts in
  if Z.of_nat (List.length requests) >=? RateLimit.max
  then fst out
       = RateLimit.Limited
           (RateLimit.ceil_seconds
              (RateLimit.first_request requests + RateLimit.windowMs - now))
       /\ RateLimit.record ip (snd out) = requests
  else fst out
       = RateLimit.Passed
           (Some (RateLimit.max,
                  RateLimit.max - Z.of_nat (List.length (requests ++ [now])),
                  RateLimit.first_request (requests ++ [now])
                  + RateLimit.windowMs))
       /\ RateLimit.record ip (snd out) = requests ++ [now].
Proof.
  intros requests out. subst requests out.
  unfold RateLimit.rateLimiter, RateLimit.record.
  destruct (JsMap.get ip requestCounts) as [l|] eqn:Hget.
  - rewrite Hget. destruct (_ >=? _); cbn [fst snd]; now rewrite get_set_same.
  - rewrite get_set_same.
    destruct (_ >=? _); cbn [fst snd]; now rewrite get_set_same.
Qed.

Lemma rateLimiter_other (development : bool) (ip ip' : string) (now : Z)
    (requestCounts : JsMap.t (list Z)) :
  ip <> ip' ->
  RateLimit.record ip
    (snd (RateLimit.rateLimiter development ip' now requestCounts))
  = RateLimit.record ip requestCounts.
Proof.
  intros Hne. unfold RateLimit.rateLimiter, RateLimit.record.
  destruct development; [reflexivity|].
  destruct (JsMap.get ip' requestCounts) as [l|] eqn:Hget.
  - destruct (_ >=? _); cbn [snd]; now rewrite get_set_other.
  - destruct (_ >=? _); cbn [snd]; now rewrite !get_set_other.
Qed.

Lemma rateLimiter_record_length (ip ip' : string) (now : Z)
    (requestCounts : JsMap.t (list Z)) :
  Z.of_nat (List.length (RateLimit.record ip requestCounts)) <= RateLimit.max ->
  Z.of_nat (List.length
              (RateLimit.record ip
                 (snd (RateLimit.rateLimiter false ip' now requestCounts))))
  <= RateLimit.max.
Proof.
  intros Hlen. destruct (String.eqb_spec ip ip') as [<-|Hne].
  - pose proof (rateLimiter_step ip now requestCounts) as Hstep. cbv zeta in Hstep.
    pose proof (prune_length now (RateLimit.record ip requestCounts)).
    destruct (_ >=? _) eqn:E; destruct Hstep as [_ ->].
    + lia.
    + rewrite Z.geb_leb in E. apply Z.leb_gt in E.
      rewrite length_app. simpl. lia.
  - now rewrite rateLimiter_other.
Qed.

Lemma serve_record_length (ip : string) (reqs : list (string * Z)) :
  forall requestCounts,
  Z.of_nat (List.length (RateLimit.record ip requestCounts)) <= RateLimit.max ->
  Z.of_nat (List.length
              (RateLimit.record ip (snd (RateLimit.serve reqs requestCounts))))
  <= RateLimit.max.
Proof.
  induction reqs as [|[ip' now] reqs IH]; intros requestCounts Hlen;
    cbn [RateLimit.serve].
  - exact Hlen.
  - pose proof (rateLimiter_record_length ip ip' now requestCounts Hlen) as H1.
    destruct (RateLimit.rateLimiter false ip' now requestCounts) as [v counts1].
    cbn [snd] in H1. specialize (IH counts1 H1).
    destruct (RateLimit.serve reqs counts1) as [vs counts2]. exact IH.
Qed.

Lemma ceil_seconds_nonneg (x : Z) : 0 <= x -> 0 <= RateLimit.ceil_seconds x.
Proof.
  intros Hx. unfold RateLimit.ceil_seconds.
  assert (- x / 1000 <= 0) by (apply Z.div_le_upper_bound; lia). lia.
Qed.

Lemma ceil_seconds_covers (x : Z) : x <= RateLimit.ceil_seconds x * 1000.
Proof.
  unfold RateLimit.ceil_seconds.
  pose proof (Z.mul_div_le (- x) 1000 ltac:(lia)). lia.
Qed.

Lemma rateLimiter_verdict (ip : string) (now : Z)
    (requestCounts : JsMap.t (list Z)) :
  Z.of_nat (List.length (RateLimit.record ip requestCounts)) <= RateLimit.max ->
  let requests := RateLimit.prune now (RateLimit.record ip requestCounts) in
  match fst (RateLimit.rateLimiter false ip now requestCounts) with
  | RateLimit.Passed (Some (limit, remaining, _)) =>
      limit = 100 /\ 0 <= remaining <= 99
      /\ Z.of_nat (List.length requests) = 99 - remaining
  | RateLimit.Passed None => False
  | RateLimit.Limited resetTime =>
      0 <= resetTime /\ Z.of_nat (List.length requests) = 100
  end.
Proof.
  intros Hlen requests.
  pose proof (rateLimiter_step ip now requestCounts) as Hstep. cbv zeta in Hstep.
  pose proof (prune_length now (RateLimit.record ip requestCounts)) as Hpl.
  pose proof (prune_head now (RateLimit.record ip requestCounts)) as Hhead.
  fold requests in Hstep, Hpl, Hhead.
  unfold RateLimit.max in *.
  destruct (_ >=? _) eqn:E; destruct Hstep as [-> _].
  - apply Z.geb_le in E. split; [|lia].
    apply ceil_seconds_nonneg.
    destruct requests as [|t0 rest]; [simpl in E; lia|].
    unfold RateLimit.first_request. cbn [hd]. lia.
  - rewrite Z.geb_leb in E. apply Z.leb_gt in E.
    rewrite length_app, Nat2Z.inj_add. cbn [List.length].
    split; [reflexivity|]. lia.
Qed.

Lemma serve_from_start (ip : string) (reqs : list (string * Z)) :
  Z.of_nat (List.length (RateLimit.record ip (snd (RateLimit.serve reqs []))))
  <= RateLimit.max.
Proof. apply serve_record_length. unfold RateLimit.max. simpl. lia. Qed.

(** X21.  The quota of the rate limiter: after any run of requests from
    the start of the process, no address has more than 100 recorded requests;
    a request that is let through is told a remaining quota between 0 and 99,
    and a request is refused exactly when the address already has 100
    recorded requests within the window, with a [retry_after] that is never
    negative. *)
Theorem rateLimiter_quota (reqs : list (string * Z)) (ip : string) (now : Z) :
  let requestCounts := snd (RateLimit.serve reqs []) in
  let requests := RateLimit.prune now (RateLimit.record ip requestCounts) in
  Z.of_nat (List.length (RateLimit.record ip requestCounts)) <= RateLimit.max
  /\ match fst (RateLimit.rateLimiter false ip now requestCounts) with
     | RateLimit.Passed (Some (limit, remaining, _)) =>
         limit = 100 /\ 0 <= remaining <= 99
         /\ Z.of_nat (List.length requests) = 99 - remaining
     | RateLimit.Passed None => False
     | RateLimit.Limited resetTime =>
         0 <= resetTime /\ Z.of_nat (List.length requests) = 100
     end.
Proof.
  intros requestCounts requests. split; [apply serve_from_start|].
  apply rateLimiter_verdict, serve_from_start.
Qed.

Lemma filter_filter_window (T now : Z) (l : list Z) :
  T <= now - RateLimit.windowMs ->
  filter (RateLimit.in_window now) (filter (fun t => T <=? t) l)
  = filter (RateLimit.in_window now) l.
Proof.
  intros HT. unfold RateLimit.in_window.
  induction l as [|t l IH]; simpl; [reflexivity|].
  destruct (T <=? t) eqn:E1; simpl; rewrite IH; [reflexivity|].
  apply Z.leb_gt in E1.
  replace (now - RateLimit.windowMs <=? t) with false
    by (symmetry; apply Z.leb_gt; lia).
  reflexivity.
Qed.

Lemma StronglySorted_filter {A : Type} (R : A -> A -> Prop) (p : A -> bool)
    (l : list A) :
  StronglySorted R l -> StronglySorted R (filter p l).
Proof.
  induction 1 as [|a l Hs IH Hall]; simpl; [constructor|].
  destruct (p a); [|exact IH]. constructor; [exact IH|].
  apply Forall_forall. intros x Hx. apply filter_In in Hx as [Hx _].
  rewrite Forall_forall in Hall. now apply Hall.
Qed.

Lemma StronglySorted_snoc (l : list Z) (x : Z) :
  StronglySorted Z.le l -> (forall t, In t l -> t <= x) ->
  StronglySorted Z.le (l ++ [x]).
Proof.
  induction 1 as [|a l Hs IH Hall]; intros Hle; simpl.
  - repeat constructor.
  - constructor.
    + apply IH. intros t Ht. apply Hle. now right.
    + apply Forall_app. split; [exact Hall|].
      constructor; [|constructor]. apply Hle. now left.
Qed.

Lemma app_eq_same_length {A : Type} (l1 l1' l2 l2' : list A) :
  List.length l1 = List.length l1' -> l1 ++ l2 = l1' ++ l2' ->
  l1 = l1' /\ l2 = l2'.
Proof.
  revert l1'. induction l1 as [|x l1 IH]; intros [|y l1'] Hlen Heq;
    try discriminate; simpl in *.
  - auto.
  - injection Heq as -> Heq. injection Hlen as Hlen.
    destruct (IH l1' Hlen Heq) as [-> ->]. auto.
Qed.

Lemma window_run (ip : string) (reqs : list (string * Z)) :
  forall (requestCounts : JsMap.t (list Z)) (hist : list Z) (from T : Z),
  StronglySorted Z.le hist ->
  (forall t, In t hist -> t <= from) ->
  T <= from - RateLimit.windowMs ->
  RateLimit.record ip requestCounts = filter (fun t => T <=? t) hist ->
  RateLimit.ascending from reqs ->
  forall A1 t A2,
  hist ++ RateLimit.admitted ip reqs requestCounts = A1 ++ t :: A2 ->
  (List.length hist <= List.length A1)%nat ->
  Z.of_nat (List.length (filter (RateLimit.in_window t) (A1 ++ [t])))
  <= RateLimit.max.
Proof.
  induction reqs as [|[ip' now] reqs IH];
    intros requestCounts hist from T Hsorted Hpast HT Hrec Hasc A1 t A2 Heq Hlen.
  - simpl in Heq. rewrite app_nil_r in Heq. subst hist.
    rewrite length_app in Hlen. simpl in Hlen. lia.
  - destruct Hasc as [Hfrom Hasc].
    assert (Hpast' : forall t0, In t0 hist -> t0 <= now)
      by (intros t0 Ht0; specialize (Hpast t0 Ht0); lia).
    cbn [RateLimit.admitted] in Heq.
    destruct (String.eqb_spec ip' ip) as [->|Hne].
    + pose proof (rateLimiter_step ip now requestCounts) as Hstep.
      cbv zeta in Hstep.
      assert (Hprune : RateLimit.prune now (RateLimit.record ip requestCounts)
                       = filter (RateLimit.in_window now) hist).
      { rewrite Hrec, prune_sorted by now apply StronglySorted_filter.
        apply filter_filter_window. lia. }
      rewrite Hprune in Hstep.
      destruct (RateLimit.rateLimiter false ip now requestCounts) as [v counts1].
      cbn [fst snd] in Hstep.
      destruct (_ >=? _) eqn:E; destruct Hstep as [-> Hrec1].
      * simpl in Heq.
        apply (IH counts1 hist now (now - RateLimit.windowMs) Hsorted Hpast'
                 ltac:(lia) Hrec1 Hasc A1 t A2 Heq Hlen).
      * rewrite Z.geb_leb in E. apply Z.leb_gt in E.
        assert (Hrec2 : RateLimit.record ip counts1
                        = filter (RateLimit.in_window now) (hist ++ [now])).
        { rewrite Hrec1, filter_app. f_equal. simpl.
          unfold RateLimit.in_window, RateLimit.windowMs.
          replace (now - 15 * 60 * 1000 <=? now) with true
            by (symmetry; apply Z.leb_le; lia).
          reflexivity. }
        simpl in Heq.
        destruct (Nat.eq_dec (List.length hist) (List.length A1)) as [Hsame|Hdiff].
        -- destruct (app_eq_same_length _ _ _ _ Hsame Heq) as [<- Heq'].
           injection Heq' as <- _.
           rewrite filter_app. rewrite length_app. simpl.
           unfold RateLimit.in_window at 2, RateLimit.windowMs.
           replace (now - 15 * 60 * 1000 <=? now) with true
             by (symmetry; apply Z.leb_le; lia).
           simpl. unfold RateLimit.max in *. lia.
        -- apply (IH counts1 (hist ++ [now]) now (now - RateLimit.windowMs))
             with (A2 := A2).
           ++ now apply StronglySorted_snoc.
           ++ intros t0 Ht0. apply in_app_or in Ht0 as [Ht0|[<-|[]]]; [auto|lia].
           ++ lia.
           ++ exact Hrec2.
           ++ exact Hasc.
           ++ now rewrite <- app_assoc.
           ++ rewrite length_app. simpl. lia.
    + assert (Hrec1 : RateLimit.record ip
                        (snd (RateLimit.rateLimiter false ip' now requestCounts))
                      = filter (fun t => T <=? t) hist).
      { rewrite rateLimiter_other by congruence. exact Hrec. }
      destruct (RateLimit.rateLimiter false ip' now requestCounts) as [v counts1].
      cbn [snd] in Hrec1.
      assert (Heq' : hist ++ RateLimit.admitted ip reqs counts1 = A1 ++ t :: A2).
      { rewrite <- Heq. f_equal.
        destruct v; reflexivity. }
      apply (IH counts1 hist now T Hsorted Hpast' ltac:(lia) Hrec1 Hasc
               A1 t A2 Heq' Hlen).
Qed.

(** X22.  The limit holds over every sliding window: in a run of requests
    whose times never go back, every request of an address that is let
    through is at most the 100th one let through for that address within the
    15 minutes that end with it. *)
Theorem rateLimiter_sliding_window (ip : string) (reqs : list (string * Z))
    (from : Z) (A1 A2 : list Z) (t : Z) :
  RateLimit.ascending from reqs ->
  RateLimit.admitted ip reqs [] = A1 ++ t :: A2 ->
  Z.of_nat (List.length (filter (RateLimit.in_window t) (A1 ++ [t])))
  <= RateLimit.max.
Proof.
  intros Hasc Heq.
  apply (window_run ip reqs [] [] from (from - RateLimit.windowMs)
           ltac:(constructor) ltac:(intros ? []) ltac:(lia) eq_refl Hasc
           A1 t A2 Heq).
  simpl. lia.
Qed.

Lemma rateLimiter_sliding_window_witness :
  RateLimit.admitted "a" [("a", 0); ("b", 5); ("a", 900001)] [] = [0; 900001]
  /\ Z.of_nat (List.length (filter (RateLimit.in_window 900001) [0; 900001]))
     <= RateLimit.max.
Proof.
  split; [reflexivity|].
  apply (rateLimiter_sliding_window "a" [("a", 0); ("b", 5); ("a", 900001)] 0
           [0] [] 900001).
  - simpl. lia.
  - reflexivity.
Defined.

(** X23.  A refusal tells the truth about when to come back: if a request
    of an address is refused with [retry_after = s], a request of that
    address at any time later than [s] seconds after the refusal is let
    through, provided no other request of the address was recorded in
    between. *)
Theorem rateLimiter_retry_after (reqs : list (string * Z)) (ip : string)
    (now now' resetTime : Z) :
  let requestCounts := snd (RateLimit.serve reqs []) in
  fst (RateLimit.rateLimiter false ip now requestCounts)
  = RateLimit.Limited resetTime ->
  now + resetTime * 1000 < now' ->
  exists headers,
    fst (RateLimit.rateLimiter false ip now'
           (snd (RateLimit.rateLimiter false ip now requestCounts)))
    = RateLimit.Passed (Some headers).
Proof.
  intros requestCounts Hlim Hlater.
  pose proof (rateLimiter_verdict ip now requestCounts
                (serve_from_start ip reqs)) as Hq.
  cbv zeta in Hq. rewrite Hlim in Hq. destruct Hq as [_ Hfull].
  pose proof (rateLimiter_step ip now requestCounts) as Hstep. cbv zeta in Hstep.
  replace (_ >=? _) with true in Hstep
    by (symmetry; apply Z.geb_le; unfold RateLimit.max; lia).
  destruct Hstep as [Hv Hrec]. rewrite Hlim in Hv. injection Hv as ->.
  pose proof (rateLimiter_step ip now'
                (snd (RateLimit.rateLimiter false ip now requestCounts)))
    as Hstep'. cbv zeta in Hstep'. rewrite Hrec in Hstep'.
  set (requests := RateLimit.prune now (RateLimit.record ip requestCounts)) in *.
  assert (Hshort : Z.of_nat (List.length (RateLimit.prune now' requests)) < 100).
  { destruct requests as [|t0 rest] eqn:Hreq; [simpl in Hfull; lia|].
    pose proof (ceil_seconds_covers (t0 + RateLimit.windowMs - now)) as Hc.
    simpl in Hlater. simpl.
    replace (t0 <? now' - RateLimit.windowMs) with true
      by (symmetry; apply Z.ltb_lt; lia).
    pose proof (prune_length now' rest). simpl in Hfull. lia. }
  replace (_ >=? _) with false in Hstep'
    by (symmetry; rewrite Z.geb_leb; apply Z.leb_gt; unfold RateLimit.max; lia).
  destruct Hstep' as [-> _]. eauto.
Qed.

Lemma rateLimiter_retry_after_witness :
  fst (RateLimit.rateLimiter false "a" 1 (snd (RateLimit.serve burst [])))
  = RateLimit.Limited 900
  /\ exists headers,
       fst (RateLimit.rateLimiter false "a" 900002
              (snd (RateLimit.rateLimiter false "a" 1
                      (snd (RateLimit.serve burst [])))))
       = RateLimit.Passed (Some headers).
Proof.
  assert (Hlim : fst (RateLimit.rateLimiter false "a" 1
                        (snd (RateLimit.serve burst [])))
                 = RateLimit.Limited 900) by (vm_compute; reflexivity).
  split; [exact Hlim|].
  apply (rateLimiter_retry_after burst "a" 1 900002 900 Hlim). lia.
Defined.

(** X24.  The rate limiter keeps the addresses apart, and development mode
    switches it off: a request of one address never changes what is recorded
    for another, the verdict on a request depends on nothing but the record
    of its own address, and under [NODE_ENV = development] every request
    passes without headers and without being recorded. *)
Theorem rateLimiter_per_address (development : bool) (ip ip' : string) (now : Z)
    (requestCounts requestCounts' : JsMap.t (list Z)) :
  ip <> ip' ->
  RateLimit.record ip
    (snd (RateLimit.rateLimiter development ip' now requestCounts))
  = RateLimit.record ip requestCounts
  /\ (RateLimit.record ip requestCounts = RateLimit.record ip requestCounts' ->
      fst (RateLimit.rateLimiter false ip now requestCounts)
      = fst (RateLimit.rateLimiter false ip now requestCounts'))
  /\ RateLimit.rateLimiter true ip now requestCounts
     = (RateLimit.Passed None, requestCounts).
Proof.
  intros Hne. split; [now apply rateLimiter_other|]. split; [|reflexivity].
  intros Hrec.
  pose proof (rateLimiter_step ip now requestCounts) as H1.
  pose proof (rateLimiter_step ip now requestCounts') as H2.
  cbv zeta in H1, H2. rewrite <- Hrec in H2.
  destruct (_ >=? _); destruct H1 as [-> _], H2 as [-> _]; reflexivity.
Qed.

Lemma rateLimiter_per_address_witness :
  RateLimit.record "b"
    (snd (RateLimit.rateLimiter false "a" 1 (snd (RateLimit.serve burst []))))
  = RateLimit.record "b" (snd (RateLimit.serve burst [])).
Proof.
  apply (rateLimiter_per_address false "b" "a" 1
           (snd (RateLimit.serve burst [])) []).
  discriminate.
Defined.

(* ================================================================== *)
(** ** [weatherSearch] *)

Lemma TTL_short_effective : Z_or TTL_short TTL_medium = TTL_short.
Proof. reflexivity. Qed.

Lemma cacheGet_after_cacheSet {D : Type} (st : Cache.Store D)
    (now0 now0' now now' : Z) (key : string) (data : D) (ttl0 : Z) :
  ttl0 <> 0 -> now - now0' <= ttl0 ->
  fst (Cache.cacheGet now now' key
         (Cache.cacheSet now0 now0' key data (Some ttl0) st)) = Some data.
Proof.
  intros Hnz Hage. unfold Cache.cacheGet, Cache.cacheSet. cbn [Cache.CACHE].
  rewrite get_set_same. unfold Cache.expired, Z_or. cbn [Cache.t Cache.ttl Cache.d].
  replace (ttl0 =? 0) with false by (symmetry; now apply Z.eqb_neq).
  replace (now - now0' >? ttl0) with false
    by (symmetry; rewrite Z.gtb_ltb; apply Z.ltb_ge; lia).
  reflexivity.
Qed.

(** X25.  [weatherSearch] caches whatever it returns, the error object
    included: after a call that missed the cache and returned, the value
    returned (the stamped data of a provider, or [errorData]) is stored under
    the key with [TTL.short], and any call for the same query within the next
    two minutes returns that value without calling a provider. *)
Theorem weatherSearch_caches_every_answer {D : Type} (inj : Weather.Value -> D)
    (env : string -> Weather.Attempt) (clk : Clock) (query : string)
    (st : Cache.Store D) (v : D) :
  fst (Cache.cacheGet (at_get clk) (at_refresh clk) (weather_key query) st)
  = None ->
  snd (fst (weatherSearch inj env clk query st)) = inr v ->
  let st' := snd (weatherSearch inj env clk query st) in
  JsMap.get (weather_key query) (Cache.CACHE st')
  = Some (Cache.mkEntry v (at_put clk) TTL_short)
  /\ (v = inj (Weather.ErrorData Weather.weatherProviders)
      \/ exists nm r, In nm Weather.weatherProviders
                      /\ v = inj (Weather.Data (Weather.stamp nm r)))
  /\ forall env' clk',
       at_get clk' - at_put clk <= TTL_short ->
       fst (weatherSearch inj env' clk' query st') = ([], inr v).
Proof.
  intros Hmiss Hret st'. subst st'. revert Hret. unfold weatherSearch.
  destruct (Cache.cacheGet (at_get clk) (at_refresh clk) (weather_key query) st)
    as [[cached|] st1]; [discriminate|].
  assert (Hstamp : forall r,
            snd (Weather.try_providers env Weather.weatherProviders)
            = inr (Some r) ->
            exists nm r0, In nm Weather.weatherProviders
                          /\ r = Weather.stamp nm r0).
  { unfold Weather.weatherProviders. generalize ["OpenWeatherMap"; "Weather.gov"].
    intros providers. induction providers as [|nm rest IH]; intros r; simpl.
    - discriminate.
    - destruct (env nm) as [[r0|]|[|e]]; simpl.
      + destruct (str_truthy (Weather.error r0)).
        * destruct (Weather.try_providers env rest) as [called res]. simpl.
          intros H. destruct (IH r H) as (nm' & r1 & Hin & ->). eauto.
        * simpl. intros [= <-]. eauto.
      + destruct (Weather.try_providers env rest) as [called res]. simpl.
        intros H. destruct (IH r H) as (nm' & r1 & Hin & ->). eauto.
      + discriminate.
      + destruct (Weather.try_providers env rest) as [called res]. simpl.
        intros H. destruct (IH r H) as (nm' & r1 & Hin & ->). eauto. }
  destruct (Weather.try_providers env Weather.weatherProviders)
    as [called [x|[r|]]]; cbn [fst snd]; intros Hret;
    [discriminate| |]; injection Hret as <-.
  - split; [apply get_set_same|]. split.
    + right. destruct (Hstamp r eq_refl) as (nm & r0 & Hin & ->). eauto.
    + intros env' clk' Hage.
      pose proof (cacheGet_after_cacheSet st1 (at_sweep clk) (at_put clk)
                    (at_get clk') (at_refresh clk') (weather_key query)
                    (inj (Weather.Data r)) TTL_short ltac:(discriminate) Hage)
        as Hget.
      destruct (Cache.cacheGet _ _ _ _) as [[c|] st2]; simpl in Hget;
        [|discriminate].
      now injection Hget as ->.
  - split; [apply get_set_same|]. split; [now left|].
    intros env' clk' Hage.
    pose proof (cacheGet_after_cacheSet st1 (at_sweep clk) (at_put clk)
                  (at_get clk') (at_refresh clk') (weather_key query)
                  (inj (Weather.ErrorData Weather.weatherProviders)) TTL_short
                  ltac:(discriminate) Hage) as Hget.
    destruct (Cache.cacheGet _ _ _ _) as [[c|] st2]; simpl in Hget;
      [|discriminate].
    now injection Hget as ->.
Qed.

Lemma weatherSearch_caches_every_answer_witness :
  fst (weatherSearch (fun v => v) owm_down noon "Paris" Cache.empty)
  = (["OpenWeatherMap"; "Weather.gov"],
     inr (Weather.Data (Weather.stamp "Weather.gov" sunny)))
  /\ JsMap.get (weather_key "Paris")
       (Cache.CACHE
          (snd (weatherSearch (fun v => v) owm_down noon "Paris" Cache.empty)))
     = Some (Cache.mkEntry (Weather.Data (Weather.stamp "Weather.gov" sunny))
               (at_put noon) TTL_short).
Proof.
  split; [reflexivity|].
  apply (weatherSearch_caches_every_answer (fun v => v) owm_down noon "Paris"
           Cache.empty (Weather.Data (Weather.stamp "Weather.gov" sunny))).
  - reflexivity.
  - reflexivity.
Defined.

Lemma try_providers_first (env : string -> Weather.Attempt) :
  forall (k : nat) (providers : list string) (nm : string),
  nth_error providers k = Some nm ->
  (forall j nm', (j < k)%nat -> nth_error providers j = Some nm' ->
                 Weather.passed_over (env nm') = true) ->
  (forall r, Weather.usable (env nm) = Some r ->
     Weather.try_providers env providers
     = (firstn (S k) providers, inr (Some (Weather.stamp nm r))))
  /\ (env nm = Weather.Fails ThrowUndefined ->
      Weather.try_providers env providers
      = (firstn (S k) providers, inl (ThrowError message_of_undefined))).
Proof.
  induction k as [|k IH]; intros providers nm Hnth Hbefore.
  - destruct providers as [|nm0 rest]; [discriminate|]. injection Hnth as ->.
    split.
    + intros r Hr. cbn [Weather.try_providers firstn].
      destruct (env nm) as [[r0|]|[|e]]; try discriminate; now rewrite Hr.
    + intros Hu. cbn [Weather.try_providers firstn]. now rewrite Hu.
  - destruct providers as [|nm0 rest]; [discriminate|]. simpl in Hnth.
    pose proof (Hbefore O nm0 ltac:(lia) eq_refl) as H0.
    destruct (IH rest nm Hnth) as [IH1 IH2].
    { intros j nm' Hj Hn. apply (Hbefore (S j) nm'); [lia|exact Hn]. }
    assert (Hskip : forall res,
              Weather.try_providers env rest = (firstn (S k) rest, res) ->
              Weather.try_providers env (nm0 :: rest)
              = (firstn (S (S k)) (nm0 :: rest), res)).
    { intros res Hres. cbn [Weather.try_providers]. rewrite Hres.
      destruct (env nm0) as [[r0|]|[|e]]; simpl in H0 |- *;
        try discriminate; try reflexivity.
      now rewrite H0. }
    split.
    + intros r Hr. apply Hskip. now apply IH1.
    + intros Hu. apply Hskip. now apply IH2.
Qed.

(** X26.  The fallback of [weatherSearch]: the providers are tried in
    order and the first usable answer wins; the data returned carries the name
    of the provider that gave it and no provider after it is called, while an
    answer that is unusable or an [Error] only moves the loop on; when every
    provider is passed over the loop ends with nothing after calling them
    all.  A provider that throws [undefined] (as [fetchWithRetry] does after a
    run of 5xx answers) stops the loop with a [TypeError]: providers after it
    are never tried. *)
Theorem weatherSearch_fallback (env : string -> Weather.Attempt)
    (providers : list string) :
  (forall k nm,
     nth_error providers k = Some nm ->
     (forall j nm', (j < k)%nat -> nth_error providers j = Some nm' ->
                    Weather.passed_over (env nm') = true) ->
     (forall r, Weather.usable (env nm) = Some r ->
        Weather.try_providers env providers
        = (firstn (S k) providers, inr (Some (Weather.stamp nm r))))
     /\ (env nm = Weather.Fails ThrowUndefined ->
         Weather.try_providers env providers
         = (firstn (S k) providers, inl (ThrowError message_of_undefined))))
  /\ ((forall nm, In nm providers -> Weather.passed_over (env nm) = true) ->
      Weather.try_providers env providers = (providers, inr None)).
Proof.
  split; [intros k nm; now apply try_providers_first|].
  induction providers as [|nm rest IH]; intros Hall; [reflexivity|].
  cbn [Weather.try_providers]. rewrite IH by (intros nm' Hn; apply Hall; now right).
  pose proof (Hall nm (or_introl eq_refl)) as H0.
  destruct (env nm) as [[r0|]|[|e]]; simpl in H0 |- *;
    try discriminate; try reflexivity.
  now rewrite H0.
Qed.

(* ================================================================== *)
(** ** [githubSearch] *)

Lemma includes_403 (statusText : string) :
  includes
    (err_message
       (Http.failed_after MAX_RETRIES
          (Http.http_error (Http.mkResponse 403 statusText None (inr "")))))
    "403" = true.
Proof.
  cbn. now destruct statusText.
Qed.

(** X27.  GitHub's 403 becomes the rate limit object: when every attempt
    of the request is answered with status 403, [githubSearch] calls [fetch]
    [MAX_RETRIES] times and then returns the object 'GitHub API rate limit
    exceeded'; nothing is cached, so the next call asks GitHub again. *)
Theorem githubSearch_forbidden {D : Type} (inj : Github.Value -> D)
    (decode : string -> JsError + list Github.Repo)
    (fetch : nat -> Http.FetchOutcome) (clk : Clock) (query : string)
    (st : Cache.Store D) :
  (forall a, (a < MAX_RETRIES)%nat ->
             exists r, fetch a = Http.FetchResolves r /\ Http.status r = 403) ->
  fst (Cache.cacheGet (at_get clk) (at_refresh clk) (github_key query) st)
  = None ->
  let out := githubSearch inj decode fetch clk query st in
  snd (fst out) = inr (inj Github.RateLimited)
  /\ Http.fetch_count (fst (fst out)) = MAX_RETRIES
  /\ snd out
     = snd (Cache.cacheGet (at_get clk) (at_refresh clk) (github_key query) st).
Proof.
  intros Hall Hmiss out. subst out. unfold githubSearch.
  destruct (Cache.cacheGet (at_get clk) (at_refresh clk) (github_key query) st)
    as [[cached|] st1]; [discriminate|].
  unfold Github.fetch_results, Http.fetchWithRetry.
  change (Http.retry_loop fetch MAX_RETRIES MAX_RETRIES 0 ThrowUndefined)
    with (Http.retry_loop fetch MAX_RETRIES 5 0 ThrowUndefined).
  rewrite (retry_loop_non_retryable fetch MAX_RETRIES 4 0 ThrowUndefined eq_refl).
  2:{ intros a [_ Ha]. destruct (Hall a Ha) as (r & -> & Hs).
      unfold Http.non_retryable, Http.ok. rewrite Hs. reflexivity. }
  destruct (Hall 4%nat ltac:(unfold MAX_RETRIES; lia)) as (r & Hr & Hs).
  cbn [fst snd Github.on_error]. change (MAX_RETRIES - 1)%nat with 4%nat.
  rewrite Hr. unfold Http.error_of, Http.ok. rewrite Hs.
  cbn [Z.leb Z.ltb Z.compare Pos.compare Pos.compare_cont andb].
  assert (Hinc : includes
            (err_message (Http.failed_after MAX_RETRIES (Http.http_error r)))
            "403" = true).
  { unfold Http.http_error. rewrite Hs. cbn. now destruct (Http.statusText r). }
  rewrite Hinc, orb_true_r. repeat split.
Qed.

Lemma githubSearch_forbidden_witness :
  snd (fst (githubSearch (fun v => v) (fun _ => inr []) forbidden noon "rocq"
              Cache.empty))
  = inr Github.RateLimited.
Proof.
  apply (githubSearch_forbidden (fun v => v) (fun _ => inr []) forbidden noon
           "rocq" Cache.empty).
  - intros a _. eexists. split; reflexivity.
  - reflexivity.
Defined.

(** X28.  [githubSearch] caches successes only: after a call that missed
    the cache, a result list is stored under the key with the default ttl
    ([TTL.medium]), while after a failure the cache holds what it held; a
    failure with an [Error] is answered with one of the two error objects,
    and a failure with [undefined] (every attempt answered with 429 or 5xx)
    makes [githubSearch] itself reject with a [TypeError]. *)
Theorem githubSearch_caches_success_only {D : Type} (inj : Github.Value -> D)
    (decode : string -> JsError + list Github.Repo)
    (fetch : nat -> Http.FetchOutcome) (clk : Clock) (query : string)
    (st : Cache.Store D) :
  fst (Cache.cacheGet (at_get clk) (at_refresh clk) (github_key query) st)
  = None ->
  let out := githubSearch inj decode fetch clk query st in
  let st1 :=
    snd (Cache.cacheGet (at_get clk) (at_refresh clk) (github_key query) st) in
  (forall results,
     snd (Github.fetch_results decode fetch) = inr results ->
     snd (fst out) = inr (inj (Github.Repos results))
     /\ JsMap.get (github_key query) (Cache.CACHE (snd out))
        = Some (Cache.mkEntry (inj (Github.Repos results)) (at_put clk)
                  TTL_medium))
  /\ (forall e,
        snd (Github.fetch_results decode fetch) = inl (ThrowError e) ->
        snd out = st1
        /\ (snd (fst out) = inr (inj Github.RateLimited)
            \/ snd (fst out) = inr (inj (Github.Failed (err_message e)))))
  /\ (snd (Github.fetch_results decode fetch) = inl ThrowUndefined ->
      snd out = st1 /\ snd (fst out) = inl (ThrowError message_of_undefined))
  /\ ((forall a, Http.retryable_status (fetch a) = true) ->
      snd (Github.fetch_results decode fetch) = inl ThrowUndefined).
Proof.
  intros Hmiss out st1. subst out st1. unfold githubSearch.
  destruct (Cache.cacheGet (at_get clk) (at_refresh clk) (github_key query) st)
    as [[cached|] st1]; [discriminate|]. cbn [snd].
  split; [|split; [|split]].
  - intros results Hres.
    destruct (Github.fetch_results decode fetch) as [log [x|l]];
      simpl in Hres; [discriminate|]. injection Hres as ->. cbn [fst snd].
    split; [reflexivity|apply get_set_same].
  - intros e Hres.
    destruct (Github.fetch_results decode fetch) as [log [x|l]];
      simpl in Hres; [|discriminate]. injection Hres as ->. cbn [fst snd].
    split; [reflexivity|]. unfold Github.on_error.
    destruct (_ || _); auto.
  - intros Hres.
    destruct (Github.fetch_results decode fetch) as [log [x|l]];
      simpl in Hres; [|discriminate]. injection Hres as ->. cbn [fst snd].
    split; reflexivity.
  - intros Hall. unfold Github.fetch_results, Http.fetchWithRetry.
    rewrite retry_loop_retryable by (intros a _; apply Hall). reflexivity.
Qed.

Lemma githubSearch_caches_success_only_witness :
  snd (githubSearch (fun v => v) (fun _ => inr []) forbidden noon "rocq"
         Cache.empty)
  = snd (Cache.cacheGet 0 0 (github_key "rocq") Cache.empty).
Proof.
  apply (proj1 (proj2 (githubSearch_caches_success_only (fun v => v)
                         (fun _ => inr []) forbidden noon "rocq" Cache.empty
                         eq_refl))
           (Http.failed_after MAX_RETRIES
              (Http.http_error
                 (Http.mkResponse 403 "Forbidden" None (inr ""))))).
  reflexivity.
Defined.

(* ================================================================== *)
(** ** [searchViaSearXNG] *)

Lemma results_of_spec (extractDomain : string -> string)
    (raw : list SearXNG.Raw) :
  Z.of_nat (List.length (SearXNG.results_of extractDomain raw)) <= 50
  /\ forall r, In r (SearXNG.results_of extractDomain raw) ->
       exists u, Web.url r = Some u /\ prefix "http" u = true.
Proof.
  unfold SearXNG.results_of. split.
  - pose proof (js_slice_length 0 50
                  (map (SearXNG.convert extractDomain)
                     (filter SearXNG.usable raw))). lia.
  - intros r Hr. apply js_slice_In, in_map_iff in Hr as [r0 [<- Hr0]].
    apply filter_In in Hr0 as [_ Hu]. unfold SearXNG.usable in Hu.
    simpl. destruct (SearXNG.url r0) as [u|]; [|discriminate].
    apply andb_true_iff in Hu as [_ Hu]. exists u. split; [reflexivity|exact Hu].
Qed.

Lemma try_instances_spec (extractDomain : string -> string)
    (env : string -> SearXNG.Outcome) (shuffled : list string) :
  forall errors,
  let out := SearXNG.try_instances extractDomain env shuffled errors in
  (exists rest, shuffled = fst (fst out) ++ rest)
  /\ (snd (fst out) <= List.length (fst (fst out)))%nat
  /\ (forall results, snd out = inr results ->
        0 < Z.of_nat (List.length results) <= 50
        /\ forall r, In r results ->
             exists u, Web.url r = Some u /\ prefix "http" u = true)
  /\ (forall x, snd out = inl x ->
        x = ThrowError message_of_undefined
        \/ (fst (fst out) = shuffled
            /\ exists errors', x = ThrowError (SearXNG.all_failed errors'))).
Proof.
  induction shuffled as [|instance rest IH]; intros errors;
    cbn [SearXNG.try_instances].
  - cbn [fst snd]. split; [now exists []|]. split; [simpl; lia|].
    split; [discriminate|]. intros x [= <-]. right. eauto.
  - assert (Hnext : forall errors' (extra : nat),
      (extra <= 1)%nat ->
      let out :=
        match SearXNG.try_instances extractDomain env rest errors' with
        | (called, delays, res) => (instance :: called, (extra + delays)%nat, res)
        end in
      (exists rest0, instance :: rest = fst (fst out) ++ rest0)
      /\ (snd (fst out) <= List.length (fst (fst out)))%nat
      /\ (forall results, snd out = inr results ->
            0 < Z.of_nat (List.length results) <= 50
            /\ forall r, In r results ->
                 exists u, Web.url r = Some u /\ prefix "http" u = true)
      /\ (forall x, snd out = inl x ->
            x = ThrowError message_of_undefined
            \/ (fst (fst out) = instance :: rest
                /\ exists errors0,
                     x = ThrowError (SearXNG.all_failed errors0)))).
    { intros errors' extra Hextra. specialize (IH errors'). cbv zeta in IH.
      destruct (SearXNG.try_instances extractDomain env rest errors')
        as [[called delays] res]. cbn [fst snd] in *.
      destruct IH as ((rest0 & Hrest) & Hd & Hres & Herr).
      split; [exists rest0; simpl; now rewrite <- Hrest|].
      split; [simpl; lia|]. split; [exact Hres|].
      intros x Hx. destruct (Herr x Hx) as [->|[-> Hall]]; auto. }
    destruct (env instance) as [[raw|]|[|e]].
    + destruct (results_of_spec extractDomain raw) as [Hlen Hurl].
      destruct (0 <? _) eqn:Hpos.
      * cbn [fst snd]. split; [now exists rest|]. split; [simpl; lia|].
        split; [|discriminate]. intros results [= <-].
        apply Z.ltb_lt in Hpos. split; [lia|exact Hurl].
      * apply (Hnext errors O). lia.
    + apply (Hnext errors O). lia.
    + cbn [fst snd]. split; [now exists rest|]. split; [simpl; lia|].
      split; [discriminate|]. intros x [= <-]. now left.
    + apply (Hnext (errors ++ [(instance, SearXNG.message_or_unknown e)]) 1%nat).
      lia.
Qed.

Lemma NoDup_app_l {A : Type} (l1 l2 : list A) : NoDup (l1 ++ l2) -> NoDup l1.
Proof.
  induction l1 as [|x l1 IH]; intros H; [constructor|].
  simpl in H. inversion H as [|? ? Hx Hnd]; subst. constructor.
  - intros Hin. apply Hx. apply in_or_app. now left.
  - now apply IH.
Qed.

(** X29.  [searchViaSearXNG] asks each instance at most once, in the
    shuffled order, and waits one second at most once per instance asked; a
    result list it returns is not empty, has at most 50 items and only
    addresses that start with 'http'; it gives up with 'All SearXNG instances
    failed' only after asking all seven instances, or else with the
    [TypeError] of an instance that threw [undefined]. *)
Theorem searchViaSearXNG_results (extractDomain : string -> string)
    (random : nat -> Q) (env : string -> SearXNG.Outcome) :
  (forall n, (0 <= random n)%Q /\ (random n < 1)%Q) ->
  let out := SearXNG.searchViaSearXNG extractDomain random env in
  NoDup (fst (fst out)) /\ incl (fst (fst out)) SearXNG.instances
  /\ (snd (fst out) <= List.length (fst (fst out)) <= 7)%nat
  /\ (forall results, snd out = inr results ->
        0 < Z.of_nat (List.length results) <= 50
        /\ forall r, In r results ->
             exists u, Web.url r = Some u /\ prefix "http" u = true)
  /\ (forall x, snd out = inl x ->
        x = ThrowError message_of_undefined
        \/ (Permutation (fst (fst out)) SearXNG.instances
            /\ exists errors, x = ThrowError (SearXNG.all_failed errors))).
Proof.
  intros Hrange out. subst out. unfold SearXNG.searchViaSearXNG.
  pose proof (shuffle_loop_perm random (List.length SearXNG.instances - 1) 0
                SearXNG.instances) as Hperm.
  fold (shuffleArray random SearXNG.instances) in Hperm.
  set (shuffled := shuffleArray random SearXNG.instances) in *.
  destruct (try_instances_spec extractDomain env shuffled [])
    as ((rest & Hrest) & Hd & Hres & Herr).
  set (out := SearXNG.try_instances extractDomain env shuffled []) in *.
  assert (Hnd : NoDup shuffled).
  { eapply Permutation_NoDup; [symmetry; exact Hperm|].
    unfold SearXNG.instances.
    repeat (constructor; [simpl; intuition discriminate|]). constructor. }
  assert (Hlen : List.length shuffled = 7%nat)
    by (rewrite (Permutation_length Hperm); reflexivity).
  split; [rewrite Hrest in Hnd; now apply NoDup_app_l in Hnd|].
  split.
  { intros x Hx. apply (Permutation_in _ Hperm). rewrite Hrest.
    apply in_or_app. now left. }
  split.
  { rewrite Hrest, length_app in Hlen. lia. }
  split; [exact Hres|].
  intros x Hx. destruct (Herr x Hx) as [->|[Hall Herrors]]; [now left|].
  right. split; [now rewrite Hall|exact Herrors].
Qed.

Lemma searchViaSearXNG_results_witness :
  SearXNG.searchViaSearXNG (fun u => u) draws_flat searx_up
  = (["https://search.disroot.org"], 0%nat,
     inr [SearXNG.convert (fun u => u) searx_hit])
  /\ NoDup (fst (fst (SearXNG.searchViaSearXNG (fun u => u) draws_flat searx_up))).
Proof.
  split; [reflexivity|].
  apply (searchViaSearXNG_results (fun u => u) draws_flat searx_up).
  intros n. split; [discriminate|reflexivity].
Defined.

(* ================================================================== *)
(** ** The route [/admin/cache] *)

(** X30.  [/admin/cache] does nothing without the key: the answer is other
    than 401 exactly when the [key] parameter is a non-empty string equal to
    [ADMIN_API_KEY] (so an unset or empty [ADMIN_API_KEY] locks everyone
    out); a refused request leaves the cache and its counters untouched, and
    the cache changes only by [action=clear] of an authorised request, which
    empties it and resets the counters. *)
Theorem admin_cache_requires_key {D : Type}
    (ADMIN_API_KEY key action : option string) (now : Z) (st : Cache.Store D) :
  let out := admin_cache ADMIN_API_KEY key action now st in
  (fst out <> Unauthorized
   <-> exists k, key = Some k /\ k <> "" /\ ADMIN_API_KEY = Some k)
  /\ (fst out = Unauthorized -> snd out = st)
  /\ (snd out <> st -> fst out = Cleared /\ action = Some "clear")
  /\ (fst out = Cleared -> snd out = Cache.empty).
Proof.
  intros out. subst out. unfold admin_cache, differs, str_truthy.
  destruct key as [k|]; cbn [negb orb fst snd];
    [|firstorder congruence].
  destruct (String.eqb_spec k "") as [->|Hk]; cbn [negb orb fst snd];
    [firstorder congruence|].
  destruct ADMIN_API_KEY as [k0|]; [|cbn [fst snd]; firstorder congruence].
  destruct (String.eqb_spec k k0) as [<-|Hne]; cbn [negb fst snd];
    [|firstorder congruence].
  assert (Hauth : exists k1, Some k = Some k1 /\ k1 <> "" /\ Some k = Some k1)
    by eauto.
  destruct action as [a|]; [|cbn [fst snd]; intuition congruence].
  destruct (String.eqb_spec a "clear") as [->|Hclear];
    [cbn [fst snd]; intuition congruence|].
  destruct (String.eqb a "stats"); cbn [fst snd]; intuition congruence.
Qed.

(* ================================================================== *)
(** ** Determinism of the merge: completion order, ties, draws *)

Lemma promise_all_map_inr {A : Type} (vs : list A) :
  promise_all (map inr vs : list (Thrown + A)) = inr vs.
Proof.
  induction vs as [|a vs IH]; simpl; [reflexivity|]. now rewrite IH.
Qed.

(** A list of promises has a rejection, or is a list of fulfilments. *)
Lemma rejection_or_values {A : Type} (promises : list (Thrown + A)) :
  (exists x, In (inl x) promises) \/ exists vs, promises = map inr vs.
Proof.
  induction promises as [|[x|a] l IH].
  - right. now exists [].
  - left. exists x. now left.
  - destruct IH as [[x Hx]|[vs ->]].
    + left. exists x. now right.
    + right. now exists (a :: vs).
Qed.

Lemma promise_all_rejects {A : Type} (promises : list (Thrown + A))
    (c x : Thrown) :
  (forall y, In (inl y) promises -> y = c) ->
  In (inl x) promises ->
  promise_all promises = inl c.
Proof.
  induction promises as [|[y|a] l IH]; intros Hsame Hin; simpl.
  - contradiction.
  - f_equal. apply Hsame. now left.
  - destruct Hin as [Hin|Hin]; [discriminate|].
    rewrite IH; [reflexivity | | assumption].
    intros y Hy. apply Hsame. now right.
Qed.

(** When every rejection carries the same value, the run rejects with it as
    soon as a rejecting promise is on the schedule, wherever it stands. *)
Lemma promise_all_run_rejects {A : Type} (promises : list (Thrown + A))
    (c x : Thrown) (i : nat) (schedule : list nat) :
  (forall y, In (inl y) promises -> y = c) ->
  nth_error promises i = Some (inl x) ->
  In i schedule ->
  forall values, promise_all_run promises schedule values = inl c.
Proof.
  intros Hsame Hi. induction schedule as [|j schedule IH]; intros Hin values;
    [contradiction|].
  simpl. destruct (nth_error promises j) as [[y|a]|] eqn:Hj.
  - f_equal. apply Hsame. eapply nth_error_In, Hj.
  - destruct Hin as [->|Hin]; [congruence|]. now apply IH.
  - destruct Hin as [->|Hin]; [congruence|]. now apply IH.
Qed.

(** When no promise rejects, the run ends with an array that holds, at
    every position on the schedule, the value of the promise of that
    position, and is unchanged elsewhere. *)
Lemma promise_all_run_fulfils {A : Type} (vs : list A) (schedule : list nat) :
  forall values,
  exists values',
    promise_all_run (map inr vs) schedule values = inr values'
    /\ List.length values' = List.length values
    /\ (forall j a, In j schedule -> (j < List.length values)%nat ->
          nth_error vs j = Some a -> nth_error values' j = Some (Some a))
    /\ (forall j, ~ In j schedule -> nth_error values' j = nth_error values j).
Proof.
  induction schedule as [|i schedule IH]; intros values; simpl.
  - exists values. repeat split; auto. intros j a [].
  - rewrite nth_error_map.
    destruct (nth_error vs i) as [ai|] eqn:Hi; simpl.
    + destruct (IH (list_set i (Some ai) values))
        as (values' & Hrun & Hlen & Hset & Hkeep).
      rewrite length_list_set in Hlen, Hset.
      exists values'. split; [assumption|]. split; [assumption|]. split.
      * intros j a Hin Hj Ha.
        destruct (in_dec Nat.eq_dec j schedule) as [Hlater|Hnot];
          [now apply Hset|].
        destruct Hin as [->|Hin]; [|contradiction].
        rewrite (Hkeep j Hnot), nth_error_list_set, Nat.eqb_refl.
        apply Nat.ltb_lt in Hj. rewrite Hj. congruence.
      * intros j Hnot. rewrite Hkeep by tauto.
        rewrite nth_error_list_set.
        destruct (Nat.eqb_spec j i) as [->|_]; [|reflexivity].
        exfalso. apply Hnot. now left.
    + destruct (IH values) as (values' & Hrun & Hlen & Hset & Hkeep).
      exists values'. split; [assumption|]. split; [assumption|]. split.
      * intros j a Hin Hj Ha.
        destruct Hin as [->|Hin]; [congruence | now apply Hset].
      * intros j Hnot. apply Hkeep. tauto.
Qed.

Lemma filled_map_Some {A : Type} (vs : list A) : filled (map Some vs) = Some vs.
Proof.
  induction vs as [|a vs IH]; simpl; [reflexivity|]. now rewrite IH.
Qed.

(** The result of [Promise.all] does not depend on the order in which the
    promises settle, provided they all do and every rejection carries the
    same value: it is the list of the values in the order of the promises,
    or that rejection. *)
Lemma promise_all_at_any_order {A : Type} (promises : list (Thrown + A))
    (schedule : list nat) (c : Thrown) :
  settles promises schedule ->
  (forall y, In (inl y) promises -> y = c) ->
  promise_all_at promises schedule = Some (promise_all promises).
Proof.
  intros Hsettles Hsame. unfold promise_all_at.
  destruct (rejection_or_values promises) as [[x Hx]|[vs ->]].
  - rewrite (promise_all_rejects promises c x Hsame Hx).
    apply In_nth_error in Hx as [i Hi].
    rewrite (promise_all_run_rejects promises c x i schedule Hsame Hi);
      [reflexivity|].
    apply Hsettles. apply nth_error_Some. congruence.
  - rewrite promise_all_map_inr.
    destruct (promise_all_run_fulfils vs schedule
                (repeat None (List.length (map inr vs : list (Thrown + A)))))
      as (values' & -> & Hlen & Hset & _).
    rewrite repeat_length in Hlen, Hset. unfold settles in Hsettles.
    rewrite length_map in Hlen, Hset, Hsettles.
    assert (Hvalues : values' = map Some vs).
    { apply nth_error_ext. intros j. rewrite nth_error_map.
      destruct (nth_error vs j) as [a|] eqn:Hj; simpl.
      - assert (Hlt : (j < List.length vs)%nat)
          by (apply nth_error_Some; congruence).
        now apply Hset; [apply Hsettles| |].
      - apply nth_error_None. apply nth_error_None in Hj. lia. }
    now rewrite Hvalues, filled_map_Some.
Qed.

(** The [.catch] handlers of the provider promises leave one rejection
    only, the [TypeError] of [error.message]. *)
Lemma providerPromises_rejections (env : Web.Env) (y : Thrown) :
  In (inl y) (Timing.providerPromises env) -> y = ThrowError message_of_undefined.
Proof.
  unfold Timing.providerPromises. intros Hin.
  apply in_map_iff in Hin as (m & Hm & _).
  destruct (Web.primary env (Web.name m)) as [v|[|e]]; simpl in Hm; congruence.
Qed.

Lemma settlements_rejections {A : Type} (providers : list Provider)
    (primary : string -> Settled A) (y : Thrown) :
  In (inl y) (Timing.settlements providers primary) ->
  y = ThrowError message_of_undefined.
Proof.
  unfold Timing.settlements. intros Hin.
  apply in_map_iff in Hin as (p & Hp & _).
  destruct (primary (pname p)) as [v|[|e]]; simpl in Hp; congruence.
Qed.

Lemma additionalPromises_rejections (env : Web.Env)
    (allResults : list Web.Result) (y : Thrown) :
  In (inl y) (Timing.additionalPromises env allResults) ->
  y = ThrowError message_of_undefined.
Proof.
  unfold Timing.additionalPromises. intros Hin.
  apply in_map_iff in Hin as (c & Hc & _). discriminate.
Qed.

Lemma append_results_spec (env : Web.Env) (safeSearchLevel : string)
    (calls : list (string * Z)) :
  forall allResults,
  Timing.append_results safeSearchLevel
    (map (fun c => (fst c, snd c,
                    Web.settle_additional (Web.additional env (fst c) (snd c))))
       calls) allResults
  = Web.append_additional env safeSearchLevel calls allResults.
Proof.
  induction calls as [|[nm pg] calls IH]; intros allResults; simpl;
    [reflexivity|].
  apply IH.
Qed.

Lemma map_inr_inj {A : Type} (l1 l2 : list A) :
  map (inr : A -> Thrown + A) l1 = map inr l2 -> l1 = l2.
Proof.
  revert l2. induction l1 as [|a l1 IH]; intros [|b l2] H; simpl in H;
    try discriminate; [reflexivity|].
  injection H as -> H. f_equal. now apply IH.
Qed.

(** [webSearch] with the completion orders explicit computes what
    [Web.aggregate] computes. *)
Lemma timing_webSearch (env : Web.Env) (schedule schedule' : list nat) (pg : Z)
    (safeSearchLevel : string) :
  settles (Timing.providerPromises env) schedule ->
  (forall allResults, settles (Timing.additionalPromises env allResults) schedule') ->
  Timing.webSearch env schedule schedule' pg safeSearchLevel
  = Some (Web.aggregate env pg safeSearchLevel).
Proof.
  intros Hs Hs'. unfold Timing.webSearch, Web.aggregate, Web.providerResults.
  rewrite (promise_all_at_any_order _ schedule (ThrowError message_of_undefined) Hs
             (providerPromises_rejections env)).
  fold (Timing.providerPromises env).
  destruct (promise_all (Timing.providerPromises env)) as [x|ps]; [reflexivity|].
  cbv zeta. unfold Web.allResults, Web.backfill.
  set (gathered := fst (Web.gather safeSearchLevel ps [] [])).
  destruct (Z.of_nat (List.length gathered) <? RESULTS_PER_PAGE); [|reflexivity].
  rewrite (promise_all_at_any_order _ schedule' (ThrowError message_of_undefined)
             (Hs' gathered) (additionalPromises_rejections env gathered)).
  unfold Timing.additionalPromises. rewrite <- map_map with (g := inr).
  rewrite promise_all_map_inr. now rewrite append_results_spec.
Qed.

(** Equal ranks, seen through the test [Qeq_bool]. *)
Lemma Qeq_bool_class (x y q : Q) :
  (x == y)%Q -> Qeq_bool x q = Qeq_bool y q.
Proof.
  intros Hxy. destruct (Qeq_bool y q) eqn:Hy.
  - apply Qeq_bool_iff in Hy. apply Qeq_bool_iff. now rewrite Hxy.
  - destruct (Qeq_bool x q) eqn:Hx; [|reflexivity].
    apply Qeq_bool_iff in Hx. rewrite Hxy in Hx. apply Qeq_bool_iff in Hx.
    congruence.
Qed.

Section Canonical.
Context {A : Type} (rank : A -> Q).

(** Two lists in non-increasing order of rank that agree on the order of
    the items of each rank are one and the same list. *)
Lemma sorted_ties_unique (l1 l2 : list A) :
  StronglySorted (fun a b => (rank b <= rank a)%Q) l1 ->
  StronglySorted (fun a b => (rank b <= rank a)%Q) l2 ->
  (forall q, filter (fun a => Qeq_bool (rank a) q) l1
             = filter (fun a => Qeq_bool (rank a) q) l2) ->
  l1 = l2.
Proof.
  revert l2. induction l1 as [|x l1 IH]; intros l2 Hs1 Hs2 Hties.
  - destruct l2 as [|y l2]; [reflexivity|].
    specialize (Hties (rank y)). simpl in Hties.
    rewrite (proj2 (Qeq_bool_iff _ _) (Qeq_refl (rank y))) in Hties.
    discriminate.
  - destruct l2 as [|y l2].
    { specialize (Hties (rank x)). simpl in Hties.
      rewrite (proj2 (Qeq_bool_iff _ _) (Qeq_refl (rank x))) in Hties.
      discriminate. }
    apply StronglySorted_inv in Hs1 as [Hs1 Hall1].
    apply StronglySorted_inv in Hs2 as [Hs2 Hall2].
    rewrite Forall_forall in Hall1, Hall2.
    assert (Hxx : Qeq_bool (rank x) (rank x) = true)
      by apply Qeq_bool_iff, Qeq_refl.
    assert (Hyy : Qeq_bool (rank y) (rank y) = true)
      by apply Qeq_bool_iff, Qeq_refl.
    assert (Hyx : (rank x <= rank y)%Q).
    { pose proof (Hties (rank x)) as H. simpl in H. rewrite Hxx in H.
      assert (Hin : In x (filter (fun a => Qeq_bool (rank a) (rank x)) (y :: l2))).
      { simpl. rewrite <- H. now left. }
      apply filter_In in Hin as [[<-|Hin] _]; [apply Qle_refl | now apply Hall2]. }
    assert (Hxy : (rank y <= rank x)%Q).
    { pose proof (Hties (rank y)) as H. simpl in H. rewrite Hyy in H.
      assert (Hin : In y (filter (fun a => Qeq_bool (rank a) (rank y)) (x :: l1))).
      { simpl. rewrite H. now left. }
      apply filter_In in Hin as [[<-|Hin] _]; [apply Qle_refl | now apply Hall1]. }
    assert (Heq : (rank y == rank x)%Q) by now apply Qle_antisym.
    pose proof (Hties (rank x)) as Hhead. simpl in Hhead.
    rewrite Hxx, (Qeq_bool_class _ _ _ Heq), Hxx in Hhead.
    injection Hhead as <- Hrest. f_equal.
    apply IH; [assumption | assumption|].
    intros q. specialize (Hties q). simpl in Hties.
    destruct (Qeq_bool (rank x) q); [now injection Hties | assumption].
Qed.

(** So the list that [sort] gives is fixed by its input: any list ranked
    like it that keeps the items of one rank in the order of the input is
    the one the stable sort returns. *)
Lemma stable_sort_canonical (l out : list A) :
  StronglySorted (fun a b => (rank b <= rank a)%Q) out ->
  (forall q, filter (fun a => Qeq_bool (rank a) q) out
             = filter (fun a => Qeq_bool (rank a) q) l) ->
  out = stable_sort (descending rank) l.
Proof.
  intros Hs Hties. apply sorted_ties_unique; [assumption| |].
  - apply sort_by_rank_sorted.
  - intros q. now rewrite sort_by_rank_ties.
Qed.
End Canonical.

(** The entries of the [Map] stand in the order in which their urls first
    appear in [allResults]. *)
Lemma dedup_values_first_seen (allResults : list Web.Result) :
  map Web.url (JsMap.values (Web.dedup allResults))
  = map Web.url (dedup_first Web.url [] allResults).
Proof.
  destruct (dedup_inv_all allResults) as [_ Hsound _].
  assert (Heq : map Web.url (JsMap.values (Web.dedup allResults))
                = map Some (JsMap.keys (Web.dedup allResults))).
  { unfold JsMap.values, JsMap.keys. rewrite !map_map.
    apply map_ext_in. intros [u r] Hin. simpl. now apply Hsound. }
  rewrite Heq. unfold Web.dedup.
  rewrite (dedup_keys_first_seen allResults [] []); [reflexivity|].
  intros u. simpl. split; [discriminate|tauto].
Qed.

Lemma weigh_ext_range {A : Type} (stamp : string -> Q -> Q -> A -> A)
    (r1 r2 : nat -> Q) (nm : string) (w : Q) (l : list A) :
  forall draws,
  (forall n, (draws <= n < draws + List.length l)%nat -> r1 n = r2 n) ->
  weigh stamp r1 draws nm w l = weigh stamp r2 draws nm w l.
Proof.
  induction l as [|x l IH]; intros draws Hext; simpl; [reflexivity|].
  rewrite (Hext draws) by (simpl; lia). f_equal.
  apply IH. intros n Hn. apply Hext. simpl. lia.
Qed.

(** The loop draws one number per gathered item, and none beyond. *)
Lemma gather_weighted_ext_range {A : Type} (stamp : string -> Q -> Q -> A -> A)
    (r1 r2 : nat -> Q) (ps : list (Settlement A)) :
  forall all draws,
  (forall n, (draws <= n < draws + (List.length (gather_weighted stamp r1 ps all draws)
                                    - List.length all))%nat -> r1 n = r2 n) ->
  gather_weighted stamp r1 ps all draws = gather_weighted stamp r2 ps all draws.
Proof.
  induction ps as [|p ps IH]; intros all draws Hext; simpl in *; [reflexivity|].
  destruct (str_truthy (s_error p)); [now apply IH|].
  destruct (0 <? Z.of_nat (List.length (found p))); [|now apply IH].
  destruct (gather_weighted_order stamp r1 ps
              (all ++ weigh stamp r1 draws (s_name p) (s_weight p) (found p))
              (draws + List.length (found p))%nat) as (added & Hadded & _).
  assert (Hlen : List.length (weigh stamp r1 draws (s_name p) (s_weight p) (found p))
                 = List.length (found p)).
  { clear. generalize draws. induction (found p) as [|x l IHl]; intros d; simpl;
      [reflexivity|]. now rewrite IHl. }
  rewrite Hadded, !length_app, Hlen in Hext.
  rewrite <- (weigh_ext_range stamp r1 r2 _ _ (found p) draws)
    by (intros n Hn; apply Hext; lia).
  apply IH. intros n Hn. apply Hext.
  rewrite Hadded, !length_app, Hlen in Hn. lia.
Qed.

(** C8, as amended.  The merge of [webSearch] calls no random source and
    does not depend on timing.  Whatever the order in which the provider
    promises and the supplementary promises settle, [Promise.all] hands
    their values over in the order of the arrays, and the [.catch] handlers
    leave one possible rejection only: the function computes the aggregate
    of the provider outcomes.  On a cache miss that aggregate is what is
    returned, whatever the clock and the rest of the cache, and a second
    run over the same outcomes returns the same list in the same order.
    The order itself is fixed by the data: the entries of the [Map] stand in
    the order in which their urls are first gathered (the results of the
    providers in registration order, each provider's in the order it
    returned them, then the supplementary ones), and the sorted list is the
    only list in non-increasing order of [weightScore] that keeps the
    entries of one [weightScore] in that order.  The merges of
    [imageSearch], [videoSearch] and [newsSearch] do not depend on timing
    either, and rank and break ties in the same way on the deduplicated
    list, but they multiply each provider weight by a draw of
    [Math.random()]: their output is a function of the outcomes and of the
    draws made, one per gathered item, and identical when these are. *)
Theorem merge_determinism :
  (forall env schedule schedule' pg safeSearchLevel,
     settles (Timing.providerPromises env) schedule ->
     (forall allResults,
        settles (Timing.additionalPromises env allResults) schedule') ->
     Timing.webSearch env schedule schedule' pg safeSearchLevel
     = Some (Web.aggregate env pg safeSearchLevel))
  /\ (forall env clk clk' query pg safeSearch st,
     fst (Cache.cacheGet (at_get clk) (at_refresh clk)
            (web_key query pg (getSafeSearchParam safeSearch)) st) = None ->
     fst (webSearch env clk query pg safeSearch st)
     = lift WebResults (Web.aggregate env pg (getSafeSearchParam safeSearch))
     /\ forall out,
          Web.aggregate env pg (getSafeSearchParam safeSearch) = inr out ->
          fst (webSearch env clk' query pg safeSearch
                 (snd (webSearch env clk query pg safeSearch st)))
          = inr (WebResults out))
  /\ (forall allResults,
        map Web.url (JsMap.values (Web.dedup allResults))
        = map Web.url (dedup_first Web.url [] allResults)
        /\ forall out,
             out = Web.uniqueResults allResults
             <-> StronglySorted (fun a b => (Web.ws b <= Web.ws a)%Q) out
                 /\ forall q,
                      filter (fun r => Qeq_bool (Web.ws r) q) out
                      = filter (fun r => Qeq_bool (Web.ws r) q)
                          (JsMap.values (Web.dedup allResults)))
  /\ (forall env safeSearchLevel ps,
        Web.providerResults env = inr ps ->
        Forall2 (fun m p =>
                   Web.settle_primary m (Web.primary env (Web.name m)) = inr p)
          Web.searchMethods ps
        /\ exists extra,
             Web.allResults env safeSearchLevel ps
             = flat_map (Web.contribution safeSearchLevel) ps ++ extra)
  /\ (forall env schedule random,
        settles (Timing.settlements Images.imageProviders (Images.primary env))
          schedule ->
        Timing.imageSearch env schedule random
        = Some (Images.aggregate env random))
  /\ (forall env schedule random,
        settles (Timing.settlements Videos.videoProviders (Videos.primary env))
          schedule ->
        Timing.videoSearch env schedule random
        = Some (Videos.aggregate env random))
  /\ (forall extractDomain primary schedule random safeSearchLevel,
        settles (Timing.settlements News.newsProviders primary) schedule ->
        Timing.newsSearch extractDomain primary schedule random safeSearchLevel
        = Some (News.aggregate extractDomain primary random safeSearchLevel))
  /\ (forall env r1 r2 ps,
        settle_all Images.imageProviders (Images.primary env) = inr ps ->
        (forall n, (n < List.length (gather_weighted Images.stamp r1 ps [] 0))%nat ->
                   r1 n = r2 n) ->
        Images.aggregate env r1 = Images.aggregate env r2)
  /\ (forall env r1 r2 ps,
        settle_all Videos.videoProviders (Videos.primary env) = inr ps ->
        (forall n, (n < List.length (gather_weighted Videos.stamp r1 ps [] 0))%nat ->
                   r1 n = r2 n) ->
        Videos.aggregate env r1 = Videos.aggregate env r2)
  /\ (forall extractDomain primary safeSearchLevel r1 r2 ps,
        settle_all News.newsProviders primary = inr ps ->
        (forall n, (n < List.length (gather_weighted News.stamp r1 ps [] 0))%nat ->
                   r1 n = r2 n) ->
        News.aggregate extractDomain primary r1 safeSearchLevel
        = News.aggregate extractDomain primary r2 safeSearchLevel)
  /\ (forall allImages out,
        StronglySorted
          (fun a b => (rank_of (Images.weight b) (Images.score b)
                       <= rank_of (Images.weight a) (Images.score a))%Q) out ->
        (forall q,
           filter (fun a => Qeq_bool (rank_of (Images.weight a) (Images.score a)) q)
             out
           = filter (fun a => Qeq_bool (rank_of (Images.weight a) (Images.score a)) q)
               (Images.dedup [] allImages)) ->
        js_slice 0 150 out = Images.merge allImages)
  /\ (forall allVideos out,
        StronglySorted
          (fun a b => (rank_of (Videos.weight b) (Videos.score b)
                       <= rank_of (Videos.weight a) (Videos.score a))%Q) out ->
        (forall q,
           filter (fun a => Qeq_bool (rank_of (Videos.weight a) (Videos.score a)) q)
             out
           = filter (fun a => Qeq_bool (rank_of (Videos.weight a) (Videos.score a)) q)
               (Videos.dedup [] [] allVideos)) ->
        js_slice 0 150 out = Videos.merge allVideos)
  /\ (forall allArticles out,
        StronglySorted
          (fun a b => (rank_of (News.weight b) (News.score b)
                       <= rank_of (News.weight a) (News.score a))%Q) out ->
        (forall q,
           filter (fun a => Qeq_bool (rank_of (News.weight a) (News.score a)) q)
             out
           = filter (fun a => Qeq_bool (rank_of (News.weight a) (News.score a)) q)
               (News.dedup [] allArticles)) ->
        js_slice 0 50 out = News.merge allArticles).
Proof.
  split; [exact timing_webSearch|].
  split.
  { intros env clk clk' query pg safeSearch st Hmiss. unfold webSearch. split.
    - now apply cached_or_miss.
    - intros out Hout. rewrite Hout. simpl. now apply cached_or_again. }
  split.
  { intros allResults. split; [apply dedup_values_first_seen|].
    intros out. split.
    - intros ->. split.
      + apply (sort_by_rank_sorted Web.ws).
      + intros q. apply (sort_by_rank_ties Web.ws).
    - intros [Hs Hties]. now apply (stable_sort_canonical Web.ws). }
  split.
  { intros env level ps Hps. split; [now apply providerResults_methods|].
    unfold Web.allResults. rewrite gather_spec. cbn [fst app].
    destruct (backfill_appends env level
                (flat_map (Web.contribution level) ps)) as (extra & Hextra & _).
    exists extra. exact Hextra. }
  split.
  { intros env schedule random Hs. unfold Timing.imageSearch, Images.aggregate.
    rewrite (promise_all_at_any_order _ schedule _ Hs
               (settlements_rejections _ _)).
    unfold settle_all, Timing.settlements.
    now destruct (promise_all _). }
  split.
  { intros env schedule random Hs. unfold Timing.videoSearch, Videos.aggregate.
    rewrite (promise_all_at_any_order _ schedule _ Hs
               (settlements_rejections _ _)).
    unfold settle_all, Timing.settlements.
    now destruct (promise_all _). }
  split.
  { intros extractDomain primary schedule random level Hs.
    unfold Timing.newsSearch, News.aggregate.
    rewrite (promise_all_at_any_order _ schedule _ Hs
               (settlements_rejections _ _)).
    unfold settle_all, Timing.settlements.
    now destruct (promise_all _). }
  split.
  { intros env r1 r2 ps Hps Hext. unfold Images.aggregate. rewrite Hps.
    rewrite (gather_weighted_ext_range Images.stamp r1 r2 ps [] 0);
      [reflexivity|].
    intros n Hn. apply Hext. simpl in Hn. lia. }
  split.
  { intros env r1 r2 ps Hps Hext. unfold Videos.aggregate. rewrite Hps.
    rewrite (gather_weighted_ext_range Videos.stamp r1 r2 ps [] 0);
      [reflexivity|].
    intros n Hn. apply Hext. simpl in Hn. lia. }
  split.
  { intros extractDomain primary level r1 r2 ps Hps Hext.
    unfold News.aggregate. rewrite Hps.
    rewrite (gather_weighted_ext_range News.stamp r1 r2 ps [] 0);
      [reflexivity|].
    intros n Hn. apply Hext. simpl in Hn. lia. }
  split.
  { intros all out Hs Hties. unfold Images.merge. f_equal.
    now apply (stable_sort_canonical
                 (fun a => rank_of (Images.weight a) (Images.score a))). }
  split.
  { intros all out Hs Hties. unfold Videos.merge. f_equal.
    now apply (stable_sort_canonical
                 (fun a => rank_of (Videos.weight a) (Videos.score a))). }
  intros all out Hs Hties. unfold News.merge. f_equal.
  now apply (stable_sort_canonical
               (fun a => rank_of (News.weight a) (News.score a))).
Qed.

(** C8 as stated fails in [imageSearch]: over the same provider outcomes,
    two runs whose draws of [Math.random()] differ return the two photos in
    opposite orders. *)
Lemma imageSearch_order_depends_on_draws :
  exists out1 out2,
    Images.aggregate two_photos draws_flat = inr out1
    /\ Images.aggregate two_photos draws_rising = inr out2
    /\ map Images.title out1 = ["a"; "b"]
    /\ map Images.title out2 = ["b"; "a"].
Proof. do 2 eexists. repeat split; reflexivity. Qed.

(** Brave fails and the providers settle in registration order in one run,
    in the reverse order in another: the two runs of [webSearch] return the
    same pages in the same order. *)
Lemma webSearch_whatever_completes_first :
  Timing.webSearch brave_down in_order in_order 1 "moderate"
  = Timing.webSearch brave_down last_first last_first 1 "moderate"
  /\ Timing.webSearch brave_down last_first last_first 1 "moderate"
     = Some (inr [Web.enrich "moderate"
                    (Web.mkProviderResult "DuckDuckGo" [page_a] None 3) page_a;
                  Web.enrich "moderate"
                    (Web.mkProviderResult "Startpage" [page_c] None 2) page_c]).
Proof. split; reflexivity. Qed.
